(** * The block index and the write-ahead log of the TSDB (index.go, wal.go)

    A shallow embedding of the index writer, the index reader, the segmented
    write-ahead log and its reader, together with the theorems that settle
    the properties stated about them.

    Conventions.
    - A Go [string] is a byte sequence: it is a [string] here (a list of
      8-bit characters); a [[]byte] is a [list byte].
    - Fixed-width integers are [Z] with the wrap-around written out
      ([uint32], [uint64], [int64]); Go's [int] is the 64-bit [int64].
    - Disk faults are not modelled: a file operation fails only for a reason
      the state shows (a closed handle, a missing name). *)

From Stdlib Require Import ZArith Lia List String Ascii Bool.
From Stdlib Require Import Strings.Byte Sorting.Permutation Sorting.Sorted.
From coqutil Require Import Byte Z.bitblast Word.LittleEndianList.
From stdpp Require Import gmap strings list fin_maps sorting.

Local Open Scope Z_scope.

(** ** Machine integers *)

Definition uint8 (x : Z) : Z := x mod 2 ^ 8.
Definition uint32 (x : Z) : Z := x mod 2 ^ 32.
Definition uint64 (x : Z) : Z := x mod 2 ^ 64.
Definition int64 (x : Z) : Z := (x + 2 ^ 63) mod 2 ^ 64 - 2 ^ 63.

Definition MaxUint32 : Z := 2 ^ 32 - 1.

Definition is_uint32 (x : Z) : Prop := 0 <= x < 2 ^ 32.
Definition is_uint64 (x : Z) : Prop := 0 <= x < 2 ^ 64.
Definition is_int64 (x : Z) : Prop := - 2 ^ 63 <= x < 2 ^ 63.

(** [len] of a slice or of a string, as a Go [int]. *)
Definition len {A} (l : list A) : Z := Z.of_nat (length l).
Definition slen (s : string) : Z := Z.of_nat (String.length s).

(** [b[n:]] and [b[:n]] for an index already known to be in range. *)
Definition slice_from {A} (n : Z) (l : list A) : list A := drop (Z.to_nat n) l.
Definition slice_to {A} (n : Z) (l : list A) : list A := take (Z.to_nat n) l.

Definition zeros (n : nat) : list byte := replicate n Byte.x00.

(** ** encoding/binary of the Go standard library *)

Module binary.

Definition MaxVarintLen64 : nat := 10.

  (** [binary.BigEndian.PutUint32] and [PutUint64]: the bytes written. *)
Definition be_put (n : nat) (x : Z) : list byte := rev (le_split n x).
  (** [binary.BigEndian.Uint32] and [Uint64] read the first 4 or 8 bytes. *)
Definition be_get (n : nat) (b : list byte) : Z := le_combine (rev (take n b)).

Definition PutUint32 (x : Z) : list byte := be_put 4 x.
Definition PutUint64 (x : Z) : list byte := be_put 8 x.
Definition Uint32 (b : list byte) : Z := be_get 4 b.
Definition Uint64 (b : list byte) : Z := be_get 8 b.

  (** [PutUvarint]: [for x >= 0x80 { buf[i] = byte(x) | 0x80; x >>= 7; i++ };
      buf[i] = byte(x)].  The loop runs at most nine times on a [uint64];
      [fuel] counts the iterations left. *)
Fixpoint PutUvarint_loop (fuel : nat) (x : Z) : list byte :=
    match fuel with
    | O => [byte.of_Z x]
    | S fuel' =>
        if 128 <=? x
        then byte.of_Z (Z.lor (uint8 x) 128) :: PutUvarint_loop fuel' (Z.shiftr x 7)
        else [byte.of_Z x]
    end.

Definition PutUvarint (x : Z) : list byte := PutUvarint_loop 9 x.

  (** [PutVarint]: zig-zag, then [PutUvarint]. *)
Definition PutVarint (x : Z) : list byte :=
    let ux := uint64 (Z.shiftl (uint64 x) 1) in
    let ux := if x <? 0 then uint64 (Z.lnot ux) else ux in
    PutUvarint ux.

  (** [Uvarint]: the value and the number of bytes read; [n = 0] when the
      buffer is too small, [n < 0] on overflow. *)
Fixpoint Uvarint_loop (buf : list byte) (i : nat) (s : Z) (x : Z) : Z * Z :=
    match buf with
    | [] => (0, 0)
    | b :: rest =>
        if (i =? MaxVarintLen64)%nat then (0, - (Z.of_nat i + 1))
        else if byte.unsigned b <? 128 then
          if (i =? MaxVarintLen64 - 1)%nat && (1 <? byte.unsigned b)
          then (0, - (Z.of_nat i + 1))
          else (Z.lor x (uint64 (Z.shiftl (byte.unsigned b) s)), Z.of_nat i + 1)
        else Uvarint_loop rest (S i) (s + 7)
               (Z.lor x (uint64 (Z.shiftl (Z.land (byte.unsigned b) 127) s)))
    end.

Definition Uvarint (buf : list byte) : Z * Z := Uvarint_loop buf 0 0 0.

Definition Varint (buf : list byte) : Z * Z :=
    let '(ux, n) := Uvarint buf in
    let x := int64 (Z.shiftr ux 1) in
    let x := if Z.land ux 1 =? 0 then x else int64 (Z.lnot x) in
    (x, n).

End binary.

(** ** hash/crc32 with the Castagnoli polynomial *)

Module crc32.

Definition Castagnoli : Z := 0x82f63b78.

  (** [simpleMakeTable]: entry [i] of the table. *)
Fixpoint table_bits (n : nat) (crc : Z) : Z :=
    match n with
    | O => crc
    | S n' =>
        table_bits n'
          (if Z.land crc 1 =? 1 then Z.lxor (Z.shiftr crc 1) Castagnoli
           else Z.shiftr crc 1)
    end.

Definition castagnoliTable (i : Z) : Z := table_bits 8 i.

  (** [simpleUpdate]. *)
Definition Update (crc : Z) (p : list byte) : Z :=
    let crc := Z.lxor crc 0xffffffff in
    let crc :=
      fold_left
        (fun crc v =>
           Z.lxor (castagnoliTable (Z.lxor (uint8 crc) (byte.unsigned v)))
                  (Z.shiftr crc 8))
        p crc in
    Z.lxor crc 0xffffffff.

  (** A [hash.Hash32] is its running value: [Reset] gives 0, [Write] updates
      it, [Sum32] reads it and [Sum(b)] appends its four big-endian bytes. *)
Definition Reset : Z := 0.
Definition Write (h : Z) (p : list byte) : Z := Update h p.
Definition Sum (h : Z) (b : list byte) : list byte := b ++ binary.PutUint32 h.

Definition Checksum (p : list byte) : Z := Update 0 p.

End crc32.


(** ** Errors

    A Go [error] value.  [errors_Wrap] keeps its cause, as
    github.com/pkg/errors does.  A run-time panic of the Go code (an index out
    of range, a division by zero, an allocation of impossible size) is the
    value [panic]: it ends the operation like an error does. *)

Inductive error : Type :=
| errInvalidSize
| errInvalidFlag
| io_EOF
| os_ErrClosed
| os_ErrNotExist
| os_ErrInvalid
| walCorruptionErr (msg : string) (arg : Z)
| errors_Errorf (msg : string) (arg : Z)
| errors_New (msg : string)
| errors_Wrap (cause : error) (msg : string)
| panic (msg : string).

Inductive result (A : Type) : Type :=
| Ok (a : A)
| Err (e : error).
Arguments Ok {A} a.
Arguments Err {A} e.

(** [errors.Wrap(err, msg)] is [nil] when [err] is. *)
Definition errors_Wrap_opt (e : option error) (msg : string) : option error :=
  match e with
  | Some e' => Some (errors_Wrap e' msg)
  | None => None
  end.

(** The innermost cause of an error ([errors.Cause]). *)
Fixpoint errors_Cause (e : error) : error :=
  match e with
  | errors_Wrap c _ => errors_Cause c
  | _ => e
  end.

(** [make([]T, n)] panics when [n], as an [int], is negative or the slice
    would not fit the address space (2^48 bytes on a 64-bit platform). *)
Definition maxAlloc : Z := 2 ^ 48.
Definition makeslice_ok (elemsize : Z) (n : Z) : bool :=
  (0 <=? int64 n) && (int64 n * elemsize <=? maxAlloc).

(** ** sort.Sort

    [sort.Sort(data)] only touches [data] through [Len], [Less] and [Swap].
    It is modelled by its insertion sort, the algorithm the package runs on
    short inputs; when [Less] is a strict total order and [Swap] exchanges
    two elements every algorithm of the package returns the same slice. *)

Section Sort.
Context {S : Type}.
Variable Len : S -> nat.
Variable Less : S -> nat -> nat -> bool.
Variable Swap : S -> nat -> nat -> S.

  (** [for j := i; j > 0 && data.Less(j, j-1); j-- { data.Swap(j, j-1) }] *)
Fixpoint insertionSort_inner (j : nat) (data : S) : S :=
    match j with
    | O => data
    | Datatypes.S j' =>
        if Less data j j' then insertionSort_inner j' (Swap data j j') else data
    end.

  (** [for i := 1; i < n; i++ { ... }] *)
Definition sort_Sort (data : S) : S :=
    fold_left (fun d i => insertionSort_inner i d) (seq 1 (Len data - 1)) data.
End Sort.

(** [x[i]] for an index in range (the zero value stands for the panic that
    no caller reaches). *)
Definition index {A} (dflt : A) (l : list A) (i : nat) : A := default dflt (l !! i).

Definition list_swap {A} (dflt : A) (l : list A) (i j : nat) : list A :=
  <[j := index dflt l i]> (<[i := index dflt l j]> l).

(** [uint32slice]: [Less(i, j) = s[i] < s[j]]. *)
Definition uint32slice_Less (s : list Z) (i j : nat) : bool := index 0 s i <? index 0 s j.
Definition uint32slice_Swap (s : list Z) (i j : nat) : list Z := list_swap 0 s i j.
Definition sort_uint32slice (s : list Z) : list Z :=
  sort_Sort (@length Z) uint32slice_Less uint32slice_Swap s.

(** [sort.Strings]: [Less(i, j) = x[i] < x[j]], bytewise. *)
Definition StringSlice_Less (s : list string) (i j : nat) : bool :=
  String.ltb (index EmptyString s i) (index EmptyString s j).
Definition StringSlice_Swap (s : list string) (i j : nat) : list string :=
  list_swap EmptyString s i j.
Definition sort_Strings (s : list string) : list string :=
  sort_Sort (@length string) StringSlice_Less StringSlice_Swap s.

(** [strings.Compare]: -1, 0 or +1. *)
Definition strings_Compare (a b : string) : Z :=
  match String.compare a b with
  | Lt => -1
  | Eq => 0
  | Gt => 1
  end.

(** [strings.Join]. *)
Fixpoint strings_Join (a : list string) (sep : string) : string :=
  match a with
  | [] => EmptyString
  | [x] => x
  | x :: rest => String.append x (String.append sep (strings_Join rest sep))
  end.

(** ** Labels, chunk metadata, postings *)

Record Label := { lbl_Name : string; lbl_Value : string }.
Definition Labels := list Label.

(** Modelled from the spec: [labels.Compare] of the labels package, the
    lexicographic pairwise comparison of (name, value); with a common prefix
    the shorter label set comes first. *)
Fixpoint labels_Compare (a b : Labels) : Z :=
  match a, b with
  | [], [] => 0
  | [], _ :: _ => -1
  | _ :: _, [] => 1
  | x :: a', y :: b' =>
      let d := strings_Compare (lbl_Name x) (lbl_Name y) in
      if negb (d =? 0) then d
      else
        let d := strings_Compare (lbl_Value x) (lbl_Value y) in
        if negb (d =? 0) then d else labels_Compare a' b'
  end.

(** Modelled from the spec: a chunk is an opaque blob with a known encoding
    byte; [ChunkMeta] is [{ref, min_time, max_time, encoding, data}]. *)
Record ChunkMeta := {
  chk_Ref : Z;
  chk_MinTime : Z;
  chk_MaxTime : Z;
  chk_Encoding : byte;
  chk_Data : list byte
}.

(** Modelled from the spec: [ChunkMeta.hash], which feeds the encoding byte
    and the chunk bytes to the hash. *)
Definition ChunkMeta_hash (c : ChunkMeta) (h : Z) : Z :=
  crc32.Write (crc32.Write h [chk_Encoding c]) (chk_Data c).

(** Modelled from the spec: [Postings], a single-pass forward-only iterator
    over an ascending sequence of references.  [listPostings] iterates over
    a slice, [bigEndianPostings] decodes big-endian [u32]s lazily and
    [emptyPostings] yields nothing.  [Seek(v)] advances to the first value
    at or after [v]. *)
Inductive Postings : Type :=
| emptyPostings
| listPostings (cur : Z) (list : list Z)
| bigEndianPostings (cur : Z) (b : list byte).

Definition newListPostings (l : list Z) : Postings := listPostings 0 l.
Definition newBigEndianPostings (b : list byte) : Postings := bigEndianPostings 0 b.

Definition Postings_Next (p : Postings) : bool * Postings :=
  match p with
  | emptyPostings => (false, p)
  | listPostings _ [] => (false, p)
  | listPostings _ (x :: l) => (true, listPostings x l)
  | bigEndianPostings cur b =>
      if 4 <=? len b then (true, bigEndianPostings (binary.Uint32 b) (slice_from 4 b))
      else (false, p)
  end.

Definition Postings_At (p : Postings) : Z :=
  match p with
  | emptyPostings => 0
  | listPostings cur _ => cur
  | bigEndianPostings cur _ => cur
  end.

Definition Postings_Err (p : Postings) : option error := None.

Fixpoint listPostings_seek (x : Z) (l : list Z) : option (Z * list Z) :=
  match l with
  | [] => None
  | y :: l' => if x <=? y then Some (y, l') else listPostings_seek x l'
  end.

Fixpoint bigEndianPostings_seek (fuel : nat) (x : Z) (b : list byte) : option (Z * list byte) :=
  match fuel with
  | O => None
  | Datatypes.S fuel' =>
      if 4 <=? len b then
        if x <=? binary.Uint32 b then Some (binary.Uint32 b, slice_from 4 b)
        else bigEndianPostings_seek fuel' x (slice_from 4 b)
      else None
  end.

Definition Postings_Seek (p : Postings) (x : Z) : bool * Postings :=
  match p with
  | emptyPostings => (false, p)
  | listPostings cur l =>
      if x <=? cur then (true, p)
      else match listPostings_seek x l with
           | Some (y, l') => (true, listPostings y l')
           | None => (false, listPostings cur [])
           end
  | bigEndianPostings cur b =>
      if x <=? cur then (true, p)
      else match bigEndianPostings_seek (length b) x b with
           | Some (y, b') => (true, bigEndianPostings y b')
           | None => (false, bigEndianPostings cur [])
           end
  end.

(** The values a postings iterator yields to [for it.Next() { it.At() }]. *)
Fixpoint Postings_drain (fuel : nat) (p : Postings) : list Z :=
  match fuel with
  | O => []
  | Datatypes.S fuel' =>
      let '(ok, p') := Postings_Next p in
      if ok then Postings_At p' :: Postings_drain fuel' p' else []
  end.

Definition Postings_size (p : Postings) : nat :=
  match p with
  | emptyPostings => 0
  | listPostings _ l => length l
  | bigEndianPostings _ b => length b
  end.

Definition Postings_values (p : Postings) : list Z := Postings_drain (Postings_size p) p.

(** ** index.go: encbuf and decbuf *)

(** An [encbuf] is its byte slice [b]; [c] is scratch space. *)
Definition encbuf := list byte.

Definition encbuf_reset (e : encbuf) : encbuf := [].
Definition encbuf_get (e : encbuf) : list byte := e.
Definition encbuf_len (e : encbuf) : Z := len e.

Definition encbuf_putString (e : encbuf) (s : string) : encbuf := e ++ list_byte_of_string s.
Definition encbuf_putBytes (e : encbuf) (b : list byte) : encbuf := e ++ b.
Definition encbuf_putByte (e : encbuf) (c : byte) : encbuf := e ++ [c].

Definition encbuf_putBE32 (e : encbuf) (x : Z) : encbuf := e ++ binary.PutUint32 x.
Definition encbuf_putBE64 (e : encbuf) (x : Z) : encbuf := e ++ binary.PutUint64 x.
Definition encbuf_putUvarint64 (e : encbuf) (x : Z) : encbuf := e ++ binary.PutUvarint x.
Definition encbuf_putVarint64 (e : encbuf) (x : Z) : encbuf := e ++ binary.PutVarint x.

Definition encbuf_putBE32int (e : encbuf) (x : Z) : encbuf := encbuf_putBE32 e (uint32 x).
Definition encbuf_putBE64int (e : encbuf) (x : Z) : encbuf := encbuf_putBE64 e (uint64 x).
Definition encbuf_putUvarint32 (e : encbuf) (x : Z) : encbuf := encbuf_putUvarint64 e (uint64 x).
Definition encbuf_putUvarint (e : encbuf) (x : Z) : encbuf := encbuf_putUvarint64 e (uint64 x).

Definition encbuf_putUvarintStr (e : encbuf) (s : string) : encbuf :=
  encbuf_putString (encbuf_putUvarint e (slen s)) s.

(** [putHash]: reset the hash, write the buffer, append the sum. *)
Definition encbuf_putHash (e : encbuf) : encbuf :=
  crc32.Sum (crc32.Write crc32.Reset e) e.

Record decbuf := { d_b : list byte; d_e : option error }.

Definition decbuf_err (d : decbuf) : option error := d_e d.
Definition decbuf_len (d : decbuf) : Z := len (d_b d).

Definition decbuf_readUvarint (d : decbuf) : Z * decbuf :=
  match d_e d with
  | Some _ => (0, d)
  | None =>
      let '(x, n) := binary.Uvarint (d_b d) in
      if n <? 1 then (0, {| d_b := d_b d; d_e := Some errInvalidSize |})
      else (x, {| d_b := slice_from n (d_b d); d_e := None |})
  end.

Definition decbuf_readUvarintStr (d : decbuf) : string * decbuf :=
  let '(l, d) := decbuf_readUvarint d in
  match d_e d with
  | Some _ => (EmptyString, d)
  | None =>
      if len (d_b d) <? int64 l
      then (EmptyString, {| d_b := d_b d; d_e := Some errInvalidSize |})
      else if int64 l <? 0
      then (EmptyString, {| d_b := d_b d; d_e := Some (panic "slice bounds out of range") |})
      else (string_of_list_byte (slice_to l (d_b d)),
            {| d_b := slice_from l (d_b d); d_e := None |})
  end.

Definition decbuf_readBE32 (d : decbuf) : Z * decbuf :=
  match d_e d with
  | Some _ => (0, d)
  | None =>
      if len (d_b d) <? 4 then (0, {| d_b := d_b d; d_e := Some errInvalidSize |})
      else (binary.Uint32 (d_b d), {| d_b := slice_from 4 (d_b d); d_e := None |})
  end.

(** [get(l)] returns the sub-buffer and the receiver advanced past it. *)
Definition decbuf_get (d : decbuf) (l : Z) : decbuf * decbuf :=
  match d_e d with
  | Some e => ({| d_b := []; d_e := Some e |}, d)
  | None =>
      if len (d_b d) <? l then ({| d_b := []; d_e := Some errInvalidSize |}, d)
      else if l <? 0
      then ({| d_b := []; d_e := Some (panic "slice bounds out of range") |}, d)
      else ({| d_b := slice_to l (d_b d); d_e := None |},
            {| d_b := slice_from l (d_b d); d_e := None |})
  end.

(** ** index.go: the index writer *)

Definition MagicIndex : Z := 0xBAAAD700.
Definition indexFormatV1 : Z := 1.

Record indexWriterSeries := {
  iws_labels : Labels;
  iws_chunks : list ChunkMeta;
  iws_offset : Z
}.

Inductive indexWriterStage : Type :=
| idxStagePopulate
| idxStageLabelIndex
| idxStagePostings
| idxStageDone.

Definition indexWriterStage_uint8 (s : indexWriterStage) : Z :=
  match s with
  | idxStagePopulate => 0
  | idxStageLabelIndex => 1
  | idxStagePostings => 2
  | idxStageDone => 3
  end.

Definition indexWriterStage_eqb (a b : indexWriterStage) : bool :=
  indexWriterStage_uint8 a =? indexWriterStage_uint8 b.

Record indexTOC := {
  toc_symbols : Z;
  toc_series : Z;
  toc_labelIndices : Z;
  toc_labelIndicesTable : Z;
  toc_postings : Z;
  toc_postingsTable : Z
}.

Record hashEntry := { he_keys : list string; he_offset : Z }.

(** The writer.  [iw_fbuf] holds every byte handed to the buffered file
    writer, in order: the content of the index file once [Close] has flushed
    it.  The scratch buffers [buf1], [buf2], [uint32s] and the hash are reset
    before each use and are local to the operations below.  [iw_closed]
    records that [Close] closed the file. *)
Record indexWriter := {
  iw_fbuf : list byte;
  iw_pos : Z;
  iw_toc : indexTOC;
  iw_stage : indexWriterStage;
  iw_series : gmap Z indexWriterSeries;
  iw_symbols : gmap string Z;
  iw_labelIndexes : list hashEntry;
  iw_postings : list hashEntry;
  iw_closed : bool
}.

Definition iw_set_out (w : indexWriter) (fbuf : list byte) (pos : Z) : indexWriter :=
  {| iw_fbuf := fbuf; iw_pos := pos; iw_toc := iw_toc w; iw_stage := iw_stage w;
     iw_series := iw_series w; iw_symbols := iw_symbols w;
     iw_labelIndexes := iw_labelIndexes w; iw_postings := iw_postings w;
     iw_closed := iw_closed w |}.

Definition iw_set_toc (w : indexWriter) (toc : indexTOC) : indexWriter :=
  {| iw_fbuf := iw_fbuf w; iw_pos := iw_pos w; iw_toc := toc; iw_stage := iw_stage w;
     iw_series := iw_series w; iw_symbols := iw_symbols w;
     iw_labelIndexes := iw_labelIndexes w; iw_postings := iw_postings w;
     iw_closed := iw_closed w |}.

Definition iw_set_stage (w : indexWriter) (s : indexWriterStage) : indexWriter :=
  {| iw_fbuf := iw_fbuf w; iw_pos := iw_pos w; iw_toc := iw_toc w; iw_stage := s;
     iw_series := iw_series w; iw_symbols := iw_symbols w;
     iw_labelIndexes := iw_labelIndexes w; iw_postings := iw_postings w;
     iw_closed := iw_closed w |}.

Definition iw_set_series (w : indexWriter) (m : gmap Z indexWriterSeries) : indexWriter :=
  {| iw_fbuf := iw_fbuf w; iw_pos := iw_pos w; iw_toc := iw_toc w; iw_stage := iw_stage w;
     iw_series := m; iw_symbols := iw_symbols w;
     iw_labelIndexes := iw_labelIndexes w; iw_postings := iw_postings w;
     iw_closed := iw_closed w |}.

Definition iw_set_symbols (w : indexWriter) (m : gmap string Z) : indexWriter :=
  {| iw_fbuf := iw_fbuf w; iw_pos := iw_pos w; iw_toc := iw_toc w; iw_stage := iw_stage w;
     iw_series := iw_series w; iw_symbols := m;
     iw_labelIndexes := iw_labelIndexes w; iw_postings := iw_postings w;
     iw_closed := iw_closed w |}.

Definition iw_set_labelIndexes (w : indexWriter) (l : list hashEntry) : indexWriter :=
  {| iw_fbuf := iw_fbuf w; iw_pos := iw_pos w; iw_toc := iw_toc w; iw_stage := iw_stage w;
     iw_series := iw_series w; iw_symbols := iw_symbols w;
     iw_labelIndexes := l; iw_postings := iw_postings w;
     iw_closed := iw_closed w |}.

Definition iw_set_postings (w : indexWriter) (l : list hashEntry) : indexWriter :=
  {| iw_fbuf := iw_fbuf w; iw_pos := iw_pos w; iw_toc := iw_toc w; iw_stage := iw_stage w;
     iw_series := iw_series w; iw_symbols := iw_symbols w;
     iw_labelIndexes := iw_labelIndexes w; iw_postings := l;
     iw_closed := iw_closed w |}.

Definition iw_set_closed (w : indexWriter) : indexWriter :=
  {| iw_fbuf := iw_fbuf w; iw_pos := iw_pos w; iw_toc := iw_toc w; iw_stage := iw_stage w;
     iw_series := iw_series w; iw_symbols := iw_symbols w;
     iw_labelIndexes := iw_labelIndexes w; iw_postings := iw_postings w;
     iw_closed := true |}.

(** [w.symbols[s]]: a missing key reads as the zero value. *)
Definition iw_symbol (w : indexWriter) (s : string) : Z := default 0 (iw_symbols w !! s).

Definition errFileTooLarge : error := errors_Errorf "exceeding max size of 4GiB" 0.

(** [write(bufs...)]: each buffer is handed to the buffered writer and the
    position advanced before the 4 GiB check.  The sum [w.pos + uint64(n)]
    does not wrap: the position was at most [MaxUint32] before, and a slice
    is shorter than 2^63 bytes. *)
Fixpoint indexWriter_write (w : indexWriter) (bufs : list (list byte))
  : indexWriter * option error :=
  match bufs with
  | [] => (w, None)
  | b :: bufs' =>
      let w := iw_set_out w (iw_fbuf w ++ b) (iw_pos w + len b) in
      if MaxUint32 <? iw_pos w
      then (w, Some errFileTooLarge)
      else indexWriter_write w bufs'
  end.

Definition indexWriter_writeMeta (w : indexWriter) : indexWriter * option error :=
  let buf1 := encbuf_reset [] in
  let buf1 := encbuf_putBE32 buf1 MagicIndex in
  let buf1 := encbuf_putByte buf1 (byte.of_Z indexFormatV1) in
  indexWriter_write w [encbuf_get buf1].

(** [newIndexWriter]: the state after the file was created and the header
    written. *)
Definition newIndexWriter : indexWriter * option error :=
  indexWriter_writeMeta
    {| iw_fbuf := []; iw_pos := 0;
       iw_toc := {| toc_symbols := 0; toc_series := 0; toc_labelIndices := 0;
                    toc_labelIndicesTable := 0; toc_postings := 0;
                    toc_postingsTable := 0 |};
       iw_stage := idxStagePopulate;
       iw_series := ∅; iw_symbols := ∅;
       iw_labelIndexes := []; iw_postings := [];
       iw_closed := false |}.

Definition indexWriter_AddSeries (w : indexWriter) (ref : Z) (lset : Labels)
    (chunks : list ChunkMeta) : indexWriter * option error :=
  match iw_series w !! ref with
  | Some _ => (w, Some (errors_Errorf "series with reference %d already added" ref))
  | None =>
      let symbols :=
        fold_left (fun m l => <[lbl_Value l := 0]> (<[lbl_Name l := 0]> m))
                  lset (iw_symbols w) in
      let w := iw_set_symbols w symbols in
      let w := iw_set_series w
                 (<[ref := {| iws_labels := lset; iws_chunks := chunks;
                              iws_offset := 0 |}]> (iw_series w)) in
      (w, None)
  end.

Definition indexWriter_writeSymbols (w : indexWriter) : indexWriter * option error :=
  let symbols := sort_Strings (elements (dom (iw_symbols w))) in
  let headerSize := 8 in
  let '(m, buf2) :=
    fold_left
      (fun '(m, buf2) s =>
         (<[s := uint32 (uint32 (iw_pos w) + headerSize + uint32 (encbuf_len buf2))]> m,
          encbuf_putUvarintStr buf2 s))
      symbols (iw_symbols w, encbuf_reset []) in
  let w := iw_set_symbols w m in
  let buf1 := encbuf_reset [] in
  let buf1 := encbuf_putBE32int buf1 (len symbols) in
  let buf1 := encbuf_putBE32int buf1 (encbuf_len buf2) in
  let buf2 := encbuf_putHash buf2 in
  let '(w, err) := indexWriter_write w [encbuf_get buf1; encbuf_get buf2] in
  (w, errors_Wrap_opt err "write symbols").

(** The body of one series: labels as symbol references, then the chunks. *)
Definition indexWriter_seriesBody (w : indexWriter) (s : indexWriterSeries) : encbuf :=
  let buf2 := encbuf_reset [] in
  let buf2 := encbuf_putUvarint buf2 (len (iws_labels s)) in
  let buf2 :=
    fold_left
      (fun buf2 l =>
         encbuf_putUvarint32
           (encbuf_putUvarint32 buf2 (iw_symbol w (lbl_Name l)))
           (iw_symbol w (lbl_Value l)))
      (iws_labels s) buf2 in
  let buf2 := encbuf_putUvarint buf2 (len (iws_chunks s)) in
  fold_left
    (fun buf2 c =>
       let buf2 := encbuf_putVarint64 buf2 (chk_MinTime c) in
       let buf2 := encbuf_putVarint64 buf2 (chk_MaxTime c) in
       let buf2 := encbuf_putUvarint64 buf2 (chk_Ref c) in
       encbuf_putBytes buf2 (crc32.Sum (ChunkMeta_hash c crc32.Reset) []))
    (iws_chunks s) buf2.

(** One turn of the loop over the sorted series of [writeSeries]. *)
Definition indexWriter_writeSeries_one (w : indexWriter) (rs : Z * indexWriterSeries)
  : indexWriter * option error :=
  let '(ref, s) := rs in
  let buf2 := indexWriter_seriesBody w s in
  let w := iw_set_series w
             (<[ref := {| iws_labels := iws_labels s; iws_chunks := iws_chunks s;
                          iws_offset := uint32 (iw_pos w) |}]> (iw_series w)) in
  let buf1 := encbuf_reset [] in
  let buf1 := encbuf_putUvarint buf1 (encbuf_len buf2) in
  let buf2 := encbuf_putHash buf2 in
  let '(w, err) := indexWriter_write w [encbuf_get buf1; encbuf_get buf2] in
  (w, errors_Wrap_opt err "write series data").

Fixpoint indexWriter_writeSeries_loop (w : indexWriter)
    (series : list (Z * indexWriterSeries)) : indexWriter * option error :=
  match series with
  | [] => (w, None)
  | rs :: rest =>
      match indexWriter_writeSeries_one w rs with
      | (w, Some e) => (w, Some e)
      | (w, None) => indexWriter_writeSeries_loop w rest
      end
  end.

(** [indexWriterSeriesSlice]: sorted along the labels. *)
Definition indexWriterSeriesSlice_Less (s : list (Z * indexWriterSeries)) (i j : nat) : bool :=
  match s !! i, s !! j with
  | Some a, Some b => labels_Compare (iws_labels (snd a)) (iws_labels (snd b)) <? 0
  | _, _ => false
  end.

Definition indexWriterSeriesSlice_Swap (s : list (Z * indexWriterSeries)) (i j : nat)
  : list (Z * indexWriterSeries) :=
  list_swap (0, {| iws_labels := []; iws_chunks := []; iws_offset := 0 |}) s i j.

(** [hashEntry] tables. *)
Definition indexWriter_writeOffsetTable (w : indexWriter) (entries : list hashEntry)
  : indexWriter * option error :=
  let buf1 := encbuf_reset [] in
  let buf1 := encbuf_putBE32int buf1 (len entries) in
  let buf2 := encbuf_reset [] in
  let buf2 :=
    fold_left
      (fun buf2 e =>
         let buf2 := encbuf_putUvarint buf2 (len (he_keys e)) in
         let buf2 := fold_left encbuf_putUvarintStr (he_keys e) buf2 in
         encbuf_putUvarint64 buf2 (he_offset e))
      entries buf2 in
  let buf1 := encbuf_putBE32int buf1 (encbuf_len buf2) in
  let buf2 := encbuf_putHash buf2 in
  indexWriter_write w [encbuf_get buf1; encbuf_get buf2].

Definition indexTOCLen : Z := 6 * 8 + 4.

Definition indexWriter_writeTOC (w : indexWriter) : indexWriter * option error :=
  let toc := iw_toc w in
  let buf1 := encbuf_reset [] in
  let buf1 := encbuf_putBE64 buf1 (toc_symbols toc) in
  let buf1 := encbuf_putBE64 buf1 (toc_series toc) in
  let buf1 := encbuf_putBE64 buf1 (toc_labelIndices toc) in
  let buf1 := encbuf_putBE64 buf1 (toc_labelIndicesTable toc) in
  let buf1 := encbuf_putBE64 buf1 (toc_postings toc) in
  let buf1 := encbuf_putBE64 buf1 (toc_postingsTable toc) in
  let buf1 := encbuf_putHash buf1 in
  indexWriter_write w [encbuf_get buf1].

Definition toc_set_symbols (t : indexTOC) (x : Z) : indexTOC :=
  {| toc_symbols := x; toc_series := toc_series t; toc_labelIndices := toc_labelIndices t;
     toc_labelIndicesTable := toc_labelIndicesTable t; toc_postings := toc_postings t;
     toc_postingsTable := toc_postingsTable t |}.
Definition toc_set_series (t : indexTOC) (x : Z) : indexTOC :=
  {| toc_symbols := toc_symbols t; toc_series := x; toc_labelIndices := toc_labelIndices t;
     toc_labelIndicesTable := toc_labelIndicesTable t; toc_postings := toc_postings t;
     toc_postingsTable := toc_postingsTable t |}.
Definition toc_set_labelIndices (t : indexTOC) (x : Z) : indexTOC :=
  {| toc_symbols := toc_symbols t; toc_series := toc_series t; toc_labelIndices := x;
     toc_labelIndicesTable := toc_labelIndicesTable t; toc_postings := toc_postings t;
     toc_postingsTable := toc_postingsTable t |}.
Definition toc_set_labelIndicesTable (t : indexTOC) (x : Z) : indexTOC :=
  {| toc_symbols := toc_symbols t; toc_series := toc_series t;
     toc_labelIndices := toc_labelIndices t;
     toc_labelIndicesTable := x; toc_postings := toc_postings t;
     toc_postingsTable := toc_postingsTable t |}.
Definition toc_set_postings (t : indexTOC) (x : Z) : indexTOC :=
  {| toc_symbols := toc_symbols t; toc_series := toc_series t;
     toc_labelIndices := toc_labelIndices t;
     toc_labelIndicesTable := toc_labelIndicesTable t; toc_postings := x;
     toc_postingsTable := toc_postingsTable t |}.
Definition toc_set_postingsTable (t : indexTOC) (x : Z) : indexTOC :=
  {| toc_symbols := toc_symbols t; toc_series := toc_series t;
     toc_labelIndices := toc_labelIndices t;
     toc_labelIndicesTable := toc_labelIndicesTable t; toc_postings := toc_postings t;
     toc_postingsTable := x |}.

(** [stringTuples]: a flattened list of tuples of length [st_l]. *)
Record stringTuples := { st_l : nat; st_s : list string }.

(** [len(s) % l] panics for [l = 0]. *)
Definition newStringTuples (s : list string) (l : nat) : result stringTuples :=
  match l with
  | O => Err (panic "integer divide by zero")
  | _ =>
      if negb (Z.rem (len s) (Z.of_nat l) =? 0)
      then Err (errors_Wrap errInvalidSize "string tuple list")
      else Ok {| st_l := l; st_s := s |}
  end.

Definition stringTuples_Len (t : stringTuples) : nat := (length (st_s t) / st_l t)%nat.

Definition stringTuples_Swap (t : stringTuples) (i j : nat) : stringTuples :=
  let c := take (st_l t) (drop i (st_s t)) in
  {| st_l := st_l t;
     st_s :=
       fold_left
         (fun s k =>
            let s := <[(i + k)%nat := index EmptyString s (j + k)]> s in
            <[(j + k)%nat := index EmptyString c k]> s)
         (seq 0 (st_l t)) (st_s t) |}.

Fixpoint stringTuples_Less_loop (s : list string) (i j : nat) (ks : list nat) : bool :=
  match ks with
  | [] => false
  | k :: ks' =>
      let d := strings_Compare (index EmptyString s (i + k)) (index EmptyString s (j + k)) in
      if d <? 0 then true
      else if 0 <? d then false
      else stringTuples_Less_loop s i j ks'
  end.

Definition stringTuples_Less (t : stringTuples) (i j : nat) : bool :=
  stringTuples_Less_loop (st_s t) i j (seq 0 (st_l t)).

Definition sort_stringTuples (t : stringTuples) : stringTuples :=
  sort_Sort stringTuples_Len stringTuples_Less stringTuples_Swap t.

Section IndexWriter.

  (** [for _, s := range w.series]: Go leaves the order in which a map is
      ranged over unspecified; [rangeSeries] is that order. *)
Variable rangeSeries : gmap Z indexWriterSeries -> list (Z * indexWriterSeries).

Definition indexWriter_writeSeries (w : indexWriter) : indexWriter * option error :=
    let series := rangeSeries (iw_series w) in
    let series :=
      sort_Sort (@length _) indexWriterSeriesSlice_Less indexWriterSeriesSlice_Swap series in
    let buf1 := encbuf_reset [] in
    let buf1 := encbuf_putBE32int buf1 (len series) in
    match indexWriter_write w [encbuf_get buf1] with
    | (w, Some e) => (w, Some (errors_Wrap e "write series count"))
    | (w, None) => indexWriter_writeSeries_loop w series
    end.

  (** [ensureStage] handles the transitions between the write stages. *)
Definition indexWriter_ensureStage (w : indexWriter) (s : indexWriterStage)
    : indexWriter * option error :=
    if indexWriterStage_eqb (iw_stage w) s then (w, None)
    else if indexWriterStage_uint8 s <? indexWriterStage_uint8 (iw_stage w)
    then (w, Some (errors_Errorf "invalid stage %q, currently at %q"
                     (indexWriterStage_uint8 s)))
    else
      (* Complete population stage by writing symbols and series. *)
      let '(w, err) :=
        if indexWriterStage_eqb (iw_stage w) idxStagePopulate then
          let w := iw_set_toc w (toc_set_symbols (iw_toc w) (iw_pos w)) in
          match indexWriter_writeSymbols w with
          | (w, Some e) => (w, Some e)
          | (w, None) =>
              let w := iw_set_toc w (toc_set_series (iw_toc w) (iw_pos w)) in
              indexWriter_writeSeries w
          end
        else (w, None) in
      match err with
      | Some e => (w, Some e)
      | None =>
          (* Mark start of sections in table of contents. *)
          let '(w, err) :=
            match s with
            | idxStageLabelIndex =>
                (iw_set_toc w (toc_set_labelIndices (iw_toc w) (iw_pos w)), None)
            | idxStagePostings =>
                let w := iw_set_toc w (toc_set_labelIndicesTable (iw_toc w) (iw_pos w)) in
                match indexWriter_writeOffsetTable w (iw_labelIndexes w) with
                | (w, Some e) => (w, Some e)
                | (w, None) =>
                    (iw_set_toc w (toc_set_postings (iw_toc w) (iw_pos w)), None)
                end
            | idxStageDone =>
                let w := iw_set_toc w (toc_set_postingsTable (iw_toc w) (iw_pos w)) in
                match indexWriter_writeOffsetTable w (iw_postings w) with
                | (w, Some e) => (w, Some e)
                | (w, None) => indexWriter_writeTOC w
                end
            | idxStagePopulate => (w, None)
            end in
          match err with
          | Some e => (w, Some e)
          | None => (iw_set_stage w s, None)
          end
      end.

Definition indexWriter_WriteLabelIndex (w : indexWriter) (names values : list string)
    : indexWriter * option error :=
    match indexWriter_ensureStage w idxStageLabelIndex with
    | (w, Some e) => (w, Some (errors_Wrap e "ensure stage"))
    | (w, None) =>
        match newStringTuples values (length names) with
        | Err e => (w, Some e)
        | Ok valt =>
            let valt := sort_stringTuples valt in
            let w := iw_set_labelIndexes w
                       (iw_labelIndexes w ++
                        [{| he_keys := names; he_offset := iw_pos w |}]) in
            let buf2 := encbuf_reset [] in
            let buf2 := encbuf_putUvarint buf2 (len names) in
            let buf2 :=
              fold_left (fun buf2 v => encbuf_putBE32 buf2 (iw_symbol w v))
                        (st_s valt) buf2 in
            let buf1 := encbuf_reset [] in
            let buf1 := encbuf_putUvarint buf1 (encbuf_len buf2) in
            let buf2 := encbuf_putHash buf2 in
            let '(w, err) := indexWriter_write w [encbuf_get buf1; encbuf_get buf2] in
            (w, errors_Wrap_opt err "write label index")
        end
    end.

  (** The loop [for it.Next() { ... refs = append(refs, s.offset) }] over the
      values the iterator yields. *)
Fixpoint indexWriter_postingsRefs (w : indexWriter) (vals : list Z) (refs : list Z)
    : result (list Z) :=
    match vals with
    | [] => Ok refs
    | v :: vals' =>
        match iw_series w !! v with
        | None => Err (errors_Errorf "series for reference %d not found" v)
        | Some s => indexWriter_postingsRefs w vals' (refs ++ [iws_offset s])
        end
    end.

Definition indexWriter_WritePostings (w : indexWriter) (name value : string)
      (it : Postings) : indexWriter * option error :=
    match indexWriter_ensureStage w idxStagePostings with
    | (w, Some e) => (w, Some (errors_Wrap e "ensure stage"))
    | (w, None) =>
        let w := iw_set_postings w
                   (iw_postings w ++
                    [{| he_keys := [name; value]; he_offset := iw_pos w |}]) in
        match indexWriter_postingsRefs w (Postings_values it) [] with
        | Err e => (w, Some e)
        | Ok refs =>
            match Postings_Err it with
            | Some e => (w, Some e)
            | None =>
                let refs := sort_uint32slice refs in
                let buf2 := encbuf_reset [] in
                let buf2 := fold_left encbuf_putBE32 refs buf2 in
                let buf1 := encbuf_reset [] in
                let buf1 := encbuf_putUvarint buf1 (encbuf_len buf2) in
                let buf2 := encbuf_putHash buf2 in
                let '(w, err) := indexWriter_write w [encbuf_get buf1; encbuf_get buf2] in
                (w, errors_Wrap_opt err "write postings")
            end
        end
    end.

  (** [Close]: the last stage, then flush, sync and close of the file. *)
Definition indexWriter_Close (w : indexWriter) : indexWriter * option error :=
    match indexWriter_ensureStage w idxStageDone with
    | (w, Some e) => (w, Some e)
    | (w, None) => (iw_set_closed w, None)
    end.

End IndexWriter.

(** The order in which the model's map lists its entries: one of the orders
    a Go map may be ranged over. *)
Definition rangeSeries_map (m : gmap Z indexWriterSeries) : list (Z * indexWriterSeries) :=
  map_to_list m.

(** ** index.go: the index reader *)

(** The in-memory key separator, the byte 0xff. *)
Definition sep : string := String "255"%char EmptyString.

(** The reader over the memory-mapped bytes [ir_b] of the index file. *)
Record indexReader := {
  ir_b : list byte;
  ir_toc : indexTOC;
  ir_labels : gmap string Z;
  ir_postings : gmap string Z
}.

Definition indexReader_readTOC (b : list byte) : result indexTOC :=
  if len b <? indexTOCLen then Err errInvalidSize
  else
    let t := slice_from (len b - indexTOCLen) b in
    Ok {| toc_symbols := binary.Uint64 (slice_from 0 t);
          toc_series := binary.Uint64 (slice_from 8 t);
          toc_labelIndices := binary.Uint64 (slice_from 16 t);
          toc_labelIndicesTable := binary.Uint64 (slice_from 24 t);
          toc_postings := binary.Uint64 (slice_from 32 t);
          toc_postingsTable := binary.Uint64 (slice_from 40 t) |}.

(** [decbufAt(off int)]; a negative [off] makes the slice expression panic. *)
Definition indexReader_decbufAt (b : list byte) (off : Z) : decbuf :=
  if len b <? off then {| d_b := []; d_e := Some errInvalidSize |}
  else if off <? 0 then {| d_b := []; d_e := Some (panic "slice bounds out of range") |}
  else {| d_b := slice_from off b; d_e := None |}.

(** The keys of one table entry: [for i := 0; i < keyCount; i++]. *)
Fixpoint readOffsetTable_keys (n : nat) (d2 : decbuf) (keys : list string)
  : list string * decbuf :=
  match n with
  | O => (keys, d2)
  | Datatypes.S n' =>
      let '(k, d2) := decbuf_readUvarintStr d2 in
      readOffsetTable_keys n' d2 (keys ++ [k])
  end.

(** [for d2.err() == nil && d2.len() > 0 && cnt > 0 { ...; cnt-- }]: the
    recursion is on [cnt]. *)
Fixpoint readOffsetTable_loop (cnt : nat) (d2 : decbuf) (res : gmap string Z)
  : gmap string Z * decbuf :=
  match cnt with
  | O => (res, d2)
  | Datatypes.S cnt' =>
      match decbuf_err d2 with
      | Some _ => (res, d2)
      | None =>
          if 0 <? decbuf_len d2 then
            let '(kc, d2) := decbuf_readUvarint d2 in
            let keyCount := int64 kc in
            if negb (makeslice_ok 16 keyCount)
            then (res, {| d_b := d_b d2; d_e := Some (panic "makeslice: cap out of range") |})
            else
              let '(keys, d2) := readOffsetTable_keys (Z.to_nat keyCount) d2 [] in
              let '(o, d2) := decbuf_readUvarint d2 in
              readOffsetTable_loop cnt' d2 (<[strings_Join keys sep := uint32 o]> res)
          else (res, d2)
      end
  end.

(** [readOffsetTable]; a table that was not written has offset 0 and reads
    as the nil map. *)
Definition indexReader_readOffsetTable (b : list byte) (off : Z) : result (gmap string Z) :=
  if off =? 0 then Ok ∅
  else
    let d1 := indexReader_decbufAt b (int64 off) in
    let '(cnt, d1) := decbuf_readBE32 d1 in
    let '(el, d1) := decbuf_readBE32 d1 in
    let '(d2, d1) := decbuf_get d1 el in
    let '(res, d2) := readOffsetTable_loop (Z.to_nat cnt) d2 ∅ in
    match decbuf_err d2 with
    | Some e => Err e
    | None => Ok res
    end.

(** [newIndexReader] on the bytes of the index file. *)
Definition newIndexReader (b : list byte) : result indexReader :=
  if len b <? 4 then Err (errors_Wrap errInvalidSize "index header")
  else if negb (binary.Uint32 (slice_to 4 b) =? MagicIndex)
  then Err (errors_Errorf "invalid magic number %x" (binary.Uint32 (slice_to 4 b)))
  else
    match indexReader_readTOC b with
    | Err e => Err (errors_Wrap e "read TOC")
    | Ok toc =>
        match indexReader_readOffsetTable b (toc_labelIndicesTable toc) with
        | Err e => Err (errors_Wrap e "read label index table")
        | Ok labels =>
            match indexReader_readOffsetTable b (toc_postingsTable toc) with
            | Err e => Err (errors_Wrap e "read postings table")
            | Ok postings =>
                Ok {| ir_b := b; ir_toc := toc; ir_labels := labels;
                      ir_postings := postings |}
            end
        end
    end.

(** [lookupSymbol(o uint32)]. *)
Definition lookupSymbol (b : list byte) (o : Z) : result string :=
  if len b <? o then Err (errors_Errorf "invalid symbol offset %d" o)
  else
    let '(l, n) := binary.Uvarint (slice_from o b) in
    if n <? 0 then Err (errors_New "reading symbol length failed")
    else
      let end_ := int64 (o + n + int64 l) in
      if len b <? end_ then Err (errors_Errorf "invalid length %d" l)
      else if end_ <? o + n then Err (panic "slice bounds out of range")
      else Ok (string_of_list_byte (slice_to (end_ - (o + n)) (slice_from (o + n) b))).

Definition indexReader_lookupSymbol (r : indexReader) (o : Z) : result string :=
  lookupSymbol (ir_b r) o.

(** [getSized(off uint32)]. *)
Definition indexReader_getSized (r : indexReader) (off : Z) : result (list byte) :=
  if len (ir_b r) <? off then Err errInvalidSize
  else
    let b := slice_from off (ir_b r) in
    let '(l, n) := binary.Uvarint b in
    if n <? 1 then Err errInvalidSize
    else if len (slice_from n b) <? int64 l then Err errInvalidSize
    else if int64 l <? 0 then Err (panic "slice bounds out of range")
    else Ok (slice_to (int64 l) (slice_from n b)).

(** [serializedStringTuples]: [sst_b] is the section after its tuple length
    [sst_l]; [lookup] is the reader's [lookupSymbol], kept as the bytes
    [sst_rb] it reads. *)
Record serializedStringTuples := {
  sst_l : Z;
  sst_b : list byte;
  sst_rb : list byte
}.

Inductive StringTuples : Type :=
| emptyStringTuples
| serializedTuples (t : serializedStringTuples).

Definition indexReader_LabelValues (r : indexReader) (names : list string)
  : result StringTuples :=
  let key := strings_Join names sep in
  match ir_labels r !! key with
  | None => Ok emptyStringTuples
  | Some off =>
      match indexReader_getSized r off with
      | Err e => Err (errors_Wrap e "get sized region at %d")
      | Ok b =>
          let '(c, n) := binary.Uvarint b in
          if n <? 1 then Err (errors_Wrap errInvalidSize "read label index size")
          else Ok (serializedTuples
                     {| sst_l := int64 c; sst_b := slice_from n b; sst_rb := ir_b r |})
      end
  end.

(** [Len]: [len(t.b) / (4 * t.l)]. *)
Definition serializedStringTuples_Len (t : serializedStringTuples) : result Z :=
  let d := int64 (4 * sst_l t) in
  if d =? 0 then Err (panic "integer divide by zero")
  else Ok (Z.quot (len (sst_b t)) d).

Fixpoint serializedStringTuples_At_loop (t : serializedStringTuples) (i : Z)
    (ks : list Z) (res : list string) : result (list string) :=
  match ks with
  | [] => Ok res
  | k :: ks' =>
      let o := int64 ((i + k) * 4) in
      if (o <? 0) || (len (sst_b t) <? o + 4)
      then Err (panic "index out of range")
      else
        let offset := binary.Uint32 (slice_from o (sst_b t)) in
        match lookupSymbol (sst_rb t) offset with
        | Err e => Err (errors_Wrap e "symbol lookup")
        | Ok s => serializedStringTuples_At_loop t i ks' (res ++ [s])
        end
  end.

Definition serializedStringTuples_At (t : serializedStringTuples) (i : Z)
  : result (list string) :=
  if len (sst_b t) <? int64 ((i + sst_l t) * 4) then Err errInvalidSize
  else if negb (makeslice_ok 16 (sst_l t)) then Err (panic "makeslice: cap out of range")
  else serializedStringTuples_At_loop t i (map Z.of_nat (seq 0 (Z.to_nat (sst_l t)))) [].

Definition StringTuples_Len (t : StringTuples) : result Z :=
  match t with
  | emptyStringTuples => Ok 0
  | serializedTuples t => serializedStringTuples_Len t
  end.

(** [emptyStringTuples.At] returns [nil, nil]. *)
Definition StringTuples_At (t : StringTuples) (i : Z) : result (list string) :=
  match t with
  | emptyStringTuples => Ok []
  | serializedTuples t => serializedStringTuples_At t i
  end.

(** One label of a series record: two symbol references. *)
Definition indexReader_Series_label (r : indexReader) (b : list byte)
  : result (Label * list byte) :=
  let '(o, m) := binary.Uvarint b in
  if m <? 1 then Err (errors_Wrap errInvalidSize "symbol offset")
  else
    match indexReader_lookupSymbol r (uint32 o) with
    | Err e => Err (errors_Wrap e "symbol lookup")
    | Ok n =>
        let b := slice_from m b in
        let '(o, m) := binary.Uvarint b in
        if m <? 1 then Err (errors_Wrap errInvalidSize "symbol offset")
        else
          match indexReader_lookupSymbol r (uint32 o) with
          | Err e => Err (errors_Wrap e "symbol lookup")
          | Ok v =>
              let b := slice_from m b in
              Ok ({| lbl_Name := n; lbl_Value := v |}, b)
          end
    end.

Fixpoint indexReader_Series_labels (r : indexReader) (k : nat) (b : list byte)
    (lbls : Labels) : result (Labels * list byte) :=
  match k with
  | O => Ok (lbls, b)
  | Datatypes.S k' =>
      match indexReader_Series_label r b with
      | Err e => Err e
      | Ok (l, b) => indexReader_Series_labels r k' b (lbls ++ [l])
      end
  end.

(** One chunk of a series record; the four checksum bytes are skipped. *)
Definition indexReader_Series_chunk (b : list byte) : result (ChunkMeta * list byte) :=
  let '(firstTime, n) := binary.Varint b in
  if n <? 1 then Err (errors_Wrap errInvalidSize "first time")
  else
    let b := slice_from n b in
    let '(lastTime, n) := binary.Varint b in
    if n <? 1 then Err (errors_Wrap errInvalidSize "last time")
    else
      let b := slice_from n b in
      let '(o, n) := binary.Uvarint b in
      if n <? 1 then Err (errors_Wrap errInvalidSize "chunk offset")
      else
        let b := slice_from n b in
        if len b <? 4 then Err (panic "slice bounds out of range")
        else
          let b := slice_from 4 b in
          Ok ({| chk_Ref := o; chk_MinTime := firstTime; chk_MaxTime := lastTime;
                 chk_Encoding := Byte.x00; chk_Data := [] |}, b).

Fixpoint indexReader_Series_chunks (k : nat) (b : list byte) (chunks : list ChunkMeta)
  : result (list ChunkMeta) :=
  match k with
  | O => Ok chunks
  | Datatypes.S k' =>
      match indexReader_Series_chunk b with
      | Err e => Err e
      | Ok (c, b) => indexReader_Series_chunks k' b (chunks ++ [c])
      end
  end.

(** [Series(ref uint32)]. *)
Definition indexReader_Series (r : indexReader) (ref : Z)
  : result (Labels * list ChunkMeta) :=
  if len (ir_b r) <? ref then Err (panic "slice bounds out of range")
  else
    (* Read away length of series data. *)
    let '(_, n) := binary.Uvarint (slice_from ref (ir_b r)) in
    if (ref + n <? 0) || (len (ir_b r) <? ref + n)
    then Err (panic "slice bounds out of range")
    else
      let b := slice_from (ref + n) (ir_b r) in
      let '(k, n) := binary.Uvarint b in
      if n <? 1 then Err (errors_Wrap errInvalidSize "number of labels")
      else
        let b := slice_from n b in
        if negb (makeslice_ok 32 k) then Err (panic "makeslice: cap out of range")
        else
          match indexReader_Series_labels r (Z.to_nat (Z.quot (int64 (2 * int64 k) + 1) 2)) b [] with
          | Err e => Err e
          | Ok (lbls, b) =>
              (* Read the chunks meta data. *)
              let '(k, n) := binary.Uvarint b in
              if n <? 1 then Err (errors_Wrap errInvalidSize "number of chunks")
              else
                let b := slice_from n b in
                if negb (makeslice_ok 8 k) then Err (panic "makeslice: cap out of range")
                else
                  match indexReader_Series_chunks (Z.to_nat (int64 k)) b [] with
                  | Err e => Err e
                  | Ok chunks => Ok (lbls, chunks)
                  end
          end.

(** [Postings(name, value)]. *)
Definition indexReader_Postings (r : indexReader) (name value : string) : result Postings :=
  let key := String.append name (String.append sep value) in
  match ir_postings r !! key with
  | None => Ok emptyPostings
  | Some off =>
      match indexReader_getSized r off with
      | Err e => Err (errors_Wrap e "get sized region at %d")
      | Ok b =>
          if negb (Z.rem (len b) 4 =? 0)
          then Err (errors_Wrap errInvalidSize "plain postings entry")
          else Ok (newBigEndianPostings b)
      end
  end.

(** ** Files

    The part of the operating system the write-ahead log uses.  File content
    lives in inodes; the directory maps names to inodes; an open [*os.File]
    is an index into the table of handles, so that every copy of the pointer
    sees the same position and the same closed flag. *)

Record File := {
  f_name : string;
  f_ino : nat;
  f_pos : Z;
  f_closed : bool
}.

Record FS := {
  fs_inodes : list (list byte);
  fs_dir : gmap string nat;
  fs_fds : list File
}.

Definition fs_empty : FS := {| fs_inodes := []; fs_dir := ∅; fs_fds := [] |}.

Definition fs_data (fs : FS) (ino : nat) : list byte := default [] (fs_inodes fs !! ino).

Definition fs_set_data (fs : FS) (ino : nat) (data : list byte) : FS :=
  {| fs_inodes := <[ino := data]> (fs_inodes fs); fs_dir := fs_dir fs;
     fs_fds := fs_fds fs |}.

Definition fs_set_fd (fs : FS) (fd : nat) (f : File) : FS :=
  {| fs_inodes := fs_inodes fs; fs_dir := fs_dir fs;
     fs_fds := <[fd := f]> (fs_fds fs) |}.

Definition fs_set_dir (fs : FS) (d : gmap string nat) : FS :=
  {| fs_inodes := fs_inodes fs; fs_dir := d; fs_fds := fs_fds fs |}.

Definition File_set_pos (f : File) (pos : Z) : File :=
  {| f_name := f_name f; f_ino := f_ino f; f_pos := pos; f_closed := f_closed f |}.

Definition File_set_closed (f : File) : File :=
  {| f_name := f_name f; f_ino := f_ino f; f_pos := f_pos f; f_closed := true |}.

(** The content of the file behind a handle, by name of the handle. *)
Definition File_Name (fs : FS) (fd : nat) : string :=
  match fs_fds fs !! fd with
  | Some f => f_name f
  | None => EmptyString
  end.

(** [os.Create]: a new inode under [name] (an existing file is truncated)
    and a fresh handle at position 0. *)
Definition os_Create (fs : FS) (name : string) : FS * nat :=
  let '(fs, ino) :=
    match fs_dir fs !! name with
    | Some ino => (fs_set_data fs ino [], ino)
    | None =>
        let ino := length (fs_inodes fs) in
        ({| fs_inodes := fs_inodes fs ++ [[]]; fs_dir := <[name := ino]> (fs_dir fs);
            fs_fds := fs_fds fs |}, ino)
    end in
  let fd := length (fs_fds fs) in
  ({| fs_inodes := fs_inodes fs; fs_dir := fs_dir fs;
      fs_fds := fs_fds fs ++ [{| f_name := name; f_ino := ino; f_pos := 0;
                                 f_closed := false |}] |}, fd).

(** [os.OpenFile(name, O_RDWR)]. *)
Definition os_OpenFile (fs : FS) (name : string) : FS * result nat :=
  match fs_dir fs !! name with
  | None => (fs, Err os_ErrNotExist)
  | Some ino =>
      let fd := length (fs_fds fs) in
      ({| fs_inodes := fs_inodes fs; fs_dir := fs_dir fs;
          fs_fds := fs_fds fs ++ [{| f_name := name; f_ino := ino; f_pos := 0;
                                     f_closed := false |}] |}, Ok fd)
  end.

(** [f.Read(b)] with [len(b) = n]: up to [n] bytes from the position; at the
    end of the file [0, io.EOF]; for [n = 0] always [0, nil]. *)
Definition File_Read (fs : FS) (fd : nat) (n : Z) : FS * list byte * option error :=
  match fs_fds fs !! fd with
  | None => (fs, [], Some os_ErrInvalid)
  | Some f =>
      if f_closed f then (fs, [], Some os_ErrClosed)
      else
        let avail := slice_from (f_pos f) (fs_data fs (f_ino f)) in
        let got := slice_to n avail in
        if (0 <? n) && (len got =? 0) then (fs, [], Some io_EOF)
        else (fs_set_fd fs fd (File_set_pos f (f_pos f + len got)), got, None)
  end.

(** The bytes of [data] with [b] written at offset [pos]; a gap is filled
    with zeros. *)
Definition write_at (data : list byte) (pos : Z) (b : list byte) : list byte :=
  slice_to pos (data ++ zeros (Z.to_nat pos - length data))
  ++ b ++ slice_from (pos + len b) data.

(** [f.Write(b)]. *)
Definition File_Write (fs : FS) (fd : nat) (b : list byte) : FS * option error :=
  match fs_fds fs !! fd with
  | None => (fs, Some os_ErrInvalid)
  | Some f =>
      if f_closed f then (fs, Some os_ErrClosed)
      else
        let fs := fs_set_data fs (f_ino f) (write_at (fs_data fs (f_ino f)) (f_pos f) b) in
        (fs_set_fd fs fd (File_set_pos f (f_pos f + len b)), None)
  end.

(** [f.Seek(0, os.SEEK_CUR)]. *)
Definition File_Seek_cur (fs : FS) (fd : nat) : result Z :=
  match fs_fds fs !! fd with
  | None => Err os_ErrInvalid
  | Some f => if f_closed f then Err os_ErrClosed else Ok (f_pos f)
  end.

(** [f.Seek(off, os.SEEK_SET)]. *)
Definition File_Seek_set (fs : FS) (fd : nat) (off : Z) : FS * option error :=
  match fs_fds fs !! fd with
  | None => (fs, Some os_ErrInvalid)
  | Some f =>
      if f_closed f then (fs, Some os_ErrClosed)
      else if off <? 0 then (fs, Some os_ErrInvalid)
      else (fs_set_fd fs fd (File_set_pos f off), None)
  end.

(** [f.Truncate(size)]: cut, or extend with zeros. *)
Definition File_Truncate (fs : FS) (fd : nat) (size : Z) : FS * option error :=
  match fs_fds fs !! fd with
  | None => (fs, Some os_ErrInvalid)
  | Some f =>
      if f_closed f then (fs, Some os_ErrClosed)
      else
        let data := fs_data fs (f_ino f) in
        (fs_set_data fs (f_ino f)
           (slice_to size (data ++ zeros (Z.to_nat size - length data))), None)
  end.

(** [fileutil.Preallocate(f, size, true)]: the file is extended with zeros
    to [size] bytes. *)
Definition fileutil_Preallocate (fs : FS) (fd : nat) (size : Z) : FS * option error :=
  match fs_fds fs !! fd with
  | None => (fs, Some os_ErrInvalid)
  | Some f =>
      if f_closed f then (fs, Some os_ErrClosed)
      else
        let data := fs_data fs (f_ino f) in
        (fs_set_data fs (f_ino f) (data ++ zeros (Z.to_nat size - length data)), None)
  end.

(** [f.Close()]. *)
Definition File_Close (fs : FS) (fd : nat) : FS * option error :=
  match fs_fds fs !! fd with
  | None => (fs, Some os_ErrInvalid)
  | Some f =>
      if f_closed f then (fs, Some os_ErrClosed)
      else (fs_set_fd fs fd (File_set_closed f), None)
  end.

(** [fileutil.Fdatasync(f)]; [f] may be the nil handle. *)
Definition fileutil_Fdatasync (fs : FS) (fd : option nat) : option error :=
  match fd with
  | None => Some os_ErrInvalid
  | Some fd =>
      match fs_fds fs !! fd with
      | None => Some os_ErrInvalid
      | Some f => if f_closed f then Some os_ErrClosed else None
      end
  end.

(** [os.Remove(name)]. *)
Definition os_Remove (fs : FS) (name : string) : FS * option error :=
  match fs_dir fs !! name with
  | None => (fs, Some os_ErrNotExist)
  | Some _ => (fs_set_dir fs (delete name (fs_dir fs)), None)
  end.

(** [os.RemoveAll(name)]: no error for a missing name. *)
Definition os_RemoveAll (fs : FS) (name : string) : FS * option error :=
  (fs_set_dir fs (delete name (fs_dir fs)), None).

(** Modelled from the spec: [renameFile(from, to)], the atomic rename that
    puts the file [from] in the place of [to]. *)
Definition renameFile (fs : FS) (from to : string) : FS * option error :=
  match fs_dir fs !! from with
  | None => (fs, Some os_ErrNotExist)
  | Some ino => (fs_set_dir fs (<[to := ino]> (delete from (fs_dir fs))), None)
  end.

(** The content a name of the directory leads to. *)
Definition fs_content (fs : FS) (name : string) : option (list byte) :=
  match fs_dir fs !! name with
  | Some ino => Some (fs_data fs ino)
  | None => None
  end.

(** Sequence file names: the zero-padded decimal sequence number. *)
Definition digit (n : nat) : ascii := ascii_of_nat (48 + n mod 10).

Fixpoint format_seq_digits (width : nat) (n : nat) (acc : string) : string :=
  match width with
  | O => acc
  | Datatypes.S w' => format_seq_digits w' (n / 10) (String (digit n) acc)
  end.

Definition format_seq (n : nat) : string := format_seq_digits 8 n EmptyString.

Fixpoint parse_seq_digits (s : string) (acc : nat) : option nat :=
  match s with
  | EmptyString => Some acc
  | String c s' =>
      let d := nat_of_ascii c in
      if (48 <=? d)%nat && (d <=? 57)%nat
      then parse_seq_digits s' (10 * acc + (d - 48))%nat
      else None
  end.

Definition parse_seq (s : string) : option nat :=
  match s with
  | EmptyString => None
  | _ => parse_seq_digits s 0%nat
  end.

Definition path_Join (dir name : string) : string :=
  String.append dir (String.append "/" name).

(** The file name of a path below [dir], if it is one. *)
Definition path_base (dir path : string) : option string :=
  let p := String.append dir "/" in
  if String.prefix p path
  then Some (String.substring (String.length p) (String.length path - String.length p) path)
  else None.

(** Modelled from the spec: [sequenceFiles(dir)], the files of [dir] with a
    numeric name, in order. *)
Definition sequenceFiles (fs : FS) (dir : string) : list string :=
  sort_Strings
    (List.filter (fun p => match path_base dir p with
                           | Some n => match parse_seq n with Some _ => true | None => false end
                           | None => false
                           end)
                 (elements (dom (fs_dir fs)))).

(** Modelled from the spec: [nextSequenceFile(dir)] returns the next unused
    numeric name; numbering starts from 0. *)
Definition nextSequenceFile (fs : FS) (dir : string) : string :=
  let used :=
    omap (fun p => match path_base dir p with
                   | Some n => parse_seq n
                   | None => None
                   end) (elements (dom (fs_dir fs))) in
  let next := fold_left (fun m n => Nat.max m (Datatypes.S n)) used 0%nat in
  path_Join dir (format_seq next).

(** ** bufio.Writer

    A buffered writer of [bw_size] bytes over the handle [bw_wr]; [bw_buf]
    holds the bytes not yet written through and [bw_err] the sticky error. *)
Record bufio_Writer := {
  bw_wr : nat;
  bw_size : Z;
  bw_buf : list byte;
  bw_err : option error
}.

Definition bufio_NewWriterSize (fd : nat) (size : Z) : bufio_Writer :=
  {| bw_wr := fd; bw_size := size; bw_buf := []; bw_err := None |}.

Definition bufio_Available (b : bufio_Writer) : Z := bw_size b - len (bw_buf b).

Definition bufio_Flush (fs : FS) (b : bufio_Writer) : FS * bufio_Writer * option error :=
  match bw_err b with
  | Some e => (fs, b, Some e)
  | None =>
      match bw_buf b with
      | [] => (fs, b, None)
      | _ =>
          match File_Write fs (bw_wr b) (bw_buf b) with
          | (fs, Some e) =>
              (fs, {| bw_wr := bw_wr b; bw_size := bw_size b; bw_buf := bw_buf b;
                      bw_err := Some e |}, Some e)
          | (fs, None) =>
              (fs, {| bw_wr := bw_wr b; bw_size := bw_size b; bw_buf := [];
                      bw_err := None |}, None)
          end
      end
  end.

(** [Write(p)]: a write larger than the free space goes to the file
    directly when the buffer is empty, and fills and flushes the buffer
    first when it is not. *)
Definition bufio_Write_direct (fs : FS) (b : bufio_Writer) (p : list byte)
  : FS * bufio_Writer * option error :=
  match File_Write fs (bw_wr b) p with
  | (fs, Some e) =>
      (fs, {| bw_wr := bw_wr b; bw_size := bw_size b; bw_buf := bw_buf b;
              bw_err := Some e |}, Some e)
  | (fs, None) => (fs, b, None)
  end.

Definition bufio_Write_copy (b : bufio_Writer) (p : list byte) : bufio_Writer :=
  {| bw_wr := bw_wr b; bw_size := bw_size b; bw_buf := bw_buf b ++ p; bw_err := bw_err b |}.

Definition bufio_Write (fs : FS) (b : bufio_Writer) (p : list byte)
  : FS * bufio_Writer * option error :=
  match bw_err b with
  | Some e => (fs, b, Some e)
  | None =>
      if len p <=? bufio_Available b then (fs, bufio_Write_copy b p, None)
      else
        match bw_buf b with
        | [] => bufio_Write_direct fs b p
        | _ =>
            let n := bufio_Available b in
            let b := bufio_Write_copy b (slice_to n p) in
            let p := slice_from n p in
            match bufio_Flush fs b with
            | (fs, b, Some e) => (fs, b, Some e)
            | (fs, b, None) =>
                if len p <=? bufio_Available b then (fs, bufio_Write_copy b p, None)
                else bufio_Write_direct fs b p
            end
        end
  end.

(** ** wal.go: the segmented write-ahead log *)

Definition WALMagic : Z := 0x43AF00EF.
Definition WALFormatDefault : Z := 1.

Definition WALEntrySymbols : Z := 1.
Definition WALEntrySeries : Z := 2.
Definition WALEntrySamples : Z := 3.
Definition WALEntryDeletes : Z := 4.

Definition walSeriesSimple : Z := 1.
Definition walSamplesSimple : Z := 1.
Definition walDeletesSimple : Z := 1.

Definition walSegmentSizeBytes : Z := 256 * 1024 * 1024.

Record RefSeries := { rs_Ref : Z; rs_Labels : Labels }.

(** [smpl_V] is the value as [math.Float64bits] gives it: the conversion
    between a [float64] and its 64 bits changes no bit. *)
Record RefSample := { smpl_Ref : Z; smpl_T : Z; smpl_V : Z }.

(** Modelled from the spec: a tombstone [{series_ref, intervals}], each
    interval a pair [{min_time, max_time}]. *)
Record Interval := { itv_Mint : Z; itv_Maxt : Z }.
Record Stone := { stone_ref : Z; stone_intervals : list Interval }.

Record segmentFile := { sf_f : nat; sf_maxt : Z }.

(** The log.  [w_fs] is the file system it works on; the mutex and the
    channels of the flusher have no counterpart in this sequential model. *)
Record SegmentWAL := {
  w_fs : FS;
  w_dirFile : string;
  w_files : list segmentFile;
  w_flushInterval : Z;
  w_segmentSize : Z;
  w_cur : option bufio_Writer;
  w_curN : Z;
  w_maxt : Z
}.

Definition w_set_fs (w : SegmentWAL) (fs : FS) : SegmentWAL :=
  {| w_fs := fs; w_dirFile := w_dirFile w; w_files := w_files w;
     w_flushInterval := w_flushInterval w; w_segmentSize := w_segmentSize w;
     w_cur := w_cur w; w_curN := w_curN w; w_maxt := w_maxt w |}.

Definition w_set_files (w : SegmentWAL) (files : list segmentFile) : SegmentWAL :=
  {| w_fs := w_fs w; w_dirFile := w_dirFile w; w_files := files;
     w_flushInterval := w_flushInterval w; w_segmentSize := w_segmentSize w;
     w_cur := w_cur w; w_curN := w_curN w; w_maxt := w_maxt w |}.

Definition w_set_cur (w : SegmentWAL) (cur : option bufio_Writer) : SegmentWAL :=
  {| w_fs := w_fs w; w_dirFile := w_dirFile w; w_files := w_files w;
     w_flushInterval := w_flushInterval w; w_segmentSize := w_segmentSize w;
     w_cur := cur; w_curN := w_curN w; w_maxt := w_maxt w |}.

Definition w_set_curN (w : SegmentWAL) (n : Z) : SegmentWAL :=
  {| w_fs := w_fs w; w_dirFile := w_dirFile w; w_files := w_files w;
     w_flushInterval := w_flushInterval w; w_segmentSize := w_segmentSize w;
     w_cur := w_cur w; w_curN := n; w_maxt := w_maxt w |}.

Definition w_set_maxt (w : SegmentWAL) (t : Z) : SegmentWAL :=
  {| w_fs := w_fs w; w_dirFile := w_dirFile w; w_files := w_files w;
     w_flushInterval := w_flushInterval w; w_segmentSize := w_segmentSize w;
     w_cur := w_cur w; w_curN := w_curN w; w_maxt := t |}.

Definition w_set_segmentSize (w : SegmentWAL) (n : Z) : SegmentWAL :=
  {| w_fs := w_fs w; w_dirFile := w_dirFile w; w_files := w_files w;
     w_flushInterval := w_flushInterval w; w_segmentSize := n;
     w_cur := w_cur w; w_curN := w_curN w; w_maxt := w_maxt w |}.

(** The eight bytes a segment file starts with. *)
Definition segment_header : list byte :=
  binary.PutUint32 WALMagic ++ [byte.of_Z WALFormatDefault] ++ zeros 3.

(** [tail()]: the handle of the last segment, or nil. *)
Definition SegmentWAL_tail (w : SegmentWAL) : option nat :=
  match last (w_files w) with
  | Some sf => Some (sf_f sf)
  | None => None
  end.

Definition SegmentWAL_flush (w : SegmentWAL) : SegmentWAL * option error :=
  match w_cur w with
  | None => (w, None)
  | Some cur =>
      let '(fs, cur, err) := bufio_Flush (w_fs w) cur in
      (w_set_cur (w_set_fs w fs) (Some cur), err)
  end.

(** [sync], called with the mutex held. *)
Definition SegmentWAL_sync (w : SegmentWAL) : SegmentWAL * option error :=
  match SegmentWAL_flush w with
  | (w, Some e) => (w, Some e)
  | (w, None) => (w, fileutil_Fdatasync (w_fs w) (SegmentWAL_tail w))
  end.

(** [Sync]: flush under the mutex, then fsync the tail. *)
Definition SegmentWAL_Sync (w : SegmentWAL) : SegmentWAL * option error :=
  match SegmentWAL_flush w with
  | (w, Some e) => (w, Some e)
  | (w, None) => (w, fileutil_Fdatasync (w_fs w) (SegmentWAL_tail w))
  end.

(** [cut] finishes the active segment and opens the next one. *)
Definition SegmentWAL_cut (w : SegmentWAL) : SegmentWAL * option error :=
  let '(w, err) :=
    match SegmentWAL_tail w with
    | None => (w, None)
    | Some tf =>
        match SegmentWAL_sync w with
        | (w, Some e) => (w, Some e)
        | (w, None) =>
            match File_Seek_cur (w_fs w) tf with
            | Err e => (w, Some e)
            | Ok off =>
                match File_Truncate (w_fs w) tf off with
                | (fs, Some e) => (w_set_fs w fs, Some e)
                | (fs, None) =>
                    let '(fs, err) := File_Close fs tf in
                    (w_set_fs w fs, err)
                end
            end
        end
    end in
  match err with
  | Some e => (w, Some e)
  | None =>
      let p := nextSequenceFile (w_fs w) (w_dirFile w) in
      let '(fs, f) := os_Create (w_fs w) p in
      match fileutil_Preallocate fs f (w_segmentSize w) with
      | (fs, Some e) => (w_set_fs w fs, Some e)
      | (fs, None) =>
          match File_Write fs f segment_header with
          | (fs, Some e) => (w_set_fs w fs, Some e)
          | (fs, None) =>
              let w := w_set_fs w fs in
              let w := w_set_files w (w_files w ++ [{| sf_f := f; sf_maxt := 0 |}]) in
              let w := w_set_cur w (Some (bufio_NewWriterSize f (4 * 1024 * 1024))) in
              (w_set_curN w 8, None)
          end
      end
  end.

(** The condition under which [entry] cuts a new segment. *)
Definition SegmentWAL_entry_cuts (w : SegmentWAL) (buf : list byte) : bool :=
  let sz := int64 (6 + 4 + len buf) in
  let newsz := int64 (w_curN w + sz) in
  match w_cur w with
  | None => true
  | Some _ =>
      (w_segmentSize w <? w_curN w)
      || ((w_segmentSize w <? newsz) && (sz <=? w_segmentSize w))
  end.

(** The six header bytes of an entry. *)
Definition entry_header (et : Z) (flag : Z) (buf : list byte) : list byte :=
  [byte.of_Z et; byte.of_Z flag] ++ binary.PutUint32 (uint32 (len buf)).

(** A write to the current buffered writer. *)
Definition SegmentWAL_cur_Write (w : SegmentWAL) (p : list byte) : SegmentWAL * option error :=
  match w_cur w with
  | None => (w, Some (panic "nil pointer dereference"))
  | Some cur =>
      let '(fs, cur, err) := bufio_Write (w_fs w) cur p in
      (w_set_cur (w_set_fs w fs) (Some cur), err)
  end.

Definition SegmentWAL_entry (w : SegmentWAL) (et : Z) (flag : Z) (buf : list byte)
  : SegmentWAL * option error :=
  let sz := int64 (6 + 4 + len buf) in
  let '(w, err) := if SegmentWAL_entry_cuts w buf then SegmentWAL_cut w else (w, None) in
  match err with
  | Some e => (w, Some e)
  | None =>
      let crc := crc32.Reset in
      let b := entry_header et flag buf in
      let crc := crc32.Write crc b in
      match SegmentWAL_cur_Write w b with
      | (w, Some e) => (w, Some e)
      | (w, None) =>
          let crc := crc32.Write crc buf in
          match SegmentWAL_cur_Write w buf with
          | (w, Some e) => (w, Some e)
          | (w, None) =>
              match SegmentWAL_cur_Write w (crc32.Sum crc []) with
              | (w, Some e) => (w, Some e)
              | (w, None) =>
                  let w := w_set_curN w (int64 (w_curN w + sz)) in
                  (* set the file's maxt. *)
                  let w :=
                    match last (w_files w) with
                    | None => w
                    | Some cf =>
                        if sf_maxt cf <? w_maxt w
                        then w_set_files w
                               (<[(length (w_files w) - 1)%nat :=
                                    {| sf_f := sf_f cf; sf_maxt := w_maxt w |}]> (w_files w))
                        else w
                    end in
                  (w, None)
              end
          end
      end
  end.

(** [getWALBuffer]: a buffer of the pool, of length 0. *)
Definition getWALBuffer : list byte := [].

(** The function [encodeSeries(buf, series)]; [series] is not empty. *)
Definition encodeSeries (buf : list byte) (series : list RefSeries) : list byte :=
  let first := default {| rs_Ref := 0; rs_Labels := [] |} (head series) in
  let buf := buf ++ binary.PutUint64 (rs_Ref first) in
  fold_left
    (fun buf s =>
       let buf := buf ++ binary.PutUint64 (rs_Ref s) in
       let lset := rs_Labels s in
       let buf := buf ++ binary.PutUvarint (uint64 (len lset)) in
       fold_left
         (fun buf l =>
            let buf := buf ++ binary.PutUvarint (uint64 (slen (lbl_Name l))) in
            let buf := buf ++ list_byte_of_string (lbl_Name l) in
            let buf := buf ++ binary.PutUvarint (uint64 (slen (lbl_Value l))) in
            buf ++ list_byte_of_string (lbl_Value l))
         lset buf)
    series buf.

(** The method [encodeSeries(series)]. *)
Definition SegmentWAL_encodeSeries (w : SegmentWAL) (series : list RefSeries)
  : SegmentWAL * option error :=
  match series with
  | [] => (w, None)
  | _ =>
      let buf := getWALBuffer in
      let buf := encodeSeries buf series in
      SegmentWAL_entry w WALEntrySeries walSeriesSimple buf
  end.

(** The payload [encodeSamples] builds for a batch that starts with
    [first]. *)
Definition encodeSamples_buf (first : RefSample) (samples : list RefSample) : list byte :=
  let buf := getWALBuffer in
  let buf := buf ++ binary.PutUint64 (smpl_Ref first) in
  let buf := buf ++ binary.PutUint64 (uint64 (smpl_T first)) in
  fold_left
    (fun buf s =>
       let buf := buf ++ binary.PutVarint (int64 (int64 (smpl_Ref s) - int64 (smpl_Ref first))) in
       let buf := buf ++ binary.PutVarint (int64 (smpl_T s - smpl_T first)) in
       buf ++ binary.PutUint64 (smpl_V s))
    samples buf.

(** [w.maxt = 0; for ... { if w.maxt < s.T { w.maxt = s.T } }]. *)
Definition encodeSamples_maxt (samples : list RefSample) : Z :=
  fold_left (fun maxt s => if maxt <? smpl_T s then smpl_T s else maxt) samples 0.

Definition SegmentWAL_encodeSamples (w : SegmentWAL) (samples : list RefSample)
  : SegmentWAL * option error :=
  match samples with
  | [] => (w, None)
  | first :: _ =>
      let buf := encodeSamples_buf first samples in
      let w := w_set_maxt w (encodeSamples_maxt samples) in
      SegmentWAL_entry w WALEntrySamples walSamplesSimple buf
  end.

Definition encodeDeletes_buf (stones : list Stone) : list byte :=
  fold_left
    (fun buf s =>
       fold_left
         (fun buf itv =>
            let eb := encbuf_reset [] in
            let eb := encbuf_putUvarint64 eb (stone_ref s) in
            let eb := encbuf_putVarint64 eb (itv_Mint itv) in
            let eb := encbuf_putVarint64 eb (itv_Maxt itv) in
            buf ++ encbuf_get eb)
         (stone_intervals s) buf)
    stones getWALBuffer.

Definition SegmentWAL_encodeDeletes (w : SegmentWAL) (stones : list Stone)
  : SegmentWAL * option error :=
  SegmentWAL_entry w WALEntryDeletes walDeletesSimple (encodeDeletes_buf stones).

Definition SegmentWAL_LogSeries (w : SegmentWAL) (series : list RefSeries)
  : SegmentWAL * option error :=
  match SegmentWAL_encodeSeries w series with
  | (w, Some e) => (w, Some e)
  | (w, None) => if w_flushInterval w <=? 0 then SegmentWAL_Sync w else (w, None)
  end.

Definition SegmentWAL_LogSamples (w : SegmentWAL) (samples : list RefSample)
  : SegmentWAL * option error :=
  match SegmentWAL_encodeSamples w samples with
  | (w, Some e) => (w, Some e)
  | (w, None) => if w_flushInterval w <=? 0 then SegmentWAL_Sync w else (w, None)
  end.

Definition SegmentWAL_LogDeletes (w : SegmentWAL) (stones : list Stone)
  : SegmentWAL * option error :=
  match SegmentWAL_encodeDeletes w stones with
  | (w, Some e) => (w, Some e)
  | (w, None) => if w_flushInterval w <=? 0 then SegmentWAL_Sync w else (w, None)
  end.

(** [initSegments]: open every segment file, then consume and validate the
    meta headers. *)
Fixpoint initSegments_open (fs : FS) (fns : list string) (files : list segmentFile)
  : FS * list segmentFile * option error :=
  match fns with
  | [] => (fs, files, None)
  | fn :: fns' =>
      match os_OpenFile fs fn with
      | (fs, Err e) => (fs, files, Some e)
      | (fs, Ok f) => initSegments_open fs fns' (files ++ [{| sf_f := f; sf_maxt := 0 |}])
      end
  end.

Fixpoint initSegments_validate (fs : FS) (files : list segmentFile) : FS * option error :=
  match files with
  | [] => (fs, None)
  | sf :: files' =>
      match File_Read fs (sf_f sf) 8 with
      | (fs, _, Some e) => (fs, Some (errors_Wrap e "validate meta %q"))
      | (fs, metab, None) =>
          if negb (len metab =? 8)
          then (fs, Some (errors_Errorf "invalid header size %d in %q" (len metab)))
          else if negb (binary.Uint32 (slice_to 4 metab) =? WALMagic)
          then (fs, Some (errors_Errorf "invalid magic header %x in %q"
                            (binary.Uint32 (slice_to 4 metab))))
          else if negb (byte.unsigned (index Byte.x00 metab 4) =? WALFormatDefault)
          then (fs, Some (errors_Errorf "unknown WAL segment format %d in %q"
                            (byte.unsigned (index Byte.x00 metab 4))))
          else initSegments_validate fs files'
      end
  end.

Definition SegmentWAL_initSegments (w : SegmentWAL) : SegmentWAL * option error :=
  let fns := sequenceFiles (w_fs w) (w_dirFile w) in
  match fns with
  | [] => (w, None)
  | _ =>
      match initSegments_open (w_fs w) fns (w_files w) with
      | (fs, files, Some e) => (w_set_files (w_set_fs w fs) files, Some e)
      | (fs, files, None) =>
          let w := w_set_files (w_set_fs w fs) files in
          let '(fs, err) := initSegments_validate (w_fs w) (w_files w) in
          (w_set_fs w fs, err)
      end
  end.

(** [OpenSegmentWAL(dir, logger, flushInterval)] on the file system [fs]. *)
Definition OpenSegmentWAL (fs : FS) (dir : string) (flushInterval : Z)
  : SegmentWAL * option error :=
  SegmentWAL_initSegments
    {| w_fs := fs; w_dirFile := dir; w_files := []; w_flushInterval := flushInterval;
       w_segmentSize := walSegmentSizeBytes; w_cur := None; w_curN := 0; w_maxt := 0 |}.

(** ** wal.go: the reader *)

(** What [Read] hands to the callbacks, in order. *)
Inductive delivery : Type :=
| seriesf (s : list RefSeries)
| samplesf (s : list RefSample)
| deletesf (s : list Stone).

Record walReader := {
  r_mint : Z;
  r_wal : SegmentWAL;
  r_cur : Z;
  r_buf : list byte;
  r_curType : Z;
  r_curFlag : Z;
  r_curBuf : list byte;
  r_err : option error
}.

Definition newWALReader (w : SegmentWAL) (mint : Z) : walReader :=
  {| r_mint := mint; r_wal := w; r_cur := 0; r_buf := [];
     r_curType := 0; r_curFlag := 0; r_curBuf := []; r_err := None |}.

Definition r_set_wal (r : walReader) (w : SegmentWAL) : walReader :=
  {| r_mint := r_mint r; r_wal := w; r_cur := r_cur r; r_buf := r_buf r;
     r_curType := r_curType r; r_curFlag := r_curFlag r; r_curBuf := r_curBuf r;
     r_err := r_err r |}.

Definition r_set_fs (r : walReader) (fs : FS) : walReader :=
  r_set_wal r (w_set_fs (r_wal r) fs).

Definition r_set_cur (r : walReader) (cur : Z) : walReader :=
  {| r_mint := r_mint r; r_wal := r_wal r; r_cur := cur; r_buf := r_buf r;
     r_curType := r_curType r; r_curFlag := r_curFlag r; r_curBuf := r_curBuf r;
     r_err := r_err r |}.

Definition r_set_buf (r : walReader) (buf : list byte) : walReader :=
  {| r_mint := r_mint r; r_wal := r_wal r; r_cur := r_cur r; r_buf := buf;
     r_curType := r_curType r; r_curFlag := r_curFlag r; r_curBuf := r_curBuf r;
     r_err := r_err r |}.

Definition r_set_err (r : walReader) (e : option error) : walReader :=
  {| r_mint := r_mint r; r_wal := r_wal r; r_cur := r_cur r; r_buf := r_buf r;
     r_curType := r_curType r; r_curFlag := r_curFlag r; r_curBuf := r_curBuf r;
     r_err := e |}.

Definition r_set_entry (r : walReader) (et flag : Z) (b : list byte) : walReader :=
  {| r_mint := r_mint r; r_wal := r_wal r; r_cur := r_cur r; r_buf := r_buf r;
     r_curType := et; r_curFlag := flag; r_curBuf := b; r_err := r_err r |}.

Definition walReader_Err (r : walReader) : option error := r_err r.

Definition walReader_at (r : walReader) : Z * Z * list byte :=
  (r_curType r, r_curFlag r, r_curBuf r).

(** The handle [r.wal.files[i].f]. *)
Definition walReader_file (r : walReader) (i : Z) : nat :=
  match w_files (r_wal r) !! Z.to_nat i with
  | Some sf => sf_f sf
  | None => 0%nat
  end.

Definition walReader_current (r : walReader) : nat := walReader_file r (r_cur r).

(** [entry(cr)]: one framed entry from the file [cr].  The result is the
    type, the flag and the payload, or the error. *)
Definition walReader_entry (r : walReader) (cr : nat)
  : walReader * result (Z * Z * list byte) :=
  let crc := crc32.Reset in
  match File_Read (w_fs (r_wal r)) cr 6 with
  | (fs, _, Some e) => (r_set_fs r fs, Err e)
  | (fs, b, None) =>
      let r := r_set_fs r fs in
      let crc := crc32.Write crc b in
      if negb (len b =? 6)
      then (r, Err (walCorruptionErr "invalid entry header size %d" (len b)))
      else
        let etype := byte.unsigned (index Byte.x00 b 0) in
        let flag := byte.unsigned (index Byte.x00 b 1) in
        let length := binary.Uint32 (slice_from 2 b) in
        (* Exit if we reached pre-allocated space. *)
        if etype =? 0 then (r, Err io_EOF)
        else if negb (etype =? WALEntrySeries) && negb (etype =? WALEntrySamples)
                && negb (etype =? WALEntryDeletes)
        then (r, Err (walCorruptionErr "invalid entry type %d" etype))
        else
          let r := if len (r_buf r) <? length
                   then r_set_buf r (zeros (Z.to_nat length)) else r in
          match File_Read (w_fs (r_wal r)) cr length with
          | (fs, got, Some e) => (r_set_fs r fs, Err e)
          | (fs, got, None) =>
              let r := r_set_fs r fs in
              let r := r_set_buf r (got ++ slice_from (len got) (r_buf r)) in
              let buf := slice_to length (r_buf r) in
              let crc := crc32.Write crc got in
              if negb (len got =? length)
              then (r, Err (walCorruptionErr "invalid entry body size %d" (len got)))
              else
                match File_Read (w_fs (r_wal r)) cr 4 with
                | (fs, _, Some e) => (r_set_fs r fs, Err e)
                | (fs, b4, None) =>
                    let r := r_set_fs r fs in
                    if negb (len b4 =? 4)
                    then (r, Err (walCorruptionErr "invalid checksum length %d" (len b4)))
                    else
                      let exp := binary.Uint32 b4 in
                      let has := crc in
                      if negb (has =? exp)
                      then (r, Err (walCorruptionErr
                                      "unexpected CRC32 checksum %x, want %x" has))
                      else (r, Ok (etype, flag, buf))
                end
          end
  end.

(** [_, ok := err.(walCorruptionErr)].  The type is declared as
    [type walCorruptionErr error], an interface type with the method set of
    [error]: the assertion holds for every non-nil error. *)
Definition is_walCorruptionErr (e : error) : bool := true.

(** [truncate(lastOffset)]: close and delete all files after the current
    one, then seek the current file to the last valid offset. *)
Fixpoint walReader_truncate_files (fs : FS) (files : list segmentFile) : FS * option error :=
  match files with
  | [] => (fs, None)
  | sf :: files' =>
      match File_Close fs (sf_f sf) with
      | (fs, Some e) => (fs, Some e)
      | (fs, None) =>
          match os_Remove fs (File_Name fs (sf_f sf)) with
          | (fs, Some e) => (fs, Some e)
          | (fs, None) => walReader_truncate_files fs files'
          end
      end
  end.

Definition walReader_truncate (r : walReader) (lastOffset : Z) : walReader * option error :=
  let w := r_wal r in
  match walReader_truncate_files (w_fs w) (drop (Z.to_nat (r_cur r + 1)) (w_files w)) with
  | (fs, Some e) => (r_set_fs r fs, Some e)
  | (fs, None) =>
      let w := w_set_files (w_set_fs w fs) (take (Z.to_nat (r_cur r + 1)) (w_files w)) in
      let r := r_set_wal r w in
      let '(fs, err) := File_Seek_set (w_fs w) (walReader_current r) lastOffset in
      (r_set_fs r fs, err)
  end.

(** [next]: the next entry, if any.  It calls itself after moving to the
    next segment; [fuel] bounds the segments left. *)
Fixpoint walReader_next_aux (fuel : nat) (r : walReader) : walReader * bool :=
  match fuel with
  | O => (r, false)
  | Datatypes.S fuel' =>
      if len (w_files (r_wal r)) <=? r_cur r then (r, false)
      else
        let cf := walReader_file r (r_cur r) in
        (* Save position after last valid entry if we have to truncate the WAL. *)
        match File_Seek_cur (w_fs (r_wal r)) cf with
        | Err e => (r_set_err r (Some e), false)
        | Ok lastOffset =>
            match walReader_entry r cf with
            | (r, Err io_EOF) =>
                if r_cur r =? len (w_files (r_wal r)) - 1 then (r, false)
                else
                  (* Current reader completed, close and move to the next one. *)
                  match File_Close (w_fs (r_wal r)) cf with
                  | (fs, Some e) => (r_set_err (r_set_fs r fs) (Some e), false)
                  | (fs, None) =>
                      walReader_next_aux fuel' (r_set_cur (r_set_fs r fs) (r_cur r + 1))
                  end
            | (r, Err e) =>
                let r := r_set_err r (Some e) in
                if is_walCorruptionErr e then
                  let '(r, err) := walReader_truncate r lastOffset in
                  (r_set_err r err, false)
                else (r, false)
            | (r, Ok (et, flag, b)) =>
                let r := r_set_entry r et flag b in
                (r, match r_err r with None => true | Some _ => false end)
            end
        end
  end.

Definition walReader_next (r : walReader) : walReader * bool :=
  walReader_next_aux (Datatypes.S (length (w_files (r_wal r)))) r.

(** [decodeSeries]. *)
Fixpoint decodeSeries_labels (n : nat) (b : list byte) (lset : Labels)
  : result (Labels * list byte) :=
  match n with
  | O => Ok (lset, b)
  | Datatypes.S n' =>
      let '(nl, n) := binary.Uvarint b in
      let hi := int64 (n + int64 nl) in
      if (n <? 1) || (len b <? hi) then Err (errors_Wrap errInvalidSize "label name")
      else if hi <? n then Err (panic "slice bounds out of range")
      else
        let name := string_of_list_byte (slice_to (hi - n) (slice_from n b)) in
        let b := slice_from hi b in
        let '(vl, n) := binary.Uvarint b in
        let hi := int64 (n + int64 vl) in
        if (n <? 1) || (len b <? hi) then Err (errors_Wrap errInvalidSize "label value")
        else if hi <? n then Err (panic "slice bounds out of range")
        else
          let value := string_of_list_byte (slice_to (hi - n) (slice_from n b)) in
          let b := slice_from hi b in
          decodeSeries_labels n' b (lset ++ [{| lbl_Name := name; lbl_Value := value |}])
  end.

Fixpoint decodeSeries_loop (fuel : nat) (b : list byte) (series : list RefSeries)
  : result (list RefSeries) :=
  match fuel with
  | O => Ok series
  | Datatypes.S fuel' =>
      if 0 <? len b then
        if len b <? 8 then Err (errors_Wrap errInvalidSize "series ref")
        else
          let ref := binary.Uint64 b in
          let b := slice_from 8 b in
          let '(l, n) := binary.Uvarint b in
          if n <? 1 then Err (errors_Wrap errInvalidSize "number of labels")
          else
            let b := slice_from n b in
            if negb (makeslice_ok 32 l) then Err (panic "makeslice: len out of range")
            else
              match decodeSeries_labels (Z.to_nat (int64 l)) b [] with
              | Err e => Err e
              | Ok (lset, b) =>
                  decodeSeries_loop fuel' b (series ++ [{| rs_Ref := ref; rs_Labels := lset |}])
              end
      else Ok series
  end.

Definition walReader_decodeSeries (flag : Z) (b : list byte) : result (list RefSeries) :=
  if len b <? 8 then Err (errors_Wrap errInvalidSize "header length")
  else
    let b := slice_from 8 b in
    decodeSeries_loop (length b) b [].

(** [decodeSamples]. *)
Fixpoint decodeSamples_loop (fuel : nat) (baseRef baseTime : Z) (b : list byte)
    (samples : list RefSample) : result (list RefSample) :=
  match fuel with
  | O => Ok samples
  | Datatypes.S fuel' =>
      if 0 <? len b then
        let '(dref, n) := binary.Varint b in
        if n <? 1 then Err (errors_Wrap errInvalidSize "sample ref delta")
        else
          let b := slice_from n b in
          let ref := uint64 (int64 (int64 baseRef + dref)) in
          let '(dtime, n) := binary.Varint b in
          if n <? 1 then Err (errors_Wrap errInvalidSize "sample timestamp delta")
          else
            let b := slice_from n b in
            let t := int64 (baseTime + dtime) in
            if len b <? 8 then Err (errors_Wrap errInvalidSize "sample value bits %d")
            else
              let v := binary.Uint64 b in
              let b := slice_from 8 b in
              decodeSamples_loop fuel' baseRef baseTime b
                (samples ++ [{| smpl_Ref := ref; smpl_T := t; smpl_V := v |}])
      else Ok samples
  end.

Definition walReader_decodeSamples (flag : Z) (b : list byte) : result (list RefSample) :=
  if len b <? 16 then Err (errors_Wrap errInvalidSize "header length")
  else
    let baseRef := binary.Uint64 b in
    let baseTime := int64 (binary.Uint64 (slice_from 8 b)) in
    let b := slice_from 16 b in
    decodeSamples_loop (length b) baseRef baseTime b [].

(** Modelled from the spec: the decoder mirror methods [uvarint64] and
    [varint64], with the sticky error on a short read or an overflow. *)
Definition decbuf_uvarint64 (d : decbuf) : Z * decbuf := decbuf_readUvarint d.

Definition decbuf_varint64 (d : decbuf) : Z * decbuf :=
  match d_e d with
  | Some _ => (0, d)
  | None =>
      let '(x, n) := binary.Varint (d_b d) in
      if n <? 1 then (0, {| d_b := d_b d; d_e := Some errInvalidSize |})
      else (x, {| d_b := slice_from n (d_b d); d_e := None |})
  end.

(** [decodeDeletes]. *)
Fixpoint decodeDeletes_loop (fuel : nat) (db : decbuf) (stones : list Stone)
  : result (list Stone) :=
  match fuel with
  | O => Ok stones
  | Datatypes.S fuel' =>
      if 0 <? decbuf_len db then
        let '(ref, db) := decbuf_uvarint64 db in
        let '(mint, db) := decbuf_varint64 db in
        let '(maxt, db) := decbuf_varint64 db in
        match decbuf_err db with
        | Some e => Err e
        | None =>
            decodeDeletes_loop fuel' db
              (stones ++ [{| stone_ref := ref;
                             stone_intervals := [{| itv_Mint := mint; itv_Maxt := maxt |}] |}])
        end
      else Ok stones
  end.

Definition walReader_decodeDeletes (flag : Z) (b : list byte) : result (list Stone) :=
  decodeDeletes_loop (length b) {| d_b := b; d_e := None |} [].

(** The samples branch of [Read]: the samples at or after [mint], and the
    maximum time of the segment raised to theirs. *)
Definition Read_validSamples (mint : Z) (maxt : Z) (s : list RefSample)
  : Z * list RefSample :=
  fold_left
    (fun '(maxt, valid) smpl =>
       if smpl_T smpl <? mint then (maxt, valid)
       else ((if maxt <? smpl_T smpl then smpl_T smpl else maxt), valid ++ [smpl]))
    s (maxt, []).

(** One turn of the loop of [Read], after [next] has returned true. *)
Definition walReader_Read_step (r : walReader) (out : list delivery)
  : walReader * list delivery * option error :=
  let '(et, flag, b) := walReader_at r in
  if et =? WALEntrySeries then
    match walReader_decodeSeries flag b with
    | Err e => (r, out, Some e)
    | Ok s => (r, out ++ [seriesf s], None)
    end
  else if et =? WALEntrySamples then
    match walReader_decodeSamples flag b with
    | Err e => (r, out, Some e)
    | Ok s =>
        (* Update the times for the wal segment file and select only valid samples. *)
        let files := w_files (r_wal r) in
        match files !! Z.to_nat (r_cur r) with
        | None => (r, out, Some (panic "index out of range"))
        | Some cf =>
            let '(maxt, validSamples) := Read_validSamples (r_mint r) (sf_maxt cf) s in
            let files := <[Z.to_nat (r_cur r) := {| sf_f := sf_f cf; sf_maxt := maxt |}]> files in
            (r_set_wal r (w_set_files (r_wal r) files), out ++ [samplesf validSamples], None)
        end
    end
  else if et =? WALEntryDeletes then
    match walReader_decodeDeletes flag b with
    | Err e => (r, out, Some e)
    | Ok s => (r, out ++ [deletesf s], None)
    end
  else (r, out, None).

(** [for r.next() { ... }; return r.Err()]. *)
Fixpoint walReader_Read_loop (fuel : nat) (r : walReader) (out : list delivery)
  : walReader * list delivery * option error :=
  match fuel with
  | O => (r, out, walReader_Err r)
  | Datatypes.S fuel' =>
      match walReader_next r with
      | (r, false) => (r, out, walReader_Err r)
      | (r, true) =>
          match walReader_Read_step r out with
          | (r, out, Some e) => (r, out, Some e)
          | (r, out, None) => walReader_Read_loop fuel' r out
          end
      end
  end.

(** The bytes a handle has left to read. *)
Definition fs_remaining (fs : FS) (fd : nat) : list byte :=
  match fs_fds fs !! fd with
  | Some f => slice_from (f_pos f) (fs_data fs (f_ino f))
  | None => []
  end.

(** Every entry [next] returns takes at least ten bytes of a segment, so the
    bytes the segments have left to read bound the turns of the loop. *)
Definition walReader_remaining (r : walReader) : nat :=
  fold_left (fun n sf => (n + length (fs_remaining (w_fs (r_wal r)) (sf_f sf)))%nat)
            (w_files (r_wal r)) 0%nat.

Definition walReader_Read (r : walReader) : walReader * list delivery * option error :=
  walReader_Read_loop (Datatypes.S (walReader_remaining r)) r [].

(** [Reader(mint)]. *)
Definition SegmentWAL_Reader (w : SegmentWAL) (mint : Z) : walReader :=
  newWALReader w mint.

(** ** wal.go: Truncate *)

(** The loop over the series of one entry: [None] stands for
    [break WRLoop]. *)
Fixpoint Truncate_activeSeries (p : Postings) (series : list RefSeries)
    (activeSeries : list RefSeries) : Postings * option (list RefSeries) :=
  match series with
  | [] => (p, Some activeSeries)
  | s :: rest =>
      let '(ok, p) := Postings_Seek p (rs_Ref s) in
      if negb ok then (p, None)
      else
        let activeSeries :=
          if Postings_At p =? rs_Ref s then activeSeries ++ [s] else activeSeries in
        Truncate_activeSeries p rest activeSeries
  end.

(** [WRLoop: for wr.next() { ... }]; the error, if any, is the one
    [Truncate] returns from inside the loop. *)
Fixpoint Truncate_loop (fuel : nat) (wr : walReader) (p : Postings) (newF : nat)
  : walReader * option error :=
  match fuel with
  | O => (wr, None)
  | Datatypes.S fuel' =>
      match walReader_next wr with
      | (wr, false) => (wr, None)
      | (wr, true) =>
          let '(rt, flag, byt) := walReader_at wr in
          if negb (rt =? WALEntrySeries) then Truncate_loop fuel' wr p newF
          else
            match walReader_decodeSeries flag byt with
            | Err e => (wr, Some (errors_Wrap e "decode samples while truncating"))
            | Ok series =>
                match Truncate_activeSeries p series [] with
                | (p, None) => (wr, None)
                | (p, Some []) => Truncate_loop fuel' wr p newF
                | (p, Some activeSeries) =>
                    let buf := getWALBuffer in
                    let buf := encodeSeries buf activeSeries in
                    match File_Write (w_fs (r_wal wr)) newF buf with
                    | (fs, Some e) => (r_set_fs wr fs, Some (errors_Wrap e "write series"))
                    | (fs, None) => Truncate_loop fuel' (r_set_fs wr fs) p newF
                    end
                end
            end
      end
  end.

Fixpoint Truncate_remove (fs : FS) (delFiles : list segmentFile) : FS * option error :=
  match delFiles with
  | [] => (fs, None)
  | f :: rest =>
      match os_RemoveAll fs (File_Name fs (sf_f f)) with
      | (fs, Some e) => (fs, Some (errors_Wrap e "delete WAL segment file"))
      | (fs, None) => Truncate_remove fs rest
      end
  end.

(** The candidate segments: those whose tracked [maxt] is before [mint]. *)
Definition Truncate_delFiles (w : SegmentWAL) (mint : Z) : list segmentFile :=
  List.filter (fun f => sf_maxt f <? mint) (w_files w).

Definition SegmentWAL_Truncate (w : SegmentWAL) (mint : Z) (p : Postings)
  : SegmentWAL * option error :=
  let delFiles := Truncate_delFiles w mint in
  match delFiles with
  | [] => (w, None)
  | first :: _ =>
      let tempWAL :=
        {| w_fs := w_fs w; w_dirFile := EmptyString; w_files := delFiles;
           w_flushInterval := 0; w_segmentSize := 0; w_cur := None; w_curN := 0;
           w_maxt := 0 |} in
      let wr := newWALReader tempWAL 0 in
      (* Create a new tmp file. *)
      let '(fs, newF) :=
        os_Create (w_fs (r_wal wr)) (String.append (File_Name (w_fs w) (sf_f first)) ".tmp") in
      let wr := r_set_fs wr fs in
      (* Write header metadata for new file. *)
      match File_Write (w_fs (r_wal wr)) newF segment_header with
      | (fs, Some e) => (w_set_fs w fs, Some e)
      | (fs, None) =>
          let wr := r_set_fs wr fs in
          match Truncate_loop (Datatypes.S (walReader_remaining wr)) wr p newF with
          | (wr, Some e) => (w_set_fs w (w_fs (r_wal wr)), Some e)
          | (wr, None) =>
              let fs := w_fs (r_wal wr) in
              match File_Close fs newF with
              | (fs, Some e) => (w_set_fs w fs, Some (errors_Wrap e "close tmp file"))
              | (fs, None) =>
                  let target :=
                    match w_files w with
                    | f0 :: _ => File_Name fs (sf_f f0)
                    | [] => EmptyString
                    end in
                  match renameFile fs (File_Name fs newF) target with
                  | (fs, Some e) => (w_set_fs w fs, Some e)
                  | (fs, None) =>
                      let '(fs, err) := Truncate_remove fs (drop 1 delFiles) in
                      (w_set_fs w fs, err)
                  end
              end
          end
      end
  end.

(** [Close] syncs all data and closes the tail. *)
Definition SegmentWAL_Close (w : SegmentWAL) : SegmentWAL * option error :=
  match SegmentWAL_sync w with
  | (w, Some e) => (w, Some e)
  | (w, None) =>
      match SegmentWAL_tail w with
      | None => (w, None)
      | Some tf =>
          let '(fs, err) := File_Close (w_fs w) tf in
          (w_set_fs w fs, errors_Wrap_opt err "closing WAL tail %s")
      end
  end.

(** ** Well-formed values

    The ranges the Go types give to the fields. *)

Definition RefSample_wf (s : RefSample) : Prop :=
  is_uint64 (smpl_Ref s) /\ is_int64 (smpl_T s) /\ is_uint64 (smpl_V s).

(** The bytes [encodeSamples] appends for one sample of a batch that starts
    with [first]. *)
Definition encodeSamples_one (first s : RefSample) : list byte :=
  binary.PutVarint (int64 (int64 (smpl_Ref s) - int64 (smpl_Ref first)))
  ++ binary.PutVarint (int64 (smpl_T s - smpl_T first))
  ++ binary.PutUint64 (smpl_V s).

(** A writer whose output so far is [n] zero bytes, for the behaviour of
    [write] next to the 4 GiB boundary. *)
Definition indexWriter_at (n : nat) : indexWriter :=
  {| iw_fbuf := zeros n; iw_pos := Z.of_nat n;
     iw_toc := {| toc_symbols := 0; toc_series := 0; toc_labelIndices := 0;
                  toc_labelIndicesTable := 0; toc_postings := 0;
                  toc_postingsTable := 0 |};
     iw_stage := idxStagePopulate;
     iw_series := ∅; iw_symbols := ∅;
     iw_labelIndexes := []; iw_postings := [];
     iw_closed := false |}.

Definition almost_4GiB : nat := Z.to_nat (2 ^ 32 - 2).

(** ** Example runs *)

(** A sequence of writer calls, stopped by the first error. *)
Definition indexWriter_run (ops : list (indexWriter -> indexWriter * option error))
  : indexWriter * option error :=
  fold_left (fun x f => match x with
                        | (w, None) => f w
                        | (w, Some e) => (w, Some e)
                        end) ops newIndexWriter.

Definition example_chunk (ref : Z) : ChunkMeta :=
  {| chk_Ref := ref; chk_MinTime := 0; chk_MaxTime := 1000; chk_Encoding := Byte.x01;
     chk_Data := [Byte.x2a] |}.

Definition example_series : list (Z * Labels) :=
  [ (1, [ {| lbl_Name := "__name__"; lbl_Value := "a" |};
          {| lbl_Name := "foo"; lbl_Value := "bar" |} ]);
    (2, [ {| lbl_Name := "__name__"; lbl_Value := "a" |};
          {| lbl_Name := "foo"; lbl_Value := "baz" |} ]);
    (3, [ {| lbl_Name := "__name__"; lbl_Value := "b" |} ]) ].

Definition example_AddSeries : list (indexWriter -> indexWriter * option error) :=
  map (fun '(ref, lset) w => indexWriter_AddSeries w ref lset [example_chunk (100 * ref)])
      example_series.

(** Three series, the label index of [foo] and three postings lists. *)
Definition example_index : indexWriter * option error :=
  indexWriter_run
    (example_AddSeries ++
     [ (fun w => indexWriter_WriteLabelIndex rangeSeries_map w ["foo"] ["baz"; "bar"]);
       (fun w => indexWriter_WritePostings rangeSeries_map w "__name__" "a"
                   (newListPostings [2; 1]));
       (fun w => indexWriter_WritePostings rangeSeries_map w "__name__" "b"
                   (newListPostings [3]));
       (fun w => indexWriter_WritePostings rangeSeries_map w "foo" "bar"
                   (newListPostings [1]));
       indexWriter_Close rangeSeries_map ])%list.

(** The same series with a label index over two names, a label index with a
    value that is no symbol, a postings list for a label pair that series 3
    does not have, and a postings list that names series 1 twice. *)
Definition example_index2 : indexWriter * option error :=
  indexWriter_run
    (example_AddSeries ++
     [ (fun w => indexWriter_WriteLabelIndex rangeSeries_map w ["__name__"; "foo"]
                   ["a"; "bar"; "a"; "baz"]);
       (fun w => indexWriter_WriteLabelIndex rangeSeries_map w ["foo"] ["nope"]);
       (fun w => indexWriter_WritePostings rangeSeries_map w "foo" "bar"
                   (newListPostings [1; 3]));
       (fun w => indexWriter_WritePostings rangeSeries_map w "__name__" "a"
                   (newListPostings [1; 2; 1]));
       indexWriter_Close rangeSeries_map ])%list.

Definition example_bytes : list byte := iw_fbuf (fst example_index).
Definition example_bytes2 : list byte := iw_fbuf (fst example_index2).

(** What the reader over [b] gives for [(name, value)]: the offsets of the
    postings list, each with the result of [Series]. *)
Definition query (b : list byte) (name value : string)
  : result (list (Z * result (Labels * list ChunkMeta))) :=
  match newIndexReader b with
  | Err e => Err e
  | Ok r =>
      match indexReader_Postings r name value with
      | Err e => Err e
      | Ok p => Ok (map (fun o => (o, indexReader_Series r o)) (Postings_values p))
      end
  end.

(** The tuples of the label index of [names]: its [Len] and [At(i)] for the
    given indices. *)
Definition query_labels (b : list byte) (names : list string) (idxs : list Z)
  : result (result Z * list (result (list string))) :=
  match newIndexReader b with
  | Err e => Err e
  | Ok r =>
      match indexReader_LabelValues r names with
      | Err e => Err e
      | Ok t => Ok (StringTuples_Len t, map (StringTuples_At t) idxs)
      end
  end.

Definition example_reader : indexReader :=
  match newIndexReader example_bytes with
  | Ok r => r
  | Err _ => {| ir_b := []; ir_toc := iw_toc (indexWriter_at 0); ir_labels := ∅;
                ir_postings := ∅ |}
  end.

Definition example_tuples : serializedStringTuples :=
  match indexReader_LabelValues example_reader ["foo"] with
  | Ok (serializedTuples t) => t
  | _ => {| sst_l := 0; sst_b := []; sst_rb := [] |}
  end.

(** A log with 64-byte segments that holds one entry of 110 bytes: the
    entry was larger than a segment and went into the segment that [entry]
    cut for it, so the write position is beyond the segment size. *)
Definition example_wal_small : SegmentWAL :=
  w_set_segmentSize (fst (OpenSegmentWAL fs_empty "wal" 1)) 64.

Definition example_wal_oversize : SegmentWAL :=
  fst (SegmentWAL_entry example_wal_small WALEntrySamples walSamplesSimple (zeros 100)).

(** ** The bytes of the segment being written *)

(** The bytes a buffered writer has put into its file so far, those still
    in its buffer included: the file up to the position of the handle, then
    the buffer. *)
Definition bufio_stream (fs : FS) (b : bufio_Writer) : list byte :=
  match fs_fds fs !! bw_wr b with
  | Some f =>
      let data := fs_data fs (f_ino f) in
      slice_to (f_pos f) (data ++ zeros (Z.to_nat (f_pos f) - length data)) ++ bw_buf b
  | None => bw_buf b
  end.

Definition SegmentWAL_stream (w : SegmentWAL) : list byte :=
  match w_cur w with
  | Some b => bufio_stream (w_fs w) b
  | None => []
  end.

(** A valid file system: names and handles lead to inodes that exist and no
    position is negative. *)
Definition FS_wf (fs : FS) : Prop :=
  (forall name ino, fs_dir fs !! name = Some ino -> (ino < length (fs_inodes fs))%nat)
  /\ (forall fd f, fs_fds fs !! fd = Some f ->
                   (f_ino f < length (fs_inodes fs))%nat /\ 0 <= f_pos f).

Definition fd_open (fs : FS) (fd : nat) : Prop :=
  exists f, fs_fds fs !! fd = Some f /\ f_closed f = false.

(** A log that can be written to: the tail and the file of the buffered
    writer are open and the writer has no pending error. *)
Definition SegmentWAL_writable (w : SegmentWAL) : Prop :=
  FS_wf (w_fs w)
  /\ (forall tf, SegmentWAL_tail w = Some tf -> fd_open (w_fs w) tf)
  /\ (forall b, w_cur w = Some b -> bw_err b = None /\ fd_open (w_fs w) (bw_wr b)).

(** The frame of an entry: header, payload and checksum. *)
Definition entry_frame (et flag : Z) (buf : list byte) : list byte :=
  entry_header et flag buf ++ buf
  ++ crc32.Sum (crc32.Write (crc32.Write crc32.Reset (entry_header et flag buf)) buf) [].

(** The same check as [FS_wf], computed. *)
Definition FS_wfb (fs : FS) : bool :=
  forallb (fun '(_, ino) => (ino <? length (fs_inodes fs))%nat) (map_to_list (fs_dir fs))
  && forallb (fun f => (f_ino f <? length (fs_inodes fs))%nat && (0 <=? f_pos f))
             (fs_fds fs).

(** What a write of the buffered writer keeps: a valid file system, its
    file open, every open handle open and the table of handles as long. *)
Definition bufio_keeps (fs : FS) (b : bufio_Writer) (fs' : FS) (b' : bufio_Writer) : Prop :=
  FS_wf fs'
  /\ bw_wr b' = bw_wr b /\ bw_size b' = bw_size b /\ bw_err b' = None
  /\ fd_open fs' (bw_wr b')
  /\ (forall x, fd_open fs x -> fd_open fs' x)
  /\ length (fs_fds fs') = length (fs_fds fs).


(** ** Segment streams

    What a reader finds in a segment: framed entries, then the end of the
    segment or a torn frame. *)

Record wal_entry := { e_type : Z; e_flag : Z; e_buf : list byte }.

(** An entry as [entry] writes it: a type the reader knows, a flag byte and
    a payload whose length fits the four length bytes. *)
Definition wal_entry_ok (e : wal_entry) : Prop :=
  (e_type e = WALEntrySeries \/ e_type e = WALEntrySamples \/ e_type e = WALEntryDeletes)
  /\ 0 <= e_flag e < 256
  /\ len (e_buf e) < 2 ^ 32.

Definition wal_frames (es : list wal_entry) : list byte :=
  concat (map (fun e => entry_frame (e_type e) (e_flag e) (e_buf e)) es).

(** What [Read] hands to the callbacks for one entry. *)
Definition wal_entry_delivery (mint : Z) (e : wal_entry) : result delivery :=
  if e_type e =? WALEntrySeries then
    match walReader_decodeSeries (e_flag e) (e_buf e) with
    | Err x => Err x
    | Ok s => Ok (seriesf s)
    end
  else if e_type e =? WALEntrySamples then
    match walReader_decodeSamples (e_flag e) (e_buf e) with
    | Err x => Err x
    | Ok s => Ok (samplesf (snd (Read_validSamples mint 0 s)))
    end
  else
    match walReader_decodeDeletes (e_flag e) (e_buf e) with
    | Err x => Err x
    | Ok s => Ok (deletesf s)
    end.

Definition wal_deliveries (mint : Z) (es : list wal_entry) : list delivery :=
  omap (fun e => match wal_entry_delivery mint e with
                 | Ok d => Some d
                 | Err _ => None
                 end) es.

Definition wal_entry_decodes (mint : Z) (e : wal_entry) : Prop :=
  exists d, wal_entry_delivery mint e = Ok d.

(** The type byte and the declared length of the six header bytes [hdr]. *)
Definition header_type (hdr : list byte) : Z := byte.unsigned (index Byte.x00 hdr 0).
Definition header_length (hdr : list byte) : Z := binary.Uint32 (slice_from 2 hdr).

Definition known_type (t : Z) : Prop :=
  t = WALEntrySeries \/ t = WALEntrySamples \/ t = WALEntryDeletes.

(** The torn frames of the claim, on the bytes [rest] a segment has left:
    a short header; an entry type not in {2, 3, 4}; a body shorter than the
    declared length; a checksum that does not match. *)
Definition claimed_torn (rest : list byte) : Prop :=
  0 < len rest < 6
  \/ (6 <= len rest /\ ~ known_type (header_type rest))
  \/ (6 <= len rest /\ known_type (header_type rest)
      /\ len rest < 6 + header_length rest)
  \/ (exists hdr body c more,
        rest = hdr ++ body ++ c ++ more
        /\ len hdr = 6 /\ known_type (header_type hdr)
        /\ len body = header_length hdr /\ len c = 4
        /\ binary.Uint32 c <> crc32.Write (crc32.Write crc32.Reset hdr) body).

(** The torn frames on which the reader truncates: a header of one to five
    bytes; a complete header with a type not in {0, 2, 3, 4}; a body that is
    there in part; a checksum of one to three bytes; a checksum that does
    not match. *)
Definition torn (rest : list byte) : Prop :=
  0 < len rest < 6
  \/ (6 <= len rest /\ ~ known_type (header_type rest) /\ header_type rest <> 0)
  \/ (6 <= len rest /\ known_type (header_type rest)
      /\ 6 < len rest < 6 + header_length rest)
  \/ (6 <= len rest /\ known_type (header_type rest)
      /\ 6 + header_length rest < len rest < 6 + header_length rest + 4)
  \/ (exists hdr body c more,
        rest = hdr ++ body ++ c ++ more
        /\ len hdr = 6 /\ known_type (header_type hdr)
        /\ len body = header_length hdr /\ len c = 4
        /\ binary.Uint32 c <> crc32.Write (crc32.Write crc32.Reset hdr) body).

(** The end of a segment that is not the last: the end of the file, or the
    zero type byte of preallocated space. *)
Definition segment_end (rest : list byte) : Prop :=
  rest = [] \/ (6 <= len rest /\ header_type rest = 0).

(** The handle [fd] is open with [rest] left to read. *)
Definition seg_at (fs : FS) (fd : nat) (rest : list byte) : Prop :=
  fd_open fs fd /\ fs_remaining fs fd = rest.

(** The segments a reader still has to read, by handle: each holds its
    entries up to the end of the segment, the last holds its entries and then
    the bytes [tail]. *)
Fixpoint segs_at (fs : FS) (fds : list nat) (segs : list (list wal_entry))
    (tail : list byte) : Prop :=
  match fds, segs with
  | [fd], [es] => seg_at fs fd (wal_frames es ++ tail)
  | fd :: fds', es :: segs' =>
      (exists z, seg_at fs fd (wal_frames es ++ z) /\ segment_end z)
      /\ segs_at fs fds' segs' tail
  | _, _ => False
  end.

(** The segments after the one with the torn frame: open, and in the
    directory under names of their own. *)
Definition later_segments (fs : FS) (fds : list nat) : Prop :=
  Forall (fun fd => fd_open fs fd /\ is_Some (fs_dir fs !! File_Name fs fd)) fds
  /\ NoDup (map (File_Name fs) fds).

(** A handle that was closed and whose name is gone from the directory. *)
Definition closed_and_removed (fs : FS) (fd : nat) : Prop :=
  (exists f, fs_fds fs !! fd = Some f /\ f_closed f = true
             /\ fs_dir fs !! f_name f = None).

Definition reader_fds (r : walReader) : list nat := map sf_f (w_files (r_wal r)).

(** The file systems [fs] and [fs'] differ at most in the handle [fd], which
    keeps its name and its file. *)
Definition fs_same_except (fs fs' : FS) (fd : nat) : Prop :=
  fs_inodes fs' = fs_inodes fs
  /\ fs_dir fs' = fs_dir fs
  /\ (forall x, x <> fd -> fs_fds fs' !! x = fs_fds fs !! x)
  /\ File_Name fs' fd = File_Name fs fd
  /\ f_ino <$> fs_fds fs' !! fd = f_ino <$> fs_fds fs !! fd.

(** The reader [r'] is [r] but for the handle [fd], the buffer and the
    current entry. *)
Definition reader_moved (r r' : walReader) (fd : nat) : Prop :=
  r_mint r' = r_mint r /\ r_cur r' = r_cur r /\ r_err r' = r_err r
  /\ w_files (r_wal r') = w_files (r_wal r)
  /\ FS_wf (w_fs (r_wal r'))
  /\ fs_same_except (w_fs (r_wal r)) (w_fs (r_wal r')) fd.

(** A reader in the middle of a replay: the handles [pre] are done with, the
    handles [cur] hold the entries [segs] still to read and then [tail], the
    handles [later] are the segments after them. *)
Definition reading (mint : Z) (r : walReader) (pre cur later : list nat)
    (segs : list (list wal_entry)) (tail : list byte) : Prop :=
  FS_wf (w_fs (r_wal r))
  /\ r_mint r = mint
  /\ r_err r = None
  /\ r_cur r = len pre
  /\ reader_fds r = pre ++ cur ++ later
  /\ segs_at (w_fs (r_wal r)) cur segs tail
  /\ NoDup (cur ++ later)
  /\ later_segments (w_fs (r_wal r)) later.

(** A log of three segments for the replay: a series entry and then
    preallocated space; a samples entry and then three bytes of a header;
    a segment after the torn one. *)
Definition example_series_entry : wal_entry :=
  {| e_type := WALEntrySeries; e_flag := walSeriesSimple;
     e_buf := encodeSeries getWALBuffer
                [{| rs_Ref := 1;
                    rs_Labels := [{| lbl_Name := "job"; lbl_Value := "api" |}] |}] |}.

Definition example_samples_entry : wal_entry :=
  {| e_type := WALEntrySamples; e_flag := walSamplesSimple;
     e_buf := encodeSamples_buf {| smpl_Ref := 1; smpl_T := 10; smpl_V := 7 |}
                [{| smpl_Ref := 1; smpl_T := 10; smpl_V := 7 |};
                 {| smpl_Ref := 1; smpl_T := 20; smpl_V := 8 |}] |}.

Definition example_torn_tail : list byte := [Byte.x03; Byte.x01; Byte.x00].

Definition example_segment_file (name : string) (ino : nat) : File :=
  {| f_name := name; f_ino := ino; f_pos := len segment_header; f_closed := false |}.

Definition example_replay_wal (inodes : list (list byte)) : SegmentWAL :=
  {| w_fs := {| fs_inodes := inodes;
                fs_dir := list_to_map (imap (fun i _ => (path_Join "wal" (format_seq i), i)) inodes);
                fs_fds := imap (fun i _ =>
                                  example_segment_file (path_Join "wal" (format_seq i)) i)
                               inodes |};
     w_dirFile := "wal";
     w_files := imap (fun i _ => {| sf_f := i; sf_maxt := 0 |}) inodes;
     w_flushInterval := 0; w_segmentSize := walSegmentSizeBytes;
     w_cur := None; w_curN := 0; w_maxt := 0 |}.

Definition example_replay_torn : walReader :=
  SegmentWAL_Reader
    (example_replay_wal
       [segment_header ++ wal_frames [example_series_entry] ++ zeros 16;
        segment_header ++ wal_frames [example_samples_entry] ++ example_torn_tail;
        segment_header ++ wal_frames [example_series_entry]]) 0.

(** A segment that ends in a complete header with the type byte zero, and
    a segment after it. *)
Definition example_replay_zero_type : walReader :=
  SegmentWAL_Reader
    (example_replay_wal
       [segment_header ++ wal_frames [example_series_entry] ++ zeros 6;
        segment_header ++ wal_frames [example_samples_entry]]) 0.

(** A last segment that ends in the header of a samples entry of five
    bytes, with no byte of the body. *)
Definition example_body_missing : list byte :=
  [Byte.x03; Byte.x01; Byte.x00; Byte.x00; Byte.x00; Byte.x05].

Definition example_replay_body_missing : walReader :=
  SegmentWAL_Reader
    (example_replay_wal
       [segment_header ++ wal_frames [example_series_entry] ++ example_body_missing]) 0.

(** Logs on disk for [Truncate]: two segment files, opened and replayed as
    at start-up. *)
Definition example_samples_at (t : Z) : wal_entry :=
  {| e_type := WALEntrySamples; e_flag := walSamplesSimple;
     e_buf := encodeSamples_buf {| smpl_Ref := 1; smpl_T := t; smpl_V := 7 |}
                [{| smpl_Ref := 1; smpl_T := t; smpl_V := 7 |}] |}.

Definition example_disk (segments : list (list wal_entry)) : FS :=
  {| fs_inodes := map (fun es => segment_header ++ wal_frames es) segments;
     fs_dir := list_to_map (imap (fun i _ => (path_Join "wal" (format_seq i), i)) segments);
     fs_fds := [] |}.

Definition example_replayed (segments : list (list wal_entry)) : SegmentWAL :=
  let w := fst (OpenSegmentWAL (example_disk segments) "wal" 0) in
  r_wal (fst (fst (walReader_Read (SegmentWAL_Reader w 0)))).

(** The older segment holds the series 1 and samples at time 5, the newer
    one samples at time 100. *)
Definition example_truncate_old_first : SegmentWAL :=
  example_replayed [[example_series_entry; example_samples_at 5]; [example_samples_at 100]].

(** The first segment holds samples at time 100, the second the series 1
    and samples at time 5. *)
Definition example_truncate_old_second : SegmentWAL :=
  example_replayed [[example_samples_at 100]; [example_series_entry; example_samples_at 5]].

(** ** The population stage *)

(** [AddSeries] for each series of a list, from a new writer. *)
Definition indexWriter_populate (series : list (Z * Labels * list ChunkMeta))
  : indexWriter * option error :=
  indexWriter_run
    (map (fun '(ref, lset, chunks) w => indexWriter_AddSeries w ref lset chunks) series).

(** The strings passed to [AddSeries] as a label name or a label value. *)
Definition label_strings (series : list (Z * Labels * list ChunkMeta)) : list string :=
  concat (map (fun '(_, lset, _) =>
                 concat (map (fun l => [lbl_Name l; lbl_Value l]) lset)) series).

Definition example_populate : list (Z * Labels * list ChunkMeta) :=
  map (fun '(ref, lset) => (ref, lset, [example_chunk (100 * ref)])) example_series.

(** ** The layout of the index file *)

(** The file [b] holds the bytes [x] at offset [off]. *)
Definition bytes_at (b : list byte) (off : Z) (x : list byte) : Prop :=
  exists pre post, b = pre ++ x ++ post /\ len pre = off.

(** A section as the writer frames it: the length of the content as a
    uvarint, the content, its checksum. *)
Definition sized (x : list byte) : list byte :=
  encbuf_get (encbuf_putUvarint (encbuf_reset []) (len x)) ++ encbuf_get (encbuf_putHash x).

(** A symbol as [writeSymbols] stores it. *)
Definition symbol_bytes (s : string) : list byte :=
  encbuf_get (encbuf_putUvarintStr (encbuf_reset []) s).

(** The bytes [writeTOC] writes for the table of contents [toc]. *)
Definition toc_bytes (toc : indexTOC) : list byte :=
  let buf1 := encbuf_reset [] in
  let buf1 := encbuf_putBE64 buf1 (toc_symbols toc) in
  let buf1 := encbuf_putBE64 buf1 (toc_series toc) in
  let buf1 := encbuf_putBE64 buf1 (toc_labelIndices toc) in
  let buf1 := encbuf_putBE64 buf1 (toc_labelIndicesTable toc) in
  let buf1 := encbuf_putBE64 buf1 (toc_postings toc) in
  let buf1 := encbuf_putBE64 buf1 (toc_postingsTable toc) in
  encbuf_get (encbuf_putHash buf1).

Definition toc_ok (toc : indexTOC) : Prop :=
  is_uint64 (toc_symbols toc) /\ is_uint64 (toc_series toc)
  /\ is_uint64 (toc_labelIndices toc) /\ is_uint64 (toc_labelIndicesTable toc)
  /\ is_uint64 (toc_postings toc) /\ is_uint64 (toc_postingsTable toc).

(** The entries of an offset table as [writeOffsetTable] encodes them, and
    the bytes of the table. *)
Definition offset_table_entry (buf2 : encbuf) (e : hashEntry) : encbuf :=
  let buf2 := encbuf_putUvarint buf2 (len (he_keys e)) in
  let buf2 := fold_left encbuf_putUvarintStr (he_keys e) buf2 in
  encbuf_putUvarint64 buf2 (he_offset e).

Definition offset_table_body (entries : list hashEntry) : encbuf :=
  fold_left offset_table_entry entries (encbuf_reset []).

Definition offset_table_bytes (entries : list hashEntry) : list byte :=
  encbuf_get (encbuf_putBE32int (encbuf_putBE32int (encbuf_reset []) (len entries))
                (encbuf_len (offset_table_body entries)))
  ++ encbuf_get (encbuf_putHash (offset_table_body entries)).

(** The key under which the reader files an entry. *)
Definition entry_key (e : hashEntry) : string := strings_Join (he_keys e) sep.

(** The map a reader builds from the entries of a table. *)
Definition offset_table_map (entries : list hashEntry) (res : gmap string Z) : gmap string Z :=
  fold_left (fun m e => <[entry_key e := uint32 (he_offset e)]> m) entries res.

(** A chunk whose times are [int64] and whose reference is [uint64], as the
    fields of [ChunkMeta] are. *)
Definition ChunkMeta_wf (c : ChunkMeta) : Prop :=
  is_int64 (chk_MinTime c) /\ is_int64 (chk_MaxTime c) /\ is_uint64 (chk_Ref c).

(** What [Series] returns for a chunk: the reference and the times. *)
Definition ChunkMeta_read (c : ChunkMeta) : ChunkMeta :=
  {| chk_Ref := chk_Ref c; chk_MinTime := chk_MinTime c; chk_MaxTime := chk_MaxTime c;
     chk_Encoding := Byte.x00; chk_Data := [] |}.

(** The bytes of one label and of one chunk in the record of a series. *)
Definition label_bytes (w : indexWriter) (l : Label) : list byte :=
  encbuf_get (encbuf_putUvarint32
                (encbuf_putUvarint32 (encbuf_reset []) (iw_symbol w (lbl_Name l)))
                (iw_symbol w (lbl_Value l))).

Definition chunk_bytes (c : ChunkMeta) : list byte :=
  let buf2 := encbuf_putVarint64 (encbuf_reset []) (chk_MinTime c) in
  let buf2 := encbuf_putVarint64 buf2 (chk_MaxTime c) in
  let buf2 := encbuf_putUvarint64 buf2 (chk_Ref c) in
  encbuf_get (encbuf_putBytes buf2 (crc32.Sum (ChunkMeta_hash c crc32.Reset) [])).

(** The symbol [s] is in the file [b] where the writer [w] has it. *)
Definition symbol_at (w : indexWriter) (b : list byte) (s : string) : Prop :=
  is_uint32 (iw_symbol w s) /\ bytes_at b (iw_symbol w s) (symbol_bytes s).

(** The position of the writer is the length of what it has written, and
    within the limit. *)
Definition iw_inv (w : indexWriter) : Prop :=
  iw_pos w = len (iw_fbuf w) /\ iw_pos w <= MaxUint32.

(** The output of [w'] starts with the output of [w]. *)
Definition iw_extends (w w' : indexWriter) : Prop :=
  exists y, iw_fbuf w' = iw_fbuf w ++ y.

(** The offset the writer has recorded for the series [ref]. *)
Definition iw_offset (w : indexWriter) (ref : Z) : Z :=
  match iw_series w !! ref with
  | Some s => iws_offset s
  | None => 0
  end.

(** The record of every series of [w] is in the file [b] at the offset
    recorded for it, no two at the same offset, and so are the symbols of
    its labels. *)
Definition series_written (w : indexWriter) (b : list byte) : Prop :=
  (forall ref s, iw_series w !! ref = Some s ->
     is_uint32 (iws_offset s)
     /\ bytes_at b (iws_offset s) (sized (encbuf_get (indexWriter_seriesBody w s)))
     /\ Forall (fun l => symbol_at w b (lbl_Name l) /\ symbol_at w b (lbl_Value l))
               (iws_labels s))
  /\ (forall ref1 ref2 s1 s2,
        iw_series w !! ref1 = Some s1 -> iw_series w !! ref2 = Some s2 ->
        iws_offset s1 = iws_offset s2 -> ref1 = ref2).

(** The names and the values of the labels of every series are symbols. *)
Definition symbols_cover (w : indexWriter) : Prop :=
  forall ref s, iw_series w !! ref = Some s ->
    Forall (fun l => is_Some (iw_symbols w !! lbl_Name l)
                     /\ is_Some (iw_symbols w !! lbl_Value l)) (iws_labels s).

(** The writers [w] and [w'] hold the same series, offsets apart. *)
Definition same_series (w w' : indexWriter) : Prop :=
  forall ref,
    (fun s => (iws_labels s, iws_chunks s)) <$> iw_series w' !! ref
    = (fun s => (iws_labels s, iws_chunks s)) <$> iw_series w !! ref.

(** A writer in the population stage, after [newIndexWriter] and calls of
    [AddSeries]. *)
Definition populated (w : indexWriter) : Prop :=
  iw_inv w /\ iw_stage w = idxStagePopulate
  /\ 0 < iw_pos w
  /\ bytes_at (iw_fbuf w) 0 (binary.PutUint32 MagicIndex)
  /\ symbols_cover w
  /\ toc_ok (iw_toc w)
  /\ iw_labelIndexes w = [] /\ iw_postings w = [].

(** The entry [e] of the postings table stands for the call
    [WritePostings(n, v, refs)]: the section at its offset holds the sorted
    offsets of the series [refs]. *)
Definition posting_entry (w : indexWriter) (p : string * string * list Z) (e : hashEntry)
  : Prop :=
  let '(n, v, refs) := p in
  he_keys e = [n; v]
  /\ is_uint32 (he_offset e)
  /\ Forall (fun ref => is_Some (iw_series w !! ref)) refs
  /\ bytes_at (iw_fbuf w) (he_offset e)
       (sized (concat (map binary.PutUint32
                         (sort_uint32slice (map (iw_offset w) refs))))).

(** A writer in the postings stage after the calls [posts] of
    [WritePostings]. *)
Definition postings_stage (posts : list (string * string * list Z)) (w : indexWriter)
  : Prop :=
  iw_inv w /\ iw_stage w = idxStagePostings
  /\ bytes_at (iw_fbuf w) 0 (binary.PutUint32 MagicIndex)
  /\ series_written w (iw_fbuf w)
  /\ toc_ok (iw_toc w)
  /\ toc_labelIndicesTable (iw_toc w) <> 0
  /\ bytes_at (iw_fbuf w) (toc_labelIndicesTable (iw_toc w)) (offset_table_bytes [])
  /\ Forall2 (posting_entry w) posts (iw_postings w).

(** The key of the postings of a call [WritePostings(n, v, refs)], as the
    reader looks it up. *)
Definition postings_key (p : string * string * list Z) : string :=
  let '(n, v, _) := p in String.append n (String.append sep v).

(** The chunks of every series of [w] are well-formed. *)
Definition chunks_wf (w : indexWriter) : Prop :=
  forall ref s, iw_series w !! ref = Some s -> Forall ChunkMeta_wf (iws_chunks s).

(** The writer stages in order: [AddSeries] for each series, then
    [WritePostings] for each list of references, then [Close]. *)
Definition indexWriter_build
    (rangeSeries : gmap Z indexWriterSeries -> list (Z * indexWriterSeries))
    (series : list (Z * Labels * list ChunkMeta))
    (posts : list (string * string * list Z)) : indexWriter * option error :=
  indexWriter_run
    (map (fun '(ref, lset, chunks) w => indexWriter_AddSeries w ref lset chunks) series
     ++ map (fun '(n, v, refs) w =>
               indexWriter_WritePostings rangeSeries w n v (newListPostings refs)) posts
     ++ [indexWriter_Close rangeSeries]).

(** One step of [indexWriter_run]. *)
Definition run_step (x : indexWriter * option error)
    (f : indexWriter -> indexWriter * option error) : indexWriter * option error :=
  match x with
  | (w, None) => f w
  | (w, Some e) => (w, Some e)
  end.

(** The series of [w] are among those of the list [series]. *)
Definition series_from (series : list (Z * Labels * list ChunkMeta)) (w : indexWriter)
  : Prop :=
  forall ref s, iw_series w !! ref = Some s ->
                (ref, iws_labels s, iws_chunks s) ∈ series.

(** The three example series with the postings of two label pairs. *)
Definition example_posts : list (string * string * list Z) :=
  [("__name__", "a", [2; 1]); ("foo", "bar", [1])].

Definition example_built : indexWriter * option error :=
  indexWriter_build rangeSeries_map example_populate example_posts.

(** The same series with postings for [foo=bar] that name the series 3,
    which has no label [foo], and postings that name the series 1 twice. *)
Definition example_posts_loose : list (string * string * list Z) :=
  [("foo", "bar", [1; 3]); ("__name__", "a", [1; 2; 1])].

Definition example_built_loose : indexWriter * option error :=
  indexWriter_build rangeSeries_map example_populate example_posts_loose.


(** ** The payloads of series and deletes entries *)

(** A label whose name and value have a length that fits an [int]. *)
Definition Label_wf (l : Label) : Prop :=
  slen (lbl_Name l) < 2 ^ 62 /\ slen (lbl_Value l) < 2 ^ 62.

(** A series as the Go types hold it: a [uint64] reference and a label set
    that fits the address space ([make(labels.Labels, l)] must not panic
    when the set is decoded again). *)
Definition RefSeries_wf (s : RefSeries) : Prop :=
  is_uint64 (rs_Ref s) /\ len (rs_Labels s) <= 2 ^ 43 /\ Forall Label_wf (rs_Labels s).

(** The bytes [encodeSeries] appends for one label and for one series. *)
Definition encodeSeries_label (l : Label) : list byte :=
  binary.PutUvarint (uint64 (slen (lbl_Name l))) ++ list_byte_of_string (lbl_Name l)
  ++ binary.PutUvarint (uint64 (slen (lbl_Value l))) ++ list_byte_of_string (lbl_Value l).

Definition encodeSeries_one (s : RefSeries) : list byte :=
  binary.PutUint64 (rs_Ref s) ++ binary.PutUvarint (uint64 (len (rs_Labels s)))
  ++ concat (map encodeSeries_label (rs_Labels s)).

(** A tombstone with a [uint64] reference and [int64] times. *)
Definition Stone_wf (s : Stone) : Prop :=
  is_uint64 (stone_ref s)
  /\ Forall (fun itv => is_int64 (itv_Mint itv) /\ is_int64 (itv_Maxt itv)) (stone_intervals s).

(** The bytes [encodeDeletes] appends for one interval of a tombstone. *)
Definition encodeDeletes_one (ref : Z) (itv : Interval) : list byte :=
  binary.PutUvarint ref ++ binary.PutVarint (itv_Mint itv) ++ binary.PutVarint (itv_Maxt itv).

(** The tombstones [decodeDeletes] builds: one for every interval, in
    order. *)
Definition Stone_split (s : Stone) : list Stone :=
  map (fun itv => {| stone_ref := stone_ref s; stone_intervals := [itv] |}) (stone_intervals s).

(** A log of two complete segments: a series entry and then preallocated
    space; a samples entry up to the end of the file. *)
Definition example_replay_intact : walReader :=
  SegmentWAL_Reader
    (example_replay_wal
       [segment_header ++ wal_frames [example_series_entry] ++ zeros 16;
        segment_header ++ wal_frames [example_samples_entry]]) 15.

(** The reader of that log after two calls of [next]: it holds the samples
    entry of the second segment. *)
Definition example_reader_at_samples : walReader :=
  fst (walReader_next (fst (walReader_next example_replay_intact))).

(** ** A log that is written, closed and opened again *)

(** The calls that log a batch. *)
Inductive wal_op : Type :=
| op_LogSeries (series : list RefSeries)
| op_LogSamples (samples : list RefSample)
| op_LogDeletes (stones : list Stone).

Definition SegmentWAL_log (w : SegmentWAL) (op : wal_op) : SegmentWAL * option error :=
  match op with
  | op_LogSeries series => SegmentWAL_LogSeries w series
  | op_LogSamples samples => SegmentWAL_LogSamples w samples
  | op_LogDeletes stones => SegmentWAL_LogDeletes w stones
  end.

(** A sequence of calls, stopped by the first error. *)
Definition SegmentWAL_logs (ops : list wal_op) (w : SegmentWAL) : SegmentWAL * option error :=
  fold_left (fun x op => match x with
                         | (w, None) => SegmentWAL_log w op
                         | (w, Some e) => (w, Some e)
                         end) ops (w, None).

(** The entry a call hands to [entry]; the empty batch of series or of
    samples writes none. *)
Definition wal_op_entry (op : wal_op) : option wal_entry :=
  match op with
  | op_LogSeries [] => None
  | op_LogSeries series =>
      Some {| e_type := WALEntrySeries; e_flag := walSeriesSimple;
              e_buf := encodeSeries getWALBuffer series |}
  | op_LogSamples [] => None
  | op_LogSamples (first :: rest) =>
      Some {| e_type := WALEntrySamples; e_flag := walSamplesSimple;
              e_buf := encodeSamples_buf first (first :: rest) |}
  | op_LogDeletes stones =>
      Some {| e_type := WALEntryDeletes; e_flag := walDeletesSimple;
              e_buf := encodeDeletes_buf stones |}
  end.

Definition wal_op_wf (op : wal_op) : Prop :=
  match op with
  | op_LogSeries series => Forall RefSeries_wf series
  | op_LogSamples samples => Forall RefSample_wf samples
  | op_LogDeletes stones => Forall Stone_wf stones
  end.

(** What the replay from [mint] hands to its callbacks for a call that was
    logged. *)
Definition wal_op_delivery (mint : Z) (op : wal_op) : option delivery :=
  match op with
  | op_LogSeries [] => None
  | op_LogSeries series => Some (seriesf series)
  | op_LogSamples [] => None
  | op_LogSamples samples =>
      Some (samplesf (List.filter (fun x => mint <=? smpl_T x) samples))
  | op_LogDeletes stones => Some (deletesf (concat (map Stone_split stones)))
  end.

(** The one file [name] of the directory, open as [fd]: it holds [flushed]
    and then [k] zero bytes, and the handle stands after [flushed]. *)
Definition segment_state (fs : FS) (name : string) (fd : nat) (flushed : list byte) (k : nat)
  : Prop :=
  exists f,
    FS_wf fs
    /\ fs_fds fs !! fd = Some f /\ f_closed f = false /\ f_name f = name
    /\ fs_dir fs = {[ name := f_ino f ]}
    /\ fs_data fs (f_ino f) = flushed ++ zeros k
    /\ f_pos f = len flushed.

(** A buffered writer over that file: what was written through it so far
    is [content], the part still in the buffer included. *)
Definition bufio_state (fs : FS) (name : string) (b : bufio_Writer) (content : list byte)
  : Prop :=
  exists flushed k,
    bw_err b = None
    /\ segment_state fs name (bw_wr b) flushed k
    /\ flushed ++ bw_buf b = content.

(** A log that writes its first segment, the file [dir/00000000]. *)
Definition wal_segment0 (dir : string) (w : SegmentWAL) (content : list byte) : Prop :=
  exists fd maxt b,
    w_dirFile w = dir
    /\ w_files w = [{| sf_f := fd; sf_maxt := maxt |}]
    /\ w_cur w = Some b /\ bw_wr b = fd
    /\ bufio_state (w_fs w) (path_Join dir (format_seq 0)) b content.

(** A log opened on an empty disk, before its first entry. *)
Definition wal_fresh (dir : string) (w : SegmentWAL) : Prop :=
  w_fs w = fs_empty /\ w_dirFile w = dir /\ w_files w = [] /\ w_cur w = None.

(** Four calls: a series, two samples, an empty batch of series and a
    tombstone with two intervals. *)
Definition example_ops : list wal_op :=
  [ op_LogSeries [{| rs_Ref := 1;
                     rs_Labels := [{| lbl_Name := "job"; lbl_Value := "api" |}] |}];
    op_LogSamples [{| smpl_Ref := 1; smpl_T := 10; smpl_V := 7 |};
                   {| smpl_Ref := 1; smpl_T := 20; smpl_V := 8 |}];
    op_LogSeries [];
    op_LogDeletes [{| stone_ref := 1;
                      stone_intervals := [{| itv_Mint := 0; itv_Maxt := 5 |};
                                          {| itv_Mint := 6; itv_Maxt := 9 |}] |}] ].

(** The buffered writer of the log holds no byte: all that was written is
    in the file. *)
Definition wal_synced (w : SegmentWAL) : Prop :=
  exists b, w_cur w = Some b /\ bw_buf b = [].

(** ** Calls of the index writer *)

(** The calls a user of the index writer makes. *)
Inductive iw_op : Type :=
| op_AddSeries (ref : Z) (lset : Labels) (chunks : list ChunkMeta)
| op_WriteLabelIndex (names values : list string)
| op_WritePostings (name value : string) (it : Postings)
| op_Close.

Definition indexWriter_call
    (rangeSeries : gmap Z indexWriterSeries -> list (Z * indexWriterSeries))
    (w : indexWriter) (op : iw_op) : indexWriter * option error :=
  match op with
  | op_AddSeries ref lset chunks => indexWriter_AddSeries w ref lset chunks
  | op_WriteLabelIndex names values => indexWriter_WriteLabelIndex rangeSeries w names values
  | op_WritePostings name value it => indexWriter_WritePostings rangeSeries w name value it
  | op_Close => indexWriter_Close rangeSeries w
  end.

(** The writer after the calls [ops], made one after the other whatever
    each of them returns. *)
Definition indexWriter_calls
    (rangeSeries : gmap Z indexWriterSeries -> list (Z * indexWriterSeries))
    (ops : list iw_op) (w : indexWriter) : indexWriter :=
  fold_left (fun w op => fst (indexWriter_call rangeSeries w op)) ops w.

(** The order of the stages. *)
Definition stage_le (a b : indexWriterStage) : Prop :=
  indexWriterStage_uint8 a <= indexWriterStage_uint8 b.

(** From [w] to [w'] the writer has only appended to its output, counted
    each appended byte in its position, not gone back to an earlier stage
    and dropped no series. *)
Definition iw_grows (w w' : indexWriter) : Prop :=
  iw_extends w w'
  /\ iw_pos w' - len (iw_fbuf w') = iw_pos w - len (iw_fbuf w)
  /\ stage_le (iw_stage w) (iw_stage w')
  /\ dom (iw_series w) ⊆ dom (iw_series w').

(** ** The index file with label indices *)

(** The two parts of [ensureStage]: the end of the population stage, which
    writes the symbols and the series, and the switch that marks the start
    of the sections of the stage [s]. *)
Definition ensureStage_populate
    (rangeSeries : gmap Z indexWriterSeries -> list (Z * indexWriterSeries))
    (w : indexWriter) : indexWriter * option error :=
  let w := iw_set_toc w (toc_set_symbols (iw_toc w) (iw_pos w)) in
  match indexWriter_writeSymbols w with
  | (w, Some e) => (w, Some e)
  | (w, None) =>
      let w := iw_set_toc w (toc_set_series (iw_toc w) (iw_pos w)) in
      indexWriter_writeSeries rangeSeries w
  end.

Definition ensureStage_mark (w : indexWriter) (s : indexWriterStage)
  : indexWriter * option error :=
  match s with
  | idxStageLabelIndex =>
      (iw_set_toc w (toc_set_labelIndices (iw_toc w) (iw_pos w)), None)
  | idxStagePostings =>
      let w := iw_set_toc w (toc_set_labelIndicesTable (iw_toc w) (iw_pos w)) in
      match indexWriter_writeOffsetTable w (iw_labelIndexes w) with
      | (w, Some e) => (w, Some e)
      | (w, None) =>
          (iw_set_toc w (toc_set_postings (iw_toc w) (iw_pos w)), None)
      end
  | idxStageDone =>
      let w := iw_set_toc w (toc_set_postingsTable (iw_toc w) (iw_pos w)) in
      match indexWriter_writeOffsetTable w (iw_postings w) with
      | (w, Some e) => (w, Some e)
      | (w, None) => indexWriter_writeTOC w
      end
  | idxStagePopulate => (w, None)
  end.

(** The content of the label index section that [WriteLabelIndex] writes
    for [names] and [values]: the number of names, then the symbol
    references of the values in the order [sort.Sort] leaves them in. *)
Definition label_index_body (w : indexWriter) (names values : list string) : list byte :=
  let valt := sort_stringTuples {| st_l := length names; st_s := values |} in
  binary.PutUvarint (uint64 (len names))
  ++ concat (map (fun v => binary.PutUint32 (iw_symbol w v)) (st_s valt)).

(** The entry [e] of the table of label indices stands for the call
    [WriteLabelIndex(names, values)]. *)
Definition label_entry (w : indexWriter) (c : list string * list string) (e : hashEntry)
  : Prop :=
  he_keys e = fst c
  /\ is_uint32 (he_offset e)
  /\ bytes_at (iw_fbuf w) (he_offset e) (sized (label_index_body w (fst c) (snd c))).

(** The entry [e] of the table of postings stands for a call
    [WritePostings(n, v, refs)]. *)
Definition post_entry (p : string * string * list Z) (e : hashEntry) : Prop :=
  he_keys e = [fst (fst p); snd (fst p)] /\ is_uint32 (he_offset e).

(** The key of the label index of a call [WriteLabelIndex(names, values)],
    as the reader looks it up. *)
Definition label_key (c : list string * list string) : string :=
  strings_Join (fst c) sep.

(** A writer in the population stage that has written its header. *)
Definition populating (w : indexWriter) : Prop :=
  iw_inv w
  /\ bytes_at (iw_fbuf w) 0 (binary.PutUint32 MagicIndex)
  /\ toc_ok (iw_toc w)
  /\ iw_stage w = idxStagePopulate
  /\ iw_labelIndexes w = [] /\ iw_postings w = []
  /\ toc_labelIndicesTable (iw_toc w) = 0.

(** What holds of a writer once the symbols are written, whatever its
    stage: the strings [S] are in the symbol table, and the tables of label
    indices and of postings hold the entries of the calls [L] and [P]. *)
Definition index_core (S : string -> Prop) (L : list (list string * list string))
    (P : list (string * string * list Z)) (w : indexWriter) : Prop :=
  iw_inv w
  /\ bytes_at (iw_fbuf w) 0 (binary.PutUint32 MagicIndex)
  /\ toc_ok (iw_toc w)
  /\ (forall s, S s -> symbol_at w (iw_fbuf w) s)
  /\ Forall2 (label_entry w) L (iw_labelIndexes w)
  /\ Forall2 post_entry P (iw_postings w).

(** The table of label indices was written, at the offset the table of
    contents has for it. *)
Definition label_table_written (w : indexWriter) : Prop :=
  toc_labelIndicesTable (iw_toc w) <> 0
  /\ bytes_at (iw_fbuf w) (toc_labelIndicesTable (iw_toc w))
       (offset_table_bytes (iw_labelIndexes w)).

(** A writer in the stage of the label indices or in the stage of the
    postings. *)
Definition index_state (S : string -> Prop) (L : list (list string * list string))
    (P : list (string * string * list Z)) (w : indexWriter) : Prop :=
  index_core S L P w
  /\ match iw_stage w with
     | idxStageLabelIndex => P = [] /\ toc_labelIndicesTable (iw_toc w) = 0
     | idxStagePostings => label_table_written w
     | _ => False
     end.

(** The writer stages in order, label indices included: [AddSeries] for
    each series, [WriteLabelIndex] for each list of values,
    [WritePostings] for each list of references, then [Close]. *)
Definition indexWriter_build_full
    (rangeSeries : gmap Z indexWriterSeries -> list (Z * indexWriterSeries))
    (series : list (Z * Labels * list ChunkMeta))
    (labels : list (list string * list string))
    (posts : list (string * string * list Z)) : indexWriter * option error :=
  indexWriter_run
    (map (fun '(ref, lset, chunks) w => indexWriter_AddSeries w ref lset chunks) series
     ++ map (fun '(names, values) w =>
               indexWriter_WriteLabelIndex rangeSeries w names values) labels
     ++ map (fun '(n, v, refs) w =>
               indexWriter_WritePostings rangeSeries w n v (newListPostings refs)) posts
     ++ [indexWriter_Close rangeSeries]).

(** The label indices of [__name__] and of [foo] for the three example
    series. *)
Definition example_labels : list (list string * list string) :=
  [(["__name__"], ["b"; "a"]); (["foo"], ["baz"; "bar"])].

Definition example_built_full : indexWriter * option error :=
  indexWriter_build_full rangeSeries_map example_populate example_labels example_posts.

(** A writer that is ready for its next call: in the population stage,
    where [S] are strings among its symbols, or past it. *)
Definition index_ready (S : string -> Prop) (L : list (list string * list string))
    (P : list (string * string * list Z)) (w : indexWriter) : Prop :=
  (populating w /\ L = [] /\ P = [] /\ forall s, S s -> is_Some (iw_symbols w !! s))
  \/ index_state S L P w.

(** The same without a call of [WritePostings]. *)
Definition example_built_labels_only : indexWriter * option error :=
  indexWriter_build_full rangeSeries_map example_populate example_labels [].

(** ** The write buffer of the log *)

(** The buffered writer of the log is the one [cut] made, of 4 MiB; it has
    met no error and holds [n] bytes. *)
Definition wal_buffering (w : SegmentWAL) (n : Z) : Prop :=
  exists b,
    w_cur w = Some b /\ bw_err b = None /\ bw_size b = 4 * 1024 * 1024
    /\ len (bw_buf b) = n.

(** ** A log of several segments *)

(** The file [name] of the directory [d], open as [fd]: it holds [flushed]
    and then [k] zero bytes, and the handle stands after [flushed].  The
    inodes of [old], files that were finished before, hold what they
    held. *)
Definition segment_state_in (fs : FS) (d : gmap string nat) (old : gmap nat (list byte))
    (name : string) (fd : nat) (flushed : list byte) (k : nat) : Prop :=
  exists f,
    FS_wf fs
    /\ fs_fds fs !! fd = Some f /\ f_closed f = false /\ f_name f = name
    /\ fs_dir fs = d /\ d !! name = Some (f_ino f)
    /\ fs_data fs (f_ino f) = flushed ++ zeros k
    /\ f_pos f = len flushed
    /\ old !! f_ino f = None
    /\ forall ino data, old !! ino = Some data -> fs_data fs ino = data.

Definition bufio_state_in (fs : FS) (d : gmap string nat) (old : gmap nat (list byte))
    (name : string) (b : bufio_Writer) (content : list byte) : Prop :=
  exists flushed k,
    bw_err b = None
    /\ segment_state_in fs d old name (bw_wr b) flushed k
    /\ flushed ++ bw_buf b = content.

(** A log that writes the segment file [name], the last of its files. *)
Definition wal_tail (dir : string) (d : gmap string nat) (old : gmap nat (list byte))
    (name : string) (w : SegmentWAL) (content : list byte) : Prop :=
  exists fd maxt b pre,
    w_dirFile w = dir
    /\ w_files w = pre ++ [{| sf_f := fd; sf_maxt := maxt |}]
    /\ w_cur w = Some b /\ bw_wr b = fd
    /\ bufio_state_in (w_fs w) d old name b content.


(** * Part II: theorems *)

(** ** The codec: big-endian integers and varints *)

Example crc32c_check :
  crc32.Checksum (list_byte_of_string "123456789") = 0xe3069283.
Proof. vm_compute. reflexivity. Qed.

Example PutUvarint_300 : binary.PutUvarint 300 = [byte.of_Z 0xac; byte.of_Z 0x02].
Proof. vm_compute. reflexivity. Qed.

Example Varint_roundtrip_neg :
  binary.Varint (binary.PutVarint (-3) ++ [Byte.x07]) = (-3, 1).
Proof. vm_compute. reflexivity. Qed.

Example Uvarint_max :
  binary.Uvarint (binary.PutUvarint (2 ^ 64 - 1)) = (2 ^ 64 - 1, 10).
Proof. vm_compute. reflexivity. Qed.

Lemma length_be_put n x : length (binary.be_put n x) = n.
Proof. unfold binary.be_put. rewrite length_rev. apply length_le_split. Qed.

Lemma be_get_put_app n x rest :
  binary.be_get n (binary.be_put n x ++ rest) = x mod 2 ^ (Z.of_nat n * 8).
Proof.
  unfold binary.be_get.
  rewrite take_app_length' by (symmetry; apply length_be_put).
  unfold binary.be_put. rewrite rev_involutive. apply le_combine_split.
Qed.

Lemma Uint32_PutUint32 x rest :
  is_uint32 x -> binary.Uint32 (binary.PutUint32 x ++ rest) = x.
Proof.
  intros Hx. unfold binary.Uint32, binary.PutUint32.
  rewrite be_get_put_app. apply Z.mod_small. exact Hx.
Qed.

Lemma Uint64_PutUint64 x rest :
  is_uint64 x -> binary.Uint64 (binary.PutUint64 x ++ rest) = x.
Proof.
  intros Hx. unfold binary.Uint64, binary.PutUint64.
  rewrite be_get_put_app. apply Z.mod_small. exact Hx.
Qed.

Lemma Uint64_PutUint64_wrap x rest :
  binary.Uint64 (binary.PutUint64 x ++ rest) = uint64 x.
Proof. unfold binary.Uint64, binary.PutUint64. apply be_get_put_app. Qed.

Lemma length_PutUint32 x : length (binary.PutUint32 x) = 4%nat.
Proof. apply length_be_put. Qed.

Lemma length_PutUint64 x : length (binary.PutUint64 x) = 8%nat.
Proof. apply length_be_put. Qed.

(** *** Unsigned varints *)

Lemma byte_unsigned_of_Z_small x : 0 <= x < 256 -> byte.unsigned (byte.of_Z x) = x.
Proof.
  intros Hx. rewrite byte.unsigned_of_Z. unfold byte.wrap.
  apply Z.mod_small. lia.
Qed.

Lemma lor_128_range x : 0 <= x -> 128 <= Z.lor (uint8 x) 128 < 256.
Proof.
  intros Hx. unfold uint8.
  assert (H1 : 0 <= x mod 2 ^ 8 < 2 ^ 8) by (apply Z.mod_pos_bound; lia).
  split.
  - assert (0 <= Z.lor (x mod 2 ^ 8) 128) by (apply Z.lor_nonneg; lia).
    destruct (Z_lt_le_dec (Z.lor (x mod 2 ^ 8) 128) 128) as [Hlt|]; [|lia].
    exfalso.
    assert (Hb : Z.testbit (Z.lor (x mod 2 ^ 8) 128) 7 = false).
    { apply Z.bits_above_log2; [lia|].
      destruct (Z.eq_dec (Z.lor (x mod 2 ^ 8) 128) 0) as [->|]; [simpl; lia|].
      apply Z.log2_lt_pow2; lia. }
    rewrite Z.lor_spec in Hb. change (Z.testbit 128 7) with true in Hb.
    rewrite orb_true_r in Hb. discriminate.
  - change 256 with (2 ^ 8).
    destruct (Z.eq_dec (Z.lor (x mod 2 ^ 8) 128) 0) as [->|Hne]; [lia|].
    apply Z.log2_lt_pow2; [apply Z.le_neq; split; [apply Z.lor_nonneg; lia|lia]|].
    rewrite Z.log2_lor by lia.
    apply Z.max_lub_lt; [|reflexivity].
    destruct (Z.eq_dec (x mod 2 ^ 8) 0) as [->|]; [simpl; lia|].
    apply Z.log2_lt_pow2; lia.
Qed.

Lemma land_lor_128 x : Z.land (Z.lor (uint8 x) 128) 127 = x mod 128.
Proof.
  unfold uint8. change 128 with (2 ^ 7) at 2. rewrite <- Z.land_ones by lia.
  rewrite <- Z.land_ones by lia.
  change 127 with (Z.ones 7). change 128 with (Z.shiftl 1 7).
  Z.bitblast.
  rewrite (Z.testbit_neg_r 1 l) by lia. rewrite orb_false_r, !andb_true_r. reflexivity.
Qed.

Lemma uvarint_step x s acc :
  0 <= x -> 0 <= s -> 0 <= acc ->
  Z.lor (Z.lor acc (Z.shiftl (x mod 128) s)) (Z.shiftl (Z.shiftr x 7) (s + 7))
  = Z.lor acc (Z.shiftl x s).
Proof.
  intros Hx Hs Hacc. change 128 with (2 ^ 7). rewrite <- Z.land_ones by lia.
  Z.bitblast.
  rewrite (Z.testbit_neg_r x l0) by lia. simpl. rewrite !orb_false_r. reflexivity.
Qed.

Lemma Uvarint_loop_PutUvarint_loop fuel :
  forall x i acc rest,
    (i + fuel = 9)%nat ->
    0 <= x < 2 ^ (64 - 7 * Z.of_nat i) ->
    0 <= acc ->
    binary.Uvarint_loop (binary.PutUvarint_loop fuel x ++ rest) i (7 * Z.of_nat i) acc
    = (Z.lor acc (Z.shiftl x (7 * Z.of_nat i)),
       Z.of_nat i + len (binary.PutUvarint_loop fuel x)).
Proof.
  induction fuel as [|fuel IH]; intros x i acc rest Hi Hx Hacc.
  - assert (i = 9%nat) by lia. subst i. simpl in Hx.
    cbn [binary.PutUvarint_loop app binary.Uvarint_loop].
    change (9 =? binary.MaxVarintLen64)%nat with false.
    change (9 =? binary.MaxVarintLen64 - 1)%nat with true.
    rewrite byte_unsigned_of_Z_small by lia.
    destruct (x <? 128) eqn:E1; [|lia].
    destruct (1 <? x) eqn:E2; [lia|]. cbn [andb].
    f_equal. f_equal. unfold uint64. apply Z.mod_small.
    rewrite Z.shiftl_mul_pow2 by lia. simpl. lia.
  - cbn [binary.PutUvarint_loop].
    assert (Hi9 : (i <= 8)%nat) by lia.
    destruct (128 <=? x) eqn:E.
    + apply Z.leb_le in E.
      cbn [app binary.Uvarint_loop].
      destruct (i =? binary.MaxVarintLen64)%nat eqn:E0;
        [apply Nat.eqb_eq in E0; unfold binary.MaxVarintLen64 in E0; lia|].
      pose proof (lor_128_range x ltac:(lia)) as Hr.
      rewrite byte_unsigned_of_Z_small by lia.
      destruct (Z.lor (uint8 x) 128 <? 128) eqn:E1; [lia|].
      rewrite land_lor_128.
      assert (Hsh : uint64 (Z.shiftl (x mod 128) (7 * Z.of_nat i))
                    = Z.shiftl (x mod 128) (7 * Z.of_nat i)).
      { unfold uint64. apply Z.mod_small.
        rewrite Z.shiftl_mul_pow2 by lia.
        assert (0 <= x mod 128 < 2 ^ 7) by (apply Z.mod_pos_bound; lia).
        split; [apply Z.mul_nonneg_nonneg; lia|].
        apply Z.lt_le_trans with (2 ^ 7 * 2 ^ (7 * Z.of_nat i)).
        - apply Z.mul_lt_mono_pos_r; lia.
        - rewrite <- Z.pow_add_r by lia. apply Z.pow_le_mono_r; lia. }
      rewrite Hsh.
      replace (7 * Z.of_nat i + 7) with (7 * Z.of_nat (S i)) by lia.
      rewrite IH.
      * f_equal.
        -- replace (7 * Z.of_nat (S i)) with (7 * Z.of_nat i + 7) by lia.
           apply uvarint_step; lia.
        -- unfold len. cbn [length]. lia.
      * lia.
      * split; [apply Z.shiftr_nonneg; lia|].
        rewrite Z.shiftr_div_pow2 by lia.
        apply Z.div_lt_upper_bound; [lia|].
        rewrite <- Z.pow_add_r by lia.
        replace (7 + (64 - 7 * Z.of_nat (S i))) with (64 - 7 * Z.of_nat i) by lia.
        lia.
      * apply Z.lor_nonneg. split; [lia|]. apply Z.shiftl_nonneg.
        apply Z.mod_pos_bound. lia.
    + apply Z.leb_gt in E.
      cbn [app binary.Uvarint_loop].
      destruct (i =? binary.MaxVarintLen64)%nat eqn:E0;
        [apply Nat.eqb_eq in E0; unfold binary.MaxVarintLen64 in E0; lia|].
      rewrite byte_unsigned_of_Z_small by lia.
      destruct (x <? 128) eqn:E1; [|lia].
      destruct (i =? binary.MaxVarintLen64 - 1)%nat eqn:E2;
        [apply Nat.eqb_eq in E2; unfold binary.MaxVarintLen64 in E2; simpl in E2; lia|].
      cbn [andb]. f_equal.
      * f_equal. unfold uint64. apply Z.mod_small.
        rewrite Z.shiftl_mul_pow2 by lia.
        split; [apply Z.mul_nonneg_nonneg; lia|].
        apply Z.lt_le_trans with (2 ^ 7 * 2 ^ (7 * Z.of_nat i)).
        -- apply Z.mul_lt_mono_pos_r; lia.
        -- rewrite <- Z.pow_add_r by lia. apply Z.pow_le_mono_r; lia.
Qed.

Lemma Uvarint_PutUvarint x rest :
  is_uint64 x ->
  binary.Uvarint (binary.PutUvarint x ++ rest) = (x, len (binary.PutUvarint x)).
Proof.
  intros Hx. unfold binary.Uvarint, binary.PutUvarint.
  pose proof (Uvarint_loop_PutUvarint_loop 9 x 0 0 rest eq_refl) as H.
  change (7 * Z.of_nat 0) with 0 in H.
  rewrite H; [|exact Hx|lia].
  rewrite Z.shiftl_0_r, Z.lor_0_l. reflexivity.
Qed.

Lemma length_PutUvarint_loop fuel x :
  (1 <= length (binary.PutUvarint_loop fuel x) <= S fuel)%nat.
Proof.
  revert x. induction fuel as [|fuel IH]; intros x; cbn [binary.PutUvarint_loop].
  - simpl. lia.
  - destruct (128 <=? x); cbn [length]; [specialize (IH (Z.shiftr x 7))|]; lia.
Qed.

Lemma len_PutUvarint x : 1 <= len (binary.PutUvarint x) <= 10.
Proof.
  unfold len, binary.PutUvarint.
  pose proof (length_PutUvarint_loop 9 x). lia.
Qed.

(** *** Signed varints *)

Lemma land_1_mod u : Z.land u 1 = u mod 2.
Proof. change 1 with (Z.ones 1). rewrite Z.land_ones by lia. reflexivity. Qed.

Lemma Varint_PutVarint x rest :
  is_int64 x ->
  binary.Varint (binary.PutVarint x ++ rest) = (x, len (binary.PutVarint x)).
Proof.
  intros Hx. unfold is_int64 in Hx. unfold binary.Varint, binary.PutVarint.
  set (ux := if x <? 0 then _ else _).
  assert (Hux : is_uint64 ux /\
                (if Z.land ux 1 =? 0 then int64 (Z.shiftr ux 1)
                 else int64 (Z.lnot (int64 (Z.shiftr ux 1)))) = x).
  { subst ux. unfold uint64, int64, is_uint64.
    rewrite Z.shiftl_mul_pow2 by lia. change (2 ^ 1) with 2.
    destruct (x <? 0) eqn:E; [apply Z.ltb_lt in E | apply Z.ltb_ge in E].
    - assert (H1 : x mod 2 ^ 64 = x + 2 ^ 64).
      { symmetry. apply Z.mod_unique with (-1); lia. }
      rewrite H1.
      assert (H2 : ((x + 2 ^ 64) * 2) mod 2 ^ 64 = 2 * x + 2 ^ 64).
      { symmetry. apply Z.mod_unique with 1; lia. }
      rewrite H2.
      assert (H3 : Z.lnot (2 * x + 2 ^ 64) mod 2 ^ 64 = - 2 * x - 1).
      { unfold Z.lnot. symmetry. apply Z.mod_unique with (-1); lia. }
      rewrite H3. split; [lia|].
      rewrite land_1_mod.
      replace (- 2 * x - 1) with (1 + (- x - 1) * 2) by lia.
      rewrite Z.mod_add by lia. change (1 mod 2) with 1. cbn [Z.eqb].
      rewrite Z.shiftr_div_pow2 by lia. change (2 ^ 1) with 2.
      rewrite Z.div_add by lia. change (1 / 2) with 0.
      rewrite (Z.mod_small (0 + (- x - 1) + 2 ^ 63)) by lia.
      unfold Z.lnot.
      replace (Z.pred (- (0 + (- x - 1) + 2 ^ 63 - 2 ^ 63))) with x by lia.
      rewrite Z.mod_small by lia. lia.
    - rewrite (Z.mod_small x) by lia.
      rewrite (Z.mod_small (x * 2)) by lia. split; [lia|].
      rewrite land_1_mod.
      rewrite Z.mod_mul by lia. cbn [Z.eqb].
      rewrite Z.shiftr_div_pow2 by lia. change (2 ^ 1) with 2.
      rewrite Z.div_mul by lia. rewrite Z.mod_small by lia. lia. }
  destruct Hux as [Hr Hv].
  rewrite Uvarint_PutUvarint by exact Hr.
  rewrite Hv. reflexivity.
Qed.

Lemma len_PutVarint x : 1 <= len (binary.PutVarint x) <= 10.
Proof. unfold binary.PutVarint. apply len_PutUvarint. Qed.

(** ** Slices *)

Lemma len_app {A} (a b : list A) : len (a ++ b) = len a + len b.
Proof. unfold len. rewrite length_app. lia. Qed.

Lemma len_nonneg {A} (a : list A) : 0 <= len a.
Proof. unfold len. lia. Qed.

Lemma len_nil {A} : len (@nil A) = 0.
Proof. reflexivity. Qed.

Lemma len_cons {A} (x : A) l : len (x :: l) = 1 + len l.
Proof. unfold len. cbn [length]. lia. Qed.

Lemma slice_from_app_len {A} (a b : list A) n :
  n = len a -> slice_from n (a ++ b) = b.
Proof.
  intros ->. unfold slice_from, len. rewrite Nat2Z.id.
  apply drop_app_length.
Qed.

Lemma slice_to_app_len {A} (a b : list A) n :
  n = len a -> slice_to n (a ++ b) = a.
Proof.
  intros ->. unfold slice_to, len. rewrite Nat2Z.id.
  apply take_app_length.
Qed.

Lemma slice_from_0 {A} (l : list A) : slice_from 0 l = l.
Proof. reflexivity. Qed.

Lemma len_PutUint32 x : len (binary.PutUint32 x) = 4.
Proof. unfold len. rewrite length_PutUint32. reflexivity. Qed.

Lemma len_PutUint64 x : len (binary.PutUint64 x) = 8.
Proof. unfold len. rewrite length_PutUint64. reflexivity. Qed.

Lemma fold_left_ext_eq {A B} (f g : A -> B -> A) (l : list B) (a : A) :
  (forall a x, f a x = g a x) -> fold_left f l a = fold_left g l a.
Proof.
  intros H. revert a. induction l as [|x l IH]; intros a; cbn [fold_left].
  - reflexivity.
  - rewrite H. apply IH.
Qed.

Lemma fold_left_app_map {A B} (f : A -> list B) (l : list A) (buf : list B) :
  fold_left (fun buf x => buf ++ f x) l buf = buf ++ concat (map f l).
Proof.
  revert buf. induction l as [|x l IH]; intros buf; cbn [fold_left map concat].
  - rewrite app_nil_r. reflexivity.
  - rewrite IH. rewrite <- app_assoc. reflexivity.
Qed.

(** ** Wrap-around arithmetic *)

Lemma int64_mod x : int64 x mod 2 ^ 64 = x mod 2 ^ 64.
Proof.
  unfold int64.
  rewrite Zminus_mod, Zmod_mod, <- Zminus_mod.
  f_equal. lia.
Qed.

Lemma int64_small x : is_int64 x -> int64 x = x.
Proof.
  unfold is_int64, int64. intros H.
  rewrite Z.mod_small by lia. lia.
Qed.

Lemma uint64_small x : is_uint64 x -> uint64 x = x.
Proof. unfold is_uint64, uint64. intros H. apply Z.mod_small. lia. Qed.

Lemma uint32_small x : is_uint32 x -> uint32 x = x.
Proof. unfold is_uint32, uint32. intros H. apply Z.mod_small. lia. Qed.

Lemma int64_range x : is_int64 (int64 x).
Proof.
  unfold is_int64, int64.
  pose proof (Z.mod_pos_bound (x + 2 ^ 63) (2 ^ 64) ltac:(lia)). lia.
Qed.

Lemma uint64_range x : is_uint64 (uint64 x).
Proof. unfold is_uint64, uint64. apply Z.mod_pos_bound. lia. Qed.

Lemma uint32_range x : is_uint32 (uint32 x).
Proof. unfold is_uint32, uint32. apply Z.mod_pos_bound. lia. Qed.

Lemma int64_congr x y : x mod 2 ^ 64 = y mod 2 ^ 64 -> int64 x = int64 y.
Proof.
  intros H. unfold int64. f_equal.
  rewrite (Zplus_mod x), (Zplus_mod y), H. reflexivity.
Qed.

Lemma uint64_int64 x : uint64 (int64 x) = uint64 x.
Proof. apply int64_mod. Qed.

Lemma int64_uint64 x : int64 (uint64 x) = int64 x.
Proof. apply int64_congr. unfold uint64. apply Zmod_mod. Qed.

(** [uint64(int64(base) + (int64(ref) - int64(base)))] is [ref] again, also
    when the difference wraps. *)
Lemma ref_delta_roundtrip base ref :
  is_uint64 ref ->
  uint64 (int64 (int64 base + int64 (int64 ref - int64 base))) = ref.
Proof.
  intros Href. rewrite uint64_int64. unfold uint64.
  rewrite Zplus_mod, !int64_mod.
  rewrite (Zminus_mod (int64 ref)), !int64_mod.
  rewrite <- Zminus_mod, <- Zplus_mod.
  replace (base + (ref - base)) with ref by lia.
  apply Z.mod_small. exact Href.
Qed.

Lemma time_delta_roundtrip base t :
  is_int64 t ->
  int64 (base + int64 (t - base)) = t.
Proof.
  intros Ht. rewrite <- (int64_small t Ht) at 2.
  apply int64_congr.
  rewrite Zplus_mod, int64_mod, <- Zplus_mod.
  f_equal. lia.
Qed.

(** *** More on slices *)

Lemma slice_from_slice_from {A} (a b : Z) (l : list A) :
  0 <= a -> 0 <= b -> slice_from b (slice_from a l) = slice_from (a + b) l.
Proof.
  intros Ha Hb. unfold slice_from. rewrite drop_drop. f_equal. lia.
Qed.

Lemma len_slice_to {A} n (l : list A) : 0 <= n -> len (slice_to n l) = Z.min n (len l).
Proof. intros Hn. unfold len, slice_to. rewrite length_take. lia. Qed.

Lemma slice_from_len_slice_to {A} n (l : list A) :
  slice_from (len (slice_to n l)) l = slice_from n l.
Proof.
  unfold slice_from, slice_to, len. rewrite Nat2Z.id, length_take.
  destruct (Nat.le_gt_cases (Z.to_nat n) (length l)) as [H|H].
  - rewrite Nat.min_l by exact H. reflexivity.
  - rewrite Nat.min_r by lia. rewrite !drop_ge by lia. reflexivity.
Qed.

Lemma slice_to_all {A} n (l : list A) : len l <= n -> slice_to n l = l.
Proof. intros H. unfold slice_to. apply take_ge. unfold len in H. lia. Qed.

Lemma slice_from_all {A} n (l : list A) : len l <= n -> slice_from n l = [].
Proof. intros H. unfold slice_from. apply drop_ge. unfold len in H. lia. Qed.

Lemma len_slice_from {A} n (l : list A) :
  0 <= n <= len l -> len (slice_from n l) = len l - n.
Proof. intros H. unfold len, slice_from in *. rewrite length_drop. lia. Qed.

Lemma len_zero_nil {A} (l : list A) : len l = 0 -> l = [].
Proof. destruct l; [reflexivity|]. rewrite len_cons. pose proof (len_nonneg l). lia. Qed.

Lemma not_nil_len {A} (l : list A) : 0 < len l -> l <> [].
Proof. intros H ->. unfold len in H. cbn in H. lia. Qed.


(** ** sort.Sort *)

Section SortPermutation.
Context {A : Type}.
Variable dflt : A.
Variable Less : list A -> nat -> nat -> bool.

  (** Exchanging the element at [length pre] with the one before it. *)
Lemma list_swap_adjacent (pre : list A) (y x : A) (rest : list A) :
    list_swap dflt (pre ++ y :: x :: rest) (S (length pre)) (length pre)
    = pre ++ x :: y :: rest.
  Proof.
    unfold list_swap, index.
    assert (H1 : (pre ++ y :: x :: rest) !! length pre = Some y).
    { rewrite lookup_app_r by lia. rewrite Nat.sub_diag. reflexivity. }
    assert (H2 : (pre ++ y :: x :: rest) !! S (length pre) = Some x).
    { rewrite lookup_app_r by lia.
      replace (S (length pre) - length pre)%nat with 1%nat by lia. reflexivity. }
    rewrite H1, H2. cbn [default].
    rewrite insert_app_r_alt by lia.
    replace (S (length pre) - length pre)%nat with 1%nat by lia.
    cbn [insert list_insert].
    rewrite insert_app_r_alt by lia. rewrite Nat.sub_diag. reflexivity.
  Qed.

Lemma insertionSort_inner_perm (rpre : list A) :
    forall x rest,
      insertionSort_inner Less (list_swap dflt) (length rpre) (rev rpre ++ x :: rest)
      ≡ₚ rev rpre ++ x :: rest.
  Proof.
    induction rpre as [|y rpre IH]; intros x rest.
    - reflexivity.
    - cbn [length insertionSort_inner].
      destruct (Less _ _ _); [|reflexivity].
      assert (Hsw : list_swap dflt (rev (y :: rpre) ++ x :: rest)
                      (S (length rpre)) (length rpre)
                    = rev rpre ++ x :: y :: rest).
      { cbn [rev]. rewrite <- app_assoc. cbn [app].
        rewrite <- (length_rev rpre). apply list_swap_adjacent. }
      rewrite Hsw, IH. cbn [rev]. rewrite <- app_assoc. cbn [app].
      apply Permutation_app_head. apply perm_swap.
  Qed.

Lemma insertionSort_inner_length j :
    forall l, length (insertionSort_inner Less (list_swap dflt) j l) = length l.
  Proof.
    induction j as [|j IH]; intros l; cbn [insertionSort_inner]; [reflexivity|].
    destruct (Less _ _ _); [|reflexivity].
    rewrite IH. unfold list_swap. rewrite !length_insert. reflexivity.
  Qed.

Lemma insertionSort_inner_perm_at j l :
    (j < length l)%nat ->
    insertionSort_inner Less (list_swap dflt) j l ≡ₚ l.
  Proof.
    intros Hj.
    destruct (lookup_lt_is_Some_2 l j Hj) as [x Hx].
    pose proof (take_drop_middle l j x Hx) as Hl.
    rewrite <- Hl at 1 2.
    rewrite <- (rev_involutive (take j l)).
    replace j with (length (rev (take j l))) at 1
      by (rewrite length_rev, length_take; lia).
    rewrite insertionSort_inner_perm. rewrite rev_involutive. rewrite Hl. reflexivity.
  Qed.

Lemma sort_Sort_fold_perm (idxs : list nat) :
    forall l,
      Forall (fun i => (i < length l)%nat) idxs ->
      fold_left (fun d i => insertionSort_inner Less (list_swap dflt) i d) idxs l ≡ₚ l.
  Proof.
    induction idxs as [|i idxs IH]; intros l Hall; cbn [fold_left]; [reflexivity|].
    apply Forall_cons in Hall. destruct Hall as [Hi Hall].
    rewrite IH.
    - apply insertionSort_inner_perm_at. exact Hi.
    - rewrite insertionSort_inner_length. exact Hall.
  Qed.

  (** Whatever [Less] is, [sort.Sort] over a slice permutes it. *)
Lemma sort_Sort_perm (l : list A) :
    sort_Sort (@length A) Less (list_swap dflt) l ≡ₚ l.
  Proof.
    unfold sort_Sort. apply sort_Sort_fold_perm.
    apply Forall_forall. intros i Hi. apply elem_of_seq in Hi. lia.
  Qed.

Lemma sort_Sort_length (l : list A) :
    length (sort_Sort (@length A) Less (list_swap dflt) l) = length l.
  Proof. apply Permutation_length. apply sort_Sort_perm. Qed.

End SortPermutation.

Lemma sort_Strings_perm (l : list string) : sort_Strings l ≡ₚ l.
Proof. apply sort_Sort_perm. Qed.

Lemma sort_uint32slice_perm (l : list Z) : sort_uint32slice l ≡ₚ l.
Proof. apply sort_Sort_perm. Qed.

(** *** [uint32slice]: the result is ascending *)

Lemma uint32slice_inner_sorted (rpre : list Z) :
  forall x mid rest,
    StronglySorted Z.le (rev rpre) ->
    StronglySorted Z.le mid ->
    Forall (fun m => x < m) mid ->
    Forall (fun p => Forall (fun m => p <= m) mid) rpre ->
    exists l',
      insertionSort_inner uint32slice_Less uint32slice_Swap (length rpre)
        (rev rpre ++ x :: mid ++ rest) = l' ++ rest
      /\ StronglySorted Z.le l'
      /\ length l' = S (length rpre + length mid).
Proof.
  induction rpre as [|y rpre IH]; intros x mid rest Hpre Hmid Hx Hle.
  - exists (x :: mid). cbn. split; [reflexivity|]. split; [|reflexivity].
    constructor; [exact Hmid|].
    eapply Forall_impl; [exact Hx|]. cbn. intros; lia.
  - cbn [length insertionSort_inner].
    cbn [rev] in *. rewrite <- app_assoc. cbn [app].
    assert (Hy : (rev rpre ++ y :: x :: mid ++ rest) !! length rpre = Some y).
    { rewrite lookup_app_r by (rewrite length_rev; lia).
      rewrite length_rev, Nat.sub_diag. reflexivity. }
    assert (Hxx : (rev rpre ++ y :: x :: mid ++ rest) !! S (length rpre) = Some x).
    { rewrite lookup_app_r by (rewrite length_rev; lia).
      rewrite length_rev.
      replace (S (length rpre) - length rpre)%nat with 1%nat by lia. reflexivity. }
    unfold uint32slice_Less at 1. unfold index. rewrite Hy, Hxx.
    change (default 0 (Some x)) with x. change (default 0 (Some y)) with y.
    apply Forall_cons in Hle. destruct Hle as [Hyle Hle].
    pose proof (StronglySorted_app_1_l _ _ _ Hpre) as Hpre1.
    assert (Hprey : Forall (fun p => p <= y) rpre).
    { apply Forall_forall. intros p Hp.
      apply (StronglySorted_app_1_elem_of Z.le (rev rpre) [y] p y Hpre).
      - apply list_elem_of_In. apply -> in_rev. apply list_elem_of_In. exact Hp.
      - apply elem_of_cons; left; reflexivity. }
    destruct (x <? y) eqn:E; [apply Z.ltb_lt in E | apply Z.ltb_ge in E].
    + assert (Hsw : uint32slice_Swap (rev rpre ++ y :: x :: mid ++ rest)
                      (S (length rpre)) (length rpre)
                    = rev rpre ++ x :: y :: mid ++ rest).
      { unfold uint32slice_Swap. rewrite <- (length_rev rpre).
        apply list_swap_adjacent. }
      rewrite Hsw.
      destruct (IH x (y :: mid) rest Hpre1) as (l' & Hl' & Hs & Hlen).
      * constructor; [exact Hmid|exact Hyle].
      * constructor; [exact E|exact Hx].
      * apply Forall_forall. intros p Hp. constructor.
        -- rewrite Forall_forall in Hprey. apply Hprey. exact Hp.
        -- rewrite Forall_forall in Hle. apply Hle. exact Hp.
      * exists l'. cbn [app] in Hl'. split; [exact Hl'|]. split; [exact Hs|].
        rewrite Hlen. cbn [length]. lia.
    + exists (rev rpre ++ y :: x :: mid). rewrite <- app_assoc. cbn [app].
      split; [reflexivity|]. split.
      * apply StronglySorted_app_2; [|exact Hpre1|].
        -- intros p m Hp Hm.
           assert (p <= y).
           { rewrite Forall_forall in Hprey. apply Hprey.
             apply list_elem_of_In. apply in_rev. apply list_elem_of_In. exact Hp. }
           apply elem_of_cons in Hm. destruct Hm as [->|Hm]; [assumption|].
           apply elem_of_cons in Hm. destruct Hm as [->|Hm]; [lia|].
           rewrite Forall_forall in Hx. specialize (Hx m Hm). lia.
        -- constructor.
           ++ constructor; [exact Hmid|].
              eapply Forall_impl; [exact Hx|]. cbn. intros; lia.
           ++ constructor; [exact E|exact Hyle].
      * rewrite length_app, length_rev. cbn [length]. lia.
Qed.

Lemma uint32slice_outer_sorted (m : nat) :
  forall k s rest,
    StronglySorted Z.le s ->
    length s = S k ->
    length rest = m ->
    StronglySorted Z.le
      (fold_left (fun d i => insertionSort_inner uint32slice_Less uint32slice_Swap i d)
                 (seq (S k) m) (s ++ rest)).
Proof.
  induction m as [|m IH]; intros k s rest Hs Hlen Hrest.
  - destruct rest; [|discriminate]. cbn [seq fold_left]. rewrite app_nil_r. exact Hs.
  - destruct rest as [|x rest]; [discriminate|].
    cbn [seq fold_left].
    destruct (uint32slice_inner_sorted (rev s) x [] rest) as (l' & Hl' & Hs' & Hlen').
    + rewrite rev_involutive. exact Hs.
    + constructor.
    + constructor.
    + apply Forall_forall. intros p _. constructor.
    + rewrite rev_involutive, length_rev, Hlen in Hl'. cbn [app] in Hl'.
      rewrite Hl'. apply IH.
      * exact Hs'.
      * rewrite Hlen', length_rev, Hlen. cbn [length]. lia.
      * cbn [length] in Hrest. lia.
Qed.

(** [sort.Sort(uint32slice(refs))] leaves the references in ascending
    order. *)
Lemma sort_uint32slice_sorted (l : list Z) : StronglySorted Z.le (sort_uint32slice l).
Proof.
  unfold sort_uint32slice, sort_Sort.
  destruct l as [|a l].
  - cbn. constructor.
  - cbn [length]. replace (S (length l) - 1)%nat with (length l) by lia.
    apply (uint32slice_outer_sorted (length l) 0%nat [a] l).
    + repeat constructor.
    + reflexivity.
    + reflexivity.
Qed.

(** *** A property that every exchange of neighbours keeps *)

Section SortInvariant.
Context {T : Type}.
Variable Len : T -> nat.
Variable Less : T -> nat -> nat -> bool.
Variable Swap : T -> nat -> nat -> T.
Variable P : T -> Prop.
Hypothesis Swap_keeps :
  forall d j, P d -> (S j < Len d)%nat -> P (Swap d (S j) j) /\ Len (Swap d (S j) j) = Len d.

Lemma insertionSort_inner_keeps j :
  forall d, P d -> (j < Len d)%nat ->
            P (insertionSort_inner Less Swap j d)
            /\ Len (insertionSort_inner Less Swap j d) = Len d.
Proof.
  induction j as [|j IH]; intros d Hd Hj; cbn [insertionSort_inner]; [auto|].
  destruct (Less d (S j) j); [|auto].
  destruct (Swap_keeps d j Hd Hj) as [Hp Hl].
  destruct (IH (Swap d (S j) j) Hp) as [Hp' Hl']; [lia|].
  split; [exact Hp'|congruence].
Qed.

Lemma sort_Sort_fold_keeps (idxs : list nat) :
  forall d, P d -> Forall (fun i => (i < Len d)%nat) idxs ->
            P (fold_left (fun d i => insertionSort_inner Less Swap i d) idxs d).
Proof.
  induction idxs as [|i idxs IH]; intros d Hd Hall; cbn [fold_left]; [exact Hd|].
  apply Forall_cons in Hall. destruct Hall as [Hi Hall].
  destruct (insertionSort_inner_keeps i d Hd Hi) as [Hp Hl].
  apply IH; [exact Hp|]. rewrite Hl. exact Hall.
Qed.

Lemma sort_Sort_keeps d : P d -> P (sort_Sort Len Less Swap d).
Proof.
  intros Hd. unfold sort_Sort. apply sort_Sort_fold_keeps; [exact Hd|].
  apply Forall_forall. intros i Hi. apply elem_of_seq in Hi. lia.
Qed.

End SortInvariant.

(** *** [stringTuples]: the sorted tuples hold the strings that were given *)

Lemma list_swap_neighbours {A} (d : A) (l : list A) p :
  (S p < length l)%nat ->
  list_swap d l (S p) p ≡ₚ l
  /\ length (list_swap d l (S p) p) = length l
  /\ forall q, (S p < q)%nat -> list_swap d l (S p) p !! q = l !! q.
Proof.
  intros Hp. split; [|split].
  - destruct (lookup_lt_is_Some_2 l p) as [y Hy]; [lia|].
    destruct (lookup_lt_is_Some_2 l (S p) Hp) as [x Hx].
    assert (Hl : l = take p l ++ y :: x :: drop (S (S p)) l).
    { rewrite <- (take_drop_middle l (S p) x Hx) at 1.
      rewrite <- (take_drop_middle (take (S p) l) p y) at 1.
      - rewrite take_take, Nat.min_l by lia. rewrite <- app_assoc. cbn [app].
        f_equal. f_equal. rewrite drop_ge; [reflexivity|].
        rewrite length_take. lia.
      - rewrite lookup_take_lt by lia. exact Hy. }
    assert (Hlen : p = length (take p l)) by (rewrite length_take; lia).
    revert Hl Hlen. generalize (take p l) (drop (S (S p)) l). intros pre rest -> ->.
    rewrite list_swap_adjacent.
    apply Permutation_app_head. apply perm_swap.
  - unfold list_swap. rewrite !length_insert. reflexivity.
  - intros q Hq. unfold list_swap.
    rewrite !list_lookup_insert_ne by lia. reflexivity.
Qed.

Lemma fold_left_ext_In {A B} (f g : A -> B -> A) (l : list B) :
  (forall a b, In b l -> f a b = g a b) ->
  forall a, fold_left f l a = fold_left g l a.
Proof.
  induction l as [|b l IH]; intros H a; cbn [fold_left]; [reflexivity|].
  rewrite H by (left; reflexivity). apply IH.
  intros a' b' Hin. apply H. right. exact Hin.
Qed.

Lemma stringTuples_Swap_fold s0 j (ks : nat) :
  forall k s,
    (S j + k + ks <= length s0)%nat ->
    s ≡ₚ s0 -> length s = length s0 ->
    (forall q, (j + k < q)%nat -> s !! q = s0 !! q) ->
    let s' :=
      fold_left
        (fun s k =>
           let s := <[(S j + k)%nat := index EmptyString s (j + k)]> s in
           <[(j + k)%nat := index EmptyString s0 (S j + k)]> s)
        (seq k ks) s in
    s' ≡ₚ s0 /\ length s' = length s0.
Proof.
  induction ks as [|ks IH]; intros k s Hr Hperm Hlen Hsame; cbn [seq fold_left]; [auto|].
  assert (Hidx : index EmptyString s0 (S j + k) = index EmptyString s (S j + k)).
  { unfold index. rewrite Hsame by lia. reflexivity. }
  rewrite Hidx.
  change (<[(j + k)%nat := index EmptyString s (S j + k)]>
            (<[(S j + k)%nat := index EmptyString s (j + k)]> s))
    with (list_swap EmptyString s (S (j + k)) (j + k)).
  destruct (list_swap_neighbours EmptyString s (j + k)) as (Hp & Hl & Hq); [lia|].
  apply IH.
  - lia.
  - rewrite Hp. exact Hperm.
  - rewrite Hl. exact Hlen.
  - intros q Hlt. rewrite Hq by lia. apply Hsame. lia.
Qed.

Lemma stringTuples_Swap_keeps s0 l t j :
  st_l t = l /\ st_s t ≡ₚ s0 ->
  (S j < stringTuples_Len t)%nat ->
  (st_l (stringTuples_Swap t (S j) j) = l /\ st_s (stringTuples_Swap t (S j) j) ≡ₚ s0)
  /\ stringTuples_Len (stringTuples_Swap t (S j) j) = stringTuples_Len t.
Proof.
  intros [Hl Hperm] Hj. unfold stringTuples_Len in *.
  assert (Hl0 : (st_l t <> 0)%nat).
  { intros H0. rewrite H0 in Hj. cbn in Hj. lia. }
  assert (Hr : (S j + st_l t <= length (st_s t))%nat).
  { pose proof (Nat.Div0.mul_div_le (length (st_s t)) (st_l t)). nia. }
  assert (Hfold : st_s (stringTuples_Swap t (S j) j)
                  = fold_left
                      (fun s k =>
                         let s := <[(S j + k)%nat := index EmptyString s (j + k)]> s in
                         <[(j + k)%nat := index EmptyString (st_s t) (S j + k)]> s)
                      (seq 0 (st_l t)) (st_s t)).
  { unfold stringTuples_Swap. cbn [st_s].
    apply fold_left_ext_In. intros s k Hk. apply in_seq in Hk. cbv zeta.
    f_equal. unfold index. rewrite lookup_take_lt by lia.
    rewrite lookup_drop. reflexivity. }
  destruct (stringTuples_Swap_fold (st_s t) j (st_l t) 0 (st_s t)) as [Hp Hlen].
  { lia. }
  { reflexivity. }
  { reflexivity. }
  { reflexivity. }
  rewrite <- Hfold in Hp, Hlen.
  split; [split|].
  - exact Hl.
  - rewrite Hp. exact Hperm.
  - change (st_l (stringTuples_Swap t (S j) j)) with (st_l t). rewrite Hlen. reflexivity.
Qed.

(** [sort.Sort(valt)] permutes the strings and keeps the tuple length. *)
Lemma sort_stringTuples_perm t :
  st_l (sort_stringTuples t) = st_l t /\ st_s (sort_stringTuples t) ≡ₚ st_s t.
Proof.
  unfold sort_stringTuples.
  apply (sort_Sort_keeps stringTuples_Len stringTuples_Less stringTuples_Swap
           (fun d => st_l d = st_l t /\ st_s d ≡ₚ st_s t)).
  - intros d j Hd Hj. apply stringTuples_Swap_keeps; assumption.
  - split; reflexivity.
Qed.


(** ** The samples payload of the write-ahead log *)

Section SamplesRoundtrip.

Variable first : RefSample.
Hypothesis first_wf : RefSample_wf first.

Lemma encodeSamples_buf_eq samples :
    encodeSamples_buf first samples =
    (binary.PutUint64 (smpl_Ref first) ++ binary.PutUint64 (uint64 (smpl_T first)))
    ++ concat (map (encodeSamples_one first) samples).
  Proof.
    unfold encodeSamples_buf, getWALBuffer. cbn [app].
    rewrite <- (fold_left_app_map (encodeSamples_one first)).
    apply fold_left_ext_eq. intros buf s. unfold encodeSamples_one.
    rewrite <- !app_assoc. reflexivity.
  Qed.

Lemma len_encodeSamples_one s : 10 <= len ((encodeSamples_one first) s).
  Proof.
    unfold encodeSamples_one. rewrite !len_app, len_PutUint64.
    pose proof (len_PutVarint (int64 (int64 (smpl_Ref s) - int64 (smpl_Ref first)))).
    pose proof (len_PutVarint (int64 (smpl_T s - smpl_T first))).
    lia.
  Qed.

Lemma decodeSamples_loop_encoded samples :
    forall fuel acc,
      (length samples <= fuel)%nat ->
      Forall RefSample_wf samples ->
      decodeSamples_loop fuel (smpl_Ref first) (smpl_T first)
        (concat (map (encodeSamples_one first) samples)) acc
      = Ok (acc ++ samples).
  Proof.
    destruct first_wf as (Hfref & Hft & _).
    induction samples as [|s samples IH]; intros fuel acc Hfuel Hwf.
    - rewrite app_nil_r. destruct fuel; reflexivity.
    - destruct fuel as [|fuel]; [cbn [length] in Hfuel; lia|].
      apply Forall_cons in Hwf. destruct Hwf as [(Hsref & Hst & Hsv) Hwf].
      cbn [map concat decodeSamples_loop].
      set (rest := concat (map (encodeSamples_one first) samples)).
      assert (Hpos : (0 <? len ((encodeSamples_one first) s ++ rest)) = true).
      { apply Z.ltb_lt. rewrite len_app.
        pose proof (len_encodeSamples_one s). pose proof (len_nonneg rest). lia. }
      rewrite Hpos. unfold encodeSamples_one. rewrite <- !app_assoc.
      rewrite Varint_PutVarint by apply int64_range.
      match goal with |- context [len (binary.PutVarint ?d) <? 1] =>
        pose proof (len_PutVarint d) as Hl1;
        destruct (len (binary.PutVarint d) <? 1) eqn:E1; [lia|] end.
      rewrite slice_from_app_len by reflexivity.
      rewrite Varint_PutVarint by apply int64_range.
      match goal with |- context [len (binary.PutVarint ?d) <? 1] =>
        pose proof (len_PutVarint d) as Hl2;
        destruct (len (binary.PutVarint d) <? 1) eqn:E2; [lia|] end.
      rewrite slice_from_app_len by reflexivity.
      destruct (len (binary.PutUint64 (smpl_V s) ++ rest) <? 8) eqn:E3.
      { apply Z.ltb_lt in E3. rewrite len_app, len_PutUint64 in E3.
        pose proof (len_nonneg rest). lia. }
      rewrite Uint64_PutUint64 by exact Hsv.
      rewrite slice_from_app_len by (rewrite len_PutUint64; reflexivity).
      rewrite ref_delta_roundtrip by exact Hsref.
      rewrite time_delta_roundtrip by exact Hst.
      rewrite IH; [|cbn [length] in Hfuel; lia|exact Hwf].
      rewrite <- app_assoc. destruct s; reflexivity.
  Qed.

Lemma length_concat_encodeSamples samples :
    (length samples <= length (concat (map (encodeSamples_one first) samples)))%nat.
  Proof.
    induction samples as [|s samples IH]; cbn [map concat length]; [lia|].
    rewrite length_app. pose proof (len_encodeSamples_one s). unfold len in *. lia.
  Qed.

Lemma decodeSamples_encodeSamples_buf flag samples :
    Forall RefSample_wf samples ->
    walReader_decodeSamples flag (encodeSamples_buf first samples) = Ok samples.
  Proof.
    destruct first_wf as (Hfref & Hft & _).
    intros Hwf. rewrite encodeSamples_buf_eq. unfold walReader_decodeSamples.
    set (body := concat (map (encodeSamples_one first) samples)).
    destruct (len _ <? 16) eqn:E.
    { apply Z.ltb_lt in E. rewrite !len_app, !len_PutUint64 in E.
      pose proof (len_nonneg body). lia. }
    rewrite <- app_assoc. rewrite Uint64_PutUint64 by exact Hfref.
    rewrite (slice_from_app_len (binary.PutUint64 (smpl_Ref first)) _ 8)
      by (rewrite len_PutUint64; reflexivity).
    rewrite Uint64_PutUint64_wrap.
    assert (Hbt : int64 (uint64 (uint64 (smpl_T first))) = smpl_T first).
    { rewrite !int64_uint64. apply int64_small. exact Hft. }
    rewrite Hbt.
    rewrite app_assoc.
    rewrite slice_from_app_len by (rewrite len_app, !len_PutUint64; reflexivity).
    apply (decodeSamples_loop_encoded samples (length body) []).
    - apply length_concat_encodeSamples.
    - exact Hwf.
  Qed.

End SamplesRoundtrip.

(** C3.  For every non-empty batch of samples, [encodeSamples] hands to
    [entry] a payload that [decodeSamples] turns back into exactly the same
    samples: refs (also when the delta wraps through [int64]), timestamps
    and the 64 bits of every value. *)
Theorem encodeSamples_decodeSamples_roundtrip :
  forall (w : SegmentWAL) (first : RefSample) (rest : list RefSample) (flag : Z),
    Forall RefSample_wf (first :: rest) ->
    SegmentWAL_encodeSamples w (first :: rest)
    = SegmentWAL_entry (w_set_maxt w (encodeSamples_maxt (first :: rest)))
        WALEntrySamples walSamplesSimple (encodeSamples_buf first (first :: rest))
    /\ walReader_decodeSamples flag (encodeSamples_buf first (first :: rest))
       = Ok (first :: rest).
Proof.
  intros w first rest flag Hwf. split; [reflexivity|].
  apply decodeSamples_encodeSamples_buf; [|exact Hwf].
  apply Forall_cons in Hwf. tauto.
Qed.

Lemma encodeSamples_decodeSamples_roundtrip_witness :
  Forall RefSample_wf
    [ {| smpl_Ref := 2 ^ 64 - 1; smpl_T := - 2 ^ 63; smpl_V := 0x7ff8000000000001 |};
      {| smpl_Ref := 0; smpl_T := 2 ^ 63 - 1; smpl_V := 2 ^ 63 |} ]
  /\ walReader_decodeSamples 1
       (encodeSamples_buf
          {| smpl_Ref := 2 ^ 64 - 1; smpl_T := - 2 ^ 63; smpl_V := 0x7ff8000000000001 |}
          [ {| smpl_Ref := 2 ^ 64 - 1; smpl_T := - 2 ^ 63; smpl_V := 0x7ff8000000000001 |};
            {| smpl_Ref := 0; smpl_T := 2 ^ 63 - 1; smpl_V := 2 ^ 63 |} ])
     = Ok [ {| smpl_Ref := 2 ^ 64 - 1; smpl_T := - 2 ^ 63; smpl_V := 0x7ff8000000000001 |};
            {| smpl_Ref := 0; smpl_T := 2 ^ 63 - 1; smpl_V := 2 ^ 63 |} ].
Proof.
  assert (H : Forall RefSample_wf
    [ {| smpl_Ref := 2 ^ 64 - 1; smpl_T := - 2 ^ 63; smpl_V := 0x7ff8000000000001 |};
      {| smpl_Ref := 0; smpl_T := 2 ^ 63 - 1; smpl_V := 2 ^ 63 |} ]).
  { repeat constructor; cbn; lia. }
  split; [exact H|].
  exact (proj2 (encodeSamples_decodeSamples_roundtrip
                  {| w_fs := fs_empty; w_dirFile := EmptyString; w_files := [];
                     w_flushInterval := 0; w_segmentSize := 0; w_cur := None;
                     w_curN := 0; w_maxt := 0 |} _ _ 1 H)).
Defined.


(** ** The write-ahead log: segment rotation *)

Lemma SegmentWAL_cur_Write_frame w p w' err :
  SegmentWAL_cur_Write w p = (w', err) ->
  w_files w' = w_files w /\ w_curN w' = w_curN w /\ w_maxt w' = w_maxt w
  /\ w_segmentSize w' = w_segmentSize w.
Proof.
  unfold SegmentWAL_cur_Write. destruct (w_cur w) as [cur|].
  - destruct (bufio_Write (w_fs w) cur p) as [[fs cur'] e]. intros H. inversion H; subst.
    cbn. auto.
  - intros H. inversion H; subst. auto.
Qed.

Lemma SegmentWAL_flush_frame w w' err :
  SegmentWAL_flush w = (w', err) ->
  w_files w' = w_files w /\ w_curN w' = w_curN w /\ w_maxt w' = w_maxt w
  /\ w_segmentSize w' = w_segmentSize w /\ w_dirFile w' = w_dirFile w.
Proof.
  unfold SegmentWAL_flush. destruct (w_cur w) as [cur|].
  - destruct (bufio_Flush (w_fs w) cur) as [[fs cur'] e]. intros H. inversion H; subst.
    cbn. auto.
  - intros H. inversion H; subst. auto.
Qed.

Lemma SegmentWAL_sync_frame w w' err :
  SegmentWAL_sync w = (w', err) ->
  w_files w' = w_files w /\ w_curN w' = w_curN w /\ w_maxt w' = w_maxt w
  /\ w_segmentSize w' = w_segmentSize w /\ w_dirFile w' = w_dirFile w.
Proof.
  unfold SegmentWAL_sync. destruct (SegmentWAL_flush w) as [w1 [e|]] eqn:Hf;
    intros H; inversion H; subst; eapply SegmentWAL_flush_frame; eassumption.
Qed.

(** A cut that succeeds appends one segment and puts the write position
    after its eight header bytes. *)
Lemma SegmentWAL_cut_ok w w' :
  SegmentWAL_cut w = (w', None) ->
  (exists sf, w_files w' = w_files w ++ [sf]) /\ w_curN w' = 8
  /\ w_maxt w' = w_maxt w /\ w_segmentSize w' = w_segmentSize w.
Proof.
  unfold SegmentWAL_cut.
  set (first := match SegmentWAL_tail w with None => _ | Some tf => _ end).
  assert (Hfirst : w_files first.1 = w_files w /\ w_maxt first.1 = w_maxt w
                   /\ w_segmentSize first.1 = w_segmentSize w).
  { subst first. destruct (SegmentWAL_tail w) as [tf|]; [|cbn; auto].
    destruct (SegmentWAL_sync w) as [w1 [e|]] eqn:Hs.
    { cbn. apply SegmentWAL_sync_frame in Hs. tauto. }
    apply SegmentWAL_sync_frame in Hs.
    destruct (File_Seek_cur (w_fs w1) tf) as [off|e]; [|cbn; tauto].
    destruct (File_Truncate (w_fs w1) tf off) as [fs [e|]]; [cbn; tauto|].
    destruct (File_Close fs tf) as [fs' e]. cbn. tauto. }
  destruct first as [w1 [e|]]; [discriminate|]. cbn [fst] in Hfirst.
  destruct (os_Create (w_fs w1) _) as [fs f].
  destruct (fileutil_Preallocate fs f (w_segmentSize w1)) as [fs1 [e|]]; [discriminate|].
  destruct (File_Write fs1 f segment_header) as [fs2 [e|]]; [discriminate|].
  intros H. inversion H; subst. cbn.
  destruct Hfirst as (-> & -> & ->). eauto.
Qed.

(** C4, as the code has it.  [entry] cuts a new segment exactly when there
    is no buffered writer yet, or the write position is already beyond the
    segment size, or the entry would cross the segment size and fits into a
    segment of its own; an entry larger than a segment is written without a
    cut only while the position is within the segment size. *)
Theorem SegmentWAL_entry_cut_condition :
  forall (w w' : SegmentWAL) (et flag : Z) (buf : list byte),
    0 <= w_curN w ->
    w_curN w + 18 + len buf < 2 ^ 63 ->
    SegmentWAL_entry w et flag buf = (w', None) ->
    let sz := 10 + len buf in
    let cut := w_cur w = None
               \/ w_segmentSize w < w_curN w
               \/ (w_segmentSize w < w_curN w + sz /\ sz <= w_segmentSize w) in
    (cut -> length (w_files w') = S (length (w_files w)) /\ w_curN w' = 8 + sz)
    /\ (~ cut -> length (w_files w') = length (w_files w) /\ w_curN w' = w_curN w + sz).
Proof.
  intros w w' et flag buf HcurN Hbound Hentry sz cut.
  pose proof (len_nonneg buf) as Hlen.
  assert (Hsz : int64 (6 + 4 + len buf) = sz).
  { apply int64_small. unfold is_int64, sz. lia. }
  assert (Hcuts : SegmentWAL_entry_cuts w buf = true <-> cut).
  { unfold SegmentWAL_entry_cuts, cut. rewrite Hsz.
    rewrite (int64_small (w_curN w + sz)) by (unfold is_int64, sz; lia).
    destruct (w_cur w) as [c|]; [|tauto].
    rewrite orb_true_iff, andb_true_iff, !Z.ltb_lt, Z.leb_le.
    split; [intros H; right; exact H|intros [H|H]; [discriminate|exact H]]. }
  unfold SegmentWAL_entry in Hentry. rewrite Hsz in Hentry.
  destruct (SegmentWAL_entry_cuts w buf) eqn:Ec.
  - destruct (SegmentWAL_cut w) as [w1 [e|]] eqn:Hcut; [discriminate|].
    apply SegmentWAL_cut_ok in Hcut. destruct Hcut as ([sf Hf] & Hn & _ & _).
    destruct (SegmentWAL_cur_Write w1 _) as [w2 [e|]] eqn:H1; [discriminate|].
    destruct (SegmentWAL_cur_Write w2 buf) as [w3 [e|]] eqn:H2; [discriminate|].
    destruct (SegmentWAL_cur_Write w3 _) as [w4 [e|]] eqn:H3; [discriminate|].
    apply SegmentWAL_cur_Write_frame in H1, H2, H3.
    destruct H1 as (F1 & N1 & _). destruct H2 as (F2 & N2 & _).
    destruct H3 as (F3 & N3 & _).
    assert (Hfiles : length (w_files w') = length (w_files w4)
                     /\ w_curN w' = int64 (w_curN w4 + sz)).
    { revert Hentry. cbn [w_files w_set_curN].
      destruct (last (w_files w4)) as [cf|]; [destruct (sf_maxt cf <? _)|];
        intros H; inversion H; subst; cbn; rewrite ?length_insert; auto. }
    destruct Hfiles as [Hl Hc]. rewrite Hl, Hc, F3, F2, F1, Hf, N3, N2, N1, Hn.
    rewrite length_app. cbn [length].
    rewrite int64_small by (unfold is_int64, sz; lia).
    split; [intros _; split; lia|]. intros Hn'. exfalso. apply Hn'. apply Hcuts. reflexivity.
  - destruct (SegmentWAL_cur_Write w _) as [w2 [e|]] eqn:H1; [discriminate|].
    destruct (SegmentWAL_cur_Write w2 buf) as [w3 [e|]] eqn:H2; [discriminate|].
    destruct (SegmentWAL_cur_Write w3 _) as [w4 [e|]] eqn:H3; [discriminate|].
    apply SegmentWAL_cur_Write_frame in H1, H2, H3.
    destruct H1 as (F1 & N1 & _). destruct H2 as (F2 & N2 & _).
    destruct H3 as (F3 & N3 & _).
    assert (Hfiles : length (w_files w') = length (w_files w4)
                     /\ w_curN w' = int64 (w_curN w4 + sz)).
    { revert Hentry. cbn [w_files w_set_curN].
      destruct (last (w_files w4)) as [cf|]; [destruct (sf_maxt cf <? _)|];
        intros H; inversion H; subst; cbn; rewrite ?length_insert; auto. }
    destruct Hfiles as [Hl Hc]. rewrite Hl, Hc, F3, F2, F1, N3, N2, N1.
    rewrite int64_small by (unfold is_int64, sz; lia).
    split; [|intros _; split; reflexivity].
    intros Hcut. apply Hcuts in Hcut. discriminate.
Qed.

Lemma SegmentWAL_entry_cut_condition_witness :
  length (w_files (fst (SegmentWAL_entry example_wal_oversize WALEntrySamples
                          walSamplesSimple (zeros 100)))) = 2%nat.
Proof.
  assert (H1 : 0 <= w_curN example_wal_oversize) by (vm_compute; discriminate).
  assert (H2 : w_curN example_wal_oversize + 18 + len (zeros 100) < 2 ^ 63)
    by (vm_compute; reflexivity).
  destruct (SegmentWAL_entry example_wal_oversize WALEntrySamples walSamplesSimple
              (zeros 100)) as [w' err] eqn:E.
  assert (Herr : err = None).
  { revert E. vm_compute. intros E. inversion E. reflexivity. }
  subst err.
  destruct (SegmentWAL_entry_cut_condition _ _ _ _ _ H1 H2 E) as [Hcut _].
  cbn [fst]. rewrite (proj1 (Hcut ltac:(right; left; vm_compute; reflexivity))).
  vm_compute. reflexivity.
Defined.

(** C4, as stated, fails: with a buffered writer open and the position at
    118 in a log of 64-byte segments, an entry of 110 bytes neither lacks an
    open segment nor fits into one, yet [entry] cuts a new segment for it. *)
Lemma SegmentWAL_entry_cuts_for_oversize :
  let w := example_wal_oversize in
  let buf := zeros 100 in
  let sz := 6 + 4 + len buf in
  w_cur w <> None
  /\ w_segmentSize w < sz
  /\ ~ (w_cur w = None \/ (w_segmentSize w < w_curN w + sz /\ sz <= w_segmentSize w))
  /\ SegmentWAL_entry_cuts w buf = true
  /\ length (w_files w) = 1%nat
  /\ length (w_files (fst (SegmentWAL_entry w WALEntrySamples walSamplesSimple buf))) = 2%nat
  /\ snd (SegmentWAL_entry w WALEntrySamples walSamplesSimple buf) = None.
Proof.
  cbv zeta.
  split; [vm_compute; discriminate|].
  split; [vm_compute; reflexivity|].
  split.
  { intros [H|[_ H]]; revert H; vm_compute; [discriminate|intros H; apply H; reflexivity]. }
  repeat split; vm_compute; reflexivity.
Qed.


(** ** The write-ahead log: what a write adds to the segment *)

Lemma length_zeros n : length (zeros n) = n.
Proof. apply length_replicate. Qed.

(** The file up to the new position is the file up to the old position,
    then the bytes written. *)
Lemma write_at_prefix (data : list byte) (pos : Z) (b : list byte) :
  0 <= pos ->
  let data' := write_at data pos b in
  slice_to (pos + len b) (data' ++ zeros (Z.to_nat (pos + len b) - length data'))
  = slice_to pos (data ++ zeros (Z.to_nat pos - length data)) ++ b.
Proof.
  intros Hpos. cbv zeta. unfold write_at.
  set (padded := data ++ zeros (Z.to_nat pos - length data)).
  assert (Hpad : (Z.to_nat pos <= length padded)%nat).
  { subst padded. rewrite length_app, length_zeros. lia. }
  assert (Ht : length (slice_to pos padded) = Z.to_nat pos).
  { unfold slice_to. rewrite length_take. lia. }
  unfold slice_to at 1.
  replace (Z.to_nat (pos + len b)) with (Z.to_nat pos + length b)%nat
    by (unfold len; lia).
  rewrite <- !app_assoc.
  rewrite take_app_ge by lia. f_equal.
  rewrite Ht. replace (Z.to_nat pos + length b - Z.to_nat pos)%nat with (length b) by lia.
  rewrite take_app_length. reflexivity.
Qed.

Lemma fs_data_set_data fs ino data :
  (ino < length (fs_inodes fs))%nat ->
  fs_data (fs_set_data fs ino data) ino = data.
Proof.
  intros H. unfold fs_data, fs_set_data. cbn [fs_inodes].
  rewrite list_lookup_insert_eq by exact H. reflexivity.
Qed.

Lemma fs_data_set_data_ne fs ino ino' data :
  ino <> ino' ->
  fs_data (fs_set_data fs ino data) ino' = fs_data fs ino'.
Proof.
  intros H. unfold fs_data, fs_set_data. cbn [fs_inodes].
  rewrite list_lookup_insert_ne by exact H. reflexivity.
Qed.

Lemma FS_wf_set_data fs ino data : FS_wf fs -> FS_wf (fs_set_data fs ino data).
Proof.
  intros [Hd Hf]. split; cbn [fs_set_data fs_dir fs_fds fs_inodes];
    rewrite length_insert; assumption.
Qed.

Lemma FS_wf_set_fd fs fd f :
  FS_wf fs -> (f_ino f < length (fs_inodes fs))%nat -> 0 <= f_pos f ->
  FS_wf (fs_set_fd fs fd f).
Proof.
  intros [Hd Hf] Hi Hp. split; cbn [fs_set_fd fs_dir fs_fds fs_inodes]; [exact Hd|].
  intros fd' f' Hl.
  destruct (decide (fd = fd')) as [->|Hne].
  - destruct (decide (fd' < length (fs_fds fs))%nat) as [Hlt|Hge].
    + rewrite list_lookup_insert_eq in Hl by exact Hlt. inversion Hl; subst. auto.
    + rewrite list_insert_ge in Hl by lia. eauto.
  - rewrite list_lookup_insert_ne in Hl by exact Hne. eauto.
Qed.

(** A write through an open handle succeeds; it moves the handle and
    touches no other handle. *)
Lemma File_Write_open fs fd f p :
  FS_wf fs ->
  fs_fds fs !! fd = Some f -> f_closed f = false ->
  exists fs',
    File_Write fs fd p = (fs', None)
    /\ FS_wf fs'
    /\ fs_fds fs' = <[fd := File_set_pos f (f_pos f + len p)]> (fs_fds fs)
    /\ fs_dir fs' = fs_dir fs
    /\ fs_data fs' (f_ino f) = write_at (fs_data fs (f_ino f)) (f_pos f) p.
Proof.
  intros Hwf Hfd Hopen. unfold File_Write. rewrite Hfd, Hopen.
  eexists. split; [reflexivity|].
  destruct (proj2 Hwf fd f Hfd) as [Hino Hpos].
  split.
  - apply FS_wf_set_fd.
    + apply FS_wf_set_data. exact Hwf.
    + cbn. rewrite length_insert. exact Hino.
    + cbn. pose proof (len_nonneg p). lia.
  - cbn [fs_set_fd fs_set_data fs_fds fs_dir]. split; [reflexivity|].
    split; [reflexivity|].
    unfold fs_data at 1. cbn [fs_inodes fs_set_fd fs_set_data].
    rewrite list_lookup_insert_eq by exact Hino. reflexivity.
Qed.

Lemma File_Write_stream fs fd f p b :
  FS_wf fs ->
  fs_fds fs !! fd = Some f -> f_closed f = false ->
  bw_wr b = fd ->
  exists fs',
    File_Write fs fd p = (fs', None)
    /\ FS_wf fs'
    /\ fs_fds fs' = <[fd := File_set_pos f (f_pos f + len p)]> (fs_fds fs)
    /\ bufio_stream fs'
         {| bw_wr := bw_wr b; bw_size := bw_size b; bw_buf := []; bw_err := bw_err b |}
       = bufio_stream fs
           {| bw_wr := bw_wr b; bw_size := bw_size b; bw_buf := []; bw_err := bw_err b |}
         ++ p.
Proof.
  intros Hwf Hfd Hopen Hb.
  destruct (File_Write_open fs fd f p Hwf Hfd Hopen) as (fs' & Hw & Hwf' & Hfds & _ & Hdata).
  exists fs'. split; [exact Hw|]. split; [exact Hwf'|]. split; [exact Hfds|].
  unfold bufio_stream. cbn [bw_wr bw_buf]. rewrite Hb, Hfds, Hfd.
  rewrite list_lookup_insert_eq by (eapply lookup_lt_Some; exact Hfd).
  cbn [File_set_pos f_pos f_ino]. rewrite Hdata, !app_nil_r.
  apply write_at_prefix. apply (proj2 Hwf fd f Hfd).
Qed.

Lemma fd_open_insert fs fs' fd f pos' :
  fs_fds fs !! fd = Some f -> f_closed f = false ->
  fs_fds fs' = <[fd := File_set_pos f pos']> (fs_fds fs) ->
  forall x, fd_open fs x -> fd_open fs' x.
Proof.
  intros Hfd Hopen Hfds x (g & Hg & Hgo). unfold fd_open. rewrite Hfds.
  destruct (decide (fd = x)) as [->|Hne].
  - rewrite list_lookup_insert_eq by (eapply lookup_lt_Some; exact Hfd).
    eexists. split; [reflexivity|]. exact Hopen.
  - rewrite list_lookup_insert_ne by exact Hne. eauto.
Qed.

Lemma FS_wfb_sound fs : FS_wfb fs = true -> FS_wf fs.
Proof.
  unfold FS_wfb. rewrite andb_true_iff, !forallb_forall. intros [Hd Hf]. split.
  - intros name ino Hl. apply elem_of_map_to_list in Hl.
    apply list_elem_of_In in Hl. specialize (Hd _ Hl). cbn in Hd.
    apply Nat.ltb_lt in Hd. exact Hd.
  - intros fd f Hl. apply list_elem_of_lookup_2 in Hl.
    apply list_elem_of_In in Hl. specialize (Hf _ Hl).
    apply andb_true_iff in Hf. destruct Hf as [H1 H2].
    apply Nat.ltb_lt in H1. apply Z.leb_le in H2. auto.
Qed.

Lemma bufio_stream_buf fs b :
  bufio_stream fs b
  = bufio_stream fs {| bw_wr := bw_wr b; bw_size := bw_size b; bw_buf := [];
                       bw_err := bw_err b |} ++ bw_buf b.
Proof.
  unfold bufio_stream. cbn [bw_wr bw_buf].
  destruct (fs_fds fs !! bw_wr b); [rewrite app_nil_r|]; reflexivity.
Qed.

Lemma bufio_stream_copy fs b p :
  bufio_stream fs (bufio_Write_copy b p) = bufio_stream fs b ++ p.
Proof.
  rewrite (bufio_stream_buf fs b), (bufio_stream_buf fs (bufio_Write_copy b p)).
  cbn [bufio_Write_copy bw_wr bw_size bw_buf bw_err]. rewrite app_assoc. reflexivity.
Qed.

Lemma bufio_keeps_refl fs b :
  FS_wf fs -> bw_err b = None -> fd_open fs (bw_wr b) -> bufio_keeps fs b fs b.
Proof.
  intros Hwf Herr Hopen. unfold bufio_keeps.
  split; [exact Hwf|]. do 2 (split; [reflexivity|]). split; [exact Herr|].
  split; [exact Hopen|]. split; [auto|reflexivity].
Qed.

Lemma bufio_Flush_open fs b :
  FS_wf fs -> bw_err b = None -> fd_open fs (bw_wr b) ->
  exists fs' b',
    bufio_Flush fs b = (fs', b', None)
    /\ bufio_keeps fs b fs' b'
    /\ bw_buf b' = []
    /\ bufio_stream fs' b' = bufio_stream fs b.
Proof.
  intros Hwf Herr (f & Hfd & Hopen). unfold bufio_Flush. rewrite Herr.
  destruct (bw_buf b) as [|c buf] eqn:Hbuf.
  - exists fs, b. split; [reflexivity|]. split; [|split; [exact Hbuf|reflexivity]].
    apply bufio_keeps_refl; [exact Hwf|exact Herr|exists f; auto].
  - rewrite <- Hbuf.
    destruct (File_Write_stream fs (bw_wr b) f (bw_buf b) b Hwf Hfd Hopen eq_refl)
      as (fs' & Hw & Hwf' & Hfds & Hstream).
    rewrite Hw. eexists _, _. split; [reflexivity|].
    split; [|split; [reflexivity|]].
    + unfold bufio_keeps. cbn [bw_wr bw_size bw_err].
      split; [exact Hwf'|]. do 3 (split; [reflexivity|]).
      split; [apply (fd_open_insert fs fs' _ f _ Hfd Hopen Hfds); exists f; auto|].
      split; [apply (fd_open_insert fs fs' _ f _ Hfd Hopen Hfds)|].
      rewrite Hfds. apply length_insert.
    + rewrite (bufio_stream_buf fs b). rewrite Herr in Hstream. exact Hstream.
Qed.

Lemma bufio_Write_direct_open fs b p :
  FS_wf fs -> bw_err b = None -> bw_buf b = [] -> fd_open fs (bw_wr b) ->
  exists fs' b',
    bufio_Write_direct fs b p = (fs', b', None)
    /\ bufio_keeps fs b fs' b'
    /\ bufio_stream fs' b' = bufio_stream fs b ++ p.
Proof.
  intros Hwf Herr Hbuf (f & Hfd & Hopen). unfold bufio_Write_direct.
  destruct (File_Write_stream fs (bw_wr b) f p b Hwf Hfd Hopen eq_refl)
    as (fs' & Hw & Hwf' & Hfds & Hstream).
  rewrite Hw. exists fs', b. split; [reflexivity|]. split.
  - unfold bufio_keeps.
    split; [exact Hwf'|]. do 2 (split; [reflexivity|]). split; [exact Herr|].
    split; [apply (fd_open_insert fs fs' _ f _ Hfd Hopen Hfds); exists f; auto|].
    split; [apply (fd_open_insert fs fs' _ f _ Hfd Hopen Hfds)|].
    rewrite Hfds. apply length_insert.
  - rewrite (bufio_stream_buf fs' b), (bufio_stream_buf fs b), Hbuf, !app_nil_r.
    exact Hstream.
Qed.

Lemma bufio_keeps_copy fs b fs' b' p :
  bufio_keeps fs b fs' b' -> bufio_keeps fs b fs' (bufio_Write_copy b' p).
Proof. unfold bufio_keeps. cbn. tauto. Qed.

Lemma bufio_keeps_trans fs b fs1 b1 fs2 b2 :
  bufio_keeps fs b fs1 b1 -> bufio_keeps fs1 b1 fs2 b2 -> bufio_keeps fs b fs2 b2.
Proof.
  unfold bufio_keeps.
  intros (_ & W1 & S1 & E1 & O1 & M1 & L1) (Hwf & W2 & S2 & E2 & O2 & M2 & L2).
  split; [exact Hwf|]. split; [congruence|]. split; [congruence|].
  split; [exact E2|]. split; [exact O2|]. split; [auto|congruence].
Qed.

(** A write to a writer without a pending error over an open file succeeds
    and adds exactly its bytes. *)
Lemma bufio_Write_open fs b p :
  FS_wf fs -> bw_err b = None -> fd_open fs (bw_wr b) ->
  exists fs' b',
    bufio_Write fs b p = (fs', b', None)
    /\ bufio_keeps fs b fs' b'
    /\ bufio_stream fs' b' = bufio_stream fs b ++ p.
Proof.
  intros Hwf Herr Hopen. unfold bufio_Write. rewrite Herr.
  destruct (len p <=? bufio_Available b).
  { exists fs, (bufio_Write_copy b p). split; [reflexivity|]. split.
    - apply bufio_keeps_copy. apply bufio_keeps_refl; assumption.
    - apply bufio_stream_copy. }
  destruct (bw_buf b) as [|c buf] eqn:Hbuf.
  { apply bufio_Write_direct_open; assumption. }
  clear c buf Hbuf.
  set (n := bufio_Available b).
  set (b1 := bufio_Write_copy b (slice_to n p)).
  destruct (bufio_Flush_open fs b1 Hwf Herr Hopen) as (fs2 & b2 & Hf & Hk & Hbuf2 & Hs).
  rewrite Hf.
  assert (Hs2 : bufio_stream fs2 b2 ++ slice_from n p = bufio_stream fs b ++ p).
  { rewrite Hs. unfold b1. rewrite bufio_stream_copy, <- app_assoc.
    unfold slice_to, slice_from. rewrite take_drop. reflexivity. }
  assert (Hk' : bufio_keeps fs b fs2 b2).
  { unfold bufio_keeps in *. cbn [b1 bufio_Write_copy bw_wr bw_size] in Hk. exact Hk. }
  destruct Hk as (Hwf2 & _ & _ & Herr2 & Hopen2 & _).
  destruct (len (slice_from n p) <=? bufio_Available b2).
  - eexists _, _. split; [reflexivity|]. split.
    + apply bufio_keeps_copy. exact Hk'.
    + rewrite bufio_stream_copy. exact Hs2.
  - destruct (bufio_Write_direct_open fs2 b2 (slice_from n p) Hwf2 Herr2 Hbuf2 Hopen2)
      as (fs3 & b3 & Hd & Hk3 & Hs3).
    rewrite Hd. exists fs3, b3. split; [reflexivity|]. split.
    + eapply bufio_keeps_trans; eassumption.
    + rewrite Hs3. exact Hs2.
Qed.

(** *** Flush and sync keep the bytes *)

Lemma bufio_stream_err fs b e :
  bufio_stream fs {| bw_wr := bw_wr b; bw_size := bw_size b; bw_buf := bw_buf b;
                     bw_err := e |} = bufio_stream fs b.
Proof. reflexivity. Qed.

Lemma bufio_Flush_stream fs b fs' b' err :
  FS_wf fs ->
  bufio_Flush fs b = (fs', b', err) ->
  FS_wf fs' /\ bufio_stream fs' b' = bufio_stream fs b.
Proof.
  intros Hwf. unfold bufio_Flush.
  destruct (bw_err b) as [e|] eqn:Herr.
  { intros H. inversion H; subst. auto. }
  destruct (bw_buf b) as [|c buf] eqn:Hbuf.
  { intros H. inversion H; subst. auto. }
  rewrite <- Hbuf.
  destruct (fs_fds fs !! bw_wr b) as [f|] eqn:Hfd.
  - destruct (f_closed f) eqn:Hc.
    + unfold File_Write. rewrite Hfd, Hc. intros H. inversion H; subst. auto.
    + destruct (File_Write_stream fs (bw_wr b) f (bw_buf b) b Hwf Hfd Hc eq_refl)
        as (fs1 & Hw & Hwf1 & _ & Hs).
      rewrite Hw. intros H. inversion H; subst. split; [exact Hwf1|].
      rewrite (bufio_stream_buf fs b). rewrite Herr in Hs. exact Hs.
  - unfold File_Write. rewrite Hfd. intros H. inversion H; subst. auto.
Qed.

Lemma SegmentWAL_flush_stream w w' err :
  FS_wf (w_fs w) ->
  SegmentWAL_flush w = (w', err) ->
  FS_wf (w_fs w') /\ SegmentWAL_stream w' = SegmentWAL_stream w.
Proof.
  intros Hwf. unfold SegmentWAL_flush, SegmentWAL_stream.
  destruct (w_cur w) as [b|] eqn:Hcur.
  - destruct (bufio_Flush (w_fs w) b) as [[fs b'] e] eqn:Hf.
    intros H. inversion H; subst. cbn.
    eapply bufio_Flush_stream; eassumption.
  - intros H. inversion H; subst. rewrite Hcur. auto.
Qed.

Lemma SegmentWAL_Sync_stream w w' err :
  FS_wf (w_fs w) ->
  SegmentWAL_Sync w = (w', err) ->
  SegmentWAL_stream w' = SegmentWAL_stream w
  /\ w_curN w' = w_curN w /\ w_files w' = w_files w.
Proof.
  intros Hwf. unfold SegmentWAL_Sync.
  destruct (SegmentWAL_flush w) as [w1 e] eqn:Hf.
  pose proof (SegmentWAL_flush_stream _ _ _ Hwf Hf) as [_ Hs].
  pose proof (SegmentWAL_flush_frame _ _ _ Hf) as (F & N & _).
  destruct e; intros H; inversion H; subst; auto.
Qed.

(** *** Writes to a writable log *)

Lemma SegmentWAL_cur_Write_open w b p :
  SegmentWAL_writable w -> w_cur w = Some b ->
  exists w',
    SegmentWAL_cur_Write w p = (w', None)
    /\ SegmentWAL_writable w'
    /\ SegmentWAL_stream w' = SegmentWAL_stream w ++ p
    /\ (exists b', w_cur w' = Some b')
    /\ w_files w' = w_files w /\ w_curN w' = w_curN w /\ w_maxt w' = w_maxt w.
Proof.
  intros (Hwf & Htail & Hcur) Hb.
  destruct (Hcur b Hb) as [Herr Hopen].
  destruct (bufio_Write_open (w_fs w) b p Hwf Herr Hopen) as (fs' & b' & Hw & Hk & Hs).
  unfold SegmentWAL_cur_Write. rewrite Hb, Hw.
  eexists. split; [reflexivity|].
  destruct Hk as (Hwf' & Hwr & _ & Herr' & Hopen' & Hmono & _).
  split; [|split; [|split; [|cbn; auto]]].
  - split; [exact Hwf'|]. split.
    + intros tf Ht. apply Hmono. apply Htail. exact Ht.
    + cbn. intros b0 Hb0. inversion Hb0; subst. auto.
  - unfold SegmentWAL_stream. cbn. rewrite Hb. exact Hs.
  - cbn. eauto.
Qed.

(** Without a cut, [entry] on a writable log adds the frame of the entry. *)
Lemma SegmentWAL_entry_no_cut w et flag buf :
  SegmentWAL_writable w ->
  SegmentWAL_entry_cuts w buf = false ->
  exists w',
    SegmentWAL_entry w et flag buf = (w', None)
    /\ FS_wf (w_fs w')
    /\ SegmentWAL_stream w' = SegmentWAL_stream w ++ entry_frame et flag buf
    /\ w_curN w' = int64 (w_curN w + int64 (6 + 4 + len buf))
    /\ length (w_files w') = length (w_files w).
Proof.
  intros Hw Hcuts.
  assert (Hcur : exists b, w_cur w = Some b).
  { unfold SegmentWAL_entry_cuts in Hcuts. destruct (w_cur w); [eauto|discriminate]. }
  destruct Hcur as [b Hb].
  unfold SegmentWAL_entry. rewrite Hcuts.
  destruct (SegmentWAL_cur_Write_open w b (entry_header et flag buf) Hw Hb)
    as (w1 & H1 & Hw1 & S1 & [b1 Hb1] & F1 & N1 & M1).
  rewrite H1.
  destruct (SegmentWAL_cur_Write_open w1 b1 buf Hw1 Hb1)
    as (w2 & H2 & Hw2 & S2 & [b2 Hb2] & F2 & N2 & M2).
  rewrite H2.
  destruct (SegmentWAL_cur_Write_open w2 b2
              (crc32.Sum (crc32.Write (crc32.Write crc32.Reset (entry_header et flag buf)) buf) [])
              Hw2 Hb2)
    as (w3 & H3 & Hw3 & S3 & [b3 Hb3] & F3 & N3 & M3).
  rewrite H3.
  assert (Hstream : SegmentWAL_stream w3 = SegmentWAL_stream w ++ entry_frame et flag buf).
  { rewrite S3, S2, S1. unfold entry_frame. rewrite <- !app_assoc. reflexivity. }
  destruct Hw3 as (Hwf3 & _).
  destruct (last (w_files (w_set_curN w3 _))) as [cf|];
    [destruct (sf_maxt cf <? _)|]; eexists; (split; [reflexivity|]);
    cbn; rewrite ?length_insert; unfold SegmentWAL_stream in *; cbn;
    rewrite N3, N2, N1, F3, F2, F1; auto.
Qed.

(** *** A cut on a writable log *)

Lemma os_Create_spec fs name fs' fd :
  FS_wf fs ->
  os_Create fs name = (fs', fd) ->
  FS_wf fs' /\ fd = length (fs_fds fs)
  /\ exists f, fs_fds fs' = fs_fds fs ++ [f] /\ f_pos f = 0 /\ f_closed f = false.
Proof.
  intros [Hd Hf]. unfold os_Create.
  destruct (fs_dir fs !! name) as [ino|] eqn:Hn.
  - intros H. inversion H; subst. clear H. cbn.
    split; [|split; [reflexivity|eexists; split; [reflexivity|cbn; auto]]].
    split; cbn; rewrite length_insert.
    + exact Hd.
    + intros fd f Hl. apply lookup_app_Some in Hl. destruct Hl as [Hl|[_ Hl]].
      * eauto.
      * destruct (fd - length (fs_fds fs))%nat; [|destruct n; discriminate].
        inversion Hl; subst. cbn. split; [eapply Hd; eassumption|lia].
  - intros H. inversion H; subst. clear H. cbn.
    split; [|split; [reflexivity|eexists; split; [reflexivity|cbn; auto]]].
    split; cbn; rewrite length_app; cbn [length].
    + intros n ino Hl. destruct (decide (name = n)) as [->|Hne].
      * rewrite lookup_insert_eq in Hl. inversion Hl; subst. lia.
      * rewrite lookup_insert_ne in Hl by exact Hne. specialize (Hd _ _ Hl). lia.
    + intros fd f Hl. apply lookup_app_Some in Hl. destruct Hl as [Hl|[_ Hl]].
      * destruct (Hf _ _ Hl). split; lia.
      * destruct (fd - length (fs_fds fs))%nat; [|destruct n; discriminate].
        inversion Hl; subst. cbn. split; lia.
Qed.

Lemma fd_open_app fs fs' f x :
  fs_fds fs' = fs_fds fs ++ [f] -> fd_open fs x -> fd_open fs' x.
Proof.
  intros Hfds (g & Hg & Ho). exists g. split; [|exact Ho].
  rewrite Hfds. apply lookup_app_l_Some. exact Hg.
Qed.

(** The first half of [cut]: the tail, if any, is synced, truncated to its
    position and closed. *)
Lemma SegmentWAL_cut_tail_open w :
  SegmentWAL_writable w ->
  forall tf, SegmentWAL_tail w = Some tf ->
  exists w1,
    match SegmentWAL_sync w with
    | (w, Some e) => (w, Some e)
    | (w, None) =>
        match File_Seek_cur (w_fs w) tf with
        | Err e => (w, Some e)
        | Ok off =>
            match File_Truncate (w_fs w) tf off with
            | (fs, Some e) => (w_set_fs w fs, Some e)
            | (fs, None) =>
                let '(fs, err) := File_Close fs tf in
                (w_set_fs w fs, err)
            end
        end
    end = (w1, None)
    /\ FS_wf (w_fs w1)
    /\ w_files w1 = w_files w /\ w_maxt w1 = w_maxt w
    /\ w_segmentSize w1 = w_segmentSize w /\ w_dirFile w1 = w_dirFile w.
Proof.
  intros (Hwf & Htail & Hcur) tf Ht.
  assert (Hflush : exists w0, SegmentWAL_flush w = (w0, None)
                              /\ FS_wf (w_fs w0) /\ fd_open (w_fs w0) tf).
  { unfold SegmentWAL_flush. destruct (w_cur w) as [b|] eqn:Hb.
    - destruct (Hcur b eq_refl) as [Herr Hopen].
      destruct (bufio_Flush_open (w_fs w) b Hwf Herr Hopen) as (fs' & b' & Hf & Hk & _).
      rewrite Hf. eexists. split; [reflexivity|]. cbn.
      destruct Hk as (Hwf' & _ & _ & _ & _ & Hmono & _). auto.
    - eexists. split; [reflexivity|]. auto. }
  destruct Hflush as (w0 & Hf & Hwf0 & (f & Hfd & Hopen)).
  pose proof (SegmentWAL_flush_frame _ _ _ Hf) as (F0 & N0 & M0 & S0 & D0).
  unfold SegmentWAL_sync. rewrite Hf.
  assert (Hdsync : fileutil_Fdatasync (w_fs w0) (SegmentWAL_tail w0) = None).
  { unfold SegmentWAL_tail. rewrite F0. unfold SegmentWAL_tail in Ht. rewrite Ht.
    unfold fileutil_Fdatasync. rewrite Hfd, Hopen. reflexivity. }
  rewrite Hdsync.
  unfold File_Seek_cur. rewrite Hfd, Hopen.
  unfold File_Truncate. rewrite Hfd, Hopen.
  unfold File_Close. cbn [fs_set_data fs_fds]. rewrite Hfd, Hopen.
  eexists. split; [reflexivity|]. cbn.
  split; [|auto].
  apply FS_wf_set_fd.
  - apply FS_wf_set_data. exact Hwf0.
  - cbn. rewrite length_insert. apply (proj2 Hwf0 tf f Hfd).
  - cbn. apply (proj2 Hwf0 tf f Hfd).
Qed.

Lemma last_app_singleton {A} (l : list A) x : last (l ++ [x]) = Some x.
Proof. apply last_snoc. Qed.

Lemma SegmentWAL_cut_open w :
  SegmentWAL_writable w ->
  exists w',
    SegmentWAL_cut w = (w', None)
    /\ SegmentWAL_writable w'
    /\ SegmentWAL_stream w' = segment_header
    /\ w_curN w' = 8
    /\ length (w_files w') = S (length (w_files w))
    /\ w_maxt w' = w_maxt w.
Proof.
  intros Hw.
  assert (Hfirst : exists w1,
             match SegmentWAL_tail w with
             | None => (w, None)
             | Some tf =>
                 match SegmentWAL_sync w with
                 | (w, Some e) => (w, Some e)
                 | (w, None) =>
                     match File_Seek_cur (w_fs w) tf with
                     | Err e => (w, Some e)
                     | Ok off =>
                         match File_Truncate (w_fs w) tf off with
                         | (fs, Some e) => (w_set_fs w fs, Some e)
                         | (fs, None) =>
                             let '(fs, err) := File_Close fs tf in
                             (w_set_fs w fs, err)
                         end
                     end
                 end
             end = (w1, None)
             /\ FS_wf (w_fs w1)
             /\ w_files w1 = w_files w /\ w_maxt w1 = w_maxt w
             /\ w_segmentSize w1 = w_segmentSize w /\ w_dirFile w1 = w_dirFile w).
  { destruct (SegmentWAL_tail w) as [tf|] eqn:Ht.
    - apply SegmentWAL_cut_tail_open; assumption.
    - exists w. destruct Hw as (Hwf & _).
      split; [reflexivity|]. split; [exact Hwf|]. auto. }
  destruct Hfirst as (w1 & H1 & Hwf1 & F1 & M1 & S1 & D1).
  unfold SegmentWAL_cut. rewrite H1.
  destruct (os_Create (w_fs w1) (nextSequenceFile (w_fs w1) (w_dirFile w1))) as [fs2 fd] eqn:Hc.
  destruct (os_Create_spec _ _ _ _ Hwf1 Hc) as (Hwf2 & Hfd & f & Hfds & Hpos & Hopen).
  assert (Hl2 : fs_fds fs2 !! fd = Some f).
  { rewrite Hfds, Hfd. rewrite lookup_app_r by lia. rewrite Nat.sub_diag. reflexivity. }
  unfold fileutil_Preallocate. rewrite Hl2, Hopen.
  set (fs3 := fs_set_data fs2 (f_ino f) _).
  assert (Hwf3 : FS_wf fs3) by (apply FS_wf_set_data; exact Hwf2).
  assert (Hl3 : fs_fds fs3 !! fd = Some f) by exact Hl2.
  destruct (File_Write_stream fs3 fd f segment_header
              (bufio_NewWriterSize fd (4 * 1024 * 1024)) Hwf3 Hl3 Hopen eq_refl)
    as (fs4 & Hw4 & Hwf4 & Hfds4 & Hs4).
  rewrite Hw4. eexists. split; [reflexivity|].
  assert (Hopen4 : fd_open fs4 fd).
  { exists (File_set_pos f (f_pos f + len segment_header)). split; [|exact Hopen].
    rewrite Hfds4. apply list_lookup_insert_eq. eapply lookup_lt_Some. exact Hl3. }
  split; [|split; [|split; [reflexivity|split; [|exact M1]]]].
  - split; [exact Hwf4|]. split.
    + intros tf. unfold SegmentWAL_tail. cbn. rewrite last_app_singleton.
      intros H. inversion H; subst. exact Hopen4.
    + cbn. intros b Hb. inversion Hb; subst. cbn. auto.
  - unfold SegmentWAL_stream. cbn [w_cur w_set_curN w_set_cur w_fs w_set_files w_set_fs].
    unfold bufio_NewWriterSize in *. cbn [bw_wr bw_size bw_buf bw_err] in Hs4.
    rewrite Hs4. unfold bufio_stream. cbn [bw_wr bw_buf]. rewrite Hl3, Hpos.
    reflexivity.
  - cbn. rewrite length_app, F1. cbn [length]. lia.
Qed.

(** With a cut, [entry] on a writable log leaves the header of the new
    segment and the frame of the entry. *)
Lemma SegmentWAL_entry_cut w et flag buf :
  SegmentWAL_writable w ->
  SegmentWAL_entry_cuts w buf = true ->
  exists w',
    SegmentWAL_entry w et flag buf = (w', None)
    /\ FS_wf (w_fs w')
    /\ SegmentWAL_stream w' = segment_header ++ entry_frame et flag buf
    /\ w_curN w' = int64 (8 + int64 (6 + 4 + len buf))
    /\ length (w_files w') = S (length (w_files w)).
Proof.
  intros Hw Hcuts.
  destruct (SegmentWAL_cut_open w Hw) as (w0 & Hcut & Hw0 & S0 & N0 & F0 & M0).
  assert (Hcur : exists b, w_cur w0 = Some b).
  { revert Hcut. unfold SegmentWAL_cut.
    destruct (match SegmentWAL_tail w with None => _ | Some tf => _ end) as [w1 [e|]];
      [discriminate|].
    destruct (os_Create _ _) as [fs f].
    destruct (fileutil_Preallocate _ _ _) as [fs1 [e|]]; [discriminate|].
    destruct (File_Write _ _ _) as [fs2 [e|]]; [discriminate|].
    intros H. inversion H; subst. cbn. eauto. }
  destruct Hcur as [b Hb].
  unfold SegmentWAL_entry. rewrite Hcuts, Hcut.
  destruct (SegmentWAL_cur_Write_open w0 b (entry_header et flag buf) Hw0 Hb)
    as (w1 & H1 & Hw1 & S1 & [b1 Hb1] & F1 & N1 & M1).
  rewrite H1.
  destruct (SegmentWAL_cur_Write_open w1 b1 buf Hw1 Hb1)
    as (w2 & H2 & Hw2 & S2 & [b2 Hb2] & F2 & N2 & M2).
  rewrite H2.
  destruct (SegmentWAL_cur_Write_open w2 b2
              (crc32.Sum (crc32.Write (crc32.Write crc32.Reset (entry_header et flag buf)) buf) [])
              Hw2 Hb2)
    as (w3 & H3 & Hw3 & S3 & [b3 Hb3] & F3 & N3 & M3).
  rewrite H3.
  assert (Hstream : SegmentWAL_stream w3 = segment_header ++ entry_frame et flag buf).
  { rewrite S3, S2, S1, S0. unfold entry_frame. rewrite <- !app_assoc. reflexivity. }
  destruct Hw3 as (Hwf3 & _).
  destruct (last (w_files (w_set_curN w3 _))) as [cf|];
    [destruct (sf_maxt cf <? _)|]; eexists; (split; [reflexivity|]);
    cbn; rewrite ?length_insert; unfold SegmentWAL_stream in *; cbn;
    rewrite N3, N2, N1, N0, F3, F2, F1, F0; auto.
Qed.

Lemma encodeDeletes_buf_no_intervals stones :
  Forall (fun s => stone_intervals s = []) stones -> encodeDeletes_buf stones = [].
Proof.
  unfold encodeDeletes_buf, getWALBuffer.
  induction 1 as [|s stones Hs _ IH]; cbn [fold_left]; [reflexivity|].
  rewrite Hs. cbn [fold_left]. exact IH.
Qed.

(** C9.  Logging an empty batch is no uniform no-op.  [LogSeries] and
    [LogSamples] with an empty slice add no byte to the segment and leave the
    write position and the segments as they are (they only sync).
    [LogDeletes] with no stone, or with stones without intervals, appends a
    deletes entry with an empty payload: ten bytes, after the header of a new
    segment when [entry] cuts one. *)
Theorem Log_empty_batch :
  forall w : SegmentWAL,
    FS_wf (w_fs w) ->
    (forall w' err,
        SegmentWAL_LogSeries w [] = (w', err) ->
        SegmentWAL_stream w' = SegmentWAL_stream w
        /\ w_curN w' = w_curN w /\ w_files w' = w_files w)
    /\ (forall w' err,
           SegmentWAL_LogSamples w [] = (w', err) ->
           SegmentWAL_stream w' = SegmentWAL_stream w
           /\ w_curN w' = w_curN w /\ w_files w' = w_files w)
    /\ (forall stones,
           Forall (fun s => stone_intervals s = []) stones ->
           SegmentWAL_writable w ->
           0 <= w_curN w < 2 ^ 62 ->
           exists w' err,
             SegmentWAL_LogDeletes w stones = (w', err)
             /\ SegmentWAL_stream w'
                = (if SegmentWAL_entry_cuts w [] then segment_header
                   else SegmentWAL_stream w)
                  ++ entry_frame WALEntryDeletes walDeletesSimple []
             /\ w_curN w' = (if SegmentWAL_entry_cuts w [] then 8 else w_curN w) + 10
             /\ length (w_files w')
                = ((if SegmentWAL_entry_cuts w [] then 1 else 0) + length (w_files w))%nat).
Proof.
  intros w Hwf. split; [|split].
  - intros w' err. unfold SegmentWAL_LogSeries. cbn [SegmentWAL_encodeSeries].
    destruct (w_flushInterval w <=? 0).
    + apply SegmentWAL_Sync_stream. exact Hwf.
    + intros H. inversion H; subst. auto.
  - intros w' err. unfold SegmentWAL_LogSamples. cbn [SegmentWAL_encodeSamples].
    destruct (w_flushInterval w <=? 0).
    + apply SegmentWAL_Sync_stream. exact Hwf.
    + intros H. inversion H; subst. auto.
  - intros stones Hst Hw HcurN.
    unfold SegmentWAL_LogDeletes, SegmentWAL_encodeDeletes.
    rewrite (encodeDeletes_buf_no_intervals stones Hst).
    assert (Hentry : exists w1,
               SegmentWAL_entry w WALEntryDeletes walDeletesSimple [] = (w1, None)
               /\ FS_wf (w_fs w1)
               /\ SegmentWAL_stream w1
                  = (if SegmentWAL_entry_cuts w [] then segment_header
                     else SegmentWAL_stream w)
                    ++ entry_frame WALEntryDeletes walDeletesSimple []
               /\ w_curN w1 = (if SegmentWAL_entry_cuts w [] then 8 else w_curN w) + 10
               /\ length (w_files w1)
                  = ((if SegmentWAL_entry_cuts w [] then 1 else 0) + length (w_files w))%nat).
    { destruct (SegmentWAL_entry_cuts w []) eqn:Ec.
      - destruct (SegmentWAL_entry_cut w WALEntryDeletes walDeletesSimple [] Hw Ec)
          as (w1 & H1 & Hwf1 & S1 & N1 & F1).
        exists w1. split; [exact H1|]. split; [exact Hwf1|]. split; [exact S1|].
        split; [|exact F1]. rewrite N1. reflexivity.
      - destruct (SegmentWAL_entry_no_cut w WALEntryDeletes walDeletesSimple [] Hw Ec)
          as (w1 & H1 & Hwf1 & S1 & N1 & F1).
        exists w1. split; [exact H1|]. split; [exact Hwf1|]. split; [exact S1|].
        split; [|exact F1]. rewrite N1. change (int64 (6 + 4 + len [])) with 10.
        apply int64_small. unfold is_int64. lia. }
    destruct Hentry as (w1 & H1 & Hwf1 & S1 & N1 & F1). rewrite H1.
    destruct (w_flushInterval w1 <=? 0).
    + destruct (SegmentWAL_Sync w1) as [w2 err] eqn:Hs.
      destruct (SegmentWAL_Sync_stream _ _ _ Hwf1 Hs) as (S2 & N2 & F2).
      exists w2, err. split; [reflexivity|].
      rewrite S2, N2, F2. auto.
    + exists w1, None. auto.
Qed.

Lemma Log_empty_batch_witness :
  exists w' err,
    SegmentWAL_LogDeletes example_wal_oversize [] = (w', err)
    /\ w_curN w' = 18 /\ length (w_files w') = 2%nat.
Proof.
  assert (Hwf : FS_wf (w_fs example_wal_oversize)).
  { apply FS_wfb_sound. vm_compute. reflexivity. }
  assert (Hw : SegmentWAL_writable example_wal_oversize).
  { split; [exact Hwf|]. split.
    - intros tf Ht. vm_compute in Ht. inversion Ht; subst.
      eexists. split; vm_compute; reflexivity.
    - intros b Hb. vm_compute in Hb. inversion Hb; subst.
      split; [reflexivity|]. eexists. split; vm_compute; reflexivity. }
  assert (Hn : 0 <= w_curN example_wal_oversize < 2 ^ 62)
    by (vm_compute; split; [discriminate|reflexivity]).
  destruct (proj2 (proj2 (Log_empty_batch example_wal_oversize Hwf)) [] (List.Forall_nil _) Hw Hn)
    as (w' & err & H & _ & HN & HF).
  exists w', err. split; [exact H|].
  split; [rewrite HN|rewrite HF]; vm_compute; reflexivity.
Defined.


(** ** The write-ahead log: replay and torn frames *)

(** *** Reading from a handle *)

Lemma fs_same_except_refl fs fd : fs_same_except fs fs fd.
Proof. unfold fs_same_except. auto. Qed.

Lemma fs_same_except_trans fs1 fs2 fs3 fd :
  fs_same_except fs1 fs2 fd -> fs_same_except fs2 fs3 fd -> fs_same_except fs1 fs3 fd.
Proof.
  intros (I1 & D1 & F1 & N1 & O1) (I2 & D2 & F2 & N2 & O2).
  split; [congruence|]. split; [congruence|]. split; [|split; congruence].
  intros x Hx. rewrite F2, F1 by exact Hx. reflexivity.
Qed.

Lemma fs_same_except_set_fd fs fd f g :
  fs_fds fs !! fd = Some f -> f_name g = f_name f -> f_ino g = f_ino f ->
  fs_same_except fs (fs_set_fd fs fd g) fd.
Proof.
  intros Hfd Hname Hino. split; [reflexivity|]. split; [reflexivity|]. split; [|split].
  - intros x Hx. cbn. apply list_lookup_insert_ne. congruence.
  - unfold File_Name. cbn. rewrite Hfd.
    rewrite list_lookup_insert_eq by (eapply lookup_lt_Some; exact Hfd). exact Hname.
  - cbn. rewrite Hfd.
    rewrite list_lookup_insert_eq by (eapply lookup_lt_Some; exact Hfd).
    cbn. f_equal. exact Hino.
Qed.

Lemma seg_at_same_except fs fs' fd x rest :
  fs_same_except fs fs' fd -> x <> fd -> seg_at fs x rest -> seg_at fs' x rest.
Proof.
  intros (HI & HD & HF & HN & HO) Hx ((f & Hf & Ho) & Hr).
  unfold seg_at, fd_open, fs_remaining, fs_data in *.
  rewrite HF, HI by exact Hx. rewrite Hf in *. split; [eauto|exact Hr].
Qed.

Lemma fd_open_same_except fs fs' fd x :
  fs_same_except fs fs' fd -> x <> fd -> fd_open fs x -> fd_open fs' x.
Proof.
  intros (HI & HD & HF & HN & HO) Hx (f & Hf & Ho).
  unfold fd_open. rewrite HF by exact Hx. eauto.
Qed.

Lemma File_Name_same_except fs fs' fd x :
  fs_same_except fs fs' fd -> File_Name fs' x = File_Name fs x.
Proof.
  intros (HI & HD & HF & HN & HO).
  destruct (decide (x = fd)) as [->|Hx]; [exact HN|].
  unfold File_Name. rewrite HF by exact Hx. reflexivity.
Qed.




(** A read of [n] bytes from an open handle with [rest] left. *)
Lemma File_Read_some fs fd rest n :
  FS_wf fs -> seg_at fs fd rest -> 0 <= n ->
  n = 0 \/ rest <> [] ->
  exists fs',
    File_Read fs fd n = (fs', slice_to n rest, None)
    /\ FS_wf fs' /\ fs_same_except fs fs' fd
    /\ seg_at fs' fd (slice_from n rest).
Proof.
  intros Hwf ((f & Hfd & Hopen) & Hrest) Hn Hsome.
  unfold fs_remaining in Hrest. rewrite Hfd in Hrest.
  destruct (proj2 Hwf fd f Hfd) as [Hino Hpos].
  unfold File_Read. rewrite Hfd, Hopen, Hrest.
  assert (Hcond : (0 <? n) && (len (slice_to n rest) =? 0) = false).
  { destruct Hsome as [->|Hne]; [reflexivity|].
    apply andb_false_iff. destruct (Z.ltb_spec 0 n) as [Hlt|Hge]; [right|left; reflexivity].
    apply Z.eqb_neq. rewrite len_slice_to by lia.
    destruct rest; [contradiction|]. rewrite len_cons. pose proof (len_nonneg rest). lia. }
  rewrite Hcond. eexists. split; [reflexivity|].
  split; [|split].
  - apply FS_wf_set_fd; [exact Hwf|exact Hino|].
    cbn. pose proof (len_nonneg (slice_to n rest)). lia.
  - apply (fs_same_except_set_fd fs fd f (File_set_pos f _) Hfd eq_refl eq_refl).
  - split.
    + exists (File_set_pos f (f_pos f + len (slice_to n rest))). split; [|exact Hopen].
      cbn. apply list_lookup_insert_eq. eapply lookup_lt_Some. exact Hfd.
    + unfold fs_remaining. cbn [fs_set_fd fs_fds].
      rewrite list_lookup_insert_eq by (eapply lookup_lt_Some; exact Hfd).
      cbn [File_set_pos f_pos f_ino].
      change (fs_data (fs_set_fd fs fd _) (f_ino f)) with (fs_data fs (f_ino f)).
      rewrite <- slice_from_slice_from by (try lia; apply len_nonneg).
      rewrite Hrest. apply slice_from_len_slice_to.
Qed.

Lemma File_Read_eof fs fd n :
  seg_at fs fd [] -> 0 < n ->
  File_Read fs fd n = (fs, [], Some io_EOF).
Proof.
  intros ((f & Hfd & Hopen) & Hrest) Hn.
  unfold fs_remaining in Hrest. rewrite Hfd in Hrest.
  unfold File_Read. rewrite Hfd, Hopen, Hrest.
  apply Z.ltb_lt in Hn. rewrite Hn.
  replace (slice_to n (@nil byte)) with (@nil byte)
    by (unfold slice_to; rewrite take_nil; reflexivity).
  reflexivity.
Qed.

(** *** The checksum is a 32-bit value *)

Lemma lxor_range n a b :
  0 <= n -> 0 <= a < 2 ^ n -> 0 <= b < 2 ^ n -> 0 <= Z.lxor a b < 2 ^ n.
Proof.
  intros Hn Ha Hb.
  assert (H0 : 0 <= Z.lxor a b) by (apply Z.lxor_nonneg; lia).
  split; [exact H0|].
  destruct (Z.eq_dec n 0) as [->|Hn0].
  { change (2 ^ 0) with 1 in *. replace a with 0 by lia. replace b with 0 by lia.
    change (Z.lxor 0 0) with 0. lia. }
  destruct (Z.eq_dec (Z.lxor a b) 0) as [->|Hne]; [apply Z.pow_pos_nonneg; lia|].
  apply Z.log2_lt_pow2; [lia|].
  eapply Z.le_lt_trans; [apply Z.log2_lxor; lia|].
  apply Z.max_lub_lt.
  - destruct (Z.eq_dec a 0) as [->|]; [cbn; lia|]. apply Z.log2_lt_pow2; lia.
  - destruct (Z.eq_dec b 0) as [->|]; [cbn; lia|]. apply Z.log2_lt_pow2; lia.
Qed.

Lemma shiftr_range n k a : 0 <= k -> 0 <= a < 2 ^ n -> 0 <= Z.shiftr a k < 2 ^ n.
Proof.
  intros Hk Ha. rewrite Z.shiftr_div_pow2 by lia.
  assert (0 < 2 ^ k) by (apply Z.pow_pos_nonneg; lia).
  split; [apply Z.div_pos; lia|].
  apply Z.le_lt_trans with a; [|lia].
  apply Z.div_le_upper_bound; [lia|]. nia.
Qed.

Lemma table_bits_range k crc : is_uint32 crc -> is_uint32 (crc32.table_bits k crc).
Proof.
  revert crc. induction k as [|k IH]; intros crc Hc; cbn [crc32.table_bits]; [exact Hc|].
  apply IH. unfold is_uint32 in *.
  destruct (Z.land crc 1 =? 1).
  - apply lxor_range; [lia|apply shiftr_range; lia|].
    unfold crc32.Castagnoli. lia.
  - apply shiftr_range; lia.
Qed.

Lemma crc32_Update_range crc p : is_uint32 crc -> is_uint32 (crc32.Update crc p).
Proof.
  intros Hc. unfold crc32.Update, is_uint32 in *.
  apply lxor_range; [lia| |lia].
  assert (H : 0 <= Z.lxor crc 4294967295 < 2 ^ 32) by (apply lxor_range; lia).
  revert H. generalize (Z.lxor crc 4294967295). clear crc Hc.
  induction p as [|v p IH]; intros c Hc; cbn [fold_left]; [exact Hc|].
  apply IH. apply lxor_range; [lia| |apply shiftr_range; lia].
  apply table_bits_range. unfold is_uint32.
  assert (0 <= Z.lxor (uint8 c) (byte.unsigned v) < 2 ^ 8).
  { apply lxor_range; [lia| |apply byte.unsigned_range].
    unfold uint8. apply Z.mod_pos_bound. lia. }
  lia.
Qed.

Lemma crc32_Write_range h p : is_uint32 h -> is_uint32 (crc32.Write h p).
Proof. apply crc32_Update_range. Qed.

Lemma crc32_Reset_range : is_uint32 crc32.Reset.
Proof. unfold is_uint32, crc32.Reset. lia. Qed.

(** *** The header of an entry *)

Lemma len_entry_header et flag buf : len (entry_header et flag buf) = 6.
Proof. unfold entry_header. rewrite len_app, len_PutUint32. reflexivity. Qed.

Lemma header_type_entry_header et flag buf rest :
  0 <= et < 256 -> header_type (entry_header et flag buf ++ rest) = et.
Proof.
  intros H. unfold header_type, entry_header, index. cbn.
  apply byte_unsigned_of_Z_small. exact H.
Qed.

Lemma header_flag_entry_header et flag buf rest :
  0 <= flag < 256 ->
  byte.unsigned (index Byte.x00 (entry_header et flag buf ++ rest) 1) = flag.
Proof.
  intros H. unfold entry_header, index. cbn.
  apply byte_unsigned_of_Z_small. exact H.
Qed.

Lemma header_length_entry_header et flag buf rest :
  len buf < 2 ^ 32 -> header_length (entry_header et flag buf ++ rest) = len buf.
Proof.
  intros H. unfold header_length, entry_header.
  change (slice_from 2 (([?a; ?b] ++ ?c) ++ ?d)) with (c ++ d).
  cbn [app]. unfold slice_from. cbn [Z.to_nat Pos.to_nat Pos.iter_op Nat.add drop].
  pose proof (len_nonneg buf).
  rewrite uint32_small by (unfold is_uint32; lia).
  apply Uint32_PutUint32. unfold is_uint32. lia.
Qed.

Lemma len_entry_frame et flag buf : len (entry_frame et flag buf) = 10 + len buf.
Proof.
  unfold entry_frame, crc32.Sum. cbn [app].
  rewrite !len_app, len_entry_header, len_PutUint32. lia.
Qed.

Lemma entry_header_type et flag buf :
  0 <= et < 256 -> byte.unsigned (index Byte.x00 (entry_header et flag buf) 0) = et.
Proof.
  intros H. unfold entry_header, index. cbn. apply byte_unsigned_of_Z_small. exact H.
Qed.

Lemma entry_header_flag et flag buf :
  0 <= flag < 256 -> byte.unsigned (index Byte.x00 (entry_header et flag buf) 1) = flag.
Proof.
  intros H. unfold entry_header, index. cbn. apply byte_unsigned_of_Z_small. exact H.
Qed.

Lemma entry_header_length et flag buf :
  len buf < 2 ^ 32 -> binary.Uint32 (slice_from 2 (entry_header et flag buf)) = len buf.
Proof.
  intros H. pose proof (header_length_entry_header et flag buf [] H) as E.
  rewrite app_nil_r in E. exact E.
Qed.

Lemma known_type_range t : known_type t -> 0 < t < 256.
Proof.
  unfold known_type, WALEntrySeries, WALEntrySamples, WALEntryDeletes. lia.
Qed.

Lemma known_type_test t :
  known_type t ->
  (t =? 0) = false
  /\ negb (t =? WALEntrySeries) && negb (t =? WALEntrySamples)
       && negb (t =? WALEntryDeletes) = false.
Proof.
  unfold known_type, WALEntrySeries, WALEntrySamples, WALEntryDeletes.
  intros [H | [H | H]]; subst t; split; reflexivity.
Qed.

Lemma unknown_type_test t :
  ~ known_type t ->
  negb (t =? WALEntrySeries) && negb (t =? WALEntrySamples)
    && negb (t =? WALEntryDeletes) = true.
Proof.
  unfold known_type. intros H.
  destruct (Z.eqb_spec t WALEntrySeries); [tauto|].
  destruct (Z.eqb_spec t WALEntrySamples); [tauto|].
  destruct (Z.eqb_spec t WALEntryDeletes); [tauto|]. reflexivity.
Qed.

Lemma reader_moved_set_fs r fs cr :
  FS_wf fs -> fs_same_except (w_fs (r_wal r)) fs cr -> reader_moved r (r_set_fs r fs) cr.
Proof.
  intros Hwf Hse. unfold reader_moved. cbn.
  split; [reflexivity|]. split; [reflexivity|]. split; [reflexivity|].
  split; [reflexivity|]. split; [exact Hwf|exact Hse].
Qed.

Lemma reader_moved_set_buf r r' cr b :
  reader_moved r r' cr -> reader_moved r (r_set_buf r' b) cr.
Proof. intros H. exact H. Qed.

Lemma reader_moved_trans r1 r2 r3 cr :
  reader_moved r1 r2 cr -> reader_moved r2 r3 cr -> reader_moved r1 r3 cr.
Proof.
  intros (A1 & B1 & C1 & D1 & E1 & F1) (A2 & B2 & C2 & D2 & E2 & F2).
  unfold reader_moved.
  split; [congruence|]. split; [congruence|]. split; [congruence|].
  split; [congruence|]. split; [exact E2|].
  eapply fs_same_except_trans; eassumption.
Qed.

(** The six header bytes are there. *)
Lemma File_Read_header fs cr rest :
  FS_wf fs -> seg_at fs cr rest -> 6 <= len rest ->
  exists fs1,
    File_Read fs cr 6 = (fs1, slice_to 6 rest, None)
    /\ len (slice_to 6 rest) = 6
    /\ FS_wf fs1 /\ fs_same_except fs fs1 cr /\ seg_at fs1 cr (slice_from 6 rest).
Proof.
  intros Hwf Hseg Hlen.
  destruct (File_Read_some fs cr rest 6 Hwf Hseg) as (fs1 & E & W & S & A); [lia| |].
  { right. intros ->. rewrite len_nil in Hlen. lia. }
  exists fs1. split; [exact E|]. split; [rewrite len_slice_to by lia; lia|].
  split; [exact W|]. split; [exact S|exact A].
Qed.

(** *** One entry *)

Lemma header_type_slice_to rest :
  byte.unsigned (index Byte.x00 (slice_to 6 rest) 0) = header_type rest.
Proof.
  unfold header_type, index, slice_to. rewrite lookup_take_lt by (cbn; lia). reflexivity.
Qed.

Lemma header_length_slice_to rest :
  binary.Uint32 (slice_from 2 (slice_to 6 rest)) = header_length rest.
Proof.
  unfold header_length, binary.Uint32, binary.be_get, slice_from, slice_to.
  change (Z.to_nat 6) with (2 + 4)%nat. change (Z.to_nat 2) with 2%nat.
  rewrite <- take_drop_commute, take_idemp. reflexivity.
Qed.

Lemma header_length_range rest : 0 <= header_length rest.
Proof.
  unfold header_length, binary.Uint32, binary.be_get.
  apply le_combine_bound.
Qed.






(** The buffer of the reader is replaced when it is too short; the file
    system and the rest of the reader stay. *)
Lemma reader_buffer_grown r fs1 cr n :
  FS_wf fs1 -> fs_same_except (w_fs (r_wal r)) fs1 cr ->
  let r1 := if len (r_buf (r_set_fs r fs1)) <? n
            then r_set_buf (r_set_fs r fs1) (zeros (Z.to_nat n))
            else r_set_fs r fs1 in
  w_fs (r_wal r1) = fs1 /\ reader_moved r r1 cr.
Proof.
  intros W S. cbv zeta.
  destruct (len (r_buf (r_set_fs r fs1)) <? n);
    (split; [reflexivity|]); [apply reader_moved_set_buf|];
    apply reader_moved_set_fs; assumption.
Qed.

(** The end of a segment: no byte left, or a complete header whose type
    byte is zero. *)
Lemma walReader_entry_end r cr rest :
  FS_wf (w_fs (r_wal r)) -> seg_at (w_fs (r_wal r)) cr rest -> segment_end rest ->
  exists r',
    walReader_entry r cr = (r', Err io_EOF)
    /\ reader_moved r r' cr
    /\ fd_open (w_fs (r_wal r')) cr.
Proof.
  intros Hwf Hseg [->|[Hlen Ht]].
  - exists (r_set_fs r (w_fs (r_wal r))). unfold walReader_entry.
    rewrite (File_Read_eof _ _ 6 Hseg) by lia. cbv beta iota zeta.
    split; [reflexivity|]. split; [|exact (proj1 Hseg)].
    apply reader_moved_set_fs; [exact Hwf|apply fs_same_except_refl].
  - destruct (File_Read_header _ cr _ Hwf Hseg Hlen) as (fs1 & E1 & L1 & W1 & S1 & A1).
    exists (r_set_fs r fs1). unfold walReader_entry. rewrite E1. cbv beta iota zeta.
    rewrite L1. change (negb (6 =? 6)) with false. cbv beta iota.
    rewrite header_type_slice_to, Ht. change (0 =? 0) with true. cbv beta iota.
    split; [reflexivity|]. split; [|exact (proj1 A1)].
    apply reader_moved_set_fs; assumption.
Qed.

(** A frame that is there in full: the entry, or the checksum error. *)
Lemma walReader_entry_frame r cr hdr body c more :
  FS_wf (w_fs (r_wal r)) ->
  seg_at (w_fs (r_wal r)) cr (hdr ++ body ++ c ++ more) ->
  len hdr = 6 -> known_type (header_type hdr) ->
  len body = header_length hdr -> len c = 4 ->
  exists r',
    walReader_entry r cr
    = (r', if negb (crc32.Write (crc32.Write crc32.Reset hdr) body =? binary.Uint32 c)
           then Err (walCorruptionErr "unexpected CRC32 checksum %x, want %x"
                       (crc32.Write (crc32.Write crc32.Reset hdr) body))
           else Ok (header_type hdr, byte.unsigned (index Byte.x00 hdr 1), body))
    /\ reader_moved r r' cr
    /\ seg_at (w_fs (r_wal r')) cr more.
Proof.
  intros Hwf Hseg Hhdr Hk Hbody Hc.
  pose proof (len_nonneg body) as Hbody0.
  pose proof (len_nonneg more) as Hmore0.
  assert (Hrest : 6 <= len (hdr ++ body ++ c ++ more)).
  { rewrite len_app. pose proof (len_nonneg (body ++ c ++ more)). lia. }
  destruct (File_Read_header _ cr _ Hwf Hseg Hrest) as (fs1 & E1 & L1 & W1 & S1 & A1).
  assert (T : header_type (hdr ++ body ++ c ++ more) = header_type hdr
              /\ header_length (hdr ++ body ++ c ++ more) = header_length hdr).
  { rewrite <- !header_type_slice_to, <- !header_length_slice_to.
    rewrite slice_to_app_len by (symmetry; exact Hhdr).
    rewrite slice_to_all by lia. split; reflexivity. }
  destruct T as [Tt Tl].
  destruct (known_type_test _ Hk) as [T0 T1].
  unfold walReader_entry. rewrite E1. cbv beta iota zeta.
  rewrite L1. change (negb (6 =? 6)) with false. cbv beta iota.
  rewrite header_type_slice_to, header_length_slice_to, Tt, Tl, T0, T1. cbv beta iota.
  rewrite slice_to_app_len in * by (symmetry; exact Hhdr).
  rewrite slice_from_app_len in A1 by (symmetry; exact Hhdr).
  destruct (reader_buffer_grown r fs1 cr (header_length hdr) W1 S1) as [F1 M1].
  set (r1 := if len (r_buf (r_set_fs r fs1)) <? header_length hdr then _ else _) in *.
  clearbody r1.
  destruct (File_Read_some fs1 cr _ (header_length hdr) W1 A1)
    as (fs2 & E2 & W2 & S2 & A2); [lia| |].
  { right. apply not_nil_len. rewrite !len_app. lia. }
  rewrite slice_to_app_len in E2 by (symmetry; exact Hbody).
  rewrite slice_from_app_len in A2 by (symmetry; exact Hbody).
  destruct (File_Read_some fs2 cr _ 4 W2 A2) as (fs3 & E3 & W3 & S3 & A3); [lia| |].
  { right. apply not_nil_len. rewrite !len_app. lia. }
  rewrite slice_to_app_len in E3 by (symmetry; exact Hc).
  rewrite slice_from_app_len in A3 by (symmetry; exact Hc).
  rewrite F1, E2. cbv beta iota zeta. rewrite Hbody, Z.eqb_refl. cbn [negb].
  change (w_fs (r_wal (r_set_buf (r_set_fs r1 fs2) ?b))) with fs2.
  rewrite E3. cbv beta iota zeta. rewrite Hc.
  change (negb (4 =? 4)) with false. cbv beta iota.
  assert (Hret : slice_to (header_length hdr)
                   (r_buf (r_set_buf (r_set_fs r1 fs2)
                             (body ++ slice_from (header_length hdr)
                                        (r_buf (r_set_fs r1 fs2))))) = body).
  { change (r_buf (r_set_buf ?x ?b)) with b. apply slice_to_app_len. symmetry. exact Hbody. }
  rewrite Hret.
  exists (r_set_fs
            (r_set_buf (r_set_fs r1 fs2)
               (body ++ slice_from (header_length hdr) (r_buf (r_set_fs r1 fs2)))) fs3).
  split; [|split].
  - destruct (negb (crc32.Write _ _ =? _)); reflexivity.
  - eapply reader_moved_trans; [exact M1|].
    eapply reader_moved_trans; [|apply reader_moved_set_fs; [exact W3|exact S3]].
    apply reader_moved_set_buf, reader_moved_set_fs; [exact W2|]. rewrite F1. exact S2.
  - exact A3.
Qed.

(** A complete frame is returned as the entry it frames. *)
Lemma walReader_entry_valid r cr et flag buf rest :
  FS_wf (w_fs (r_wal r)) ->
  seg_at (w_fs (r_wal r)) cr (entry_frame et flag buf ++ rest) ->
  known_type et -> 0 <= flag < 256 -> len buf < 2 ^ 32 ->
  exists r',
    walReader_entry r cr = (r', Ok (et, flag, buf))
    /\ reader_moved r r' cr
    /\ seg_at (w_fs (r_wal r')) cr rest.
Proof.
  intros Hwf Hseg Hk Hflag Hlen.
  pose proof (known_type_range et Hk) as Het.
  set (hdr := entry_header et flag buf) in *.
  set (crc := crc32.Write (crc32.Write crc32.Reset hdr) buf).
  assert (Hframe : entry_frame et flag buf ++ rest
                   = hdr ++ buf ++ binary.PutUint32 crc ++ rest).
  { unfold entry_frame, crc32.Sum. cbn [app]. rewrite <- !app_assoc. reflexivity. }
  rewrite Hframe in Hseg.
  assert (Ht : header_type hdr = et) by (apply entry_header_type; lia).
  assert (Hl : header_length hdr = len buf) by (apply entry_header_length; exact Hlen).
  destruct (walReader_entry_frame r cr hdr buf (binary.PutUint32 crc) rest Hwf Hseg)
    as (r' & E & M & A).
  { apply len_entry_header. }
  { rewrite Ht. exact Hk. }
  { symmetry. exact Hl. }
  { apply len_PutUint32. }
  exists r'. split; [|split; [exact M|exact A]].
  rewrite E. fold crc.
  assert (Hcrc : binary.Uint32 (binary.PutUint32 crc) = crc).
  { pose proof (Uint32_PutUint32 crc []) as U. rewrite app_nil_r in U. apply U.
    subst crc. apply crc32_Write_range, crc32_Write_range, crc32_Reset_range. }
  rewrite Hcrc, Z.eqb_refl. cbn [negb]. rewrite Ht.
  unfold hdr. rewrite entry_header_flag by exact Hflag. reflexivity.
Qed.

(** A torn frame gives a corruption error. *)
Lemma walReader_entry_torn r cr rest :
  FS_wf (w_fs (r_wal r)) -> seg_at (w_fs (r_wal r)) cr rest -> torn rest ->
  exists r' msg arg,
    walReader_entry r cr = (r', Err (walCorruptionErr msg arg))
    /\ reader_moved r r' cr
    /\ fd_open (w_fs (r_wal r')) cr.
Proof.
  intros Hwf Hseg [Hshort|[(Hlen & Hnk & Hn0)|[(Hlen & Hk & Hb)|[(Hlen & Hk & Hb)|Hcrc]]]].
  - (* a header of one to five bytes *)
    destruct (File_Read_some _ cr rest 6 Hwf Hseg) as (fs1 & E1 & W1 & S1 & A1); [lia| |].
    { right. apply not_nil_len. lia. }
    rewrite slice_to_all in E1 by lia.
    exists (r_set_fs r fs1). eexists. eexists.
    unfold walReader_entry. rewrite E1. cbv beta iota zeta.
    destruct (Z.eqb_spec (len rest) 6) as [Heq|_]; [lia|]. cbn [negb].
    split; [reflexivity|]. split; [|exact (proj1 A1)].
    apply reader_moved_set_fs; assumption.
  - (* a type the reader does not know *)
    destruct (File_Read_header _ cr _ Hwf Hseg Hlen) as (fs1 & E1 & L1 & W1 & S1 & A1).
    exists (r_set_fs r fs1). eexists. eexists.
    unfold walReader_entry. rewrite E1. cbv beta iota zeta.
    rewrite L1. change (negb (6 =? 6)) with false. cbv beta iota.
    rewrite header_type_slice_to.
    destruct (Z.eqb_spec (header_type rest) 0) as [Heq|_]; [contradiction|].
    rewrite (unknown_type_test _ Hnk).
    split; [reflexivity|]. split; [|exact (proj1 A1)].
    apply reader_moved_set_fs; assumption.
  - (* a body that is there in part *)
    destruct (File_Read_header _ cr _ Hwf Hseg Hlen) as (fs1 & E1 & L1 & W1 & S1 & A1).
    destruct (known_type_test _ Hk) as [T0 T1].
    destruct (reader_buffer_grown r fs1 cr (header_length rest) W1 S1) as [F1 M1].
    assert (Hl1 : len (slice_from 6 rest) = len rest - 6) by (apply len_slice_from; lia).
    destruct (File_Read_some fs1 cr _ (header_length rest) W1 A1)
      as (fs2 & E2 & W2 & S2 & A2); [apply header_length_range| |].
    { right. apply not_nil_len. lia. }
    rewrite slice_to_all in E2 by lia.
    unfold walReader_entry. rewrite E1. cbv beta iota zeta.
    rewrite L1. change (negb (6 =? 6)) with false. cbv beta iota.
    rewrite header_type_slice_to, header_length_slice_to, T0, T1. cbv beta iota.
    set (r1 := if len (r_buf (r_set_fs r fs1)) <? header_length rest then _ else _) in *.
    clearbody r1.
    rewrite F1, E2. cbv beta iota zeta.
    destruct (Z.eqb_spec (len (slice_from 6 rest)) (header_length rest)) as [Heq|_]; [lia|].
    cbn [negb]. eexists. eexists. eexists.
    split; [reflexivity|]. split; [|exact (proj1 A2)].
    eapply reader_moved_trans; [exact M1|].
    apply reader_moved_set_buf, reader_moved_set_fs; [exact W2|]. rewrite F1. exact S2.
  - (* a checksum of one to three bytes *)
    destruct (File_Read_header _ cr _ Hwf Hseg Hlen) as (fs1 & E1 & L1 & W1 & S1 & A1).
    destruct (known_type_test _ Hk) as [T0 T1].
    destruct (reader_buffer_grown r fs1 cr (header_length rest) W1 S1) as [F1 M1].
    pose proof (header_length_range rest) as HL0.
    assert (Hl1 : len (slice_from 6 rest) = len rest - 6) by (apply len_slice_from; lia).
    destruct (File_Read_some fs1 cr _ (header_length rest) W1 A1)
      as (fs2 & E2 & W2 & S2 & A2); [exact HL0| |].
    { right. apply not_nil_len. lia. }
    assert (Hl2 : len (slice_to (header_length rest) (slice_from 6 rest))
                  = header_length rest) by (rewrite len_slice_to by lia; lia).
    assert (Hl3 : len (slice_from (header_length rest) (slice_from 6 rest))
                  = len rest - 6 - header_length rest).
    { rewrite len_slice_from by lia. lia. }
    destruct (File_Read_some fs2 cr _ 4 W2 A2) as (fs3 & E3 & W3 & S3 & A3); [lia| |].
    { right. apply not_nil_len. lia. }
    rewrite slice_to_all in E3 by lia.
    unfold walReader_entry. rewrite E1. cbv beta iota zeta.
    rewrite L1. change (negb (6 =? 6)) with false. cbv beta iota.
    rewrite header_type_slice_to, header_length_slice_to, T0, T1. cbv beta iota.
    set (r1 := if len (r_buf (r_set_fs r fs1)) <? header_length rest then _ else _) in *.
    clearbody r1.
    rewrite F1, E2. cbv beta iota zeta. rewrite Hl2, Z.eqb_refl. cbn [negb].
    change (w_fs (r_wal (r_set_buf (r_set_fs r1 fs2) ?b))) with fs2.
    rewrite E3. cbv beta iota zeta.
    destruct (Z.eqb_spec (len (slice_from (header_length rest) (slice_from 6 rest))) 4)
      as [Heq|_]; [lia|].
    cbn [negb]. eexists. eexists. eexists.
    split; [reflexivity|]. split; [|exact (proj1 A3)].
    eapply reader_moved_trans; [exact M1|].
    eapply reader_moved_trans; [|apply reader_moved_set_fs; [exact W3|exact S3]].
    apply reader_moved_set_buf, reader_moved_set_fs; [exact W2|]. rewrite F1. exact S2.
  - (* a checksum that does not match *)
    destruct Hcrc as (hdr & body & c & more & -> & Hhdr & Hk & Hbody & Hc & Hne).
    destruct (walReader_entry_frame r cr hdr body c more Hwf Hseg Hhdr Hk Hbody Hc)
      as (r' & E & M & A).
    exists r'. eexists. eexists. split; [|split; [exact M|exact (proj1 A)]].
    rewrite E.
    destruct (Z.eqb_spec (crc32.Write (crc32.Write crc32.Reset hdr) body) (binary.Uint32 c))
      as [Heq|_]; [congruence|].
    reflexivity.
Qed.

(** *** Closing and removing the later segments *)

Lemma File_Close_open fs fd :
  FS_wf fs -> fd_open fs fd ->
  exists f,
    fs_fds fs !! fd = Some f
    /\ File_Close fs fd = (fs_set_fd fs fd (File_set_closed f), None)
    /\ FS_wf (fs_set_fd fs fd (File_set_closed f))
    /\ fs_same_except fs (fs_set_fd fs fd (File_set_closed f)) fd.
Proof.
  intros Hwf (f & Hfd & Hopen). exists f.
  destruct (proj2 Hwf fd f Hfd) as [Hino Hpos].
  split; [exact Hfd|]. split; [|split].
  - unfold File_Close. rewrite Hfd, Hopen. reflexivity.
  - apply FS_wf_set_fd; assumption.
  - apply (fs_same_except_set_fd fs fd f (File_set_closed f) Hfd eq_refl eq_refl).
Qed.

Lemma FS_wf_delete fs name : FS_wf fs -> FS_wf (fs_set_dir fs (delete name (fs_dir fs))).
Proof.
  intros [Hd Hf]. split; cbn [fs_set_dir fs_dir fs_fds fs_inodes]; [|exact Hf].
  intros n ino Hl. apply lookup_delete_Some in Hl. destruct Hl as [_ Hl].
  eapply Hd. exact Hl.
Qed.

Lemma walReader_truncate_files_spec files :
  forall fs,
    FS_wf fs -> later_segments fs (map sf_f files) ->
    exists fs',
      walReader_truncate_files fs files = (fs', None)
      /\ FS_wf fs'
      /\ fs_inodes fs' = fs_inodes fs
      /\ (forall x, x ∉ map sf_f files -> fs_fds fs' !! x = fs_fds fs !! x)
      /\ (forall name, fs_dir fs !! name = None -> fs_dir fs' !! name = None)
      /\ Forall (closed_and_removed fs') (map sf_f files).
Proof.
  induction files as [|sf files IH]; intros fs Hwf [Hall Hnd].
  - exists fs. cbn. split; [reflexivity|]. split; [exact Hwf|].
    split; [reflexivity|]. split; [reflexivity|]. split; [auto|constructor].
  - cbn [map] in Hall, Hnd. apply Forall_cons in Hall. destruct Hall as [[Ho Hdir] Hall].
    apply NoDup_cons in Hnd. destruct Hnd as [Hnin Hnd].
    destruct (File_Close_open fs (sf_f sf) Hwf Ho) as (f & Hfd & Ec & Wc & Sc).
    set (fs1 := fs_set_fd fs (sf_f sf) (File_set_closed f)) in *.
    assert (Hname : File_Name fs1 (sf_f sf) = f_name f).
    { rewrite (File_Name_same_except fs fs1 (sf_f sf) _ Sc). unfold File_Name.
      rewrite Hfd. reflexivity. }
    assert (Hname0 : File_Name fs (sf_f sf) = f_name f).
    { unfold File_Name. rewrite Hfd. reflexivity. }
    rewrite Hname0 in Hdir, Hnin. destruct Hdir as [ino Hdir].
    set (fs2 := fs_set_dir fs1 (delete (f_name f) (fs_dir fs1))).
    assert (Hfresh : sf_f sf ∉ map sf_f files).
    { intros Hin. apply Hnin. apply list_elem_of_fmap.
      apply list_elem_of_fmap in Hin. destruct Hin as (g & Hg & Hing).
      exists (sf_f sf). split; [exact (eq_sym Hname0)|].
      apply list_elem_of_fmap. exists g. split; [exact Hg|exact Hing]. }
    destruct (IH fs2) as (fs' & Et & Wt & It & Ft & Dt & Ct).
    { apply FS_wf_delete. exact Wc. }
    { split.
      - apply Forall_forall. intros x Hx.
        rewrite Forall_forall in Hall. destruct (Hall x Hx) as [Hxo Hxd].
        assert (Hne : x <> sf_f sf) by (intros ->; contradiction).
        split.
        + destruct (fd_open_same_except fs fs1 _ x Sc Hne Hxo) as (g & Hg & Hgo).
          exists g. split; [exact Hg|exact Hgo].
        + change (File_Name fs2 x) with (File_Name fs1 x).
          rewrite (File_Name_same_except fs fs1 (sf_f sf) x Sc).
          cbn [fs2 fs_set_dir fs_dir fs1 fs_set_fd].
          destruct Hxd as [i Hi]. exists i. apply lookup_delete_Some. split; [|exact Hi].
          intros Heq. apply Hnin. rewrite Heq. apply list_elem_of_fmap.
          exists x. split; [reflexivity|exact Hx].
      - replace (map (File_Name fs2) (map sf_f files))
          with (map (File_Name fs) (map sf_f files)); [exact Hnd|].
        apply map_ext. intros x. change (File_Name fs2 x) with (File_Name fs1 x).
        symmetry. apply (File_Name_same_except fs fs1 (sf_f sf) x Sc). }
    exists fs'. split; [|split; [exact Wt|split; [|split; [|split]]]].
    + cbn [walReader_truncate_files]. rewrite Ec. cbv beta iota.
      fold fs1. rewrite Hname.
      unfold os_Remove. change (fs_dir fs1) with (fs_dir fs). rewrite Hdir.
      exact Et.
    + rewrite It. reflexivity.
    + intros x Hx. cbn [map] in Hx. apply not_elem_of_cons in Hx. destruct Hx as [Hne Hx].
      rewrite (Ft x Hx). change (fs_fds fs2) with (fs_fds fs1).
      destruct Sc as (_ & _ & HF & _). apply HF. exact Hne.
    + intros name Hn. apply Dt. cbn [fs2 fs_set_dir fs_dir].
      apply lookup_delete_None. right. exact Hn.
    + cbn [map]. constructor; [|exact Ct].
      exists (File_set_closed f). split; [|split; [reflexivity|]].
      * rewrite (Ft _ Hfresh). cbn [fs2 fs_set_dir fs_fds fs1 fs_set_fd].
        apply list_lookup_insert_eq. eapply lookup_lt_Some. exact Hfd.
      * apply Dt. cbn [fs2 fs_set_dir fs_dir File_set_closed f_name].
        apply lookup_delete_None. left. reflexivity.
Qed.

(** *** The segments a reader has left *)

Lemma segs_at_inv fs fds segs tail :
  segs_at fs fds segs tail ->
  exists fd fds' es segs' z,
    fds = fd :: fds' /\ segs = es :: segs'
    /\ seg_at fs fd (wal_frames es ++ z)
    /\ ((fds' = [] /\ segs' = [] /\ z = tail)
        \/ (segment_end z /\ segs_at fs fds' segs' tail)).
Proof.
  destruct fds as [|fd fds']; [contradiction|].
  destruct segs as [|es segs']; [destruct fds'; contradiction|].
  intros H. exists fd, fds', es, segs'.
  destruct fds' as [|fd2 fds''].
  - destruct segs' as [|es2 segs''].
    + exists tail. split; [reflexivity|]. split; [reflexivity|]. split; [exact H|].
      left. auto.
    + destruct H as [_ []].
  - destruct H as [(z & Hz & He) Hrest].
    exists z. split; [reflexivity|]. split; [reflexivity|]. split; [exact Hz|].
    right. split; [exact He|exact Hrest].
Qed.

Lemma segs_at_last fs fd es tail :
  seg_at fs fd (wal_frames es ++ tail) -> segs_at fs [fd] [es] tail.
Proof. intros H. exact H. Qed.

Lemma segs_at_more fs fd fds' es segs' z tail :
  seg_at fs fd (wal_frames es ++ z) -> segment_end z -> segs_at fs fds' segs' tail ->
  segs_at fs (fd :: fds') (es :: segs') tail.
Proof.
  intros Hz He Hrest.
  destruct fds' as [|fd2 fds'']; [contradiction|].
  split; [exists z; split; assumption|exact Hrest].
Qed.

Lemma segs_at_same_except fs fs' fd fds :
  forall segs tail,
    fs_same_except fs fs' fd -> fd ∉ fds ->
    segs_at fs fds segs tail -> segs_at fs' fds segs tail.
Proof.
  induction fds as [|x fds IH]; intros segs tail Hse Hnin H; [contradiction|].
  apply not_elem_of_cons in Hnin. destruct Hnin as [Hne Hnin].
  destruct (segs_at_inv _ _ _ _ H) as (fd0 & fds0 & es & segs' & z & E1 & E2 & Hz & Hc).
  inversion E1; subst fd0 fds0. subst segs.
  assert (Hz' : seg_at fs' x (wal_frames es ++ z)).
  { eapply seg_at_same_except; [exact Hse| |exact Hz]. congruence. }
  destruct Hc as [(-> & -> & ->)|[He Hrest]].
  - apply segs_at_last. exact Hz'.
  - eapply segs_at_more; [exact Hz'|exact He|].
    apply IH; assumption.
Qed.

Lemma later_segments_same_except fs fs' fd later :
  fs_same_except fs fs' fd -> fd ∉ later ->
  later_segments fs later -> later_segments fs' later.
Proof.
  intros Hse Hnin [Hall Hnd]. split.
  - apply Forall_forall. intros x Hx. rewrite Forall_forall in Hall.
    destruct (Hall x Hx) as [Ho Hd].
    assert (Hne : x <> fd) by (intros ->; contradiction).
    split; [eapply fd_open_same_except; eassumption|].
    rewrite (File_Name_same_except fs fs' fd x Hse).
    destruct Hse as (_ & HD & _). rewrite HD. exact Hd.
  - replace (map (File_Name fs') later) with (map (File_Name fs) later); [exact Hnd|].
    apply map_ext. intros x. symmetry. apply (File_Name_same_except fs fs' fd x Hse).
Qed.

Lemma walReader_file_at r pre fd rest :
  reader_fds r = pre ++ fd :: rest -> walReader_file r (len pre) = fd.
Proof.
  intros H. unfold walReader_file, len. rewrite Nat2Z.id.
  assert (Hl : reader_fds r !! length pre = Some fd).
  { rewrite H. rewrite lookup_app_r by lia. rewrite Nat.sub_diag. reflexivity. }
  unfold reader_fds in Hl. rewrite list_lookup_fmap in Hl.
  destruct (w_files (r_wal r) !! length pre) as [sf|]; [|discriminate].
  cbn in Hl. congruence.
Qed.

Lemma len_reader_fds r : len (w_files (r_wal r)) = len (reader_fds r).
Proof. unfold reader_fds, len. rewrite length_map. reflexivity. Qed.

Lemma File_Seek_cur_open fs fd :
  fd_open fs fd ->
  exists f, fs_fds fs !! fd = Some f /\ f_closed f = false
            /\ File_Seek_cur fs fd = Ok (f_pos f).
Proof.
  intros (f & Hf & Ho). exists f. split; [exact Hf|]. split; [exact Ho|].
  unfold File_Seek_cur. rewrite Hf, Ho. reflexivity.
Qed.

(** *** The next entry *)

Lemma reading_current mint r pre fd cur' later segs tail :
  reading mint r pre (fd :: cur') later segs tail ->
  (len (w_files (r_wal r)) <=? r_cur r) = false
  /\ walReader_file r (r_cur r) = fd
  /\ (r_cur r =? len (w_files (r_wal r)) - 1)
     = (match cur', later with [], [] => true | _, _ => false end)
  /\ (fd ∉ cur') /\ (fd ∉ later).
Proof.
  intros (Hwf & Hmint & Herr & Hcur & Hfds & Hsegs & Hnd & Hlater).
  pose proof (len_reader_fds r) as Hl. rewrite Hfds in Hl.
  rewrite !len_app, len_cons in Hl.
  pose proof (len_nonneg cur'). pose proof (len_nonneg later). pose proof (len_nonneg pre).
  split; [apply Z.leb_gt; lia|].
  split; [rewrite Hcur; eapply walReader_file_at; exact Hfds|].
  cbn [app] in Hnd. apply NoDup_cons in Hnd. destruct Hnd as [Hnin Hnd].
  rewrite not_elem_of_app in Hnin.
  split; [|exact Hnin].
  destruct cur' as [|c cur''].
  - destruct later as [|l later'].
    + apply Z.eqb_eq. rewrite len_nil in Hl. lia.
    + apply Z.eqb_neq. rewrite len_cons in Hl. pose proof (len_nonneg later'). lia.
  - apply Z.eqb_neq. rewrite len_cons in Hl. pose proof (len_nonneg cur''). lia.
Qed.

(** A complete frame: [next] returns true and holds the entry. *)
Lemma walReader_next_valid mint r pre fd cur' later e es segs' tail fuel :
  reading mint r pre (fd :: cur') later ((e :: es) :: segs') tail ->
  wal_entry_ok e ->
  exists r',
    walReader_next_aux (S fuel) r = (r', true)
    /\ walReader_at r' = (e_type e, e_flag e, e_buf e)
    /\ reading mint r' pre (fd :: cur') later (es :: segs') tail.
Proof.
  intros Hr (Hk & Hflag & Hlen).
  destruct (reading_current _ _ _ _ _ _ _ _ Hr) as (Hlt & Hfile & _ & Hnc & Hnl).
  destruct Hr as (Hwf & Hmint & Herr & Hcur & Hfds & Hsegs & Hnd & Hlater).
  destruct (segs_at_inv _ _ _ _ Hsegs) as (fd0 & fds0 & es0 & segs0 & z & E1 & E2 & Hz & Hc).
  inversion E1; subst fd0 fds0. inversion E2; subst es0 segs0. clear E1 E2.
  change (wal_frames (e :: es))
    with (entry_frame (e_type e) (e_flag e) (e_buf e) ++ wal_frames es) in Hz.
  rewrite <- app_assoc in Hz.
  destruct (File_Seek_cur_open _ _ (proj1 Hz)) as (f & Hf & Hfo & Hseek).
  destruct (walReader_entry_valid r fd _ _ _ _ Hwf Hz Hk Hflag Hlen) as (r1 & E & M & A).
  destruct M as (M1 & M2 & M3 & M4 & M5 & M6).
  exists (r_set_entry r1 (e_type e) (e_flag e) (e_buf e)).
  split; [|split].
  - cbn [walReader_next_aux]. rewrite Hlt, Hfile, Hseek, E. cbv beta iota zeta.
    change (r_err (r_set_entry r1 ?a ?b ?c)) with (r_err r1). rewrite M3, Herr. reflexivity.
  - reflexivity.
  - unfold reading.
    change (w_fs (r_wal (r_set_entry r1 ?a ?b ?c))) with (w_fs (r_wal r1)).
    change (reader_fds (r_set_entry r1 ?a ?b ?c)) with (reader_fds r1).
    split; [exact M5|]. split; [cbn; congruence|]. split; [cbn; congruence|].
    split; [cbn; congruence|]. split; [unfold reader_fds in *; congruence|].
    split; [|split; [exact Hnd|]].
    + destruct Hc as [(-> & -> & ->)|[He Hrest]].
      * apply segs_at_last. exact A.
      * eapply segs_at_more; [exact A|exact He|].
        eapply segs_at_same_except; eassumption.
    + eapply later_segments_same_except; eassumption.
Qed.

(** The end of a segment that is not the last: the handle is closed and
    [next] goes on with the segment after it. *)
Lemma walReader_next_end mint r pre fd fd2 cur' later segs' tail fuel :
  reading mint r pre (fd :: fd2 :: cur') later ([] :: segs') tail ->
  exists r',
    walReader_next_aux (S fuel) r = walReader_next_aux fuel r'
    /\ reading mint r' (pre ++ [fd]) (fd2 :: cur') later segs' tail.
Proof.
  intros Hr.
  destruct (reading_current _ _ _ _ _ _ _ _ Hr) as (Hlt & Hfile & Hlast & Hnc & Hnl).
  destruct Hr as (Hwf & Hmint & Herr & Hcur & Hfds & Hsegs & Hnd & Hlater).
  destruct (segs_at_inv _ _ _ _ Hsegs) as (fd0 & fds0 & es0 & segs0 & z & E1 & E2 & Hz & Hc).
  inversion E1; subst fd0 fds0. inversion E2; subst es0 segs0. clear E1 E2.
  destruct Hc as [(Habs & _)|[He Hrest]]; [discriminate|].
  change (wal_frames [] ++ z) with z in Hz.
  destruct (File_Seek_cur_open _ _ (proj1 Hz)) as (f & Hf & Hfo & Hseek).
  destruct (walReader_entry_end r fd z Hwf Hz He) as (r1 & E & M & O).
  destruct M as (M1 & M2 & M3 & M4 & M5 & M6).
  destruct (File_Close_open _ fd M5 O) as (f1 & Hf1 & Ec & Wc & Sc).
  set (fs2 := fs_set_fd (w_fs (r_wal r1)) fd (File_set_closed f1)) in *.
  assert (Hse : fs_same_except (w_fs (r_wal r)) fs2 fd)
    by (eapply fs_same_except_trans; eassumption).
  exists (r_set_cur (r_set_fs r1 fs2) (r_cur r1 + 1)).
  split.
  - cbn [walReader_next_aux]. rewrite Hlt, Hfile, Hseek, E. cbv beta iota zeta.
    rewrite M2, M4, Hlast, Ec. reflexivity.
  - unfold reading. cbn [r_set_cur r_set_fs r_set_wal w_set_fs r_mint r_err r_cur r_wal w_fs].
    split; [exact Wc|]. split; [congruence|]. split; [congruence|].
    split; [rewrite M2, Hcur, len_app, len_cons, len_nil; lia|].
    split; [|split; [|split]].
    + unfold reader_fds in *. cbn. rewrite M4, Hfds, <- app_assoc. reflexivity.
    + eapply segs_at_same_except; [exact Hse| |exact Hrest]. exact Hnc.
    + cbn [app] in Hnd. apply NoDup_cons in Hnd. exact (proj2 Hnd).
    + eapply later_segments_same_except; eassumption.
Qed.

(** *** Truncation *)

Lemma closed_and_removed_set_fd fs fd g x :
  x <> fd -> closed_and_removed fs x -> closed_and_removed (fs_set_fd fs fd g) x.
Proof.
  intros Hne (f & Hf & Hc & Hd). exists f.
  split; [|split; [exact Hc|exact Hd]].
  cbn [fs_set_fd fs_fds]. rewrite list_lookup_insert_ne by congruence. exact Hf.
Qed.

Lemma walReader_truncate_spec r pre fd later off f :
  FS_wf (w_fs (r_wal r)) ->
  r_cur r = len pre -> reader_fds r = pre ++ [fd] ++ later ->
  fd ∉ later -> later_segments (w_fs (r_wal r)) later ->
  fs_fds (w_fs (r_wal r)) !! fd = Some f -> f_closed f = false -> 0 <= off ->
  exists r',
    walReader_truncate r off = (r', None)
    /\ r_mint r' = r_mint r
    /\ reader_fds r' = pre ++ [fd]
    /\ FS_wf (w_fs (r_wal r'))
    /\ fs_inodes (w_fs (r_wal r')) = fs_inodes (w_fs (r_wal r))
    /\ fs_fds (w_fs (r_wal r')) !! fd = Some (File_set_pos f off)
    /\ Forall (closed_and_removed (w_fs (r_wal r'))) later.
Proof.
  intros Hwf Hcur Hfds Hnin Hlater Hf Hopen Hoff.
  assert (Hn : Z.to_nat (r_cur r + 1) = length (pre ++ [fd])).
  { rewrite Hcur, length_app. unfold len. cbn. lia. }
  assert (Hdrop : map sf_f (drop (Z.to_nat (r_cur r + 1)) (w_files (r_wal r))) = later).
  { rewrite <- skipn_map. fold (reader_fds r). rewrite Hfds, Hn, app_assoc.
    apply drop_app_length. }
  assert (Htake : map sf_f (take (Z.to_nat (r_cur r + 1)) (w_files (r_wal r))) = pre ++ [fd]).
  { rewrite <- firstn_map. fold (reader_fds r). rewrite Hfds, Hn, app_assoc.
    apply take_app_length. }
  destruct (walReader_truncate_files_spec
              (drop (Z.to_nat (r_cur r + 1)) (w_files (r_wal r))) (w_fs (r_wal r)) Hwf)
    as (fs' & Et & Wt & It & Ft & Dt & Ct).
  { rewrite Hdrop. exact Hlater. }
  rewrite Hdrop in Ft, Ct.
  unfold walReader_truncate. cbv zeta. rewrite Et. cbv beta iota.
  set (r2 := r_set_wal r (w_set_files (w_set_fs (r_wal r) fs') _)).
  assert (Hfds2 : reader_fds r2 = pre ++ [fd]) by exact Htake.
  assert (Hcur2 : walReader_current r2 = fd).
  { unfold walReader_current. change (r_cur r2) with (r_cur r). rewrite Hcur.
    apply (walReader_file_at r2 pre fd []). exact Hfds2. }
  rewrite Hcur2.
  change (w_fs (w_set_files (w_set_fs (r_wal r) fs') ?x)) with fs'.
  assert (Hf' : fs_fds fs' !! fd = Some f) by (rewrite (Ft fd Hnin); exact Hf).
  unfold File_Seek_set. rewrite Hf', Hopen.
  destruct (Z.ltb_spec off 0) as [Hlt|_]; [lia|].
  eexists. split; [reflexivity|].
  cbn [r_set_fs r_set_wal r_mint r_wal w_set_fs w_fs].
  split; [reflexivity|]. split; [exact Hfds2|].
  destruct (proj2 Wt fd f Hf') as [Hino Hpos].
  split; [apply FS_wf_set_fd; [exact Wt|exact Hino|exact Hoff]|].
  split; [exact It|].
  split.
  - cbn [fs_set_fd fs_fds]. apply list_lookup_insert_eq. eapply lookup_lt_Some. exact Hf'.
  - apply Forall_forall. intros x Hx. rewrite Forall_forall in Ct.
    apply closed_and_removed_set_fd; [intros ->; contradiction|]. apply Ct. exact Hx.
Qed.

(** A torn frame: the later segments are closed and removed, the segment
    is positioned where the frame starts, and no error is left. *)
Lemma walReader_next_torn mint r pre fd later tail fuel :
  reading mint r pre [fd] later [[]] tail -> torn tail ->
  exists r',
    walReader_next_aux (S fuel) r = (r', false)
    /\ r_mint r' = mint
    /\ r_err r' = None
    /\ reader_fds r' = pre ++ [fd]
    /\ seg_at (w_fs (r_wal r')) fd tail
    /\ Forall (closed_and_removed (w_fs (r_wal r'))) later.
Proof.
  intros Hr Htorn.
  destruct (reading_current _ _ _ _ _ _ _ _ Hr) as (Hlt & Hfile & _ & _ & Hnl).
  destruct Hr as (Hwf & Hmint & Herr & Hcur & Hfds & Hsegs & Hnd & Hlater).
  assert (Hz : seg_at (w_fs (r_wal r)) fd tail) by exact Hsegs.
  destruct (File_Seek_cur_open _ _ (proj1 Hz)) as (f & Hf & Hfo & Hseek).
  destruct (walReader_entry_torn r fd tail Hwf Hz Htorn) as (r1 & msg & arg & E & M & O).
  destruct M as (M1 & M2 & M3 & M4 & M5 & M6).
  destruct O as (f1 & Hf1 & Hf1o).
  destruct (proj2 Hwf fd f Hf) as [Hino Hpos].
  set (r1e := r_set_err r1 (Some (walCorruptionErr msg arg))).
  destruct (walReader_truncate_spec r1e pre fd later (f_pos f) f1)
    as (r2 & Et & T1 & T2 & T3 & T4 & T5 & T6).
  { exact M5. }
  { cbn. congruence. }
  { unfold reader_fds in *. cbn. rewrite M4. exact Hfds. }
  { exact Hnl. }
  { eapply later_segments_same_except; eassumption. }
  { exact Hf1. }
  { exact Hf1o. }
  { exact Hpos. }
  exists (r_set_err r2 None).
  split; [|split; [|split; [reflexivity|split; [exact T2|split; [|exact T6]]]]].
  - cbn [walReader_next_aux]. rewrite Hlt, Hfile, Hseek, E. cbv beta iota zeta.
    unfold is_walCorruptionErr. fold r1e. rewrite Et. reflexivity.
  - cbn [r_set_err r_mint]. rewrite T1. cbn. congruence.
  - change (w_fs (r_wal (r_set_err r2 None))) with (w_fs (r_wal r2)).
    split.
    + exists (File_set_pos f1 (f_pos f)). split; [exact T5|exact Hf1o].
    + unfold fs_remaining. rewrite T5. cbn [File_set_pos f_pos f_ino].
      unfold fs_data. rewrite T4.
      change (w_fs (r_wal r1e)) with (w_fs (r_wal r1)).
      destruct M6 as (HI & _ & _ & _ & HO). rewrite HI.
      rewrite Hf1, Hf in HO. cbn in HO. injection HO as HO. rewrite HO.
      destruct Hz as [_ Hrem]. unfold fs_remaining in Hrem. rewrite Hf in Hrem.
      exact Hrem.
Qed.

(** [next] over the segments that are left: the next entry, or the torn
    frame at the end. *)
Lemma walReader_next_aux_spec mint later tail :
  torn tail ->
  forall segs cur fuel r pre,
    reading mint r pre cur later segs tail ->
    Forall (Forall wal_entry_ok) segs ->
    (length cur <= fuel)%nat ->
    match concat segs with
    | e :: rest =>
        exists r' pre' cur' segs',
          walReader_next_aux fuel r = (r', true)
          /\ walReader_at r' = (e_type e, e_flag e, e_buf e)
          /\ reading mint r' pre' cur' later segs' tail
          /\ concat segs' = rest
          /\ pre' ++ cur' = pre ++ cur
          /\ Forall (Forall wal_entry_ok) segs'
    | [] =>
        exists r',
          walReader_next_aux fuel r = (r', false)
          /\ r_mint r' = mint
          /\ r_err r' = None
          /\ reader_fds r' = pre ++ cur
          /\ (exists fd, last cur = Some fd /\ seg_at (w_fs (r_wal r')) fd tail)
          /\ Forall (closed_and_removed (w_fs (r_wal r'))) later
    end.
Proof.
  intros Htorn.
  induction segs as [|es segs IH]; intros cur fuel r pre Hr Hok Hfuel.
  { destruct Hr as (_ & _ & _ & _ & _ & Hsegs & _).
    destruct cur as [|? [|? ?]]; contradiction. }
  pose proof Hr as (_ & _ & _ & _ & _ & Hsegs & _).
  destruct (segs_at_inv _ _ _ _ Hsegs) as (fd & cur' & es0 & segs0 & z & E1 & E2 & Hz & Hc).
  inversion E2; subst es0 segs0. subst cur. clear E2.
  destruct fuel as [|fuel]; [cbn in Hfuel; lia|].
  apply Forall_cons in Hok. destruct Hok as [Hes Hok].
  destruct es as [|e es].
  - (* this segment has no entry left *)
    destruct Hc as [(-> & -> & ->)|[He Hrest]].
    + cbn [concat app].
      destruct (walReader_next_torn mint r pre fd later tail fuel Hr Htorn)
        as (r' & En & Hm & He & Hf & Hs & Hl).
      exists r'. split; [exact En|]. split; [exact Hm|]. split; [exact He|].
      split; [exact Hf|]. split; [|exact Hl].
      exists fd. split; [reflexivity|exact Hs].
    + destruct (segs_at_inv _ _ _ _ Hrest) as (fd2 & cur2 & ? & ? & ? & -> & _).
      destruct (walReader_next_end mint r pre fd fd2 cur2 later segs tail fuel Hr)
        as (r2 & En & Hr2).
      specialize (IH (fd2 :: cur2) fuel r2 (pre ++ [fd]) Hr2 Hok).
      cbn [concat app]. rewrite En.
      assert (Hf2 : (length (fd2 :: cur2) <= fuel)%nat) by (cbn in Hfuel |- *; lia).
      specialize (IH Hf2).
      destruct (concat segs) as [|e rest].
      * destruct IH as (r' & En' & Hm & He' & Hf & (fdl & Hlast & Hs) & Hl).
        exists r'. split; [exact En'|]. split; [exact Hm|]. split; [exact He'|].
        split; [rewrite Hf, <- app_assoc; reflexivity|]. split; [|exact Hl].
        exists fdl. split; [|exact Hs]. exact Hlast.
      * destruct IH as (r' & pre' & cur' & segs' & En' & Hat & Hr' & Hcc & Hpc & Hok').
        exists r', pre', cur', segs'.
        split; [exact En'|]. split; [exact Hat|]. split; [exact Hr'|].
        split; [exact Hcc|]. split; [|exact Hok'].
        rewrite Hpc, <- app_assoc. reflexivity.
  - (* an entry of this segment *)
    apply Forall_cons in Hes. destruct Hes as [He Hes].
    cbn [concat app].
    destruct (walReader_next_valid mint r pre fd cur' later e es segs tail fuel Hr He)
      as (r' & En & Hat & Hr').
    exists r', pre, (fd :: cur'), (es :: segs).
    split; [exact En|]. split; [exact Hat|]. split; [exact Hr'|].
    split; [reflexivity|]. split; [reflexivity|].
    constructor; assumption.
Qed.

(** *** The loop of [Read] *)

Lemma Read_validSamples_snd mint s :
  forall m1 m2 acc,
    snd (fold_left
           (fun '(maxt, valid) smpl =>
              if smpl_T smpl <? mint then (maxt, valid)
              else ((if maxt <? smpl_T smpl then smpl_T smpl else maxt), valid ++ [smpl]))
           s (m1, acc))
    = snd (fold_left
             (fun '(maxt, valid) smpl =>
                if smpl_T smpl <? mint then (maxt, valid)
                else ((if maxt <? smpl_T smpl then smpl_T smpl else maxt), valid ++ [smpl]))
             s (m2, acc)).
Proof.
  induction s as [|x s IH]; intros m1 m2 acc; [reflexivity|].
  cbn [fold_left]. destruct (smpl_T x <? mint); apply IH.
Qed.

Lemma Read_validSamples_maxt mint m1 m2 s :
  snd (Read_validSamples mint m1 s) = snd (Read_validSamples mint m2 s).
Proof. apply Read_validSamples_snd. Qed.

Lemma map_sf_f_insert files :
  forall i cf maxt,
    files !! i = Some cf ->
    map sf_f (<[i := {| sf_f := sf_f cf; sf_maxt := maxt |}]> files) = map sf_f files.
Proof.
  induction files as [|x files IH]; intros i cf maxt H; [reflexivity|].
  destruct i as [|i]; cbn in *.
  - congruence.
  - f_equal. eapply IH. exact H.
Qed.

Lemma reading_file mint r pre cur later segs tail :
  reading mint r pre cur later segs tail ->
  exists cf, w_files (r_wal r) !! Z.to_nat (r_cur r) = Some cf.
Proof.
  intros (_ & _ & _ & Hcur & Hfds & Hsegs & _).
  destruct (segs_at_inv _ _ _ _ Hsegs) as (fd & cur' & ? & ? & ? & -> & _).
  assert (Hl : reader_fds r !! length pre = Some fd).
  { rewrite Hfds. rewrite lookup_app_r by lia. rewrite Nat.sub_diag. reflexivity. }
  unfold reader_fds in Hl. rewrite list_lookup_fmap in Hl.
  rewrite Hcur. unfold len. rewrite Nat2Z.id.
  destruct (w_files (r_wal r) !! length pre) as [sf|]; [eauto|discriminate].
Qed.

(** One turn of the loop hands the entry to its callback. *)
Lemma walReader_Read_step_spec mint r pre cur later segs tail e out d :
  reading mint r pre cur later segs tail ->
  walReader_at r = (e_type e, e_flag e, e_buf e) ->
  wal_entry_ok e -> wal_entry_delivery mint e = Ok d ->
  exists r',
    walReader_Read_step r out = (r', out ++ [d], None)
    /\ reading mint r' pre cur later segs tail.
Proof.
  intros Hr Hat (Hk & _ & _) Hd.
  unfold walReader_Read_step. rewrite Hat. cbv beta iota.
  unfold wal_entry_delivery in Hd.
  destruct (Z.eqb_spec (e_type e) WALEntrySeries) as [Hs|Hns].
  { destruct (walReader_decodeSeries (e_flag e) (e_buf e)); [|discriminate].
    injection Hd as <-. exists r. split; [reflexivity|exact Hr]. }
  destruct (Z.eqb_spec (e_type e) WALEntrySamples) as [Hsm|Hnsm].
  { destruct (walReader_decodeSamples (e_flag e) (e_buf e)) as [s|]; [|discriminate].
    injection Hd as <-.
    destruct (reading_file _ _ _ _ _ _ _ Hr) as (cf & Hcf). rewrite Hcf.
    destruct Hr as (Hwf & Hmint & Herr & Hcur & Hfds & Hsegs & Hnd & Hlater).
    rewrite Hmint.
    rewrite (Read_validSamples_maxt mint 0 (sf_maxt cf) s).
    destruct (Read_validSamples mint (sf_maxt cf) s) as [maxt valid]. cbn [snd].
    eexists. split; [reflexivity|].
    unfold reading. cbn [r_set_wal w_set_files r_wal w_fs r_mint r_err r_cur].
    split; [exact Hwf|]. split; [exact Hmint|]. split; [exact Herr|].
    split; [exact Hcur|]. split; [|split; [exact Hsegs|split; [exact Hnd|exact Hlater]]].
    unfold reader_fds in *. cbn [r_set_wal w_set_files r_wal w_files].
    rewrite (map_sf_f_insert _ _ cf maxt Hcf). exact Hfds. }
  destruct (Z.eqb_spec (e_type e) WALEntryDeletes) as [Hdl|Hndl]; [|unfold known_type in Hk; tauto].
  destruct (walReader_decodeDeletes (e_flag e) (e_buf e)); [|discriminate].
  injection Hd as <-. exists r. split; [reflexivity|exact Hr].
Qed.

Lemma wal_deliveries_cons mint e es d :
  wal_entry_delivery mint e = Ok d ->
  wal_deliveries mint (e :: es) = d :: wal_deliveries mint es.
Proof. intros H. unfold wal_deliveries. cbn. rewrite H. reflexivity. Qed.

Lemma reading_fuel mint r pre cur later segs tail :
  reading mint r pre cur later segs tail ->
  (length cur <= S (length (w_files (r_wal r))))%nat.
Proof.
  intros (_ & _ & _ & _ & Hfds & _).
  apply (f_equal (@length nat)) in Hfds. unfold reader_fds in Hfds.
  rewrite length_map, !length_app in Hfds. lia.
Qed.

Lemma walReader_Read_loop_spec mint later tail :
  torn tail ->
  forall n segs cur fuel r pre out,
    length (concat segs) = n -> (n < fuel)%nat ->
    reading mint r pre cur later segs tail ->
    Forall (Forall wal_entry_ok) segs ->
    Forall (wal_entry_decodes mint) (concat segs) ->
    exists r',
      walReader_Read_loop fuel r out = (r', out ++ wal_deliveries mint (concat segs), None)
      /\ r_mint r' = mint
      /\ reader_fds r' = pre ++ cur
      /\ (exists fd, last (pre ++ cur) = Some fd /\ seg_at (w_fs (r_wal r')) fd tail)
      /\ Forall (closed_and_removed (w_fs (r_wal r'))) later.
Proof.
  intros Htorn.
  induction n as [|n IH]; intros segs cur fuel r pre out Hn Hfuel Hr Hok Hdec;
    (destruct fuel as [|fuel]; [lia|]);
    pose proof (walReader_next_aux_spec mint later tail Htorn segs cur
                  (S (length (w_files (r_wal r)))) r pre Hr Hok
                  (reading_fuel _ _ _ _ _ _ _ Hr)) as Hnext;
    pose proof (proj2 (Forall_concat _ _) Hok) as Hokc;
    destruct (concat segs) as [|e rest]; try discriminate.
  - destruct Hnext as (r' & En & Hm & He & Hf & (fd & Hlast & Hs) & Hl).
    exists r'. cbn [walReader_Read_loop]. unfold walReader_next. rewrite En.
    unfold walReader_Err. rewrite He.
    split; [unfold wal_deliveries; cbn; rewrite app_nil_r; reflexivity|].
    split; [exact Hm|]. split; [exact Hf|]. split; [|exact Hl].
    exists fd. split; [|exact Hs].
    rewrite last_app, Hlast. reflexivity.
  - destruct Hnext as (r1 & pre' & cur' & segs' & En & Hat & Hr1 & Hcc & Hpc & Hok').
    apply Forall_cons in Hdec. destruct Hdec as [[d Hd] Hdec].
    apply Forall_cons in Hokc. destruct Hokc as [Hek _].
    destruct (walReader_Read_step_spec mint r1 pre' cur' later segs' tail e out d
                Hr1 Hat Hek Hd) as (r2 & Es & Hr2).
    subst rest. cbn [length] in Hn.
    destruct (IH segs' cur' fuel r2 pre' (out ++ [d])) as (r' & El & Hm & Hf & Hlast & Hl);
      [lia|lia|exact Hr2|exact Hok'|exact Hdec|].
    exists r'. cbn [walReader_Read_loop]. unfold walReader_next. rewrite En, Es.
    rewrite El, (wal_deliveries_cons mint e _ d Hd), <- app_assoc.
    split; [reflexivity|]. split; [exact Hm|].
    rewrite <- Hpc. split; [exact Hf|]. split; [exact Hlast|exact Hl].
Qed.

(** *** The turns of the loop *)

Lemma length_wal_frames es : (length es <= length (wal_frames es))%nat.
Proof.
  induction es as [|e es IH]; [cbn; lia|].
  change (wal_frames (e :: es))
    with (entry_frame (e_type e) (e_flag e) (e_buf e) ++ wal_frames es).
  rewrite length_app.
  pose proof (len_entry_frame (e_type e) (e_flag e) (e_buf e)) as H.
  pose proof (len_nonneg (e_buf e)). unfold len in *. cbn [length]. lia.
Qed.

Lemma remaining_fold (g : nat -> nat) files :
  forall a,
    fold_left (fun n sf => (n + g (sf_f sf))%nat) files a
    = (a + list_sum (map g (map sf_f files)))%nat.
Proof.
  induction files as [|sf files IH]; intros a; [cbn; lia|].
  cbn [fold_left map]. rewrite IH. unfold list_sum. cbn [fold_right]. lia.
Qed.

Lemma segs_at_remaining fs cur :
  forall segs tail,
    segs_at fs cur segs tail ->
    (length (concat segs)
     <= list_sum (map (fun fd => length (fs_remaining fs fd)) cur))%nat.
Proof.
  induction cur as [|fd cur IH]; intros segs tail H; [contradiction|].
  destruct (segs_at_inv _ _ _ _ H) as (fd0 & cur0 & es & segs' & z & E1 & -> & Hz & Hc).
  inversion E1; subst fd0 cur0. clear E1.
  cbn [concat map]. unfold list_sum. cbn [fold_right]. rewrite length_app.
  destruct Hz as [_ Hrem]. rewrite Hrem, length_app.
  pose proof (length_wal_frames es) as Hes.
  destruct Hc as [(-> & -> & ->)|[_ Hrest]].
  - cbn [concat length map fold_right]. lia.
  - specialize (IH _ _ Hrest). unfold list_sum in IH. lia.
Qed.

Lemma reading_remaining mint r pre cur later segs tail :
  reading mint r pre cur later segs tail ->
  (length (concat segs) <= walReader_remaining r)%nat.
Proof.
  intros (_ & _ & _ & _ & Hfds & Hsegs & _).
  unfold walReader_remaining.
  rewrite (remaining_fold (fun fd => length (fs_remaining (w_fs (r_wal r)) fd))).
  fold (reader_fds r). rewrite Hfds, !map_app, !list_sum_app.
  pose proof (segs_at_remaining _ _ _ _ Hsegs). lia.
Qed.

(** C2, as the reader has it.  A replay that meets a torn frame -- a header
    of one to five bytes, a complete header with a type other than 0, 2, 3
    and 4, a body or a checksum that is there in part, or a checksum that
    does not match -- after entries that are complete and decode: [Read]
    hands every one of these entries to its callback and returns no error;
    the segments after the one with the torn frame are closed and removed
    and leave the list of the log; the segment with the torn frame is left
    open at the offset just after its last complete entry, where the torn
    bytes start. *)
Theorem walReader_Read_torn_tail mint r pre cur later segs tail :
  reading mint r pre cur later segs tail ->
  torn tail ->
  Forall (Forall wal_entry_ok) segs ->
  Forall (wal_entry_decodes mint) (concat segs) ->
  exists r' fd,
    walReader_Read r = (r', wal_deliveries mint (concat segs), None)
    /\ reader_fds r' = pre ++ cur
    /\ last cur = Some fd
    /\ seg_at (w_fs (r_wal r')) fd tail
    /\ Forall (closed_and_removed (w_fs (r_wal r'))) later.
Proof.
  intros Hr Htorn Hok Hdec.
  destruct (walReader_Read_loop_spec mint later tail Htorn (length (concat segs))
              segs cur (S (walReader_remaining r)) r pre [] eq_refl)
    as (r' & E & _ & Hf & (fd & Hlast & Hs) & Hl);
    [pose proof (reading_remaining _ _ _ _ _ _ _ Hr); lia|exact Hr|exact Hok|exact Hdec|].
  exists r', fd. split; [exact E|]. split; [exact Hf|]. split; [|split; [exact Hs|exact Hl]].
  destruct Hr as (_ & _ & _ & _ & _ & Hsegs & _).
  destruct (segs_at_inv _ _ _ _ Hsegs) as (fd0 & cur0 & ? & ? & ? & -> & _).
  rewrite last_app_cons in Hlast. exact Hlast.
Qed.

(** The replay of the log of three segments: both entries are delivered,
    the third segment is closed and removed, the second is left open where
    its three torn bytes start. *)
Lemma walReader_Read_torn_tail_witness :
  exists r' fd,
    walReader_Read example_replay_torn
    = (r', wal_deliveries 0 [example_series_entry; example_samples_entry], None)
    /\ reader_fds r' = [0; 1]%nat
    /\ last [0; 1]%nat = Some fd
    /\ seg_at (w_fs (r_wal r')) fd example_torn_tail
    /\ Forall (closed_and_removed (w_fs (r_wal r'))) [2%nat].
Proof.
  apply (walReader_Read_torn_tail 0 example_replay_torn [] [0; 1]%nat [2%nat]
           [[example_series_entry]; [example_samples_entry]] example_torn_tail).
  - unfold reading.
    split; [apply FS_wfb_sound; vm_compute; reflexivity|].
    split; [reflexivity|]. split; [reflexivity|]. split; [reflexivity|].
    split; [reflexivity|].
    split; [|split].
    + split.
      * exists (zeros 16). split.
        -- split; [|vm_compute; reflexivity].
           eexists. split; [reflexivity|reflexivity].
        -- right. split; [vm_compute; discriminate|reflexivity].
      * split; [|vm_compute; reflexivity].
        eexists. split; [reflexivity|reflexivity].
    + apply (bool_decide_unpack _). vm_compute. exact I.
    + split.
      * constructor; [|constructor]. split.
        -- eexists. split; [reflexivity|reflexivity].
        -- exists 2%nat. vm_compute. reflexivity.
      * apply (bool_decide_unpack _). vm_compute. exact I.
  - left. vm_compute. split; reflexivity.
  - constructor; [|constructor; [|constructor]]; (constructor; [|constructor]).
    + split; [left; reflexivity|]. split; [vm_compute; split; [discriminate|reflexivity]|].
      vm_compute. reflexivity.
    + split; [right; left; reflexivity|].
      split; [vm_compute; split; [discriminate|reflexivity]|].
      vm_compute. reflexivity.
  - constructor; [|constructor; [|constructor]]; eexists; vm_compute; reflexivity.
Defined.

(** C2 as stated does not hold for a complete header whose type byte is
    zero, which is a type not in {2, 3, 4}: the reader takes it for the
    preallocated space at the end of the segment.  The segment is closed, the
    segment after it is read and its entry delivered; that segment is neither
    closed nor removed. *)
Lemma walReader_Read_zero_type_reads_on :
  reading 0 example_replay_zero_type [] [0%nat] [1%nat] [[example_series_entry]] (zeros 6)
  /\ claimed_torn (zeros 6)
  /\ snd (walReader_Read example_replay_zero_type) = None
  /\ snd (fst (walReader_Read example_replay_zero_type))
     = wal_deliveries 0 [example_series_entry; example_samples_entry]
  /\ reader_fds (fst (fst (walReader_Read example_replay_zero_type))) = [0; 1]%nat
  /\ fd_open (w_fs (r_wal (fst (fst (walReader_Read example_replay_zero_type))))) 1
  /\ fs_dir (w_fs (r_wal (fst (fst (walReader_Read example_replay_zero_type)))))
       !! path_Join "wal" (format_seq 1) = Some 1%nat
  /\ ~ fd_open (w_fs (r_wal (fst (fst (walReader_Read example_replay_zero_type))))) 0.
Proof.
  split; [|split; [|split; [|split; [|split; [|split; [|split]]]]]].
  - unfold reading.
    split; [apply FS_wfb_sound; vm_compute; reflexivity|].
    split; [reflexivity|]. split; [reflexivity|]. split; [reflexivity|].
    split; [reflexivity|].
    split; [|split].
    + split; [|vm_compute; reflexivity].
      eexists. split; [reflexivity|reflexivity].
    + apply (bool_decide_unpack _). vm_compute. exact I.
    + split.
      * constructor; [|constructor]. split.
        -- eexists. split; [reflexivity|reflexivity].
        -- exists 1%nat. vm_compute. reflexivity.
      * apply (bool_decide_unpack _). vm_compute. exact I.
  - right. left. split; [vm_compute; discriminate|].
    unfold known_type. vm_compute. intros [H|[H|H]]; discriminate.
  - vm_compute. reflexivity.
  - vm_compute. reflexivity.
  - vm_compute. reflexivity.
  - eexists. split; [vm_compute; reflexivity|reflexivity].
  - vm_compute. reflexivity.
  - intros (f & Hf & Ho). vm_compute in Hf. injection Hf as <-. discriminate.
Qed.

(** Nor for a header that is complete when no byte of the body follows it:
    the read of the body gives the end of the file, and the reader stops
    with no error, the segment left at the end of the header. *)
Lemma walReader_Read_body_missing_not_truncated :
  reading 0 example_replay_body_missing [] [0%nat] [] [[example_series_entry]]
    example_body_missing
  /\ claimed_torn example_body_missing
  /\ snd (walReader_Read example_replay_body_missing) = None
  /\ snd (fst (walReader_Read example_replay_body_missing))
     = wal_deliveries 0 [example_series_entry]
  /\ seg_at (w_fs (r_wal (fst (fst (walReader_Read example_replay_body_missing))))) 0 [].
Proof.
  split; [|split; [|split; [|split]]].
  - unfold reading.
    split; [apply FS_wfb_sound; vm_compute; reflexivity|].
    split; [reflexivity|]. split; [reflexivity|]. split; [reflexivity|].
    split; [reflexivity|].
    split; [|split].
    + split; [|vm_compute; reflexivity].
      eexists. split; [reflexivity|reflexivity].
    + apply (bool_decide_unpack _). vm_compute. exact I.
    + split; [constructor|constructor].
  - right. right. left. split; [vm_compute; discriminate|].
    split; [right; left; reflexivity|]. vm_compute. reflexivity.
  - vm_compute. reflexivity.
  - vm_compute. reflexivity.
  - split; [|vm_compute; reflexivity].
    eexists. split; [vm_compute; reflexivity|reflexivity].
Qed.


(** ** The write-ahead log: Truncate *)

(** With no segment whose [maxt] is before [mint], [Truncate] returns at
    once and the log is as it was. *)
Lemma SegmentWAL_Truncate_no_candidates w mint p :
  Truncate_delFiles w mint = [] -> SegmentWAL_Truncate w mint p = (w, None).
Proof. intros H. unfold SegmentWAL_Truncate. rewrite H. reflexivity. Qed.

Lemma SegmentWAL_Truncate_no_candidates_example :
  SegmentWAL_Truncate example_truncate_old_first 5 (newListPostings [1])
  = (example_truncate_old_first, None).
Proof. apply SegmentWAL_Truncate_no_candidates. vm_compute. reflexivity. Qed.

(** C7, on a log opened and replayed as at start-up.  Its older segment
    holds the series 1 and samples at time 5, its newer one samples at time
    100.  [Truncate] with [mint = 50] and the series 1 to keep has the older
    segment as its one candidate and returns no error; the file that takes
    the place of the segment holds the eight header bytes and nothing of
    the series 1: the replay has closed the handle of the segment, the
    reader of [Truncate] fails on it at its first step and the loop that
    copies the series is not entered. *)
Theorem SegmentWAL_Truncate_drops_kept_series :
  fs_content (w_fs example_truncate_old_first) (path_Join "wal" (format_seq 0))
  = Some (segment_header ++ wal_frames [example_series_entry; example_samples_at 5])
  /\ wal_entry_delivery 0 example_series_entry
     = Ok (seriesf [{| rs_Ref := 1;
                       rs_Labels := [{| lbl_Name := "job"; lbl_Value := "api" |}] |}])
  /\ Truncate_delFiles example_truncate_old_first 50 = [{| sf_f := 0%nat; sf_maxt := 5 |}]
  /\ snd (SegmentWAL_Truncate example_truncate_old_first 50 (newListPostings [1])) = None
  /\ fs_content
       (w_fs (fst (SegmentWAL_Truncate example_truncate_old_first 50 (newListPostings [1]))))
       (path_Join "wal" (format_seq 0))
     = Some segment_header.
Proof.
  split; [vm_compute; reflexivity|]. split; [vm_compute; reflexivity|].
  split; [vm_compute; reflexivity|]. split; [vm_compute; reflexivity|].
  vm_compute. reflexivity.
Qed.

(** When the first segment of the log is not a candidate, the file
    [Truncate] writes takes the place of that first segment all the same:
    the rename goes to the name of [w.files[0]].  The candidate stays as it
    was. *)
Lemma SegmentWAL_Truncate_replaces_first_segment :
  Truncate_delFiles example_truncate_old_second 50 = [{| sf_f := 1%nat; sf_maxt := 5 |}]
  /\ fs_content (w_fs example_truncate_old_second) (path_Join "wal" (format_seq 0))
     = Some (segment_header ++ wal_frames [example_samples_at 100])
  /\ snd (SegmentWAL_Truncate example_truncate_old_second 50 (newListPostings [1])) = None
  /\ fs_content
       (w_fs (fst (SegmentWAL_Truncate example_truncate_old_second 50 (newListPostings [1]))))
       (path_Join "wal" (format_seq 0))
     = Some segment_header
  /\ fs_content
       (w_fs (fst (SegmentWAL_Truncate example_truncate_old_second 50 (newListPostings [1]))))
       (path_Join "wal" (format_seq 1))
     = Some (segment_header ++ wal_frames [example_series_entry; example_samples_at 5]).
Proof.
  split; [vm_compute; reflexivity|]. split; [vm_compute; reflexivity|].
  split; [vm_compute; reflexivity|]. split; [vm_compute; reflexivity|].
  vm_compute. reflexivity.
Qed.


(** ** The index writer: [write] and the 4 GiB limit *)

Lemma indexWriter_write_cons w b bufs :
  indexWriter_write w (b :: bufs) =
  let w1 := iw_set_out w (iw_fbuf w ++ b) (iw_pos w + len b) in
  if MaxUint32 <? iw_pos w1 then (w1, Some errFileTooLarge)
  else indexWriter_write w1 bufs.
Proof. reflexivity. Qed.

Lemma iw_set_out_id w : iw_set_out w (iw_fbuf w) (iw_pos w) = w.
Proof. destruct w; reflexivity. Qed.

(** What [write] does, buffer by buffer: [done] are the buffers handed to
    the output, [rest] those that were not. *)
Lemma indexWriter_write_spec bufs :
  forall w w' err,
    iw_pos w <= MaxUint32 ->
    indexWriter_write w bufs = (w', err) ->
    exists done rest,
      bufs = done ++ rest
      /\ w' = iw_set_out w (iw_fbuf w ++ concat done) (iw_pos w + len (concat done))
      /\ match err with
         | None => rest = [] /\ iw_pos w' <= MaxUint32
         | Some e =>
             e = errFileTooLarge /\ MaxUint32 < iw_pos w'
             /\ exists done0 b, done = done0 ++ [b]
                                /\ iw_pos w + len (concat done0) <= MaxUint32
         end.
Proof.
  induction bufs as [|b bufs IH]; intros w w' err Hpos Hw.
  - cbn in Hw. inversion Hw; subst. exists [], []. cbn [concat app].
    rewrite app_nil_r, len_nil, Z.add_0_r, iw_set_out_id. repeat split. exact Hpos.
  - rewrite indexWriter_write_cons in Hw. cbv zeta in Hw.
    destruct (MaxUint32 <? _) eqn:E.
    + inversion Hw; subst. apply Z.ltb_lt in E. cbn [iw_set_out iw_pos] in E.
      exists [b], bufs. cbn [concat app]. rewrite app_nil_r.
      repeat split; [exact E|].
      exists [], b. cbn [concat app]. rewrite len_nil. split; [reflexivity|lia].
    + apply Z.ltb_ge in E.
      destruct (IH _ _ _ E Hw) as (done & rest & Hb & Hw' & Herr).
      cbn [iw_set_out iw_pos iw_fbuf] in Hw', Herr, E.
      exists (b :: done), rest. cbn [concat app].
      split; [rewrite Hb; reflexivity|].
      split.
      { rewrite Hw'. unfold iw_set_out. cbn. rewrite <- app_assoc, len_app.
        f_equal. lia. }
      destruct err as [e|]; [|exact Herr].
      destruct Herr as (He & Hlt & done0 & b0 & Hd & Hle).
      repeat split; [exact He|exact Hlt|].
      exists (b :: done0), b0. cbn [concat app]. rewrite Hd.
      split; [reflexivity|]. rewrite len_app. lia.
Qed.

(** C5, as the code has it.  [write] hands its buffers to the output one at
    a time and checks the position after each: when a buffer takes the
    position past [MaxUint32] the error is returned, that buffer having been
    written in full and none of the later ones.  A call whose bytes take the
    position past the limit always returns the error. *)
Theorem indexWriter_write_limit :
  forall (w w' : indexWriter) (bufs : list (list byte)) (err : option error),
    iw_pos w <= MaxUint32 ->
    indexWriter_write w bufs = (w', err) ->
    (MaxUint32 < iw_pos w + len (concat bufs) -> err = Some errFileTooLarge)
    /\ exists done rest,
         bufs = done ++ rest
         /\ iw_fbuf w' = iw_fbuf w ++ concat done
         /\ iw_pos w' = iw_pos w + len (concat done)
         /\ match err with
            | None => rest = [] /\ iw_pos w' <= MaxUint32
            | Some e =>
                e = errFileTooLarge /\ MaxUint32 < iw_pos w'
                /\ exists done0 b, done = done0 ++ [b]
                                   /\ iw_pos w + len (concat done0) <= MaxUint32
            end.
Proof.
  intros w w' bufs err Hpos Hw.
  destruct (indexWriter_write_spec bufs w w' err Hpos Hw)
    as (done & rest & Hb & Hw' & Herr).
  assert (Hf : iw_fbuf w' = iw_fbuf w ++ concat done) by (rewrite Hw'; reflexivity).
  assert (Hp : iw_pos w' = iw_pos w + len (concat done)) by (rewrite Hw'; reflexivity).
  split.
  - intros Hlt. destruct err as [e|].
    + destruct Herr as (-> & _). reflexivity.
    + destruct Herr as (-> & Hle). rewrite app_nil_r in Hb. subst done. lia.
  - exists done, rest. repeat split; assumption.
Qed.

Lemma indexWriter_write_limit_witness :
  iw_pos (indexWriter_at 3) <= MaxUint32
  /\ exists done rest,
       [[Byte.x01; Byte.x02]; [Byte.x03]] = done ++ rest
       /\ iw_fbuf (fst (indexWriter_write (indexWriter_at 3) [[Byte.x01; Byte.x02]; [Byte.x03]]))
          = iw_fbuf (indexWriter_at 3) ++ concat done.
Proof.
  assert (H : iw_pos (indexWriter_at 3) <= MaxUint32) by (vm_compute; discriminate).
  split; [exact H|].
  destruct (indexWriter_write_limit (indexWriter_at 3) _ [[Byte.x01; Byte.x02]; [Byte.x03]] _
              H eq_refl) as (_ & done & rest & Hb & Hf & _).
  exists done, rest. split; [exact Hb|exact Hf].
Defined.

(** C5, as stated, fails: two bytes before the boundary a write of four
    bytes returns the error, and by then the output holds all four of them,
    two of them at or beyond the 4 GiB boundary. *)
Lemma indexWriter_write_crosses_boundary :
  let w := indexWriter_at almost_4GiB in
  let b := [Byte.x01; Byte.x02; Byte.x03; Byte.x04] in
  iw_pos w = 2 ^ 32 - 2
  /\ len (iw_fbuf w) = iw_pos w
  /\ snd (indexWriter_write w [b]) = Some errFileTooLarge
  /\ iw_fbuf (fst (indexWriter_write w [b])) = iw_fbuf w ++ b
  /\ ~ len (iw_fbuf (fst (indexWriter_write w [b]))) <= 2 ^ 32.
Proof.
  intros w b.
  assert (Hn : Z.of_nat almost_4GiB = 2 ^ 32 - 2).
  { unfold almost_4GiB. rewrite Z2Nat.id; lia. }
  assert (Hpos : iw_pos w = 2 ^ 32 - 2) by exact Hn.
  assert (Hlen : len (iw_fbuf w) = iw_pos w).
  { unfold w, indexWriter_at, len, zeros. cbn [iw_fbuf iw_pos].
    rewrite length_replicate. reflexivity. }
  assert (Hw : indexWriter_write w [b]
               = (iw_set_out w (iw_fbuf w ++ b) (iw_pos w + len b), Some errFileTooLarge)).
  { rewrite indexWriter_write_cons. cbv zeta. cbn [iw_set_out iw_pos].
    rewrite Hpos. reflexivity. }
  rewrite Hw. cbn [fst snd iw_set_out iw_fbuf].
  split; [exact Hpos|]. split; [exact Hlen|].
  split; [reflexivity|]. split; [reflexivity|].
  rewrite len_app, Hlen, Hpos.
  replace (len b) with 4 by reflexivity. lia.
Qed.


(** ** The index writer: symbols and the label index *)

(** [write] changes the output and the position only. *)
Lemma indexWriter_write_symbols bufs :
  forall w, iw_symbols (fst (indexWriter_write w bufs)) = iw_symbols w.
Proof.
  induction bufs as [|b bufs IH]; intros w; [reflexivity|].
  rewrite indexWriter_write_cons. cbv zeta.
  destruct (MaxUint32 <? _); [reflexivity|].
  rewrite IH. reflexivity.
Qed.

(** [AddSeries] adds the names and the values of the label set to the
    symbols. *)
Lemma AddSeries_symbols_fold (lset : Labels) v :
  forall m : gmap string Z,
    fold_left (fun m l => <[lbl_Value l := 0]> (<[lbl_Name l := 0]> m)) lset m !! v = None
    <-> m !! v = None /\ v ∉ concat (map (fun l => [lbl_Name l; lbl_Value l]) lset).
Proof.
  induction lset as [|l lset IH]; intros m; cbn [fold_left map concat].
  - split; [intros H; split; [exact H|apply not_elem_of_nil]|intros [H _]; exact H].
  - rewrite IH. cbn [app]. rewrite !not_elem_of_cons.
    rewrite !lookup_insert_None. intuition congruence.
Qed.

Lemma indexWriter_AddSeries_symbols w ref lset chunks w' v :
  indexWriter_AddSeries w ref lset chunks = (w', None) ->
  iw_symbols w' !! v = None
  <-> iw_symbols w !! v = None /\ v ∉ concat (map (fun l => [lbl_Name l; lbl_Value l]) lset).
Proof.
  unfold indexWriter_AddSeries. destruct (iw_series w !! ref); [discriminate|].
  intros H. injection H as <-. cbn [iw_set_series iw_set_symbols iw_symbols].
  apply AddSeries_symbols_fold.
Qed.

Lemma indexWriter_populate_symbols_from series v :
  forall w0 w,
    fold_left (fun x f => match x with
                          | (w, None) => f w
                          | (w, Some e) => (w, Some e)
                          end)
      (map (fun '(ref, lset, chunks) w => indexWriter_AddSeries w ref lset chunks) series)
      (w0, None) = (w, None) ->
    iw_symbols w !! v = None <-> iw_symbols w0 !! v = None /\ v ∉ label_strings series.
Proof.
  induction series as [|[[ref lset] chunks] series IH]; intros w0 w; cbn [map fold_left].
  - intros H. injection H as <-. unfold label_strings. cbn.
    split; [intros H; split; [exact H|apply not_elem_of_nil]|intros [H _]; exact H].
  - destruct (indexWriter_AddSeries w0 ref lset chunks) as [w1 [e|]] eqn:E.
    + intros H. exfalso. revert H. clear.
      generalize (map (fun '(ref, lset, chunks) w => indexWriter_AddSeries w ref lset chunks)
                    series).
      intros ops. induction ops as [|f ops IHo]; cbn [fold_left]; [discriminate|exact IHo].
    + intros H. rewrite (IH w1 w H).
      rewrite (indexWriter_AddSeries_symbols _ _ _ _ _ v E).
      unfold label_strings. cbn [map concat]. rewrite not_elem_of_app. tauto.
Qed.

(** After the population stage the symbols are the strings that were
    passed to [AddSeries]. *)
Lemma indexWriter_populate_symbols series w v :
  indexWriter_populate series = (w, None) ->
  iw_symbols w !! v = None <-> v ∉ label_strings series.
Proof.
  unfold indexWriter_populate, indexWriter_run. intros H.
  change newIndexWriter with (fst newIndexWriter, @None error) in H.
  rewrite (indexWriter_populate_symbols_from series v _ w H).
  split; [tauto|]. intros Hn. split; [reflexivity|exact Hn].
Qed.

(** [writeSymbols] gives every symbol its offset and adds none. *)
Lemma writeSymbols_fold_absent (symbols : list string) pos v :
  forall (m : gmap string Z) (buf2 : encbuf),
    v ∉ symbols -> m !! v = None ->
    fst (fold_left
           (fun '(m, buf2) s =>
              (<[s := uint32 (uint32 pos + 8 + uint32 (encbuf_len buf2))]> m,
               encbuf_putUvarintStr buf2 s))
           symbols (m, buf2)) !! v = None.
Proof.
  induction symbols as [|s symbols IH]; intros m buf2 Hnin Hm; cbn [fold_left]; [exact Hm|].
  apply not_elem_of_cons in Hnin. destruct Hnin as [Hne Hnin].
  apply IH; [exact Hnin|].
  rewrite lookup_insert_None. split; [exact Hm|congruence].
Qed.

Lemma indexWriter_writeSymbols_absent w v :
  iw_symbols w !! v = None ->
  iw_symbols (fst (indexWriter_writeSymbols w)) !! v = None.
Proof.
  intros Hv. unfold indexWriter_writeSymbols. cbv zeta.
  pose proof (writeSymbols_fold_absent (sort_Strings (elements (dom (iw_symbols w))))
                (iw_pos w) v (iw_symbols w) (encbuf_reset [])) as Hfold.
  destruct (fold_left _ _ _) as [m buf2]. cbn [fst] in Hfold.
  pose proof (indexWriter_write_symbols
                [encbuf_get (encbuf_putBE32int
                               (encbuf_putBE32int (encbuf_reset [])
                                  (len (sort_Strings (elements (dom (iw_symbols w))))))
                               (encbuf_len buf2));
                 encbuf_get (encbuf_putHash buf2)] (iw_set_symbols w m)) as Hw.
  destruct (indexWriter_write _ _) as [w' err]. cbn [fst] in *.
  rewrite Hw. cbn [iw_set_symbols iw_symbols]. apply Hfold; [|exact Hv].
  intros Hin. rewrite sort_Strings_perm in Hin.
  apply elem_of_elements, elem_of_dom in Hin. destruct Hin as [x Hx]. congruence.
Qed.

Lemma indexWriter_writeSeries_one_symbols w rs :
  iw_symbols (fst (indexWriter_writeSeries_one w rs)) = iw_symbols w.
Proof.
  unfold indexWriter_writeSeries_one. destruct rs as [ref s]. cbv zeta.
  match goal with
  | |- context [indexWriter_write ?w0 ?bufs] =>
      pose proof (indexWriter_write_symbols bufs w0) as Hw;
      destruct (indexWriter_write w0 bufs) as [w' err]
  end.
  cbn [fst] in *. rewrite Hw. reflexivity.
Qed.

Lemma indexWriter_writeSeries_loop_symbols series :
  forall w, iw_symbols (fst (indexWriter_writeSeries_loop w series)) = iw_symbols w.
Proof.
  induction series as [|rs series IH]; intros w; cbn [indexWriter_writeSeries_loop];
    [reflexivity|].
  pose proof (indexWriter_writeSeries_one_symbols w rs) as H1.
  destruct (indexWriter_writeSeries_one w rs) as [w1 [e|]]; cbn [fst] in *; [exact H1|].
  rewrite IH. exact H1.
Qed.

Section LabelIndex.
Variable rangeSeries : gmap Z indexWriterSeries -> list (Z * indexWriterSeries).

Lemma indexWriter_writeSeries_symbols w :
  iw_symbols (fst (indexWriter_writeSeries rangeSeries w)) = iw_symbols w.
Proof.
  unfold indexWriter_writeSeries. cbv zeta.
  match goal with
  | |- context [indexWriter_write ?w0 ?bufs] =>
      pose proof (indexWriter_write_symbols bufs w0) as Hw;
      destruct (indexWriter_write w0 bufs) as [w' [e|]]
  end; cbn [fst] in *; [exact Hw|].
  rewrite indexWriter_writeSeries_loop_symbols. exact Hw.
Qed.

(** Reaching the label-index stage adds no symbol. *)
Lemma indexWriter_ensureStage_LabelIndex_absent w w1 v :
  indexWriter_ensureStage rangeSeries w idxStageLabelIndex = (w1, None) ->
  iw_symbols w !! v = None -> iw_symbols w1 !! v = None.
Proof.
  unfold indexWriter_ensureStage. intros H Hv.
  destruct (indexWriterStage_eqb (iw_stage w) idxStageLabelIndex).
  { injection H as <-. exact Hv. }
  destruct (indexWriterStage_uint8 idxStageLabelIndex <? indexWriterStage_uint8 (iw_stage w));
    [discriminate|].
  destruct (indexWriterStage_eqb (iw_stage w) idxStagePopulate).
  - pose proof (indexWriter_writeSymbols_absent
                  (iw_set_toc w (toc_set_symbols (iw_toc w) (iw_pos w))) v Hv) as Hs.
    destruct (indexWriter_writeSymbols _) as [w2 [e|]]; cbn [fst] in Hs; [discriminate|].
    pose proof (indexWriter_writeSeries_symbols
                  (iw_set_toc w2 (toc_set_series (iw_toc w2) (iw_pos w2)))) as Hr.
    destruct (indexWriter_writeSeries _ _) as [w3 [e|]]; cbn [fst] in Hr; [discriminate|].
    injection H as <-. cbn [iw_set_stage iw_set_toc iw_symbols].
    rewrite Hr. exact Hs.
  - injection H as <-. exact Hv.
Qed.

Lemma len_concat_PutUint32 {A} (f : A -> Z) (l : list A) :
  len (concat (map (fun v => binary.PutUint32 (f v)) l)) = 4 * len l.
Proof.
  induction l as [|x l IH]; [reflexivity|].
  cbn [map concat]. rewrite len_app, len_PutUint32, IH, len_cons. lia.
Qed.

(** C10.  [WriteLabelIndex] looks its values up in the symbols and checks
    nothing: for a writer that was populated by [AddSeries], reaches the
    label-index stage and has room in the file, and for tuples of the
    length of [names], it returns no error; the section it writes holds one
    reference for each of the values, in sorted order, and the reference of
    every value that was never passed to [AddSeries] as a label name or a
    label value is the four zero bytes. *)
Theorem indexWriter_WriteLabelIndex_unknown_values series w w1 names values :
  indexWriter_populate series = (w, None) ->
  indexWriter_ensureStage rangeSeries w idxStageLabelIndex = (w1, None) ->
  names <> [] ->
  Z.rem (len values) (len names) = 0 ->
  iw_pos w1 + 24 + 4 * len values <= MaxUint32 ->
  exists w' sorted,
    indexWriter_WriteLabelIndex rangeSeries w names values = (w', None)
    /\ sorted ≡ₚ values
    /\ (let body := binary.PutUvarint (uint64 (len names))
                    ++ concat (map (fun v => binary.PutUint32 (iw_symbol w1 v)) sorted) in
        iw_fbuf w' = iw_fbuf w1 ++ binary.PutUvarint (uint64 (len body)) ++ encbuf_putHash body)
    /\ forall v, v ∉ label_strings series ->
                 binary.PutUint32 (iw_symbol w1 v) = zeros 4.
Proof.
  intros Hpop Hstage Hnames Hrem Hroom.
  assert (Htup : newStringTuples values (length names)
                 = Ok {| st_l := length names; st_s := values |}).
  { unfold newStringTuples. destruct names as [|n0 names']; [contradiction|].
    cbn [length]. change (Z.of_nat (S (length names'))) with (len (n0 :: names')).
    rewrite Hrem. reflexivity. }
  set (valt := sort_stringTuples {| st_l := length names; st_s := values |}).
  destruct (sort_stringTuples_perm {| st_l := length names; st_s := values |})
    as [_ Hperm]. fold valt in Hperm. cbn [st_s] in Hperm.
  set (body := binary.PutUvarint (uint64 (len names))
               ++ concat (map (fun v => binary.PutUint32 (iw_symbol w1 v)) (st_s valt))).
  assert (Hbody : len body <= 10 + 4 * len values).
  { unfold body. rewrite len_app, len_concat_PutUint32.
    pose proof (len_PutUvarint (uint64 (len names))).
    pose proof (Permutation_length Hperm) as Hl. unfold len in *. lia. }
  assert (Hhash : len (encbuf_putHash body) = len body + 4).
  { unfold encbuf_putHash, crc32.Sum. rewrite len_app, len_PutUint32. reflexivity. }
  pose proof (len_PutUvarint (uint64 (len body))) as Hb1.
  pose proof (len_nonneg body) as Hbody0.
  eexists. exists (st_s valt).
  split; [|split; [exact Hperm|split]].
  - unfold indexWriter_WriteLabelIndex. rewrite Hstage, Htup. cbv zeta.
    fold valt.
    change (iw_symbol (iw_set_labelIndexes w1 ?l)) with (iw_symbol w1).
    unfold encbuf_reset, encbuf_putUvarint, encbuf_putUvarint64, encbuf_get, encbuf_len.
    cbn [app].
    assert (Hfold : fold_left (fun (buf2 : encbuf) v => encbuf_putBE32 buf2 (iw_symbol w1 v))
                      (st_s valt) (binary.PutUvarint (uint64 (len names))) = body).
    { unfold encbuf_putBE32.
      apply (fold_left_app_map (fun v => binary.PutUint32 (iw_symbol w1 v))). }
    rewrite !Hfold.
    rewrite !indexWriter_write_cons. cbv zeta.
    cbn [iw_set_out iw_set_labelIndexes iw_pos iw_fbuf indexWriter_write].
    destruct (Z.ltb_spec MaxUint32 (iw_pos w1 + len (binary.PutUvarint (uint64 (len body)))))
      as [Hlt|_]; [lia|].
    destruct (Z.ltb_spec MaxUint32
                (iw_pos w1 + len (binary.PutUvarint (uint64 (len body)))
                 + len (encbuf_putHash body))) as [Hlt|_]; [lia|].
    reflexivity.
  - cbn [iw_fbuf]. rewrite <- app_assoc. reflexivity.
  - intros v Hv.
    apply (indexWriter_populate_symbols series w v Hpop) in Hv.
    pose proof (indexWriter_ensureStage_LabelIndex_absent w w1 v Hstage Hv) as Hv1.
    unfold iw_symbol. rewrite Hv1. reflexivity.
Qed.

End LabelIndex.

(** The label index of [foo] with the values [nope], which is no symbol,
    and [bar], which is one. *)
Lemma indexWriter_WriteLabelIndex_unknown_values_witness :
  exists w' sorted,
    indexWriter_WriteLabelIndex rangeSeries_map (fst (indexWriter_populate example_populate))
      ["foo"] ["nope"; "bar"] = (w', None)
    /\ sorted ≡ₚ ["nope"; "bar"]
    /\ (let w1 := fst (indexWriter_ensureStage rangeSeries_map
                         (fst (indexWriter_populate example_populate)) idxStageLabelIndex) in
        let body := binary.PutUvarint (uint64 (len ["foo"]))
                    ++ concat (map (fun v => binary.PutUint32 (iw_symbol w1 v)) sorted) in
        iw_fbuf w' = iw_fbuf w1 ++ binary.PutUvarint (uint64 (len body)) ++ encbuf_putHash body)
    /\ forall v, v ∉ label_strings example_populate ->
                 binary.PutUint32
                   (iw_symbol
                      (fst (indexWriter_ensureStage rangeSeries_map
                              (fst (indexWriter_populate example_populate))
                              idxStageLabelIndex)) v) = zeros 4.
Proof.
  apply (indexWriter_WriteLabelIndex_unknown_values rangeSeries_map example_populate
           (fst (indexWriter_populate example_populate))
           (fst (indexWriter_ensureStage rangeSeries_map
                   (fst (indexWriter_populate example_populate)) idxStageLabelIndex))
           ["foo"] ["nope"; "bar"]).
  - vm_compute. reflexivity.
  - vm_compute. reflexivity.
  - discriminate.
  - reflexivity.
  - vm_compute. discriminate.
Defined.

(** The reader cannot resolve the reference of a value that is no symbol:
    in the second example index the label index of [foo] holds the value
    [nope]; its reference is zero and the lookup fails. *)
Lemma label_index_unknown_value_unreadable :
  query_labels example_bytes2 ["foo"] [0]
  = Ok (Ok 1, [Err (errors_Wrap (errors_Errorf "invalid length %d" 1430842)
                      "symbol lookup")]).
Proof. vm_compute. reflexivity. Qed.


(** ** The index reader: the header check *)

(** C8, as the code has it.  Opening fails for every file that is shorter
    than four bytes or does not start with the magic number; the byte after
    the magic is not looked at, and a file with the magic opens exactly when
    its table of contents and its two offset tables read. *)
Theorem newIndexReader_header_check :
  forall b : list byte,
    (len b < 4 \/ binary.Uint32 (slice_to 4 b) <> MagicIndex ->
     exists e, newIndexReader b = Err e)
    /\ ((exists r, newIndexReader b = Ok r) <->
        4 <= len b /\ binary.Uint32 (slice_to 4 b) = MagicIndex
        /\ exists toc labels postings,
             indexReader_readTOC b = Ok toc
             /\ indexReader_readOffsetTable b (toc_labelIndicesTable toc) = Ok labels
             /\ indexReader_readOffsetTable b (toc_postingsTable toc) = Ok postings).
Proof.
  intros b. unfold newIndexReader.
  destruct (len b <? 4) eqn:E1; [apply Z.ltb_lt in E1 | apply Z.ltb_ge in E1].
  { split; [intros _; eauto|].
    split; [intros [r Hr]; discriminate | intros (H & _); lia]. }
  destruct (binary.Uint32 (slice_to 4 b) =? MagicIndex) eqn:E2;
    [apply Z.eqb_eq in E2 | apply Z.eqb_neq in E2]; cbn [negb].
  2:{ split; [intros _; eauto|].
      split; [intros [r Hr]; discriminate | intros (_ & H & _); contradiction]. }
  split; [intros [H|H]; [lia|contradiction]|].
  split.
  - intros [r Hr]. split; [exact E1|]. split; [exact E2|].
    destruct (indexReader_readTOC b) as [toc|e] eqn:H1; [|discriminate].
    destruct (indexReader_readOffsetTable b (toc_labelIndicesTable toc)) as [l|e] eqn:H2;
      [|discriminate].
    destruct (indexReader_readOffsetTable b (toc_postingsTable toc)) as [p|e] eqn:H3;
      [|discriminate].
    exists toc, l, p. repeat split; assumption.
  - intros (_ & _ & toc & l & p & H1 & H2 & H3).
    rewrite H1, H2, H3. eauto.
Qed.

(** C8, as stated, fails: the example index with its format byte changed
    from 1 to 2 still opens. *)
Lemma newIndexReader_accepts_format_2 :
  let b := <[4%nat := Byte.x02]> example_bytes in
  binary.Uint32 (slice_to 4 b) = MagicIndex
  /\ byte.unsigned (index Byte.x00 b 4) = 2
  /\ exists r, newIndexReader b = Ok r.
Proof.
  cbv zeta. split; [vm_compute; reflexivity|].
  split; [vm_compute; reflexivity|].
  destruct (newIndexReader (<[4%nat := Byte.x02]> example_bytes)) as [r|e] eqn:E.
  - exists r. reflexivity.
  - exfalso. revert E. vm_compute. discriminate.
Qed.

(** ** The index reader: string tuples *)

Lemma serializedStringTuples_At_short t i :
  len (sst_b t) < int64 ((i + sst_l t) * 4) ->
  serializedStringTuples_At t i = Err errInvalidSize.
Proof.
  intros H. unfold serializedStringTuples_At.
  apply Z.ltb_lt in H. rewrite H. reflexivity.
Qed.

Lemma serializedStringTuples_Len_single t n :
  sst_l t = 1 -> serializedStringTuples_Len t = Ok n -> n = len (sst_b t) / 4.
Proof.
  intros Hl. unfold serializedStringTuples_Len. rewrite Hl.
  change (int64 (4 * 1)) with 4. cbn [Z.eqb]. intros H. inversion H.
  apply Z.quot_div_nonneg; [apply len_nonneg|lia].
Qed.

Lemma serializedStringTuples_At_single_in_range t n i :
  len (sst_b t) < 2 ^ 63 ->
  sst_l t = 1 ->
  serializedStringTuples_Len t = Ok n ->
  0 <= i < n ->
  serializedStringTuples_At t i =
  match lookupSymbol (sst_rb t) (binary.Uint32 (slice_from (4 * i) (sst_b t))) with
  | Ok s => Ok [s]
  | Err e => Err (errors_Wrap e "symbol lookup")
  end.
Proof.
  intros Hsmall Hl Hn Hi.
  pose proof (serializedStringTuples_Len_single t n Hl Hn) as Hn'.
  assert (Hb : 4 * (i + 1) <= len (sst_b t)).
  { subst n. pose proof (Z.mul_div_le (len (sst_b t)) 4 ltac:(lia)). lia. }
  unfold serializedStringTuples_At. rewrite Hl.
  assert (Hi64 : forall x, 0 <= x <= len (sst_b t) -> int64 x = x).
  { intros x Hx. apply int64_small. unfold is_int64. lia. }
  rewrite (Hi64 ((i + 1) * 4)) by lia.
  destruct (len (sst_b t) <? (i + 1) * 4) eqn:E; [apply Z.ltb_lt in E; lia|].
  change (makeslice_ok 16 1) with true. cbn [negb].
  change (Z.to_nat 1) with 1%nat. cbn [seq map serializedStringTuples_At_loop].
  rewrite Z.add_0_r. rewrite (Hi64 (i * 4)) by lia.
  destruct ((i * 4 <? 0) || (len (sst_b t) <? i * 4 + 4)) eqn:E2.
  { apply orb_true_iff in E2. destruct E2 as [E2|E2]; apply Z.ltb_lt in E2; lia. }
  replace (i * 4) with (4 * i) by lia.
  destruct (lookupSymbol _ _); reflexivity.
Qed.

Lemma len_slice_from_le {A} n (l : list A) : len (slice_from n l) <= len l.
Proof. unfold len, slice_from. rewrite length_drop. lia. Qed.

Lemma len_slice_to_le {A} n (l : list A) : len (slice_to n l) <= len l.
Proof. unfold len, slice_to. rewrite length_take. lia. Qed.

Lemma indexReader_getSized_len r off b :
  indexReader_getSized r off = Ok b -> len b <= len (ir_b r).
Proof.
  unfold indexReader_getSized.
  destruct (len (ir_b r) <? off); [discriminate|].
  destruct (binary.Uvarint (slice_from off (ir_b r))) as [l n].
  destruct (n <? 1); [discriminate|].
  destruct (len _ <? int64 l); [discriminate|].
  destruct (int64 l <? 0); [discriminate|].
  intros H; inversion H; subst.
  etransitivity; [apply len_slice_to_le|].
  etransitivity; [apply len_slice_from_le|].
  apply len_slice_from_le.
Qed.

Lemma indexReader_LabelValues_serialized r names t :
  indexReader_LabelValues r names = Ok (serializedTuples t) ->
  sst_rb t = ir_b r /\ len (sst_b t) <= len (ir_b r).
Proof.
  unfold indexReader_LabelValues.
  destruct (ir_labels r !! strings_Join names sep) as [off|]; [|discriminate].
  destruct (indexReader_getSized r off) as [b|e] eqn:Hb; [|discriminate].
  destruct (binary.Uvarint b) as [c n].
  destruct (n <? 1); [discriminate|].
  intros H. inversion H; subst. cbn [sst_rb sst_b]. split; [reflexivity|].
  etransitivity; [apply len_slice_from_le|].
  eapply indexReader_getSized_len; eassumption.
Qed.

(** C6, as the code has it, for the tuple length 1 that label indices have
    in practice: [At(i)] of the view [LabelValues] returns resolves the i-th
    stored symbol reference, and a failed lookup gives the lookup's error,
    wrapped; [At] fails with [errInvalidSize] when the buffer is too short
    for the index. *)
Theorem StringTuples_At_single :
  forall (r : indexReader) (names : list string) (t : serializedStringTuples) (n i : Z),
    len (ir_b r) < 2 ^ 63 ->
    indexReader_LabelValues r names = Ok (serializedTuples t) ->
    sst_l t = 1 ->
    StringTuples_Len (serializedTuples t) = Ok n ->
    (0 <= i < n ->
     StringTuples_At (serializedTuples t) i =
     match indexReader_lookupSymbol r (binary.Uint32 (slice_from (4 * i) (sst_b t))) with
     | Ok s => Ok [s]
     | Err e => Err (errors_Wrap e "symbol lookup")
     end)
    /\ (len (sst_b t) < int64 ((i + 1) * 4) ->
        StringTuples_At (serializedTuples t) i = Err errInvalidSize).
Proof.
  intros r names t n i Hlen Hlv Hl Hn.
  destruct (indexReader_LabelValues_serialized r names t Hlv) as [Hrb Hb].
  split.
  - intros Hi. cbn [StringTuples_At]. unfold indexReader_lookupSymbol.
    rewrite <- Hrb. apply (serializedStringTuples_At_single_in_range t n i); try assumption.
    lia.
  - intros Hshort. cbn [StringTuples_At].
    apply serializedStringTuples_At_short. rewrite Hl. exact Hshort.
Qed.

Lemma StringTuples_At_single_witness :
  StringTuples_At (serializedTuples example_tuples) 1 = Ok ["baz"%string].
Proof.
  assert (H1 : len (ir_b example_reader) < 2 ^ 63) by (vm_compute; reflexivity).
  assert (H2 : indexReader_LabelValues example_reader ["foo"%string]
               = Ok (serializedTuples example_tuples)) by (vm_compute; reflexivity).
  assert (H3 : sst_l example_tuples = 1) by (vm_compute; reflexivity).
  assert (H4 : StringTuples_Len (serializedTuples example_tuples) = Ok 2)
    by (vm_compute; reflexivity).
  assert (H5 : 0 <= 1 < 2) by lia.
  rewrite (proj1 (StringTuples_At_single example_reader _ example_tuples 2 1 H1 H2 H3 H4) H5).
  vm_compute. reflexivity.
Defined.

(** C6, as stated, fails twice.  Over a label index of tuple length 2 with
    the tuples (a, bar) and (a, baz), [At(1)] returns (bar, a): the window
    that starts at the second reference, not the second tuple (which [At(2)]
    returns).  And over a label index that holds the reference of a string
    that is no symbol, [At(0)] fails with the wrapped error of the lookup,
    not with [errInvalidSize]. *)
Lemma StringTuples_At_wrong_tuple_and_error :
  query_labels example_bytes2 ["__name__"; "foo"]%string [0; 1; 2]
  = Ok (Ok 2, [Ok ["a"; "bar"]; Ok ["bar"; "a"]; Ok ["a"; "baz"]]%string)
  /\ query_labels example_bytes2 ["foo"%string] [0]
     = Ok (Ok 1, [Err (errors_Wrap (errors_Errorf "invalid length %d" 1430842)
                         "symbol lookup")]).
Proof. split; vm_compute; reflexivity. Qed.


(** ** The index file, read back *)

(** *** Bytes at an offset *)

Lemma bytes_at_app b off x y : bytes_at b off x -> bytes_at (b ++ y) off x.
Proof.
  intros (pre & post & -> & Hl). exists pre, (post ++ y).
  split; [|exact Hl]. rewrite <- !app_assoc. reflexivity.
Qed.

Lemma bytes_at_end b x : bytes_at (b ++ x) (len b) x.
Proof. exists b, []. rewrite app_nil_r. auto. Qed.

Lemma bytes_at_end_app b x y : bytes_at (b ++ x ++ y) (len b) x.
Proof. exists b, y. auto. Qed.

Lemma bytes_at_prefix b off x y : bytes_at b off (x ++ y) -> bytes_at b off x.
Proof.
  intros (pre & post & -> & Hl). exists pre, (y ++ post).
  split; [|exact Hl]. rewrite <- !app_assoc. reflexivity.
Qed.

Lemma bytes_at_suffix b off x y : bytes_at b off (x ++ y) -> bytes_at b (off + len x) y.
Proof.
  intros (pre & post & -> & Hl). exists (pre ++ x), post.
  split; [rewrite <- !app_assoc; reflexivity|]. rewrite len_app. lia.
Qed.

Lemma bytes_at_range b off x : bytes_at b off x -> 0 <= off /\ off + len x <= len b.
Proof.
  intros (pre & post & -> & Hl). rewrite !len_app.
  pose proof (len_nonneg pre). pose proof (len_nonneg post). lia.
Qed.

Lemma bytes_at_slice_from b off x :
  bytes_at b off x -> exists post, slice_from off b = x ++ post.
Proof.
  intros (pre & post & -> & Hl). exists post.
  apply slice_from_app_len. symmetry. exact Hl.
Qed.

Lemma slen_bytes s : len (list_byte_of_string s) = slen s.
Proof.
  unfold len, slen, list_byte_of_string. rewrite length_map. f_equal.
  induction s as [|c s IH]; [reflexivity|]. cbn. f_equal. exact IH.
Qed.

Lemma symbol_bytes_eq s :
  symbol_bytes s = binary.PutUvarint (uint64 (slen s)) ++ list_byte_of_string s.
Proof. reflexivity. Qed.

Lemma sized_eq x :
  sized x = binary.PutUvarint (uint64 (len x)) ++ x
            ++ binary.PutUint32 (crc32.Write crc32.Reset x).
Proof. reflexivity. Qed.

(** *** Symbols *)

Lemma lookupSymbol_at b o s :
  len b < 2 ^ 63 -> bytes_at b o (symbol_bytes s) -> lookupSymbol b o = Ok s.
Proof.
  intros Hb Hat. destruct (bytes_at_range _ _ _ Hat) as [Ho Hend].
  destruct (bytes_at_slice_from _ _ _ Hat) as (post & Hsl).
  rewrite symbol_bytes_eq in *. rewrite len_app, slen_bytes in Hend.
  pose proof (len_PutUvarint (uint64 (slen s))) as Hn.
  assert (Hs0 : 0 <= slen s) by (unfold slen; lia).
  assert (Hu : uint64 (slen s) = slen s) by (apply uint64_small; unfold is_uint64; lia).
  rewrite Hu in *.
  unfold lookupSymbol.
  destruct (Z.ltb_spec (len b) o) as [Hlt|_]; [lia|].
  rewrite Hsl, <- app_assoc.
  rewrite Uvarint_PutUvarint by (unfold is_uint64; lia).
  set (n := len (binary.PutUvarint (slen s))) in *.
  destruct (Z.ltb_spec n 0) as [Hlt|_]; [lia|].
  rewrite (int64_small (slen s)) by (unfold is_int64; lia).
  rewrite (int64_small (o + n + slen s)) by (unfold is_int64; lia).
  destruct (Z.ltb_spec (len b) (o + n + slen s)) as [Hlt|_]; [lia|].
  destruct (Z.ltb_spec (o + n + slen s) (o + n)) as [Hlt|_]; [lia|].
  f_equal.
  rewrite <- (slice_from_slice_from o n) by lia.
  rewrite Hsl, <- app_assoc.
  rewrite slice_from_app_len by reflexivity.
  rewrite slice_to_app_len by (rewrite slen_bytes; lia).
  apply string_of_list_byte_of_string.
Qed.

(** *** Sized sections *)

Lemma indexReader_getSized_at r off x :
  len (ir_b r) < 2 ^ 63 -> bytes_at (ir_b r) off (sized x) ->
  indexReader_getSized r off = Ok x.
Proof.
  intros Hb Hat. destruct (bytes_at_range _ _ _ Hat) as [Ho Hend].
  destruct (bytes_at_slice_from _ _ _ Hat) as (post & Hsl).
  rewrite sized_eq in *. rewrite !len_app, len_PutUint32 in Hend.
  pose proof (len_PutUvarint (uint64 (len x))) as Hn.
  pose proof (len_nonneg x) as Hx0.
  assert (Hu : uint64 (len x) = len x) by (apply uint64_small; unfold is_uint64; lia).
  rewrite Hu in *.
  unfold indexReader_getSized.
  destruct (Z.ltb_spec (len (ir_b r)) off) as [Hlt|_]; [lia|].
  rewrite Hsl, <- !app_assoc.
  rewrite Uvarint_PutUvarint by (unfold is_uint64; lia).
  set (n := len (binary.PutUvarint (len x))) in *.
  destruct (Z.ltb_spec n 1) as [Hlt|_]; [lia|].
  rewrite slice_from_app_len by reflexivity.
  rewrite (int64_small (len x)) by (unfold is_int64; lia).
  rewrite !len_app.
  pose proof (len_nonneg post). pose proof (len_PutUint32 (crc32.Write crc32.Reset x)).
  destruct (Z.ltb_spec (len x + (len (binary.PutUint32 (crc32.Write crc32.Reset x)) + len post))
              (len x)) as [Hlt|_]; [lia|].
  destruct (Z.ltb_spec (len x) 0) as [Hlt|_]; [lia|].
  f_equal. apply slice_to_app_len. reflexivity.
Qed.

(** *** Postings *)

Lemma Postings_drain_list l :
  forall fuel cur, (length l <= fuel)%nat ->
                   Postings_drain fuel (listPostings cur l) = l.
Proof.
  induction l as [|x l IH]; intros fuel cur Hf.
  - destruct fuel; reflexivity.
  - destruct fuel as [|fuel]; [cbn in Hf; lia|].
    cbn [Postings_drain Postings_Next Postings_At]. f_equal. apply IH. cbn in Hf. lia.
Qed.

Lemma Postings_values_list l : Postings_values (newListPostings l) = l.
Proof. apply Postings_drain_list. cbn. lia. Qed.

Lemma Postings_drain_bigEndian offs :
  forall fuel cur,
    Forall is_uint32 offs -> (length offs <= fuel)%nat ->
    Postings_drain fuel (bigEndianPostings cur (concat (map binary.PutUint32 offs))) = offs.
Proof.
  induction offs as [|x offs IH]; intros fuel cur Hall Hf.
  - destruct fuel; reflexivity.
  - destruct fuel as [|fuel]; [cbn in Hf; lia|].
    apply Forall_cons in Hall. destruct Hall as [Hx Hall].
    cbn [Postings_drain Postings_Next map concat].
    rewrite len_app, len_PutUint32.
    pose proof (len_nonneg (concat (map binary.PutUint32 offs))).
    destruct (Z.leb_spec 4 (4 + len (concat (map binary.PutUint32 offs)))) as [_|Hlt]; [|lia].
    rewrite Uint32_PutUint32 by exact Hx.
    rewrite slice_from_app_len by (rewrite len_PutUint32; reflexivity).
    cbn [Postings_At]. f_equal. apply IH; [exact Hall|]. cbn in Hf. lia.
Qed.

Lemma length_concat_PutUint32 offs :
  length (concat (map binary.PutUint32 offs)) = (4 * length offs)%nat.
Proof.
  induction offs as [|x offs IH]; [reflexivity|].
  cbn [map concat]. rewrite length_app, length_PutUint32, IH. cbn [length]. lia.
Qed.

Lemma Postings_values_bigEndian offs :
  Forall is_uint32 offs ->
  Postings_values (newBigEndianPostings (concat (map binary.PutUint32 offs))) = offs.
Proof.
  intros Hall. unfold Postings_values, newBigEndianPostings.
  apply Postings_drain_bigEndian; [exact Hall|].
  cbn [Postings_size]. rewrite length_concat_PutUint32. lia.
Qed.

(** [Postings] on a section that holds the offsets [offs]. *)
Lemma indexReader_Postings_at r name value off offs :
  len (ir_b r) < 2 ^ 63 ->
  ir_postings r !! String.append name (String.append sep value) = Some off ->
  bytes_at (ir_b r) off (sized (concat (map binary.PutUint32 offs))) ->
  indexReader_Postings r name value
  = Ok (newBigEndianPostings (concat (map binary.PutUint32 offs))).
Proof.
  intros Hb Hkey Hat. unfold indexReader_Postings. rewrite Hkey.
  rewrite (indexReader_getSized_at r off _ Hb Hat).
  unfold len. rewrite length_concat_PutUint32.
  replace (Z.rem (Z.of_nat (4 * length offs)) 4) with 0; [reflexivity|].
  rewrite Nat2Z.inj_mul. change (Z.of_nat 4) with 4.
  rewrite Z.mul_comm. symmetry. apply Z.rem_mul. lia.
Qed.

(** *** The table of contents *)

Lemma slice_from_PutUint64_app n a rest :
  0 <= n -> slice_from (8 + n) (binary.PutUint64 a ++ rest) = slice_from n rest.
Proof.
  intros Hn. rewrite <- slice_from_slice_from by lia.
  rewrite slice_from_app_len by (rewrite len_PutUint64; reflexivity). reflexivity.
Qed.

Lemma len_toc_bytes toc : len (toc_bytes toc) = indexTOCLen.
Proof.
  unfold toc_bytes, encbuf_putHash, crc32.Sum, encbuf_putBE64, encbuf_get, encbuf_reset.
  cbv zeta. rewrite !len_app, !len_PutUint64, len_PutUint32. reflexivity.
Qed.

Lemma indexReader_readTOC_at x toc :
  toc_ok toc -> indexReader_readTOC (x ++ toc_bytes toc) = Ok toc.
Proof.
  intros (H1 & H2 & H3 & H4 & H5 & H6). unfold indexReader_readTOC.
  rewrite len_app, len_toc_bytes. pose proof (len_nonneg x) as Hx.
  destruct (Z.ltb_spec (len x + indexTOCLen) indexTOCLen) as [Hlt|_]; [lia|].
  rewrite slice_from_app_len by lia.
  unfold toc_bytes, encbuf_putHash, crc32.Sum, encbuf_putBE64, encbuf_get, encbuf_reset.
  cbv zeta. cbn [app]. rewrite <- !app_assoc.
  change (slice_from 8 ?l) with (slice_from (8 + 0) l).
  change 16 with (8 + (8 + 0)). change 24 with (8 + (8 + (8 + 0))).
  change 32 with (8 + (8 + (8 + (8 + 0)))).
  change 40 with (8 + (8 + (8 + (8 + (8 + 0))))).
  rewrite !slice_from_PutUint64_app by lia.
  rewrite !slice_from_0.
  rewrite !Uint64_PutUint64 by assumption.
  destruct toc; reflexivity.
Qed.

(** *** Decoding buffers *)

Lemma decbuf_readUvarint_app x rest :
  is_uint64 x ->
  decbuf_readUvarint {| d_b := binary.PutUvarint x ++ rest; d_e := None |}
  = (x, {| d_b := rest; d_e := None |}).
Proof.
  intros Hx. unfold decbuf_readUvarint. cbn [d_e d_b].
  rewrite Uvarint_PutUvarint by exact Hx.
  pose proof (len_PutUvarint x).
  destruct (Z.ltb_spec (len (binary.PutUvarint x)) 1) as [Hlt|_]; [lia|].
  rewrite slice_from_app_len by reflexivity. reflexivity.
Qed.

Lemma decbuf_readUvarintStr_app s rest :
  slen s < 2 ^ 63 ->
  decbuf_readUvarintStr {| d_b := symbol_bytes s ++ rest; d_e := None |}
  = (s, {| d_b := rest; d_e := None |}).
Proof.
  intros Hs. assert (Hs0 : 0 <= slen s) by (unfold slen; lia).
  unfold decbuf_readUvarintStr. rewrite symbol_bytes_eq, <- app_assoc.
  rewrite decbuf_readUvarint_app by apply uint64_range.
  cbn [d_e d_b].
  rewrite (uint64_small (slen s)) by (unfold is_uint64; lia).
  rewrite (int64_small (slen s)) by (unfold is_int64; lia).
  rewrite len_app, slen_bytes. pose proof (len_nonneg rest).
  destruct (Z.ltb_spec (slen s + len rest) (slen s)) as [Hlt|_]; [lia|].
  destruct (Z.ltb_spec (slen s) 0) as [Hlt|_]; [lia|].
  rewrite slice_to_app_len by (rewrite slen_bytes; reflexivity).
  rewrite slice_from_app_len by (rewrite slen_bytes; reflexivity).
  rewrite string_of_list_byte_of_string. reflexivity.
Qed.

Lemma decbuf_readBE32_app x rest :
  is_uint32 x ->
  decbuf_readBE32 {| d_b := binary.PutUint32 x ++ rest; d_e := None |}
  = (x, {| d_b := rest; d_e := None |}).
Proof.
  intros Hx. unfold decbuf_readBE32. cbn [d_e d_b].
  rewrite len_app, len_PutUint32. pose proof (len_nonneg rest).
  destruct (Z.ltb_spec (4 + len rest) 4) as [Hlt|_]; [lia|].
  rewrite Uint32_PutUint32 by exact Hx.
  rewrite slice_from_app_len by (rewrite len_PutUint32; reflexivity). reflexivity.
Qed.

Lemma decbuf_get_app x rest :
  decbuf_get {| d_b := x ++ rest; d_e := None |} (len x)
  = ({| d_b := x; d_e := None |}, {| d_b := rest; d_e := None |}).
Proof.
  unfold decbuf_get. cbn [d_e d_b].
  rewrite len_app. pose proof (len_nonneg rest). pose proof (len_nonneg x).
  destruct (Z.ltb_spec (len x + len rest) (len x)) as [Hlt|_]; [lia|].
  destruct (Z.ltb_spec (len x) 0) as [Hlt|_]; [lia|].
  rewrite slice_to_app_len by reflexivity.
  rewrite slice_from_app_len by reflexivity. reflexivity.
Qed.

(** *** Offset tables *)

Lemma fold_putUvarintStr keys :
  forall buf, fold_left encbuf_putUvarintStr keys buf
              = buf ++ concat (map symbol_bytes keys).
Proof.
  induction keys as [|k keys IH]; intros buf; cbn [fold_left map concat].
  - rewrite app_nil_r. reflexivity.
  - rewrite IH. unfold encbuf_putUvarintStr at 1, encbuf_putString, encbuf_putUvarint,
      encbuf_putUvarint64. rewrite symbol_bytes_eq, <- !app_assoc. reflexivity.
Qed.

Lemma offset_table_entry_eq buf e :
  offset_table_entry buf e
  = buf ++ binary.PutUvarint (uint64 (len (he_keys e)))
        ++ concat (map symbol_bytes (he_keys e))
        ++ binary.PutUvarint (he_offset e).
Proof.
  unfold offset_table_entry. cbv zeta. rewrite fold_putUvarintStr.
  unfold encbuf_putUvarint64, encbuf_putUvarint, encbuf_putUvarint64.
  rewrite <- !app_assoc. reflexivity.
Qed.

Lemma offset_table_body_from entries :
  forall buf, fold_left offset_table_entry entries buf
              = buf ++ concat (map (offset_table_entry []) entries).
Proof.
  induction entries as [|e entries IH]; intros buf; cbn [fold_left map concat].
  - rewrite app_nil_r. reflexivity.
  - rewrite IH, (offset_table_entry_eq buf), (offset_table_entry_eq []).
    cbn [app]. rewrite <- !app_assoc. reflexivity.
Qed.

Lemma readOffsetTable_keys_app keys :
  forall acc rest,
    len (concat (map symbol_bytes keys)) < 2 ^ 63 ->
    readOffsetTable_keys (length keys)
      {| d_b := concat (map symbol_bytes keys) ++ rest; d_e := None |} acc
    = (acc ++ keys, {| d_b := rest; d_e := None |}).
Proof.
  induction keys as [|k keys IH]; intros acc rest Hlen; cbn [length readOffsetTable_keys].
  - rewrite app_nil_r. reflexivity.
  - cbn [map concat] in *. rewrite len_app in Hlen.
    pose proof (len_nonneg (concat (map symbol_bytes keys))).
    assert (Hk : slen k < 2 ^ 63).
    { rewrite symbol_bytes_eq, len_app, slen_bytes in Hlen.
      pose proof (len_PutUvarint (uint64 (slen k))). lia. }
    rewrite <- app_assoc. rewrite decbuf_readUvarintStr_app by exact Hk.
    rewrite IH by (pose proof (len_nonneg (symbol_bytes k)); lia).
    rewrite <- app_assoc. reflexivity.
Qed.

Lemma len_offset_table_entry e : 2 <= len (offset_table_entry [] e).
Proof.
  rewrite offset_table_entry_eq. cbn [app]. rewrite !len_app.
  pose proof (len_PutUvarint (uint64 (len (he_keys e)))).
  pose proof (len_PutUvarint (he_offset e)).
  pose proof (len_nonneg (concat (map symbol_bytes (he_keys e)))). lia.
Qed.

Lemma len_symbol_bytes s : 1 <= len (symbol_bytes s).
Proof.
  rewrite symbol_bytes_eq, len_app.
  pose proof (len_PutUvarint (uint64 (slen s))).
  pose proof (len_nonneg (list_byte_of_string s)). lia.
Qed.

Lemma len_keys_le keys : len keys <= len (concat (map symbol_bytes keys)).
Proof.
  induction keys as [|k keys IH]; [reflexivity|].
  cbn [map concat]. rewrite len_cons, len_app.
  pose proof (len_symbol_bytes k). lia.
Qed.

Lemma len_entries_le entries :
  len entries <= len (concat (map (offset_table_entry []) entries)).
Proof.
  induction entries as [|e entries IH]; [reflexivity|].
  cbn [map concat]. rewrite len_cons, len_app.
  pose proof (len_offset_table_entry e). lia.
Qed.

Lemma readOffsetTable_loop_spec entries :
  forall res,
    len (concat (map (offset_table_entry []) entries)) <= MaxUint32 ->
    Forall (fun e => is_uint64 (he_offset e)) entries ->
    readOffsetTable_loop (length entries)
      {| d_b := concat (map (offset_table_entry []) entries); d_e := None |} res
    = (offset_table_map entries res, {| d_b := []; d_e := None |}).
Proof.
  induction entries as [|e entries IH]; intros res Hlen Hall; [reflexivity|].
  apply Forall_cons in Hall. destruct Hall as [He Hall].
  cbn [map concat] in *. rewrite len_app in Hlen.
  pose proof (len_offset_table_entry e) as He2.
  pose proof (len_nonneg (concat (map (offset_table_entry []) entries))) as Hr0.
  cbn [length readOffsetTable_loop]. unfold decbuf_err, decbuf_len. cbn [d_e d_b].
  rewrite len_app.
  destruct (Z.ltb_spec 0 (len (offset_table_entry [] e)
                          + len (concat (map (offset_table_entry []) entries))))
    as [_|Hge]; [|lia].
  rewrite offset_table_entry_eq in *. cbn [app] in *.
  rewrite !len_app in Hlen, He2.
  pose proof (len_keys_le (he_keys e)) as Hk.
  pose proof (len_nonneg (he_keys e)) as Hk0.
  pose proof (len_PutUvarint (uint64 (len (he_keys e)))).
  pose proof (len_PutUvarint (he_offset e)).
  unfold MaxUint32 in Hlen.
  rewrite <- !app_assoc.
  rewrite decbuf_readUvarint_app by apply uint64_range.
  rewrite (uint64_small (len (he_keys e))) by (unfold is_uint64; lia).
  rewrite (int64_small (len (he_keys e))) by (unfold is_int64; lia).
  assert (Hmk : makeslice_ok 16 (len (he_keys e)) = true).
  { unfold makeslice_ok, maxAlloc.
    rewrite (int64_small (len (he_keys e))) by (unfold is_int64; lia).
    apply andb_true_iff. split; [apply Z.leb_le; lia|apply Z.leb_le; lia]. }
  rewrite Hmk. cbn [negb].
  unfold len at 1. rewrite Nat2Z.id.
  rewrite readOffsetTable_keys_app by lia.
  rewrite decbuf_readUvarint_app by exact He.
  rewrite IH by (try assumption; unfold MaxUint32; lia).
  reflexivity.
Qed.

Lemma offset_table_bytes_eq entries :
  offset_table_bytes entries
  = binary.PutUint32 (uint32 (len entries))
    ++ binary.PutUint32 (uint32 (len (concat (map (offset_table_entry []) entries))))
    ++ concat (map (offset_table_entry []) entries)
    ++ binary.PutUint32
         (crc32.Write crc32.Reset (concat (map (offset_table_entry []) entries))).
Proof.
  unfold offset_table_bytes, offset_table_body.
  rewrite offset_table_body_from. cbn [app encbuf_reset].
  unfold encbuf_putBE32int, encbuf_putBE32, encbuf_get, encbuf_len, encbuf_reset,
    encbuf_putHash, crc32.Sum.
  cbn [app]. rewrite <- !app_assoc. reflexivity.
Qed.

(** A table that was written at [off] reads as the map of its entries. *)
Lemma indexReader_readOffsetTable_at b off entries :
  len b <= MaxUint32 -> off <> 0 ->
  bytes_at b off (offset_table_bytes entries) ->
  Forall (fun e => is_uint64 (he_offset e)) entries ->
  indexReader_readOffsetTable b off = Ok (offset_table_map entries ∅).
Proof.
  intros Hb Hoff Hat Hall. destruct (bytes_at_range _ _ _ Hat) as [Ho Hend].
  destruct (bytes_at_slice_from _ _ _ Hat) as (post & Hsl).
  rewrite offset_table_bytes_eq in *.
  set (body := concat (map (offset_table_entry []) entries)) in *.
  rewrite !len_app, !len_PutUint32 in Hend.
  pose proof (len_entries_le entries) as Hle. fold body in Hle.
  pose proof (len_nonneg entries) as He0. pose proof (len_nonneg body) as Hb0.
  unfold MaxUint32 in Hb.
  unfold indexReader_readOffsetTable.
  destruct (Z.eqb_spec off 0) as [Heq|_]; [contradiction|].
  rewrite (int64_small off) by (unfold is_int64; lia).
  unfold indexReader_decbufAt.
  destruct (Z.ltb_spec (len b) off) as [Hlt|_]; [lia|].
  destruct (Z.ltb_spec off 0) as [Hlt|_]; [lia|].
  rewrite Hsl, <- !app_assoc.
  rewrite decbuf_readBE32_app by apply uint32_range.
  rewrite decbuf_readBE32_app by apply uint32_range.
  rewrite (uint32_small (len body)) by (unfold is_uint32; lia).
  rewrite decbuf_get_app.
  rewrite (uint32_small (len entries)) by (unfold is_uint32; lia).
  unfold len at 1. rewrite Nat2Z.id.
  unfold body. rewrite readOffsetTable_loop_spec;
    [reflexivity|fold body; unfold MaxUint32; lia|exact Hall].
Qed.

Lemma offset_table_map_lookup entries :
  forall res e,
    NoDup (map entry_key entries) -> e ∈ entries ->
    offset_table_map entries res !! entry_key e = Some (uint32 (he_offset e)).
Proof.
  induction entries as [|x entries IH]; intros res e Hnd Hin.
  - apply elem_of_nil in Hin. contradiction.
  - cbn [map] in Hnd. apply NoDup_cons in Hnd. destruct Hnd as [Hnin Hnd].
    unfold offset_table_map. cbn [fold_left]. fold (offset_table_map entries).
    apply elem_of_cons in Hin. destruct Hin as [->|Hin].
    + clear IH. revert res. induction entries as [|y entries IH2]; intros res.
      * cbn. apply lookup_insert_eq.
      * unfold offset_table_map. cbn [fold_left]. fold (offset_table_map entries).
        cbn [map] in Hnin, Hnd. apply not_elem_of_cons in Hnin. destruct Hnin as [Hne Hnin].
        apply NoDup_cons in Hnd. destruct Hnd as [_ Hnd].
        rewrite insert_insert_ne by congruence.
        apply IH2; assumption.
    + apply IH; assumption.
Qed.

(** *** Series records *)

Lemma indexWriter_seriesBody_eq w s :
  indexWriter_seriesBody w s
  = binary.PutUvarint (uint64 (len (iws_labels s)))
    ++ concat (map (label_bytes w) (iws_labels s))
    ++ binary.PutUvarint (uint64 (len (iws_chunks s)))
    ++ concat (map chunk_bytes (iws_chunks s)).
Proof.
  unfold indexWriter_seriesBody. cbv zeta.
  rewrite (fold_left_ext_eq _ (fun buf c => buf ++ chunk_bytes c)).
  2:{ intros a c. unfold chunk_bytes, encbuf_putBytes, encbuf_putUvarint64,
        encbuf_putVarint64, encbuf_get, encbuf_reset. cbn [app].
      rewrite <- !app_assoc. reflexivity. }
  rewrite fold_left_app_map.
  rewrite (fold_left_ext_eq _ (fun buf l => buf ++ label_bytes w l)).
  2:{ intros a l. unfold label_bytes, encbuf_putUvarint32, encbuf_putUvarint64,
        encbuf_get, encbuf_reset. cbn [app]. rewrite <- !app_assoc. reflexivity. }
  rewrite fold_left_app_map.
  unfold encbuf_putUvarint, encbuf_putUvarint64, encbuf_reset. cbn [app].
  rewrite <- !app_assoc. reflexivity.
Qed.

Lemma label_bytes_eq w l :
  label_bytes w l = binary.PutUvarint (uint64 (iw_symbol w (lbl_Name l)))
                    ++ binary.PutUvarint (uint64 (iw_symbol w (lbl_Value l))).
Proof. reflexivity. Qed.

Lemma chunk_bytes_eq c :
  chunk_bytes c = binary.PutVarint (chk_MinTime c) ++ binary.PutVarint (chk_MaxTime c)
                  ++ binary.PutUvarint (chk_Ref c)
                  ++ binary.PutUint32 (ChunkMeta_hash c crc32.Reset).
Proof.
  unfold chunk_bytes, encbuf_putBytes, encbuf_putUvarint64, encbuf_putVarint64,
    encbuf_get, encbuf_reset, crc32.Sum. cbn [app]. rewrite <- !app_assoc. reflexivity.
Qed.

Lemma indexReader_Series_label_app r w l rest :
  len (ir_b r) <= MaxUint32 ->
  symbol_at w (ir_b r) (lbl_Name l) -> symbol_at w (ir_b r) (lbl_Value l) ->
  indexReader_Series_label r (label_bytes w l ++ rest) = Ok (l, rest).
Proof.
  intros Hb [Hn Hnat] [Hv Hvat]. unfold MaxUint32 in Hb.
  unfold indexReader_Series_label. rewrite label_bytes_eq, <- !app_assoc.
  unfold is_uint32 in Hn, Hv.
  rewrite (uint64_small (iw_symbol w (lbl_Name l))) by (unfold is_uint64; lia).
  rewrite (uint64_small (iw_symbol w (lbl_Value l))) by (unfold is_uint64; lia).
  rewrite Uvarint_PutUvarint by (unfold is_uint64; lia).
  pose proof (len_PutUvarint (iw_symbol w (lbl_Name l))).
  destruct (Z.ltb_spec (len (binary.PutUvarint (iw_symbol w (lbl_Name l)))) 1) as [Hlt|_];
    [lia|].
  rewrite uint32_small by exact Hn.
  unfold indexReader_lookupSymbol.
  rewrite (lookupSymbol_at _ _ (lbl_Name l)) by (try exact Hnat; lia).
  rewrite slice_from_app_len by reflexivity.
  rewrite Uvarint_PutUvarint by (unfold is_uint64; lia).
  pose proof (len_PutUvarint (iw_symbol w (lbl_Value l))).
  destruct (Z.ltb_spec (len (binary.PutUvarint (iw_symbol w (lbl_Value l)))) 1) as [Hlt|_];
    [lia|].
  rewrite uint32_small by exact Hv.
  rewrite (lookupSymbol_at _ _ (lbl_Value l)) by (try exact Hvat; lia).
  rewrite slice_from_app_len by reflexivity.
  destruct l; reflexivity.
Qed.

Lemma indexReader_Series_labels_app r w labels :
  forall acc rest,
    len (ir_b r) <= MaxUint32 ->
    Forall (fun l => symbol_at w (ir_b r) (lbl_Name l)
                     /\ symbol_at w (ir_b r) (lbl_Value l)) labels ->
    indexReader_Series_labels r (length labels)
      (concat (map (label_bytes w) labels) ++ rest) acc
    = Ok (acc ++ labels, rest).
Proof.
  induction labels as [|l labels IH]; intros acc rest Hb Hall;
    cbn [length indexReader_Series_labels map concat].
  - rewrite app_nil_r. reflexivity.
  - apply Forall_cons in Hall. destruct Hall as [[Hn Hv] Hall].
    rewrite <- app_assoc.
    rewrite (indexReader_Series_label_app r w l _ Hb Hn Hv).
    rewrite IH by assumption. rewrite <- app_assoc. reflexivity.
Qed.

Lemma indexReader_Series_chunk_app c rest :
  ChunkMeta_wf c ->
  indexReader_Series_chunk (chunk_bytes c ++ rest) = Ok (ChunkMeta_read c, rest).
Proof.
  intros (Hmin & Hmax & Href). unfold indexReader_Series_chunk.
  rewrite chunk_bytes_eq, <- !app_assoc.
  rewrite Varint_PutVarint by exact Hmin.
  pose proof (len_PutVarint (chk_MinTime c)).
  destruct (Z.ltb_spec (len (binary.PutVarint (chk_MinTime c))) 1) as [Hlt|_]; [lia|].
  rewrite slice_from_app_len by reflexivity.
  rewrite Varint_PutVarint by exact Hmax.
  pose proof (len_PutVarint (chk_MaxTime c)).
  destruct (Z.ltb_spec (len (binary.PutVarint (chk_MaxTime c))) 1) as [Hlt|_]; [lia|].
  rewrite slice_from_app_len by reflexivity.
  rewrite Uvarint_PutUvarint by exact Href.
  pose proof (len_PutUvarint (chk_Ref c)).
  destruct (Z.ltb_spec (len (binary.PutUvarint (chk_Ref c))) 1) as [Hlt|_]; [lia|].
  rewrite slice_from_app_len by reflexivity.
  rewrite len_app, len_PutUint32. pose proof (len_nonneg rest).
  destruct (Z.ltb_spec (4 + len rest) 4) as [Hlt|_]; [lia|].
  rewrite slice_from_app_len by (rewrite len_PutUint32; reflexivity).
  reflexivity.
Qed.

Lemma indexReader_Series_chunks_app chunks :
  forall acc rest,
    Forall ChunkMeta_wf chunks ->
    indexReader_Series_chunks (length chunks) (concat (map chunk_bytes chunks) ++ rest) acc
    = Ok (acc ++ map ChunkMeta_read chunks).
Proof.
  induction chunks as [|c chunks IH]; intros acc rest Hall;
    cbn [length indexReader_Series_chunks map concat].
  - rewrite app_nil_r. reflexivity.
  - apply Forall_cons in Hall. destruct Hall as [Hc Hall].
    rewrite <- app_assoc. rewrite (indexReader_Series_chunk_app c _ Hc).
    rewrite IH by exact Hall. rewrite <- app_assoc. reflexivity.
Qed.

Lemma len_labels_le w labels : len labels <= len (concat (map (label_bytes w) labels)).
Proof.
  induction labels as [|l labels IH]; [reflexivity|].
  cbn [map concat]. rewrite len_cons, len_app, label_bytes_eq, len_app.
  pose proof (len_PutUvarint (uint64 (iw_symbol w (lbl_Name l)))).
  pose proof (len_PutUvarint (uint64 (iw_symbol w (lbl_Value l)))). lia.
Qed.

Lemma len_chunks_le chunks : len chunks <= len (concat (map chunk_bytes chunks)).
Proof.
  induction chunks as [|c chunks IH]; [reflexivity|].
  cbn [map concat]. rewrite len_cons, len_app, chunk_bytes_eq, !len_app, len_PutUint32.
  pose proof (len_PutVarint (chk_MinTime c)). pose proof (len_PutVarint (chk_MaxTime c)).
  pose proof (len_PutUvarint (chk_Ref c)). lia.
Qed.

(** [Series] at the offset of a record gives the labels and the chunks of
    the series. *)
Lemma indexReader_Series_at r w s off :
  len (ir_b r) <= MaxUint32 ->
  bytes_at (ir_b r) off (sized (indexWriter_seriesBody w s)) ->
  Forall (fun l => symbol_at w (ir_b r) (lbl_Name l)
                   /\ symbol_at w (ir_b r) (lbl_Value l)) (iws_labels s) ->
  Forall ChunkMeta_wf (iws_chunks s) ->
  indexReader_Series r off = Ok (iws_labels s, map ChunkMeta_read (iws_chunks s)).
Proof.
  intros Hb Hat Hsym Hchunks. destruct (bytes_at_range _ _ _ Hat) as [Ho Hend].
  destruct (bytes_at_slice_from _ _ _ Hat) as (post & Hsl).
  rewrite sized_eq in *. rewrite indexWriter_seriesBody_eq in *.
  set (lb := concat (map (label_bytes w) (iws_labels s))) in *.
  set (cb := concat (map chunk_bytes (iws_chunks s))) in *.
  set (nl := len (iws_labels s)) in *. set (nc := len (iws_chunks s)) in *.
  set (body := binary.PutUvarint (uint64 nl) ++ lb ++ binary.PutUvarint (uint64 nc) ++ cb)
    in *.
  rewrite !len_app, len_PutUint32 in Hend.
  assert (Hbody : len body = len (binary.PutUvarint (uint64 nl)) + len lb
                             + len (binary.PutUvarint (uint64 nc)) + len cb).
  { unfold body. rewrite !len_app. lia. }
  pose proof (len_labels_le w (iws_labels s)) as Hnl. fold lb nl in Hnl.
  pose proof (len_chunks_le (iws_chunks s)) as Hnc. fold cb nc in Hnc.
  pose proof (len_nonneg (iws_labels s)) as Hnl0. fold nl in Hnl0.
  pose proof (len_nonneg (iws_chunks s)) as Hnc0. fold nc in Hnc0.
  pose proof (len_PutUvarint (uint64 nl)). pose proof (len_PutUvarint (uint64 nc)).
  pose proof (len_PutUvarint (uint64 (len body))) as Hn0.
  pose proof (len_nonneg body) as Hbody0.
  unfold MaxUint32 in Hb.
  unfold indexReader_Series.
  destruct (Z.ltb_spec (len (ir_b r)) off) as [Hlt|_]; [lia|].
  rewrite Hsl, <- !app_assoc.
  rewrite Uvarint_PutUvarint by apply uint64_range.
  set (n0 := len (binary.PutUvarint (uint64 (len body)))) in *.
  destruct (Z.ltb_spec (off + n0) 0) as [Hlt|_]; [lia|].
  destruct (Z.ltb_spec (len (ir_b r)) (off + n0)) as [Hlt|_]; [lia|].
  cbn [orb].
  rewrite <- (slice_from_slice_from off n0) by lia.
  rewrite Hsl, <- !app_assoc.
  rewrite slice_from_app_len by reflexivity.
  unfold body. rewrite <- !app_assoc.
  rewrite Uvarint_PutUvarint by apply uint64_range.
  destruct (Z.ltb_spec (len (binary.PutUvarint (uint64 nl))) 1) as [Hlt|_]; [lia|].
  rewrite slice_from_app_len by reflexivity.
  rewrite (uint64_small nl) by (unfold is_uint64; lia).
  assert (Hmk : makeslice_ok 32 nl = true).
  { unfold makeslice_ok, maxAlloc.
    rewrite (int64_small nl) by (unfold is_int64; lia).
    apply andb_true_iff. split; apply Z.leb_le; lia. }
  rewrite Hmk. cbn [negb].
  rewrite (int64_small nl) by (unfold is_int64; lia).
  rewrite (int64_small (2 * nl)) by (unfold is_int64; lia).
  replace (Z.to_nat (Z.quot (2 * nl + 1) 2)) with (length (iws_labels s)).
  2:{ rewrite Z.quot_div_nonneg by lia.
      replace ((2 * nl + 1) / 2) with nl
        by (apply Z.div_unique with 1; lia).
      unfold nl, len. rewrite Nat2Z.id. reflexivity. }
  unfold lb.
  rewrite (indexReader_Series_labels_app r w (iws_labels s) [] _) by (try assumption; exact Hb).
  cbn [app].
  rewrite Uvarint_PutUvarint by apply uint64_range.
  destruct (Z.ltb_spec (len (binary.PutUvarint (uint64 nc))) 1) as [Hlt|_]; [lia|].
  rewrite slice_from_app_len by reflexivity.
  rewrite (uint64_small nc) by (unfold is_uint64; lia).
  assert (Hmk2 : makeslice_ok 8 nc = true).
  { unfold makeslice_ok, maxAlloc.
    rewrite (int64_small nc) by (unfold is_int64; lia).
    apply andb_true_iff. split; apply Z.leb_le; lia. }
  rewrite Hmk2. cbn [negb].
  rewrite (int64_small nc) by (unfold is_int64; lia).
  unfold nc, len at 1. rewrite Nat2Z.id.
  unfold cb. rewrite (indexReader_Series_chunks_app (iws_chunks s) [] _ Hchunks).
  reflexivity.
Qed.


(** ** The index file, as the writer lays it out *)

(** *** [write] *)

Lemma indexWriter_write_ok bufs :
  forall w w',
    indexWriter_write w bufs = (w', None) ->
    w' = iw_set_out w (iw_fbuf w ++ concat bufs) (iw_pos w + len (concat bufs))
    /\ (bufs <> [] -> iw_pos w' <= MaxUint32).
Proof.
  induction bufs as [|b bufs IH]; intros w w' H.
  - cbn in H. injection H as <-. cbn [concat]. rewrite app_nil_r, len_nil, Z.add_0_r.
    split; [symmetry; apply iw_set_out_id|]. intros Hne. contradiction.
  - rewrite indexWriter_write_cons in H. cbv zeta in H.
    destruct (Z.ltb_spec MaxUint32 (iw_pos (iw_set_out w (iw_fbuf w ++ b) (iw_pos w + len b))))
      as [Hlt|Hle]; [discriminate|].
    destruct (IH _ _ H) as [Hw Hpos]. split.
    + rewrite Hw. cbn [iw_set_out iw_fbuf iw_pos concat].
      rewrite len_app, <- app_assoc, Z.add_assoc. reflexivity.
    + intros _. destruct bufs as [|b2 bufs].
      * cbn in H. injection H as <-. exact Hle.
      * apply Hpos. discriminate.
Qed.

Lemma iw_inv_write w w' bufs :
  iw_inv w -> indexWriter_write w bufs = (w', None) -> iw_inv w'.
Proof.
  intros [Hp Hm] H. destruct (indexWriter_write_ok bufs w w' H) as [Hw Hpos].
  split.
  - rewrite Hw. cbn [iw_set_out iw_pos iw_fbuf]. rewrite len_app. lia.
  - destruct bufs as [|b bufs]; [|apply Hpos; discriminate].
    cbn in H. injection H as <-. exact Hm.
Qed.

Lemma iw_extends_refl w : iw_extends w w.
Proof. exists []. rewrite app_nil_r. reflexivity. Qed.

Lemma iw_extends_trans w1 w2 w3 : iw_extends w1 w2 -> iw_extends w2 w3 -> iw_extends w1 w3.
Proof.
  intros [y1 H1] [y2 H2]. exists (y1 ++ y2). rewrite H2, H1, <- app_assoc. reflexivity.
Qed.

Lemma bytes_at_extends w w' off x :
  iw_extends w w' -> bytes_at (iw_fbuf w) off x -> bytes_at (iw_fbuf w') off x.
Proof. intros [y ->] H. apply bytes_at_app. exact H. Qed.

Lemma errors_Wrap_opt_None err msg : errors_Wrap_opt err msg = None -> err = None.
Proof. destruct err; [discriminate|reflexivity]. Qed.

(** *** The symbol table *)

Lemma encbuf_putUvarintStr_eq buf s : encbuf_putUvarintStr buf s = buf ++ symbol_bytes s.
Proof.
  unfold encbuf_putUvarintStr, encbuf_putString, encbuf_putUvarint, encbuf_putUvarint64.
  rewrite symbol_bytes_eq, <- app_assoc. reflexivity.
Qed.

Lemma writeSymbols_fold pos (todo : list string) :
  forall (m : gmap string Z) (buf2 : encbuf),
    NoDup todo ->
    exists m',
      fold_left
        (fun '(m, buf2) s =>
           (<[s := uint32 (uint32 pos + 8 + uint32 (encbuf_len buf2))]> m,
            encbuf_putUvarintStr buf2 s))
        todo (m, buf2)
      = (m', buf2 ++ concat (map symbol_bytes todo))
      /\ (forall s, s ∉ todo -> m' !! s = m !! s)
      /\ (forall s, s ∈ todo ->
            exists pre post,
              concat (map symbol_bytes todo) = pre ++ symbol_bytes s ++ post
              /\ m' !! s = Some (uint32 (uint32 pos + 8 + uint32 (len (buf2 ++ pre))))).
Proof.
  induction todo as [|x todo IH]; intros m buf2 Hnd.
  - exists m. cbn. rewrite app_nil_r. split; [reflexivity|]. split; [reflexivity|].
    intros s Hs. apply elem_of_nil in Hs. contradiction.
  - apply NoDup_cons in Hnd. destruct Hnd as [Hx Hnd].
    cbn [fold_left map concat]. rewrite encbuf_putUvarintStr_eq.
    destruct (IH (<[x := uint32 (uint32 pos + 8 + uint32 (encbuf_len buf2))]> m)
                (buf2 ++ symbol_bytes x) Hnd) as (m' & Hfold & Hout & Hin).
    exists m'. split; [|split].
    + rewrite Hfold, <- app_assoc. reflexivity.
    + intros s Hs. apply not_elem_of_cons in Hs. destruct Hs as [Hne Hs].
      rewrite (Hout s Hs). apply lookup_insert_ne. congruence.
    + intros s Hs. apply elem_of_cons in Hs. destruct Hs as [->|Hs].
      * exists [], (concat (map symbol_bytes todo)). split; [reflexivity|].
        rewrite (Hout x Hx), lookup_insert_eq, app_nil_r. reflexivity.
      * destruct (Hin s Hs) as (pre & post & Hc & Hm).
        exists (symbol_bytes x ++ pre), post. split.
        -- rewrite Hc, <- app_assoc. reflexivity.
        -- rewrite Hm, <- app_assoc. reflexivity.
Qed.

Lemma indexWriter_writeSymbols_spec w w' :
  iw_inv w -> indexWriter_writeSymbols w = (w', None) ->
  iw_inv w' /\ iw_extends w w'
  /\ iw_series w' = iw_series w /\ iw_toc w' = iw_toc w /\ iw_stage w' = iw_stage w
  /\ iw_labelIndexes w' = iw_labelIndexes w /\ iw_postings w' = iw_postings w
  /\ (forall s, is_Some (iw_symbols w !! s) -> symbol_at w' (iw_fbuf w') s).
Proof.
  intros [Hp Hm] H. unfold indexWriter_writeSymbols in H. cbv zeta in H.
  set (symbols := sort_Strings (elements (dom (iw_symbols w)))) in *.
  assert (Hnd : NoDup symbols).
  { unfold symbols. rewrite sort_Strings_perm. apply NoDup_elements. }
  destruct (writeSymbols_fold (iw_pos w) symbols (iw_symbols w) (encbuf_reset []) Hnd)
    as (m' & Hfold & Hout & Hin).
  rewrite Hfold in H. cbn [encbuf_reset app] in H.
  set (buf2 := concat (map symbol_bytes symbols)) in *.
  destruct (indexWriter_write _ _) as [w1 err] eqn:Hw in H.
  injection H as -> Herr. apply errors_Wrap_opt_None in Herr. subst err.
  destruct (indexWriter_write_ok _ _ _ Hw) as [Hw' Hpos].
  specialize (Hpos ltac:(discriminate)).
  assert (Hout' : iw_fbuf w'
                  = iw_fbuf w
                    ++ (binary.PutUint32 (uint32 (len symbols))
                        ++ binary.PutUint32 (uint32 (len buf2)))
                    ++ buf2 ++ binary.PutUint32 (crc32.Write crc32.Reset buf2)).
  { rewrite Hw'. cbn [iw_set_out iw_fbuf iw_set_symbols concat].
    unfold encbuf_putBE32int, encbuf_putBE32, encbuf_get, encbuf_reset, encbuf_putHash,
      crc32.Sum, encbuf_len. cbn [app]. rewrite app_nil_r, <- !app_assoc. reflexivity. }
  assert (Hpos' : iw_pos w' = iw_pos w + 8 + len buf2 + 4).
  { rewrite Hw'. cbn [iw_set_out iw_pos iw_set_symbols concat].
    unfold encbuf_putBE32int, encbuf_putBE32, encbuf_get, encbuf_reset, encbuf_putHash,
      crc32.Sum, encbuf_len. cbn [app].
    rewrite app_nil_r, !len_app, !len_PutUint32. lia. }
  split; [|split; [|split; [|split; [|split; [|split; [|split]]]]]];
    try (rewrite Hw'; reflexivity).
  - eapply iw_inv_write; [|exact Hw]. split; assumption.
  - eexists. exact Hout'.
  - intros s Hs.
    assert (Hs' : s ∈ symbols).
    { unfold symbols. rewrite sort_Strings_perm. apply elem_of_elements, elem_of_dom. exact Hs. }
    destruct (Hin s Hs') as (pre & post & Hc & Hms).
    fold buf2 in Hc. change (encbuf_reset [] ++ pre) with pre in Hms.
    pose proof (len_nonneg pre) as Hpre0. pose proof (len_nonneg post) as Hpost0.
    pose proof (len_nonneg (symbol_bytes s)) as Hs0.
    pose proof (len_nonneg (iw_fbuf w)) as Hf0.
    assert (Hb2 : len buf2 = len pre + len (symbol_bytes s) + len post).
    { rewrite Hc, !len_app. lia. }
    unfold MaxUint32 in *.
    assert (Hv : uint32 (uint32 (iw_pos w) + 8 + uint32 (len pre)) = iw_pos w + 8 + len pre).
    { rewrite (uint32_small (iw_pos w)) by (unfold is_uint32; lia).
      rewrite (uint32_small (len pre)) by (unfold is_uint32; lia).
      apply uint32_small. unfold is_uint32. lia. }
    rewrite Hv in Hms.
    assert (Hsym : iw_symbol w' s = iw_pos w + 8 + len pre).
    { unfold iw_symbol. rewrite Hw'. cbn [iw_set_out iw_symbols iw_set_symbols].
      rewrite Hms. reflexivity. }
    split.
    + rewrite Hsym. unfold is_uint32. lia.
    + rewrite Hsym, Hout'.
      exists (iw_fbuf w ++ (binary.PutUint32 (uint32 (len symbols))
                            ++ binary.PutUint32 (uint32 (len buf2))) ++ pre),
        (post ++ binary.PutUint32 (crc32.Write crc32.Reset buf2)).
      split; [|rewrite !len_app, !len_PutUint32; lia].
      rewrite <- !app_assoc. do 3 f_equal.
      replace (pre ++ symbol_bytes s ++ post
               ++ binary.PutUint32 (crc32.Write crc32.Reset buf2))
        with ((pre ++ symbol_bytes s ++ post)
              ++ binary.PutUint32 (crc32.Write crc32.Reset buf2))
        by (rewrite <- !app_assoc; reflexivity).
      rewrite <- Hc. reflexivity.
Qed.

(** *** The series *)

Lemma label_bytes_symbols w w' l :
  iw_symbols w' = iw_symbols w -> label_bytes w' l = label_bytes w l.
Proof. intros H. unfold label_bytes, iw_symbol. rewrite H. reflexivity. Qed.

Lemma indexWriter_seriesBody_symbols w w' s s' :
  iw_symbols w' = iw_symbols w ->
  iws_labels s' = iws_labels s -> iws_chunks s' = iws_chunks s ->
  indexWriter_seriesBody w' s' = indexWriter_seriesBody w s.
Proof.
  intros Hs Hl Hc. rewrite !indexWriter_seriesBody_eq, Hl, Hc.
  f_equal. f_equal. f_equal. apply map_ext. intros l. apply label_bytes_symbols. exact Hs.
Qed.

Lemma symbol_at_symbols w w' b s :
  iw_symbols w' = iw_symbols w -> symbol_at w b s -> symbol_at w' b s.
Proof. intros H. unfold symbol_at, iw_symbol. rewrite H. auto. Qed.

Lemma len_sized x : len (sized x) = len (binary.PutUvarint (uint64 (len x))) + len x + 4.
Proof. rewrite sized_eq, !len_app, len_PutUint32. lia. Qed.

Lemma indexWriter_writeSeries_one_spec w w' ref s :
  iw_inv w -> indexWriter_writeSeries_one w (ref, s) = (w', None) ->
  iw_inv w'
  /\ iw_fbuf w' = iw_fbuf w ++ sized (indexWriter_seriesBody w s)
  /\ iw_pos w < iw_pos w'
  /\ iw_symbols w' = iw_symbols w /\ iw_toc w' = iw_toc w /\ iw_stage w' = iw_stage w
  /\ iw_labelIndexes w' = iw_labelIndexes w /\ iw_postings w' = iw_postings w
  /\ iw_series w'
     = <[ref := {| iws_labels := iws_labels s; iws_chunks := iws_chunks s;
                   iws_offset := iw_pos w |}]> (iw_series w).
Proof.
  intros [Hp Hm] H. unfold indexWriter_writeSeries_one in H. cbv zeta in H.
  destruct (indexWriter_write _ _) as [w1 err] eqn:Hw in H.
  injection H as -> Herr. apply errors_Wrap_opt_None in Herr. subst err.
  destruct (indexWriter_write_ok _ _ _ Hw) as [Hw' Hpos].
  pose proof (len_nonneg (iw_fbuf w)) as Hf0.
  assert (Hu : uint32 (iw_pos w) = iw_pos w)
    by (apply uint32_small; unfold is_uint32, MaxUint32 in *; lia).
  rewrite Hu in *.
  assert (Hout : iw_fbuf w' = iw_fbuf w ++ sized (indexWriter_seriesBody w s)).
  { rewrite Hw'. cbn [iw_set_out iw_fbuf iw_set_series concat].
    rewrite app_nil_r. reflexivity. }
  assert (Hinv' : iw_inv w').
  { eapply iw_inv_write; [|exact Hw]. split; assumption. }
  split; [exact Hinv'|split; [exact Hout|split]].
  - destruct Hinv' as [Hp' _]. rewrite Hp', Hout, len_app, len_sized, Hp.
    pose proof (len_PutUvarint (uint64 (len (indexWriter_seriesBody w s)))).
    pose proof (len_nonneg (indexWriter_seriesBody w s)). lia.
  - rewrite Hw'. cbn. repeat split; reflexivity.
Qed.

Lemma indexWriter_writeSeries_loop_spec series :
  forall w w',
    iw_inv w -> NoDup (map fst series) ->
    indexWriter_writeSeries_loop w series = (w', None) ->
    iw_inv w' /\ iw_extends w w' /\ iw_pos w <= iw_pos w'
    /\ iw_symbols w' = iw_symbols w /\ iw_toc w' = iw_toc w /\ iw_stage w' = iw_stage w
    /\ iw_labelIndexes w' = iw_labelIndexes w /\ iw_postings w' = iw_postings w
    /\ (forall ref, ref ∉ map fst series -> iw_series w' !! ref = iw_series w !! ref)
    /\ (forall ref s, (ref, s) ∈ series ->
          exists o,
            iw_series w' !! ref
            = Some {| iws_labels := iws_labels s; iws_chunks := iws_chunks s;
                      iws_offset := o |}
            /\ iw_pos w <= o < iw_pos w'
            /\ bytes_at (iw_fbuf w') o (sized (indexWriter_seriesBody w s)))
    /\ (forall ref1 ref2 s1 s2,
          ref1 ∈ map fst series -> ref2 ∈ map fst series ->
          iw_series w' !! ref1 = Some s1 -> iw_series w' !! ref2 = Some s2 ->
          iws_offset s1 = iws_offset s2 -> ref1 = ref2).
Proof.
  induction series as [|[r s] series IH]; intros w w' Hinv Hnd H.
  - cbn in H. injection H as <-.
    split; [exact Hinv|]. split; [apply iw_extends_refl|]. split; [lia|].
    repeat (split; [reflexivity|]).
    split; [intros ref s Hin; apply elem_of_nil in Hin; contradiction|].
    intros ref1 ref2 s1 s2 Hin. apply elem_of_nil in Hin. contradiction.
  - cbn [indexWriter_writeSeries_loop] in H.
    destruct (indexWriter_writeSeries_one w (r, s)) as [w1 [e|]] eqn:H1; [discriminate|].
    destruct (indexWriter_writeSeries_one_spec w w1 r s Hinv H1)
      as (Hinv1 & Hout1 & Hpos1 & Hsym1 & Htoc1 & Hst1 & Hli1 & Hpo1 & Hser1).
    cbn [map fst] in Hnd. apply NoDup_cons in Hnd. destruct Hnd as [Hr Hnd].
    destruct (IH w1 w' Hinv1 Hnd H)
      as (Hinv' & Hext & Hpos & Hsym & Htoc & Hst & Hli & Hpo & Hother & Hin & Hinj).
    assert (Hrw' : iw_series w' !! r
                   = Some {| iws_labels := iws_labels s; iws_chunks := iws_chunks s;
                             iws_offset := iw_pos w |}).
    { rewrite (Hother r Hr), Hser1. apply lookup_insert_eq. }
    split; [exact Hinv'|].
    split; [eapply iw_extends_trans; [|exact Hext]; eexists; exact Hout1|].
    split; [lia|].
    split; [congruence|]. split; [congruence|]. split; [congruence|].
    split; [congruence|]. split; [congruence|].
    split; [|split].
    + intros ref Hn. cbn [map fst] in Hn. apply not_elem_of_cons in Hn.
      destruct Hn as [Hne Hn]. rewrite (Hother ref Hn), Hser1.
      apply lookup_insert_ne. congruence.
    + intros ref s0 Hs0. apply elem_of_cons in Hs0. destruct Hs0 as [Heq|Hs0].
      * injection Heq as -> ->. exists (iw_pos w). split; [exact Hrw'|]. split; [lia|].
        eapply bytes_at_extends; [exact Hext|]. rewrite Hout1.
        destruct Hinv as [Hp _]. rewrite Hp. apply bytes_at_end.
      * destruct (Hin ref s0 Hs0) as (o & Hl & Ho & Hb).
        exists o. split; [exact Hl|]. split; [lia|].
        rewrite <- (indexWriter_seriesBody_symbols w w1 s0 s0 Hsym1 eq_refl eq_refl).
        exact Hb.
    + assert (Hrest : forall ref s0, ref ∈ map fst series ->
                                     iw_series w' !! ref = Some s0 -> iw_pos w1 <= iws_offset s0).
      { intros ref s0 Hm Hl. apply list_elem_of_fmap in Hm.
        destruct Hm as ([ref' s'] & -> & Hm). cbn [fst] in Hl.
        destruct (Hin ref' s' Hm) as (o & Hl' & Ho & _).
        rewrite Hl' in Hl. injection Hl as <-. cbn. lia. }
      intros ref1 ref2 s1 s2 Hm1 Hm2 Hl1 Hl2 Heq.
      cbn [map fst] in Hm1, Hm2.
      apply elem_of_cons in Hm1. apply elem_of_cons in Hm2.
      destruct Hm1 as [->|Hm1], Hm2 as [->|Hm2].
      * reflexivity.
      * rewrite Hrw' in Hl1. injection Hl1 as <-. cbn in Heq.
        pose proof (Hrest ref2 s2 Hm2 Hl2). lia.
      * rewrite Hrw' in Hl2. injection Hl2 as <-. cbn in Heq.
        pose proof (Hrest ref1 s1 Hm1 Hl1). lia.
      * eapply Hinj; eassumption.
Qed.

Section Layout.
Variable rangeSeries : gmap Z indexWriterSeries -> list (Z * indexWriterSeries).
Hypothesis rangeSeries_perm : forall m, rangeSeries m ≡ₚ map_to_list m.

Lemma sorted_series_perm (m : gmap Z indexWriterSeries) :
  sort_Sort (@length _) indexWriterSeriesSlice_Less indexWriterSeriesSlice_Swap (rangeSeries m)
  ≡ₚ map_to_list m.
Proof.
  unfold indexWriterSeriesSlice_Swap.
  rewrite (sort_Sort_perm (0, {| iws_labels := []; iws_chunks := []; iws_offset := 0 |})
             indexWriterSeriesSlice_Less).
  apply rangeSeries_perm.
Qed.

Lemma indexWriter_writeSeries_spec w w' :
  iw_inv w -> indexWriter_writeSeries rangeSeries w = (w', None) ->
  iw_inv w' /\ iw_extends w w'
  /\ iw_symbols w' = iw_symbols w /\ iw_toc w' = iw_toc w /\ iw_stage w' = iw_stage w
  /\ iw_labelIndexes w' = iw_labelIndexes w /\ iw_postings w' = iw_postings w
  /\ (forall ref, iw_series w !! ref = None -> iw_series w' !! ref = None)
  /\ (forall ref s, iw_series w !! ref = Some s ->
        exists o,
          iw_series w' !! ref
          = Some {| iws_labels := iws_labels s; iws_chunks := iws_chunks s;
                    iws_offset := o |}
          /\ is_uint32 o
          /\ bytes_at (iw_fbuf w') o (sized (indexWriter_seriesBody w s)))
  /\ (forall ref1 ref2 s1 s2,
        iw_series w' !! ref1 = Some s1 -> iw_series w' !! ref2 = Some s2 ->
        iws_offset s1 = iws_offset s2 -> ref1 = ref2).
Proof.
  intros Hinv H. unfold indexWriter_writeSeries in H. cbv zeta in H.
  set (series := sort_Sort _ _ _ _) in *.
  assert (Hperm : series ≡ₚ map_to_list (iw_series w)) by apply sorted_series_perm.
  destruct (indexWriter_write w _) as [w0 [e|]] eqn:Hw; [discriminate|].
  destruct (indexWriter_write_ok _ _ _ Hw) as [Hw0 _].
  pose proof (iw_inv_write _ _ _ Hinv Hw) as Hinv0.
  assert (Hnd : NoDup (map fst series)).
  { rewrite Hperm. apply NoDup_fst_map_to_list. }
  assert (Hmem : forall ref s, (ref, s) ∈ series <-> iw_series w !! ref = Some s).
  { intros ref s. rewrite Hperm. apply elem_of_map_to_list. }
  assert (Hnone : forall ref, ref ∉ map fst series <-> iw_series w !! ref = None).
  { intros ref. split.
    - intros Hn. destruct (iw_series w !! ref) as [s|] eqn:E; [|reflexivity].
      exfalso. apply Hn. apply list_elem_of_fmap. exists (ref, s).
      split; [reflexivity|]. apply Hmem. exact E.
    - intros E Hin. apply list_elem_of_fmap in Hin. destruct Hin as ([r s] & -> & Hin).
      apply Hmem in Hin. cbn [fst] in E. congruence. }
  destruct (indexWriter_writeSeries_loop_spec series w0 w' Hinv0 Hnd H)
    as (Hinv' & Hext & Hpos & Hsym & Htoc & Hst & Hli & Hpo & Hother & Hin & Hinj).
  assert (Hser0 : iw_series w0 = iw_series w) by (rewrite Hw0; reflexivity).
  split; [exact Hinv'|].
  split; [eapply iw_extends_trans; [|exact Hext]; rewrite Hw0; eexists; reflexivity|].
  split; [rewrite Hsym, Hw0; reflexivity|]. split; [rewrite Htoc, Hw0; reflexivity|].
  split; [rewrite Hst, Hw0; reflexivity|]. split; [rewrite Hli, Hw0; reflexivity|].
  split; [rewrite Hpo, Hw0; reflexivity|].
  split; [|split].
  - intros ref Hn. rewrite Hother by (apply Hnone; exact Hn). rewrite Hser0. exact Hn.
  - intros ref s Hs. destruct (Hin ref s (proj2 (Hmem ref s) Hs)) as (o & Hl & Ho & Hb).
    exists o. split; [exact Hl|]. split.
    + destruct Hinv0 as [Hp0 _], Hinv' as [_ Hm'].
      pose proof (len_nonneg (iw_fbuf w0)). unfold is_uint32, MaxUint32 in *. lia.
    + rewrite <- (indexWriter_seriesBody_symbols w w0 s s); [exact Hb| |reflexivity|reflexivity].
      rewrite Hw0. reflexivity.
  - intros ref1 ref2 s1 s2 Hl1 Hl2 Heq.
    assert (Hm : forall ref s, iw_series w' !! ref = Some s -> ref ∈ map fst series).
    { intros ref s Hl. destruct (decide (ref ∈ map fst series)) as [Hy|Hn]; [exact Hy|].
      exfalso. rewrite (Hother ref Hn), Hser0 in Hl.
      apply Hnone in Hn. congruence. }
    eapply Hinj; [eapply Hm; exact Hl1|eapply Hm; exact Hl2|exact Hl1|exact Hl2|exact Heq].
Qed.

(** *** From the population stage to the postings stage *)

Lemma symbol_at_extends w w' s :
  iw_symbols w' = iw_symbols w -> iw_extends w w' ->
  symbol_at w (iw_fbuf w) s -> symbol_at w' (iw_fbuf w') s.
Proof.
  intros Hs Hext [Hu Hb]. apply (symbol_at_symbols w w' _ s Hs).
  split; [exact Hu|]. eapply bytes_at_extends; eassumption.
Qed.

Lemma indexWriter_writeOffsetTable_spec w w' entries :
  iw_inv w -> indexWriter_writeOffsetTable w entries = (w', None) ->
  iw_inv w'
  /\ w' = iw_set_out w (iw_fbuf w ++ offset_table_bytes entries)
            (iw_pos w + len (offset_table_bytes entries)).
Proof.
  intros Hinv H. unfold indexWriter_writeOffsetTable in H. cbv zeta in H.
  destruct (indexWriter_write_ok _ _ _ H) as [Hw _].
  split; [eapply iw_inv_write; eassumption|].
  rewrite Hw. cbn [concat]. rewrite app_nil_r. reflexivity.
Qed.

Lemma toc_ok_set toc x f :
  toc_ok toc -> is_uint64 x ->
  (f = toc_set_symbols \/ f = toc_set_series \/ f = toc_set_labelIndices
   \/ f = toc_set_labelIndicesTable \/ f = toc_set_postings \/ f = toc_set_postingsTable) ->
  toc_ok (f toc x).
Proof.
  intros (H1 & H2 & H3 & H4 & H5 & H6) Hx Hf.
  destruct Hf as [->|[->|[->|[->|[->| ->]]]]]; unfold toc_ok; cbn; tauto.
Qed.

Lemma iw_inv_pos w : iw_inv w -> is_uint64 (iw_pos w) /\ 0 <= iw_pos w <= MaxUint32.
Proof.
  intros [Hp Hm]. pose proof (len_nonneg (iw_fbuf w)).
  unfold is_uint64, MaxUint32 in *. lia.
Qed.

Lemma indexWriter_ensureStage_Postings_populated w w' :
  populated w ->
  indexWriter_ensureStage rangeSeries w idxStagePostings = (w', None) ->
  postings_stage [] w' /\ same_series w w'.
Proof.
  intros (Hinv & Hst & Hpos & Hmagic & Hcover & Htoc & Hli & Hpo) H.
  unfold indexWriter_ensureStage in H. rewrite Hst in H.
  change (indexWriterStage_eqb idxStagePopulate idxStagePostings) with false in H.
  change (indexWriterStage_uint8 idxStagePostings <? indexWriterStage_uint8 idxStagePopulate)
    with false in H.
  change (indexWriterStage_eqb idxStagePopulate idxStagePopulate) with true in H.
  cbv beta iota in H.
  set (wa := iw_set_toc w (toc_set_symbols (iw_toc w) (iw_pos w))) in *.
  destruct (indexWriter_writeSymbols wa) as [wb [e|]] eqn:Hsy; [discriminate|].
  destruct (indexWriter_writeSymbols_spec wa wb Hinv Hsy)
    as (Hinvb & Hextb & Hserb & Htocb & Hstb & Hlib & Hpob & Hsymb).
  set (wc := iw_set_toc wb (toc_set_series (iw_toc wb) (iw_pos wb))) in *.
  destruct (indexWriter_writeSeries rangeSeries wc) as [wd [e|]] eqn:Hse; [discriminate|].
  destruct (indexWriter_writeSeries_spec wc wd Hinvb Hse)
    as (Hinvd & Hextd & Hsymd & Htocd & Hstd & Hlid & Hpod & Hnone & Hsome & Hinj).
  set (we := iw_set_toc wd (toc_set_labelIndicesTable (iw_toc wd) (iw_pos wd))) in *.
  destruct (indexWriter_writeOffsetTable we (iw_labelIndexes we)) as [wf [e|]] eqn:Hot;
    [discriminate|].
  destruct (indexWriter_writeOffsetTable_spec we wf _ Hinvd Hot) as (Hinvf & Hwf).
  injection H as <-.
  assert (Hlie : iw_labelIndexes we = []).
  { change (iw_labelIndexes we) with (iw_labelIndexes wd). rewrite Hlid.
    change (iw_labelIndexes wc) with (iw_labelIndexes wb). rewrite Hlib. exact Hli. }
  rewrite Hlie in Hwf.
  assert (Hextf : iw_extends wd wf) by (rewrite Hwf; eexists; reflexivity).
  assert (Hsymf : iw_symbols wf = iw_symbols wb).
  { rewrite Hwf. cbn [iw_set_out iw_symbols]. exact Hsymd. }
  assert (Hserf : iw_series wf = iw_series wd) by (rewrite Hwf; reflexivity).
  destruct (iw_inv_pos _ Hinv) as [Hu0 Hr0]. destruct (iw_inv_pos _ Hinvb) as [Hub Hrb].
  destruct (iw_inv_pos _ Hinvd) as [Hud Hrd]. destruct (iw_inv_pos _ Hinvf) as [Huf Hrf].
  assert (Hposb : iw_pos w <= iw_pos wb).
  { destruct Hextb as [y Hy]. destruct Hinv as [Hp _], Hinvb as [Hpb _].
    rewrite Hpb, Hy, len_app. change (iw_fbuf wa) with (iw_fbuf w). rewrite <- Hp.
    pose proof (len_nonneg y). change (iw_pos wa) with (iw_pos w) in *. lia. }
  assert (Hposd : iw_pos wb <= iw_pos wd).
  { destruct Hextd as [y Hy]. destruct Hinvb as [Hpb _], Hinvd as [Hpd _].
    rewrite Hpd, Hy, len_app. change (iw_fbuf wc) with (iw_fbuf wb). rewrite <- Hpb.
    pose proof (len_nonneg y). lia. }
  split.
  - unfold postings_stage.
    cbn [iw_set_stage iw_set_toc iw_pos iw_fbuf iw_stage iw_toc iw_series iw_postings].
    split; [exact Hinvf|]. split; [reflexivity|].
    split.
    { eapply bytes_at_extends; [exact Hextf|].
      eapply bytes_at_extends; [exact Hextd|].
      eapply (bytes_at_extends wa wb); [exact Hextb|]. exact Hmagic. }
    split.
    { split.
      - intros ref s' Hs'. cbn [iw_set_stage iw_set_toc iw_series] in Hs'.
        rewrite Hserf in Hs'.
        destruct (iw_series wc !! ref) as [s|] eqn:Hs; [|rewrite (Hnone ref Hs) in Hs'; discriminate].
        destruct (Hsome ref s Hs) as (o & Hl & Ho & Hb).
        rewrite Hl in Hs'. injection Hs' as <-. cbn [iws_offset iws_labels].
        split; [exact Ho|]. split.
        + match goal with
          | |- bytes_at _ _ (sized (encbuf_get (indexWriter_seriesBody ?w1 ?s1))) =>
              change (encbuf_get (indexWriter_seriesBody w1 s1))
                with (indexWriter_seriesBody w1 s1);
              rewrite (indexWriter_seriesBody_symbols wc w1 s s1)
                by (try reflexivity; cbn [iw_set_stage iw_set_toc iw_symbols];
                    rewrite Hsymf; reflexivity)
          end.
          rewrite Hwf. cbn [iw_set_out iw_fbuf]. apply bytes_at_app. exact Hb.
        + change (iw_series wc) with (iw_series wb) in Hs. rewrite Hserb in Hs.
          pose proof (Hcover ref s Hs) as Hc.
          eapply Forall_impl; [exact Hc|]. cbn beta. intros l [Hn Hv].
          assert (Hsa : forall x, is_Some (iw_symbols wa !! x) ->
                                  symbol_at
                                    (iw_set_stage
                                       (iw_set_toc wf (toc_set_postings (iw_toc wf) (iw_pos wf)))
                                       idxStagePostings) (iw_fbuf wf) x).
          { intros x Hx. specialize (Hsymb x Hx).
            apply (symbol_at_symbols wf _ _ x); [reflexivity|].
            apply (symbol_at_extends wb wf x); [exact Hsymf| |exact Hsymb].
            eapply iw_extends_trans; [|exact Hextf]. exact Hextd. }
          split; apply Hsa; assumption.
      - intros ref1 ref2 s1 s2 Hl1 Hl2. cbn [iw_set_stage iw_set_toc iw_series] in Hl1, Hl2.
        rewrite Hserf in Hl1, Hl2. eapply Hinj; eassumption. }
    assert (Htocf : iw_toc wf
                    = toc_set_labelIndicesTable
                        (toc_set_series (toc_set_symbols (iw_toc w) (iw_pos w)) (iw_pos wb))
                        (iw_pos wd)).
    { rewrite Hwf. cbn [iw_set_out iw_toc we iw_set_toc]. rewrite Htocd.
      cbn [wc iw_set_toc iw_toc]. rewrite Htocb. reflexivity. }
    rewrite Htocf.
    split.
    { apply toc_ok_set; [|exact Huf|tauto].
      apply toc_ok_set; [|exact Hud|tauto].
      apply toc_ok_set; [|exact Hub|tauto].
      apply toc_ok_set; [exact Htoc|exact Hu0|tauto]. }
    cbn [toc_set_postings toc_set_labelIndicesTable toc_labelIndicesTable].
    split; [lia|].
    split.
    { rewrite Hwf. cbn [iw_set_out iw_fbuf].
      destruct Hinvd as [Hpd _]. rewrite Hpd. apply bytes_at_end. }
    rewrite Hwf. cbn [iw_set_out iw_postings we iw_set_toc]. rewrite Hpod.
    cbn [wc iw_set_toc iw_postings]. rewrite Hpob. cbn [wa iw_set_toc iw_postings].
    rewrite Hpo. constructor.
  - intros ref. cbn [iw_set_stage iw_set_toc iw_series]. rewrite Hserf.
    change (iw_series wc) with (iw_series wb) in *. rewrite Hserb in *.
    change (iw_series wa) with (iw_series w) in *.
    destruct (iw_series w !! ref) as [s|] eqn:Hs.
    + destruct (Hsome ref s Hs) as (o & Hl & _). rewrite Hl. reflexivity.
    + rewrite (Hnone ref Hs). reflexivity.
Qed.

(** *** [WritePostings] *)

Lemma indexWriter_postingsRefs_spec w vals :
  forall acc refs,
    indexWriter_postingsRefs w vals acc = Ok refs ->
    refs = acc ++ map (iw_offset w) vals
    /\ Forall (fun ref => is_Some (iw_series w !! ref)) vals.
Proof.
  induction vals as [|v vals IH]; intros acc refs H; cbn [indexWriter_postingsRefs] in H.
  - injection H as <-. rewrite app_nil_r. split; [reflexivity|constructor].
  - destruct (iw_series w !! v) as [s|] eqn:Hs; [|discriminate].
    destruct (IH _ _ H) as [-> Hall]. split.
    + cbn [map]. unfold iw_offset at 2. rewrite Hs, <- app_assoc. reflexivity.
    + constructor; [rewrite Hs; eauto|exact Hall].
Qed.

Lemma series_written_extends w w' :
  iw_series w' = iw_series w -> iw_symbols w' = iw_symbols w -> iw_extends w w' ->
  series_written w (iw_fbuf w) -> series_written w' (iw_fbuf w').
Proof.
  intros Hser Hsym Hext [Hrec Hinj]. split.
  - intros ref s Hs. rewrite Hser in Hs. destruct (Hrec ref s Hs) as (Hu & Hb & Hl).
    split; [exact Hu|]. split.
    + change (encbuf_get (indexWriter_seriesBody w' s)) with (indexWriter_seriesBody w' s).
      rewrite (indexWriter_seriesBody_symbols w w' s s Hsym eq_refl eq_refl).
      eapply bytes_at_extends; eassumption.
    + eapply Forall_impl; [exact Hl|]. cbn beta. intros l [Hn Hv].
      split; apply (symbol_at_extends w w'); assumption.
  - intros ref1 ref2 s1 s2. rewrite Hser. apply Hinj.
Qed.

Lemma posting_entry_extends w w' p e :
  iw_series w' = iw_series w -> iw_extends w w' ->
  posting_entry w p e -> posting_entry w' p e.
Proof.
  intros Hser Hext. destruct p as [[n v] refs]. unfold posting_entry.
  intros (Hk & Hu & Hall & Hb).
  split; [exact Hk|]. split; [exact Hu|]. split; [rewrite Hser; exact Hall|].
  replace (map (iw_offset w') refs) with (map (iw_offset w) refs).
  - eapply bytes_at_extends; eassumption.
  - apply map_ext. intros ref. unfold iw_offset. rewrite Hser. reflexivity.
Qed.

Lemma indexWriter_WritePostings_staged posts w w' n v refs :
  postings_stage posts w ->
  indexWriter_WritePostings rangeSeries w n v (newListPostings refs) = (w', None) ->
  postings_stage (posts ++ [(n, v, refs)]) w'
  /\ iw_series w' = iw_series w /\ iw_symbols w' = iw_symbols w.
Proof.
  intros (Hinv & Hst & Hmagic & Hsw & Htoc & Hlt0 & Hlt & Hposts) H.
  unfold indexWriter_WritePostings, indexWriter_ensureStage in H. rewrite Hst in H.
  change (indexWriterStage_eqb idxStagePostings idxStagePostings) with true in H.
  cbv beta iota zeta in H.
  rewrite Postings_values_list in H.
  set (w1 := iw_set_postings w _) in *.
  destruct (indexWriter_postingsRefs w1 refs []) as [offs|e] eqn:Hrefs; [|discriminate].
  destruct (indexWriter_postingsRefs_spec _ _ _ _ Hrefs) as [-> Hall]. cbn [app] in *.
  unfold Postings_Err in H.
  rewrite (fold_left_app_map binary.PutUint32) in H.
  unfold encbuf_reset in H. cbn [app] in H.
  destruct (indexWriter_write w1 _) as [w2 err] eqn:Hw in H.
  injection H as -> Herr. apply errors_Wrap_opt_None in Herr. subst err.
  destruct (indexWriter_write_ok _ _ _ Hw) as [Hw' _].
  pose proof (iw_inv_write w1 w' _ Hinv Hw) as Hinv'.
  set (sec := sized (concat (map binary.PutUint32
                               (sort_uint32slice (map (iw_offset w1) refs))))) in *.
  assert (Hout : iw_fbuf w' = iw_fbuf w ++ sec).
  { rewrite Hw'. cbn [iw_set_out iw_fbuf concat]. rewrite app_nil_r. reflexivity. }
  assert (Hext : iw_extends w w') by (eexists; exact Hout).
  assert (Hser : iw_series w' = iw_series w) by (rewrite Hw'; reflexivity).
  assert (Hsym : iw_symbols w' = iw_symbols w) by (rewrite Hw'; reflexivity).
  split; [|split; [exact Hser|exact Hsym]].
  unfold postings_stage.
  split; [exact Hinv'|]. split; [rewrite Hw'; exact Hst|].
  split; [eapply bytes_at_extends; eassumption|].
  split; [apply (series_written_extends w w'); assumption|].
  replace (iw_toc w') with (iw_toc w) by (rewrite Hw'; reflexivity).
  split; [exact Htoc|]. split; [exact Hlt0|].
  split; [eapply bytes_at_extends; eassumption|].
  replace (iw_postings w')
    with (iw_postings w ++ [{| he_keys := [n; v]; he_offset := iw_pos w |}])
    by (rewrite Hw'; reflexivity).
  apply Forall2_app.
  - eapply Forall2_impl; [exact Hposts|]. intros p e Hp.
    apply (posting_entry_extends w w'); assumption.
  - constructor; [|constructor]. unfold posting_entry. cbn [he_keys he_offset].
    split; [reflexivity|].
    destruct (iw_inv_pos _ Hinv) as [_ Hr].
    split; [unfold is_uint32, MaxUint32 in *; lia|].
    split; [rewrite Hser; exact Hall|].
    replace (map (iw_offset w') refs) with (map (iw_offset w1) refs).
    + rewrite Hout. destruct Hinv as [Hp _]. rewrite Hp. apply bytes_at_end.
    + apply map_ext. intros ref. unfold iw_offset. rewrite Hser. reflexivity.
Qed.

Lemma indexWriter_WritePostings_first w w' n v it :
  populated w ->
  indexWriter_WritePostings rangeSeries w n v it = (w', None) ->
  exists w1,
    indexWriter_ensureStage rangeSeries w idxStagePostings = (w1, None)
    /\ indexWriter_WritePostings rangeSeries w1 n v it = (w', None).
Proof.
  intros Hpop H. unfold indexWriter_WritePostings in H.
  destruct (indexWriter_ensureStage rangeSeries w idxStagePostings) as [w1 [e|]] eqn:He;
    [discriminate|].
  exists w1. split; [reflexivity|].
  destruct (indexWriter_ensureStage_Postings_populated w w1 Hpop He)
    as [(_ & Hst & _) _].
  unfold indexWriter_WritePostings, indexWriter_ensureStage. rewrite Hst.
  change (indexWriterStage_eqb idxStagePostings idxStagePostings) with true.
  cbv beta iota. exact H.
Qed.

(** *** [Close] *)

Lemma indexWriter_Close_staged posts w w' :
  postings_stage posts w ->
  indexWriter_Close rangeSeries w = (w', None) ->
  iw_inv w'
  /\ iw_fbuf w'
     = iw_fbuf w ++ offset_table_bytes (iw_postings w)
       ++ toc_bytes (toc_set_postingsTable (iw_toc w) (iw_pos w)).
Proof.
  intros (Hinv & Hst & Hmagic & Hsw & Htoc & Hlt0 & Hlt & Hposts) H.
  unfold indexWriter_Close, indexWriter_ensureStage in H. rewrite Hst in H.
  change (indexWriterStage_eqb idxStagePostings idxStageDone) with false in H.
  change (indexWriterStage_uint8 idxStageDone <? indexWriterStage_uint8 idxStagePostings)
    with false in H.
  change (indexWriterStage_eqb idxStagePostings idxStagePopulate) with false in H.
  cbv beta iota in H.
  set (wa := iw_set_toc w (toc_set_postingsTable (iw_toc w) (iw_pos w))) in *.
  destruct (indexWriter_writeOffsetTable wa (iw_postings wa)) as [wb [e|]] eqn:Hot;
    [discriminate|].
  destruct (indexWriter_writeOffsetTable_spec wa wb _ Hinv Hot) as (Hinvb & Hwb).
  unfold indexWriter_writeTOC in H. cbv zeta in H.
  fold (toc_bytes (iw_toc wb)) in H.
  destruct (indexWriter_write wb [toc_bytes (iw_toc wb)]) as [wc [e|]] eqn:Hw;
    [discriminate|].
  injection H as <-.
  destruct (indexWriter_write_ok _ _ _ Hw) as [Hwc _].
  split.
  - apply (iw_inv_write wb wc _ Hinvb Hw).
  - cbn [iw_set_closed iw_set_stage iw_fbuf]. rewrite Hwc.
    cbn [iw_set_out iw_fbuf concat]. rewrite app_nil_r, Hwb.
    cbn [iw_set_out iw_fbuf iw_toc]. rewrite <- app_assoc. reflexivity.
Qed.

(** *** The file read back *)

Lemma posting_entries_keys w posts entries :
  Forall2 (posting_entry w) posts entries ->
  map entry_key entries = map postings_key posts
  /\ Forall (fun e => is_uint64 (he_offset e)) entries.
Proof.
  induction 1 as [|p e posts entries Hpe _ [IHk IHu]]; [split; [reflexivity|constructor]|].
  destruct p as [[n v] refs]. destruct Hpe as (Hk & Hu & _).
  split.
  - cbn [map]. f_equal; [|exact IHk]. unfold entry_key. rewrite Hk. reflexivity.
  - constructor; [|exact IHu]. unfold is_uint32, is_uint64 in *. lia.
Qed.

Lemma posting_entry_lookup w posts entries p :
  Forall2 (posting_entry w) posts entries -> p ∈ posts ->
  exists e, e ∈ entries /\ posting_entry w p e.
Proof.
  induction 1 as [|p0 e posts entries Hpe _ IH]; intros Hin.
  - apply elem_of_nil in Hin. contradiction.
  - apply elem_of_cons in Hin. destruct Hin as [->|Hin].
    + exists e. split; [apply elem_of_cons; left; reflexivity|exact Hpe].
    + destruct (IH Hin) as (e' & He' & Hpe'). exists e'.
      split; [apply elem_of_cons; right; exact He'|exact Hpe'].
Qed.

Lemma Forall_sort_uint32slice (P : Z -> Prop) l :
  Forall P l -> Forall P (sort_uint32slice l).
Proof. intros H. rewrite sort_uint32slice_perm. exact H. Qed.

Lemma index_read_back posts w w' n v refs :
  postings_stage posts w -> chunks_wf w ->
  indexWriter_Close rangeSeries w = (w', None) ->
  NoDup (map postings_key posts) ->
  (n, v, refs) ∈ posts ->
  exists r,
    newIndexReader (iw_fbuf w') = Ok r
    /\ indexReader_Postings r n v
       = Ok (newBigEndianPostings
               (concat (map binary.PutUint32 (sort_uint32slice (map (iw_offset w) refs)))))
    /\ Forall is_uint32 (map (iw_offset w) refs)
    /\ (NoDup refs -> NoDup (map (iw_offset w) refs))
    /\ (forall ref, ref ∈ refs ->
          exists s, iw_series w !! ref = Some s
                    /\ indexReader_Series r (iws_offset s)
                       = Ok (iws_labels s, map ChunkMeta_read (iws_chunks s))).
Proof.
  intros Hps Hcw Hclose Hnd Hin.
  destruct (indexWriter_Close_staged posts w w' Hps Hclose) as [Hinv' Hout].
  destruct Hps as (Hinv & Hst & Hmagic & Hsw & Htoc & Hlt0 & Hlt & Hposts).
  set (b := iw_fbuf w') in *.
  set (toc' := toc_set_postingsTable (iw_toc w) (iw_pos w)) in *.
  assert (Hext : forall off x, bytes_at (iw_fbuf w) off x -> bytes_at b off x).
  { intros off x Hb. rewrite Hout. apply bytes_at_app. exact Hb. }
  assert (Hlen : len b <= MaxUint32).
  { destruct Hinv' as [Hp Hm]. unfold b. rewrite <- Hp. exact Hm. }
  destruct (iw_inv_pos _ Hinv) as [Hupos Hrpos].
  assert (Htoc' : toc_ok toc') by (apply toc_ok_set; [exact Htoc|exact Hupos|tauto]).
  destruct (posting_entries_keys _ _ _ Hposts) as [Hkeys Hu64].
  assert (Hpos0 : iw_pos w <> 0).
  { destruct (bytes_at_range _ _ _ Hmagic) as [_ Hr]. rewrite len_PutUint32 in Hr.
    destruct Hinv as [Hp _]. lia. }
  set (r := {| ir_b := b; ir_toc := toc'; ir_labels := offset_table_map [] ∅;
               ir_postings := offset_table_map (iw_postings w) ∅ |}).
  assert (Hnew : newIndexReader b = Ok r).
  { unfold newIndexReader.
    destruct (bytes_at_range _ _ _ (Hext _ _ Hmagic)) as [_ Hr]. rewrite len_PutUint32 in Hr.
    destruct (Z.ltb_spec (len b) 4) as [Hlt4|_]; [lia|].
    destruct (Hext _ _ Hmagic) as (pre & post & Hb & Hpre).
    apply len_zero_nil in Hpre. subst pre. cbn [app] in Hb.
    assert (Hm : binary.Uint32 (slice_to 4 b) = MagicIndex).
    { rewrite Hb. rewrite slice_to_app_len by (rewrite len_PutUint32; reflexivity).
      pose proof (Uint32_PutUint32 MagicIndex []) as U. rewrite app_nil_r in U.
      apply U. unfold is_uint32, MagicIndex. lia. }
    rewrite Hm, Z.eqb_refl. cbn [negb].
    assert (Hrt : indexReader_readTOC b = Ok toc').
    { rewrite Hout, app_assoc. apply indexReader_readTOC_at. exact Htoc'. }
    rewrite Hrt.
    change (toc_labelIndicesTable toc') with (toc_labelIndicesTable (iw_toc w)).
    rewrite (indexReader_readOffsetTable_at b _ [] Hlen Hlt0 (Hext _ _ Hlt))
      by constructor.
    change (toc_postingsTable toc') with (iw_pos w).
    rewrite (indexReader_readOffsetTable_at b (iw_pos w) (iw_postings w) Hlen Hpos0).
    - reflexivity.
    - rewrite Hout. destruct Hinv as [Hp _]. rewrite Hp. apply bytes_at_end_app.
    - exact Hu64. }
  exists r. split; [exact Hnew|].
  destruct (posting_entry_lookup _ _ _ _ Hposts Hin) as (e & He & Hk & Hu & Hall & Hb).
  assert (Hoffs : Forall is_uint32 (map (iw_offset w) refs)).
  { apply Forall_forall. intros o Ho. apply list_elem_of_fmap in Ho.
    destruct Ho as (ref & -> & Href). rewrite Forall_forall in Hall.
    destruct (Hall ref Href) as [s Hs]. unfold iw_offset. rewrite Hs.
    destruct Hsw as [Hrec _]. apply (Hrec ref s Hs). }
  split; [|split; [exact Hoffs|split]].
  - apply (indexReader_Postings_at r n v (he_offset e)).
    + cbn [ir_b r]. unfold MaxUint32 in Hlen. lia.
    + cbn [ir_postings r].
      replace (String.append n (String.append sep v)) with (entry_key e)
        by (unfold entry_key; rewrite Hk; reflexivity).
      rewrite (offset_table_map_lookup (iw_postings w) ∅ e).
      * f_equal. apply uint32_small. exact Hu.
      * rewrite Hkeys. exact Hnd.
      * exact He.
    + cbn [ir_b r]. apply Hext. exact Hb.
  - intros Hndr. apply NoDup_fmap_2_strong; [|exact Hndr].
    intros x y Hx Hy Heq. rewrite Forall_forall in Hall.
    destruct (Hall x Hx) as [sx Hsx]. destruct (Hall y Hy) as [sy Hsy].
    unfold iw_offset in Heq. rewrite Hsx, Hsy in Heq.
    destruct Hsw as [_ Hinj]. eapply Hinj; eassumption.
  - intros ref Href. rewrite Forall_forall in Hall.
    destruct (Hall ref Href) as [s Hs]. exists s. split; [exact Hs|].
    destruct Hsw as [Hrec _]. destruct (Hrec ref s Hs) as (Hus & Hbs & Hls).
    apply (indexReader_Series_at r w s).
    + exact Hlen.
    + cbn [ir_b r]. apply Hext. exact Hbs.
    + cbn [ir_b r]. eapply Forall_impl; [exact Hls|]. cbn beta.
      intros l [[Hn1 Hn2] [Hv1 Hv2]].
      split; (split; [assumption|apply Hext; assumption]).
    + apply (Hcw ref s Hs).
Qed.

(** *** The calls in order *)

Lemma run_step_error ops :
  forall w e, fold_left run_step ops (w, Some e) = (w, Some e).
Proof. induction ops as [|f ops IH]; intros w e; [reflexivity|]. cbn. apply IH. Qed.

Lemma run_step_cons f ops w w' :
  fold_left run_step (f :: ops) (w, None) = (w', None) ->
  exists w1, f w = (w1, None) /\ fold_left run_step ops (w1, None) = (w', None).
Proof.
  cbn [fold_left run_step]. destruct (f w) as [w1 [e|]] eqn:E.
  - rewrite run_step_error. discriminate.
  - intros H. exists w1. split; [reflexivity|exact H].
Qed.

Lemma newIndexWriter_populated :
  exists w0, newIndexWriter = (w0, None) /\ populated w0 /\ iw_series w0 = ∅.
Proof.
  exists (fst newIndexWriter). split; [reflexivity|]. split; [|reflexivity].
  unfold populated.
  split; [split; [reflexivity|vm_compute; discriminate]|].
  split; [reflexivity|]. split; [reflexivity|].
  split; [exists [], [Byte.x01]; split; reflexivity|].
  split; [intros ref s Hs; change (iw_series (fst newIndexWriter)) with (∅ : gmap Z indexWriterSeries) in Hs; rewrite lookup_empty in Hs; discriminate|].
  split; [|split; reflexivity].
  unfold toc_ok, is_uint64.
  repeat split; vm_compute; first [reflexivity|discriminate].
Qed.

Lemma AddSeries_symbols_mono (lset : Labels) x :
  forall m : gmap string Z,
    is_Some (m !! x) ->
    is_Some (fold_left (fun m l => <[lbl_Value l := 0]> (<[lbl_Name l := 0]> m)) lset m !! x).
Proof.
  induction lset as [|l lset IH]; intros m Hm; cbn [fold_left]; [exact Hm|].
  apply IH. rewrite !lookup_insert_is_Some'. tauto.
Qed.

Lemma AddSeries_symbols_cover (lset : Labels) :
  forall m : gmap string Z,
    Forall (fun l =>
              is_Some (fold_left (fun m l => <[lbl_Value l := 0]> (<[lbl_Name l := 0]> m))
                         lset m !! lbl_Name l)
              /\ is_Some (fold_left
                            (fun m l => <[lbl_Value l := 0]> (<[lbl_Name l := 0]> m))
                            lset m !! lbl_Value l)) lset.
Proof.
  induction lset as [|l lset IH]; intros m; [constructor|].
  cbn [fold_left]. constructor; [|apply IH].
  split; apply AddSeries_symbols_mono; rewrite !lookup_insert_is_Some'.
  - right. left. reflexivity.
  - left. reflexivity.
Qed.

Lemma indexWriter_AddSeries_populated done w w' ref lset chunks :
  populated w -> series_from done w ->
  indexWriter_AddSeries w ref lset chunks = (w', None) ->
  populated w' /\ series_from (done ++ [(ref, lset, chunks)]) w'.
Proof.
  intros (Hinv & Hst & Hpos & Hmagic & Hcover & Htoc & Hli & Hpo) Hfrom H.
  unfold indexWriter_AddSeries in H.
  destruct (iw_series w !! ref) eqn:Hnew; [discriminate|].
  injection H as <-. split.
  - unfold populated. cbn [iw_set_series iw_set_symbols iw_pos iw_fbuf iw_stage iw_toc
                             iw_labelIndexes iw_postings].
    split; [exact Hinv|]. split; [exact Hst|]. split; [exact Hpos|].
    split; [exact Hmagic|].
    split; [|split; [exact Htoc|split; assumption]].
    intros r s Hs. cbn [iw_set_series iw_set_symbols iw_series iw_symbols] in *.
    destruct (decide (r = ref)) as [->|Hne].
    + rewrite lookup_insert_eq in Hs. injection Hs as <-. cbn [iws_labels].
      apply AddSeries_symbols_cover.
    + rewrite lookup_insert_ne in Hs by congruence.
      eapply Forall_impl; [exact (Hcover r s Hs)|]. cbn beta.
      intros l [Hn Hv]. split; apply AddSeries_symbols_mono; assumption.
  - intros r s Hs. cbn [iw_set_series iw_set_symbols iw_series] in Hs.
    apply elem_of_app.
    destruct (decide (r = ref)) as [->|Hne].
    + rewrite lookup_insert_eq in Hs. injection Hs as <-. right.
      apply elem_of_cons. left. reflexivity.
    + rewrite lookup_insert_ne in Hs by congruence. left. apply Hfrom. exact Hs.
Qed.

Lemma run_AddSeries todo :
  forall done w w',
    populated w -> series_from done w ->
    fold_left run_step
      (map (fun '(ref, lset, chunks) w => indexWriter_AddSeries w ref lset chunks) todo)
      (w, None) = (w', None) ->
    populated w' /\ series_from (done ++ todo) w'.
Proof.
  induction todo as [|[[ref lset] chunks] todo IH]; intros done w w' Hpop Hfrom H.
  - cbn in H. injection H as <-. rewrite app_nil_r. split; assumption.
  - cbn [map] in H. apply run_step_cons in H. destruct H as (w1 & H1 & H).
    destruct (indexWriter_AddSeries_populated done w w1 ref lset chunks Hpop Hfrom H1)
      as [Hpop1 Hfrom1].
    destruct (IH _ _ _ Hpop1 Hfrom1 H) as [Hpop' Hfrom'].
    split; [exact Hpop'|]. rewrite <- app_assoc in Hfrom'. exact Hfrom'.
Qed.

Lemma run_WritePostings_staged todo :
  forall done w w',
    postings_stage done w ->
    fold_left run_step
      (map (fun '(n, v, refs) w =>
              indexWriter_WritePostings rangeSeries w n v (newListPostings refs)) todo)
      (w, None) = (w', None) ->
    postings_stage (done ++ todo) w' /\ iw_series w' = iw_series w.
Proof.
  induction todo as [|[[n v] refs] todo IH]; intros done w w' Hps H.
  - cbn in H. injection H as <-. rewrite app_nil_r. split; [exact Hps|reflexivity].
  - cbn [map] in H. apply run_step_cons in H. destruct H as (w1 & H1 & H).
    destruct (indexWriter_WritePostings_staged done w w1 n v refs Hps H1)
      as (Hps1 & Hser1 & _).
    destruct (IH _ _ _ Hps1 H) as [Hps' Hser'].
    split; [rewrite <- app_assoc in Hps'; exact Hps'|congruence].
Qed.

Lemma same_series_from series w w' :
  same_series w w' -> series_from series w -> series_from series w'.
Proof.
  intros Hsame Hfrom ref s' Hs'. specialize (Hsame ref). rewrite Hs' in Hsame.
  destruct (iw_series w !! ref) as [s|] eqn:Hs; [|discriminate].
  cbn in Hsame. injection Hsame as -> ->. apply Hfrom. exact Hs.
Qed.

(** The writer before [Close], for a run with at least one call of
    [WritePostings]. *)
Lemma indexWriter_build_staged series posts w :
  posts <> [] ->
  indexWriter_build rangeSeries series posts = (w, None) ->
  exists w1,
    postings_stage posts w1 /\ series_from series w1
    /\ indexWriter_Close rangeSeries w1 = (w, None).
Proof.
  intros Hne H. unfold indexWriter_build, indexWriter_run in H.
  change (fold_left _ ?ops newIndexWriter) with (fold_left run_step ops newIndexWriter) in H.
  destruct newIndexWriter_populated as (w0 & Hnew & Hpop0 & Hser0).
  rewrite Hnew, fold_left_app in H.
  destruct (fold_left run_step (map _ series) (w0, None)) as [wa [e|]] eqn:Ha.
  { rewrite run_step_error in H. discriminate. }
  destruct (run_AddSeries series [] w0 wa Hpop0) as [Hpopa Hfroma]; [|exact Ha|].
  { intros ref s Hs. rewrite Hser0, lookup_empty in Hs. discriminate. }
  cbn [app] in Hfroma.
  rewrite fold_left_app in H.
  destruct (fold_left run_step (map _ posts) (wa, None)) as [wb [e|]] eqn:Hb.
  { rewrite run_step_error in H. discriminate. }
  cbn [fold_left run_step] in H.
  destruct posts as [|[[n v] refs] posts]; [contradiction|].
  cbn [map] in Hb. apply run_step_cons in Hb. destruct Hb as (w1 & H1 & Hb).
  destruct (indexWriter_WritePostings_first wa w1 n v _ Hpopa H1) as (ws & Hs & H1').
  destruct (indexWriter_ensureStage_Postings_populated wa ws Hpopa Hs) as [Hps Hsame].
  destruct (indexWriter_WritePostings_staged [] ws w1 n v refs Hps H1')
    as (Hps1 & Hser1 & _).
  destruct (run_WritePostings_staged posts [(n, v, refs)] w1 wb Hps1 Hb) as [Hpsb Hserb].
  exists wb. split; [exact Hpsb|]. split; [|exact H].
  intros ref s Hl. rewrite Hserb, Hser1 in Hl.
  apply (same_series_from series wa ws Hsame Hfroma ref s Hl).
Qed.

End Layout.


(** ** Postings and series, written and read back *)

Lemma StronglySorted_le_NoDup_lt (l : list Z) :
  StronglySorted Z.le l -> NoDup l -> StronglySorted Z.lt l.
Proof.
  induction 1 as [|x l Hs IH Hall]; intros Hnd; [constructor|].
  apply NoDup_cons in Hnd. destruct Hnd as [Hx Hnd].
  constructor; [apply IH; exact Hnd|].
  rewrite Forall_forall in *. intros y Hy.
  assert (x <> y) by (intros ->; apply Hx; exact Hy).
  specialize (Hall y Hy). lia.
Qed.

Section RoundTrip.
Variable rangeSeries : gmap Z indexWriterSeries -> list (Z * indexWriterSeries).
Hypothesis rangeSeries_perm : forall m, rangeSeries m ≡ₚ map_to_list m.

(** C1, as the writer and the reader have it.  For an index file written by
    the stages in order -- [AddSeries] for each series, [WritePostings] for
    lists of references under distinct keys, [Close] -- with no error, in
    whatever order the series map is ranged over: the reader opens the
    file; [Postings(n, v)] yields, in ascending order, the offsets of the
    series whose references were passed to [WritePostings(n, v)], in
    strictly ascending order when no reference was passed twice; [Series]
    at the offset of each of these series succeeds and returns the label set
    the series was added with, so it holds the pair [(n, v)] whenever each
    of these series was added with that pair. *)
Theorem indexReader_Postings_round_trip series posts w n v refs :
  indexWriter_build rangeSeries series posts = (w, None) ->
  Forall (fun x => Forall ChunkMeta_wf (snd x)) series ->
  NoDup (map postings_key posts) ->
  (n, v, refs) ∈ posts ->
  exists r p offset_of,
    newIndexReader (iw_fbuf w) = Ok r
    /\ indexReader_Postings r n v = Ok p
    /\ Postings_values p ≡ₚ map offset_of refs
    /\ StronglySorted Z.le (Postings_values p)
    /\ (NoDup refs -> StronglySorted Z.lt (Postings_values p))
    /\ (forall ref, ref ∈ refs ->
          exists lset chunks,
            (ref, lset, chunks) ∈ series
            /\ indexReader_Series r (offset_of ref) = Ok (lset, map ChunkMeta_read chunks))
    /\ ((forall ref lset chunks,
           ref ∈ refs -> (ref, lset, chunks) ∈ series ->
           {| lbl_Name := n; lbl_Value := v |} ∈ lset) ->
        Forall (fun off =>
                  exists lset cs,
                    indexReader_Series r off = Ok (lset, cs)
                    /\ {| lbl_Name := n; lbl_Value := v |} ∈ lset)
               (Postings_values p)).
Proof.
  intros Hbuild Hchunks Hnd Hin.
  assert (Hne : posts <> []) by (intros ->; apply elem_of_nil in Hin; exact Hin).
  destruct (indexWriter_build_staged rangeSeries rangeSeries_perm series posts w Hne Hbuild)
    as (w1 & Hps & Hfrom & Hclose).
  assert (Hcw : chunks_wf w1).
  { intros ref s Hs. specialize (Hfrom ref s Hs).
    rewrite Forall_forall in Hchunks. apply (Hchunks _ Hfrom). }
  destruct (index_read_back rangeSeries posts w1 w n v refs Hps Hcw Hclose Hnd Hin)
    as (r & Hnew & Hpost & Hu32 & Hinj & Hser).
  set (offs := sort_uint32slice (map (iw_offset w1) refs)) in *.
  assert (Hvals : Postings_values (newBigEndianPostings (concat (map binary.PutUint32 offs)))
                  = offs).
  { apply Postings_values_bigEndian. apply Forall_sort_uint32slice. exact Hu32. }
  assert (Hseries : forall ref, ref ∈ refs ->
            exists lset chunks,
              (ref, lset, chunks) ∈ series
              /\ indexReader_Series r (iw_offset w1 ref)
                 = Ok (lset, map ChunkMeta_read chunks)).
  { intros ref Href. destruct (Hser ref Href) as (s & Hs & Hrd).
    exists (iws_labels s), (iws_chunks s). split; [apply Hfrom; exact Hs|].
    unfold iw_offset. rewrite Hs. exact Hrd. }
  exists r, (newBigEndianPostings (concat (map binary.PutUint32 offs))), (iw_offset w1).
  rewrite Hvals.
  split; [exact Hnew|]. split; [exact Hpost|].
  split; [apply sort_uint32slice_perm|].
  split; [apply sort_uint32slice_sorted|].
  split; [|split; [exact Hseries|]].
  - intros Hndr. apply StronglySorted_le_NoDup_lt; [apply sort_uint32slice_sorted|].
    unfold offs. rewrite sort_uint32slice_perm. apply Hinj. exact Hndr.
  - intros Hpair. apply Forall_forall. intros off Hoff.
    unfold offs in Hoff. rewrite sort_uint32slice_perm in Hoff.
    apply list_elem_of_fmap in Hoff. destruct Hoff as (ref & -> & Href).
    destruct (Hseries ref Href) as (lset & chunks & Hmem & Hrd).
    exists lset, (map ChunkMeta_read chunks). split; [exact Hrd|].
    eapply Hpair; eassumption.
Qed.

End RoundTrip.

(** The example index: the postings of [__name__=a] written for the
    references 2 and 1. *)
Lemma indexReader_Postings_round_trip_witness :
  exists r p offset_of,
    newIndexReader (iw_fbuf (fst example_built)) = Ok r
    /\ indexReader_Postings r "__name__" "a" = Ok p
    /\ Postings_values p ≡ₚ map offset_of [2; 1]
    /\ StronglySorted Z.le (Postings_values p)
    /\ (NoDup [2; 1] -> StronglySorted Z.lt (Postings_values p))
    /\ (forall ref, ref ∈ [2; 1] ->
          exists lset chunks,
            (ref, lset, chunks) ∈ example_populate
            /\ indexReader_Series r (offset_of ref) = Ok (lset, map ChunkMeta_read chunks))
    /\ ((forall ref lset chunks,
           ref ∈ [2; 1] -> (ref, lset, chunks) ∈ example_populate ->
           {| lbl_Name := "__name__"; lbl_Value := "a" |} ∈ lset) ->
        Forall (fun off =>
                  exists lset cs,
                    indexReader_Series r off = Ok (lset, cs)
                    /\ {| lbl_Name := "__name__"; lbl_Value := "a" |} ∈ lset)
               (Postings_values p)).
Proof.
  apply (indexReader_Postings_round_trip rangeSeries_map (fun m => Permutation_refl _)
           example_populate example_posts (fst example_built) "__name__" "a" [2; 1]).
  - vm_compute. reflexivity.
  - repeat constructor; vm_compute; first [reflexivity|discriminate].
  - apply (bool_decide_unpack _). vm_compute. exact I.
  - apply elem_of_cons. left. reflexivity.
Defined.

(** C1 as stated does not hold: [WritePostings] takes the references it is
    given.  In the second example index the postings of [foo=bar] name the
    series 3, whose only label is [__name__=b]: [Series] at the second
    offset succeeds with a label set without the pair.  The postings of
    [__name__=a] name the series 1 twice: its offset is yielded twice, so the
    offsets are not strictly ascending. *)
Lemma indexReader_Postings_pair_not_checked :
  snd example_built_loose = None
  /\ exists r p1 p2 cs,
       newIndexReader (iw_fbuf (fst example_built_loose)) = Ok r
       /\ indexReader_Postings r "foo" "bar" = Ok p1
       /\ Postings_values p1 = [46; 85]
       /\ indexReader_Series r 85
          = Ok ([{| lbl_Name := "__name__"; lbl_Value := "b" |}], cs)
       /\ ~ {| lbl_Name := "foo"; lbl_Value := "bar" |}
            ∈ [{| lbl_Name := "__name__"; lbl_Value := "b" |}]
       /\ indexReader_Postings r "__name__" "a" = Ok p2
       /\ Postings_values p2 = [46; 46; 65]
       /\ ~ StronglySorted Z.lt (Postings_values p2).
Proof.
  split; [vm_compute; reflexivity|].
  eexists. eexists. eexists. eexists.
  split; [vm_compute; reflexivity|].
  split; [vm_compute; reflexivity|].
  split; [vm_compute; reflexivity|].
  split; [vm_compute; reflexivity|].
  split.
  { intros H. apply elem_of_cons in H. destruct H as [H|H]; [discriminate|].
    apply elem_of_nil in H. exact H. }
  split; [vm_compute; reflexivity|].
  assert (Hv : forall p, p = [46; 46; 65] -> ~ StronglySorted Z.lt p).
  { intros p -> H. inversion H as [|a l Hs Hall]; subst.
    inversion Hall as [|b l' Hlt _]; subst. lia. }
  split; [vm_compute; reflexivity|].
  apply Hv. vm_compute. reflexivity.
Qed.


(** ** The payloads of the log entries, decoded again *)

(** *** Series *)

Lemma encodeSeries_label_fold lset :
  forall buf,
    fold_left
      (fun buf l =>
         let buf := buf ++ binary.PutUvarint (uint64 (slen (lbl_Name l))) in
         let buf := buf ++ list_byte_of_string (lbl_Name l) in
         let buf := buf ++ binary.PutUvarint (uint64 (slen (lbl_Value l))) in
         buf ++ list_byte_of_string (lbl_Value l))
      lset buf
    = buf ++ concat (map encodeSeries_label lset).
Proof.
  intros buf. rewrite <- (fold_left_app_map encodeSeries_label).
  apply fold_left_ext_eq. intros b l. unfold encodeSeries_label. cbv zeta.
  rewrite <- !app_assoc. reflexivity.
Qed.

Lemma encodeSeries_eq buf series :
  encodeSeries buf series
  = buf ++ binary.PutUint64
             (rs_Ref (default {| rs_Ref := 0; rs_Labels := [] |} (head series)))
    ++ concat (map encodeSeries_one series).
Proof.
  unfold encodeSeries. cbv zeta.
  rewrite (fold_left_ext_eq _ (fun buf s => buf ++ encodeSeries_one s)).
  - rewrite fold_left_app_map, <- app_assoc. reflexivity.
  - intros b s. rewrite encodeSeries_label_fold. unfold encodeSeries_one.
    rewrite <- !app_assoc. reflexivity.
Qed.

Lemma decodeSeries_labels_encoded lset :
  forall rest acc,
    Forall Label_wf lset ->
    decodeSeries_labels (length lset) (concat (map encodeSeries_label lset) ++ rest) acc
    = Ok (acc ++ lset, rest).
Proof.
  induction lset as [|l lset IH]; intros rest acc Hwf.
  - cbn. rewrite app_nil_r. reflexivity.
  - apply Forall_cons in Hwf. destruct Hwf as [[Hn Hv] Hwf].
    cbn [length map concat decodeSeries_labels].
    rewrite <- app_assoc.
    set (tl := concat (map encodeSeries_label lset) ++ rest) in *.
    pose proof (len_nonneg tl) as Htl.
    unfold encodeSeries_label. rewrite <- !app_assoc.
    assert (Hn0 : 0 <= slen (lbl_Name l)) by (unfold slen; lia).
    assert (Hv0 : 0 <= slen (lbl_Value l)) by (unfold slen; lia).
    rewrite !(uint64_small (slen _)) by (unfold is_uint64; lia).
    rewrite Uvarint_PutUvarint by (unfold is_uint64; lia).
    pose proof (len_PutUvarint (slen (lbl_Name l))) as Hl1.
    set (n1 := len (binary.PutUvarint (slen (lbl_Name l)))) in *.
    rewrite (int64_small (slen (lbl_Name l))) by (unfold is_int64; lia).
    rewrite (int64_small (n1 + _)) by (unfold is_int64; lia).
    destruct (Z.ltb_spec n1 1) as [?|_]; [lia|].
    rewrite !len_app, slen_bytes. fold n1.
    match goal with |- context [(?a <? ?b)] =>
      destruct (Z.ltb_spec a b) as [Hlt|_] end.
    { pose proof (len_PutUvarint (slen (lbl_Value l))).
      rewrite ?len_app, ?slen_bytes in *. lia. }
    cbn [orb].
    destruct (Z.ltb_spec (n1 + slen (lbl_Name l)) n1) as [?|_]; [lia|].
    rewrite (slice_from_app_len (binary.PutUvarint (slen (lbl_Name l))) _ n1) by reflexivity.
    replace (n1 + slen (lbl_Name l) - n1) with (len (list_byte_of_string (lbl_Name l)))
      by (rewrite slen_bytes; lia).
    rewrite slice_to_app_len by reflexivity.
    rewrite string_of_list_byte_of_string.
    rewrite (app_assoc (binary.PutUvarint (slen (lbl_Name l)))).
    rewrite slice_from_app_len by (rewrite len_app, slen_bytes; reflexivity).
    rewrite Uvarint_PutUvarint by (unfold is_uint64; lia).
    pose proof (len_PutUvarint (slen (lbl_Value l))) as Hl2.
    set (n2 := len (binary.PutUvarint (slen (lbl_Value l)))) in *.
    rewrite (int64_small (slen (lbl_Value l))) by (unfold is_int64; lia).
    rewrite (int64_small (n2 + _)) by (unfold is_int64; lia).
    destruct (Z.ltb_spec n2 1) as [?|_]; [lia|].
    rewrite !len_app, slen_bytes. fold n2.
    match goal with |- context [(?a <? ?b)] =>
      destruct (Z.ltb_spec a b) as [Hlt|_] end.
    { rewrite ?len_app, ?slen_bytes in *. lia. }
    cbn [orb].
    destruct (Z.ltb_spec (n2 + slen (lbl_Value l)) n2) as [?|_]; [lia|].
    rewrite (slice_from_app_len (binary.PutUvarint (slen (lbl_Value l))) _ n2) by reflexivity.
    replace (n2 + slen (lbl_Value l) - n2) with (len (list_byte_of_string (lbl_Value l)))
      by (rewrite slen_bytes; lia).
    rewrite slice_to_app_len by reflexivity.
    rewrite string_of_list_byte_of_string.
    rewrite (app_assoc (binary.PutUvarint (slen (lbl_Value l)))).
    rewrite slice_from_app_len by (rewrite len_app, slen_bytes; reflexivity).
    unfold tl. rewrite IH by exact Hwf.
    rewrite <- app_assoc. destruct l; reflexivity.
Qed.

Lemma len_encodeSeries_one s : 9 <= len (encodeSeries_one s).
Proof.
  unfold encodeSeries_one. rewrite !len_app, len_PutUint64.
  pose proof (len_PutUvarint (uint64 (len (rs_Labels s)))).
  pose proof (len_nonneg (concat (map encodeSeries_label (rs_Labels s)))). lia.
Qed.

Lemma decodeSeries_loop_encoded series :
  forall fuel acc,
    (length series <= fuel)%nat ->
    Forall RefSeries_wf series ->
    decodeSeries_loop fuel (concat (map encodeSeries_one series)) acc = Ok (acc ++ series).
Proof.
  induction series as [|s series IH]; intros fuel acc Hfuel Hwf.
  - rewrite app_nil_r. destruct fuel; reflexivity.
  - destruct fuel as [|fuel]; [cbn [length] in Hfuel; lia|].
    apply Forall_cons in Hwf. destruct Hwf as [(Href & Hlen & Hl) Hwf].
    cbn [map concat decodeSeries_loop].
    set (rest := concat (map encodeSeries_one series)).
    pose proof (len_encodeSeries_one s) as H9. pose proof (len_nonneg rest) as Hr.
    destruct (Z.ltb_spec 0 (len (encodeSeries_one s ++ rest))) as [_|Hge];
      [|rewrite len_app in Hge; lia].
    destruct (Z.ltb_spec (len (encodeSeries_one s ++ rest)) 8) as [Hlt|_];
      [rewrite len_app in Hlt; lia|].
    unfold encodeSeries_one. rewrite <- !app_assoc.
    rewrite Uint64_PutUint64 by exact Href.
    rewrite slice_from_app_len by (rewrite len_PutUint64; reflexivity).
    pose proof (len_nonneg (rs_Labels s)) as Hl0.
    rewrite (uint64_small (len (rs_Labels s))) by (unfold is_uint64; lia).
    rewrite Uvarint_PutUvarint by (unfold is_uint64; lia).
    pose proof (len_PutUvarint (len (rs_Labels s))) as Hn.
    destruct (Z.ltb_spec (len (binary.PutUvarint (len (rs_Labels s)))) 1) as [?|_]; [lia|].
    rewrite slice_from_app_len by reflexivity.
    assert (Hmk : makeslice_ok 32 (len (rs_Labels s)) = true).
    { unfold makeslice_ok, maxAlloc.
      rewrite (int64_small (len (rs_Labels s))) by (unfold is_int64; lia).
      apply andb_true_intro. split; [apply Z.leb_le; lia|apply Z.leb_le; lia]. }
    rewrite Hmk. cbn [negb].
    rewrite (int64_small (len (rs_Labels s))) by (unfold is_int64; lia).
    unfold len at 1. rewrite Nat2Z.id.
    rewrite decodeSeries_labels_encoded by exact Hl.
    cbn [app]. rewrite IH; [|cbn [length] in Hfuel; lia|exact Hwf].
    rewrite <- app_assoc. destruct s; reflexivity.
Qed.

Lemma length_concat_encodeSeries series :
  (length series <= length (concat (map encodeSeries_one series)))%nat.
Proof.
  induction series as [|s series IH]; cbn [map concat length]; [lia|].
  rewrite length_app. pose proof (len_encodeSeries_one s). unfold len in *. lia.
Qed.

Lemma decodeSeries_encodeSeries flag series :
  Forall RefSeries_wf series ->
  walReader_decodeSeries flag (encodeSeries getWALBuffer series) = Ok series.
Proof.
  intros Hwf. rewrite encodeSeries_eq. unfold getWALBuffer. cbn [app].
  unfold walReader_decodeSeries.
  set (body := concat (map encodeSeries_one series)).
  destruct (Z.ltb_spec (len (binary.PutUint64
              (rs_Ref (default {| rs_Ref := 0; rs_Labels := [] |} (head series))) ++ body)) 8)
    as [Hlt|_].
  { rewrite len_app, len_PutUint64 in Hlt. pose proof (len_nonneg body). lia. }
  rewrite slice_from_app_len by (rewrite len_PutUint64; reflexivity).
  apply (decodeSeries_loop_encoded series (length body) []).
  - apply length_concat_encodeSeries.
  - exact Hwf.
Qed.

(** X1.  [encodeSeries] followed by [decodeSeries] gives the series back: the
    reference of every series, and of every label the name and the value, in
    order.  The method [encodeSeries] hands that payload to [entry] as a
    series entry.  A series without labels is encoded and decoded too; the
    base reference in the first eight bytes and the flag are not read by the
    decoder. *)
Theorem encodeSeries_decodeSeries_roundtrip :
  forall (w : SegmentWAL) (first : RefSeries) (rest : list RefSeries) (flag : Z),
    Forall RefSeries_wf (first :: rest) ->
    SegmentWAL_encodeSeries w (first :: rest)
    = SegmentWAL_entry w WALEntrySeries walSeriesSimple
        (encodeSeries getWALBuffer (first :: rest))
    /\ walReader_decodeSeries flag (encodeSeries getWALBuffer (first :: rest))
       = Ok (first :: rest).
Proof.
  intros w first rest flag Hwf. split; [reflexivity|].
  apply decodeSeries_encodeSeries. exact Hwf.
Qed.

Lemma encodeSeries_decodeSeries_roundtrip_witness :
  walReader_decodeSeries 7
    (encodeSeries getWALBuffer
       [ {| rs_Ref := 2 ^ 64 - 1;
            rs_Labels := [ {| lbl_Name := "__name__"; lbl_Value := "up" |};
                           {| lbl_Name := "job"; lbl_Value := EmptyString |} ] |};
         {| rs_Ref := 0; rs_Labels := [] |} ])
  = Ok [ {| rs_Ref := 2 ^ 64 - 1;
            rs_Labels := [ {| lbl_Name := "__name__"; lbl_Value := "up" |};
                           {| lbl_Name := "job"; lbl_Value := EmptyString |} ] |};
         {| rs_Ref := 0; rs_Labels := [] |} ].
Proof.
  refine (proj2 (encodeSeries_decodeSeries_roundtrip
                   (fst (OpenSegmentWAL fs_empty "wal" 0)) _ _ 7 _)).
  repeat constructor; vm_compute; congruence.
Defined.

(** *** Deletes *)

Lemma encodeDeletes_buf_eq stones :
  encodeDeletes_buf stones
  = concat (map (fun s => concat (map (encodeDeletes_one (stone_ref s)) (stone_intervals s)))
              stones).
Proof.
  unfold encodeDeletes_buf, getWALBuffer.
  rewrite (fold_left_ext_eq _
             (fun buf s => buf ++ concat (map (encodeDeletes_one (stone_ref s))
                                            (stone_intervals s)))).
  - rewrite fold_left_app_map. reflexivity.
  - intros buf s. rewrite <- (fold_left_app_map (encodeDeletes_one (stone_ref s))).
    apply fold_left_ext_eq. intros b itv.
    unfold encodeDeletes_one, encbuf_get, encbuf_putVarint64, encbuf_putUvarint64, encbuf_reset.
    cbn [app]. rewrite <- !app_assoc. reflexivity.
Qed.

Lemma len_encodeDeletes_one ref itv : 3 <= len (encodeDeletes_one ref itv).
Proof.
  unfold encodeDeletes_one. rewrite !len_app.
  pose proof (len_PutUvarint ref). pose proof (len_PutVarint (itv_Mint itv)).
  pose proof (len_PutVarint (itv_Maxt itv)). lia.
Qed.

Lemma decodeDeletes_loop_interval ref itv rest fuel acc :
  is_uint64 ref -> is_int64 (itv_Mint itv) -> is_int64 (itv_Maxt itv) ->
  decodeDeletes_loop (S fuel) {| d_b := encodeDeletes_one ref itv ++ rest; d_e := None |} acc
  = decodeDeletes_loop fuel {| d_b := rest; d_e := None |}
      (acc ++ [{| stone_ref := ref; stone_intervals := [itv] |}]).
Proof.
  intros Href Hmin Hmax. cbn [decodeDeletes_loop]. unfold decbuf_len. cbn [d_b].
  pose proof (len_encodeDeletes_one ref itv) as H3. pose proof (len_nonneg rest) as Hr.
  destruct (Z.ltb_spec 0 (len (encodeDeletes_one ref itv ++ rest))) as [_|Hge];
    [|rewrite len_app in Hge; lia].
  unfold encodeDeletes_one. rewrite <- !app_assoc.
  unfold decbuf_uvarint64. rewrite decbuf_readUvarint_app by exact Href.
  unfold decbuf_varint64. cbn [d_e d_b].
  rewrite Varint_PutVarint by exact Hmin.
  pose proof (len_PutVarint (itv_Mint itv)) as H1.
  destruct (Z.ltb_spec (len (binary.PutVarint (itv_Mint itv))) 1) as [?|_]; [lia|].
  cbn [d_e d_b]. rewrite slice_from_app_len by reflexivity.
  rewrite Varint_PutVarint by exact Hmax.
  pose proof (len_PutVarint (itv_Maxt itv)) as H2.
  destruct (Z.ltb_spec (len (binary.PutVarint (itv_Maxt itv))) 1) as [?|_]; [lia|].
  unfold decbuf_err. cbn [d_e d_b]. rewrite slice_from_app_len by reflexivity.
  destruct itv; reflexivity.
Qed.

Lemma decodeDeletes_loop_intervals ref itvs :
  forall rest fuel acc,
    is_uint64 ref ->
    Forall (fun itv => is_int64 (itv_Mint itv) /\ is_int64 (itv_Maxt itv)) itvs ->
    decodeDeletes_loop (length itvs + fuel)
      {| d_b := concat (map (encodeDeletes_one ref) itvs) ++ rest; d_e := None |} acc
    = decodeDeletes_loop fuel {| d_b := rest; d_e := None |}
        (acc ++ map (fun itv => {| stone_ref := ref; stone_intervals := [itv] |}) itvs).
Proof.
  induction itvs as [|itv itvs IH]; intros rest fuel acc Href Hwf.
  - cbn. rewrite app_nil_r. reflexivity.
  - apply Forall_cons in Hwf. destruct Hwf as [[Hmin Hmax] Hwf].
    cbn [length map concat Nat.add]. rewrite <- app_assoc.
    rewrite decodeDeletes_loop_interval by assumption.
    rewrite IH by assumption. rewrite <- app_assoc. reflexivity.
Qed.

Lemma decodeDeletes_loop_stones stones :
  forall fuel acc,
    Forall Stone_wf stones ->
    decodeDeletes_loop (length (concat (map Stone_split stones)) + fuel)
      {| d_b := encodeDeletes_buf stones; d_e := None |} acc
    = decodeDeletes_loop fuel {| d_b := []; d_e := None |}
        (acc ++ concat (map Stone_split stones)).
Proof.
  rewrite encodeDeletes_buf_eq.
  induction stones as [|s stones IH]; intros fuel acc Hwf.
  - cbn. rewrite app_nil_r. reflexivity.
  - apply Forall_cons in Hwf. destruct Hwf as [[Href Hitv] Hwf].
    cbn [map concat]. rewrite length_app, <- Nat.add_assoc.
    unfold Stone_split at 1. rewrite length_map.
    rewrite decodeDeletes_loop_intervals by assumption.
    rewrite IH by exact Hwf. rewrite <- app_assoc. reflexivity.
Qed.

Lemma decodeDeletes_loop_nil fuel acc :
  decodeDeletes_loop fuel {| d_b := []; d_e := None |} acc = Ok acc.
Proof. destruct fuel; reflexivity. Qed.

Lemma length_Stone_split_le stones :
  (length (concat (map Stone_split stones)) <= length (encodeDeletes_buf stones))%nat.
Proof.
  rewrite encodeDeletes_buf_eq.
  induction stones as [|s stones IH]; cbn [map concat length]; [lia|].
  rewrite !length_app. unfold Stone_split at 1. rewrite length_map.
  assert (length (stone_intervals s)
          <= length (concat (map (encodeDeletes_one (stone_ref s)) (stone_intervals s))))%nat.
  { induction (stone_intervals s) as [|itv itvs IHi]; cbn [map concat length]; [lia|].
    rewrite length_app. pose proof (len_encodeDeletes_one (stone_ref s) itv).
    unfold len in *. lia. }
  lia.
Qed.

Lemma decodeDeletes_encodeDeletes flag stones :
  Forall Stone_wf stones ->
  walReader_decodeDeletes flag (encodeDeletes_buf stones)
  = Ok (concat (map Stone_split stones)).
Proof.
  intros Hwf. unfold walReader_decodeDeletes.
  pose proof (length_Stone_split_le stones) as Hle.
  replace (length (encodeDeletes_buf stones))
    with (length (concat (map Stone_split stones))
          + (length (encodeDeletes_buf stones)
             - length (concat (map Stone_split stones))))%nat by lia.
  rewrite decodeDeletes_loop_stones by exact Hwf.
  apply decodeDeletes_loop_nil.
Qed.

(** X2.  [encodeDeletes] followed by [decodeDeletes] gives one tombstone for
    every interval of every tombstone that was logged, in order, each with
    the reference of its tombstone and that one interval: a tombstone with
    several intervals comes back as several tombstones, and one without an
    interval does not come back. *)
Theorem encodeDeletes_decodeDeletes_roundtrip :
  forall (w : SegmentWAL) (stones : list Stone) (flag : Z),
    Forall Stone_wf stones ->
    SegmentWAL_encodeDeletes w stones
    = SegmentWAL_entry w WALEntryDeletes walDeletesSimple (encodeDeletes_buf stones)
    /\ walReader_decodeDeletes flag (encodeDeletes_buf stones)
       = Ok (concat (map Stone_split stones)).
Proof.
  intros w stones flag Hwf. split; [reflexivity|].
  apply decodeDeletes_encodeDeletes. exact Hwf.
Qed.

Lemma encodeDeletes_decodeDeletes_roundtrip_witness :
  walReader_decodeDeletes 1
    (encodeDeletes_buf
       [ {| stone_ref := 7;
            stone_intervals := [ {| itv_Mint := - 5; itv_Maxt := 10 |};
                                 {| itv_Mint := 20; itv_Maxt := 2 ^ 63 - 1 |} ] |};
         {| stone_ref := 8; stone_intervals := [] |};
         {| stone_ref := 2 ^ 64 - 1;
            stone_intervals := [ {| itv_Mint := - 2 ^ 63; itv_Maxt := 0 |} ] |} ])
  = Ok [ {| stone_ref := 7; stone_intervals := [ {| itv_Mint := - 5; itv_Maxt := 10 |} ] |};
         {| stone_ref := 7;
            stone_intervals := [ {| itv_Mint := 20; itv_Maxt := 2 ^ 63 - 1 |} ] |};
         {| stone_ref := 2 ^ 64 - 1;
            stone_intervals := [ {| itv_Mint := - 2 ^ 63; itv_Maxt := 0 |} ] |} ].
Proof.
  refine (proj2 (encodeDeletes_decodeDeletes_roundtrip
                   (fst (OpenSegmentWAL fs_empty "wal" 0)) _ 1 _)).
  repeat constructor; vm_compute; congruence.
Defined.


(** ** The replay of a log: what it leaves alone *)

Lemma File_Read_keeps fs fd n fs' got e :
  File_Read fs fd n = (fs', got, e) ->
  fs_inodes fs' = fs_inodes fs /\ fs_dir fs' = fs_dir fs.
Proof.
  unfold File_Read. destruct (fs_fds fs !! fd) as [f|]; [|intros H; inversion H; auto].
  destruct (f_closed f); [intros H; inversion H; auto|].
  destruct (_ && _); intros H; inversion H; auto.
Qed.

Lemma File_Close_keeps fs fd fs' e :
  File_Close fs fd = (fs', e) ->
  fs_inodes fs' = fs_inodes fs /\ fs_dir fs' = fs_dir fs.
Proof.
  unfold File_Close. destruct (fs_fds fs !! fd) as [f|]; [|intros H; inversion H; auto].
  destruct (f_closed f); intros H; inversion H; auto.
Qed.

Lemma File_Seek_set_keeps fs fd off fs' e :
  File_Seek_set fs fd off = (fs', e) ->
  fs_inodes fs' = fs_inodes fs /\ fs_dir fs' = fs_dir fs.
Proof.
  unfold File_Seek_set. destruct (fs_fds fs !! fd) as [f|]; [|intros H; inversion H; auto].
  destruct (f_closed f); [intros H; inversion H; auto|].
  destruct (off <? 0); intros H; inversion H; auto.
Qed.

Lemma os_Remove_keeps fs name fs' e :
  os_Remove fs name = (fs', e) -> fs_inodes fs' = fs_inodes fs.
Proof.
  unfold os_Remove. destruct (fs_dir fs !! name); intros H; inversion H; auto.
Qed.

(** What [entry] keeps, whatever it reads. *)
Lemma walReader_entry_keeps r cr r' res :
  walReader_entry r cr = (r', res) ->
  fs_inodes (w_fs (r_wal r')) = fs_inodes (w_fs (r_wal r))
  /\ fs_dir (w_fs (r_wal r')) = fs_dir (w_fs (r_wal r))
  /\ w_files (r_wal r') = w_files (r_wal r)
  /\ r_cur r' = r_cur r /\ r_mint r' = r_mint r /\ r_err r' = r_err r.
Proof.
  unfold walReader_entry. cbv zeta.
  destruct (File_Read (w_fs (r_wal r)) cr 6) as [[fs1 b] [e1|]] eqn:E1;
    apply File_Read_keeps in E1; destruct E1 as [I1 D1];
    [intros H; inversion H; subst; cbn; repeat split; congruence|].
  destruct (negb (len b =? 6)); [intros H; inversion H; subst; cbn; repeat split; congruence|].
  destruct (_ =? 0); [intros H; inversion H; subst; cbn; repeat split; congruence|].
  destruct (_ && _); [intros H; inversion H; subst; cbn; repeat split; congruence|].
  set (r1 := if len (r_buf (r_set_fs r fs1)) <? _ then _ else _).
  assert (H1 : w_fs (r_wal r1) = fs1 /\ w_files (r_wal r1) = w_files (r_wal r)
               /\ r_cur r1 = r_cur r /\ r_mint r1 = r_mint r /\ r_err r1 = r_err r).
  { unfold r1. destruct (_ <? _); cbn; auto. }
  destruct H1 as (F1 & W1 & C1 & M1 & R1). clearbody r1.
  destruct (File_Read (w_fs (r_wal r1)) cr _) as [[fs2 got] [e2|]] eqn:E2;
    apply File_Read_keeps in E2; destruct E2 as [I2 D2]; rewrite F1 in I2, D2;
    [intros H; inversion H; subst; cbn; repeat split; congruence|].
  destruct (negb (len got =? _));
    [intros H; inversion H; subst; cbn; repeat split; congruence|].
  match goal with |- context [File_Read ?fs cr 4] =>
    destruct (File_Read fs cr 4) as [[fs3 b4] [e3|]] eqn:E3 end;
    apply File_Read_keeps in E3; destruct E3 as [I3 D3]; cbn in I3, D3;
    [intros H; inversion H; subst; cbn; repeat split; congruence|].
  destruct (negb (len b4 =? 4));
    [intros H; inversion H; subst; cbn; repeat split; congruence|].
  destruct (negb (_ =? _)); intros H; inversion H; subst; cbn; repeat split; congruence.
Qed.

Lemma walReader_truncate_files_keeps files :
  forall fs fs' e,
    walReader_truncate_files fs files = (fs', e) -> fs_inodes fs' = fs_inodes fs.
Proof.
  induction files as [|sf files IH]; intros fs fs' e; cbn [walReader_truncate_files].
  - intros H; inversion H; auto.
  - destruct (File_Close fs (sf_f sf)) as [fs1 [e1|]] eqn:E1;
      apply File_Close_keeps in E1; destruct E1 as [I1 _];
      [intros H; inversion H; subst; auto|].
    destruct (os_Remove fs1 _) as [fs2 [e2|]] eqn:E2; apply os_Remove_keeps in E2;
      [intros H; inversion H; subst; congruence|].
    intros H. apply IH in H. congruence.
Qed.

Lemma walReader_truncate_keeps r off r' e :
  walReader_truncate r off = (r', e) ->
  fs_inodes (w_fs (r_wal r')) = fs_inodes (w_fs (r_wal r)).
Proof.
  unfold walReader_truncate. cbv zeta.
  destruct (walReader_truncate_files _ _) as [fs1 [e1|]] eqn:E1;
    apply walReader_truncate_files_keeps in E1;
    [intros H; inversion H; subst; cbn; auto|].
  match goal with |- context [File_Seek_set ?fs ?fd ?o] =>
    destruct (File_Seek_set fs fd o) as [fs2 e2] eqn:E2 end.
  apply File_Seek_set_keeps in E2. destruct E2 as [I2 _]. cbn in I2.
  intros H; inversion H; subst; cbn. congruence.
Qed.

Lemma walReader_next_aux_keeps fuel :
  forall r r' ok,
    walReader_next_aux fuel r = (r', ok) ->
    fs_inodes (w_fs (r_wal r')) = fs_inodes (w_fs (r_wal r)).
Proof.
  induction fuel as [|fuel IH]; intros r r' ok; cbn [walReader_next_aux].
  - intros H; inversion H; auto.
  - destruct (_ <=? _); [intros H; inversion H; auto|].
    destruct (File_Seek_cur _ _) as [lastOffset|e0]; [|intros H; inversion H; auto].
    destruct (walReader_entry r _) as [r1 res] eqn:E1.
    apply walReader_entry_keeps in E1. destruct E1 as (I1 & _).
    destruct res as [[[et flag] b]|e1].
    + intros H; inversion H; subst; cbn; auto.
    + assert (Htr : forall x,
                 (let r2 := r_set_err r1 (Some e1) in
                  if is_walCorruptionErr e1
                  then let '(r3, err) := walReader_truncate r2 lastOffset in
                       (r_set_err r3 err, false)
                  else (r2, false)) = x ->
                 fs_inodes (w_fs (r_wal (fst x))) = fs_inodes (w_fs (r_wal r))).
      { intros x. cbv zeta. unfold is_walCorruptionErr.
        destruct (walReader_truncate _ _) as [r3 err] eqn:E3.
        apply walReader_truncate_keeps in E3. cbn in E3.
        intros <-. cbn. congruence. }
      destruct e1; try (intros H; exact (Htr _ H)).
      destruct (_ =? _); [intros H; inversion H; subst; auto|].
      destruct (File_Close _ _) as [fs2 [e2|]] eqn:E2;
        apply File_Close_keeps in E2; destruct E2 as [I2 _];
        [intros H; inversion H; subst; cbn; congruence|].
      intros H. apply IH in H. cbn in H. congruence.
Qed.

Lemma walReader_Read_step_keeps r out r' out' e :
  walReader_Read_step r out = (r', out', e) ->
  w_fs (r_wal r') = w_fs (r_wal r).
Proof.
  unfold walReader_Read_step. destruct (walReader_at r) as [[et flag] b].
  destruct (et =? WALEntrySeries).
  { destruct (walReader_decodeSeries _ _); intros H; inversion H; auto. }
  destruct (et =? WALEntrySamples).
  { destruct (walReader_decodeSamples _ _); [|intros H; inversion H; auto].
    destruct (_ !! _); [|intros H; inversion H; auto].
    destruct (Read_validSamples _ _ _). intros H; inversion H; auto. }
  destruct (et =? WALEntryDeletes).
  { destruct (walReader_decodeDeletes _ _); intros H; inversion H; auto. }
  intros H; inversion H; auto.
Qed.

Lemma walReader_Read_loop_keeps fuel :
  forall r out r' out' e,
    walReader_Read_loop fuel r out = (r', out', e) ->
    fs_inodes (w_fs (r_wal r')) = fs_inodes (w_fs (r_wal r)).
Proof.
  induction fuel as [|fuel IH]; intros r out r' out' e; cbn [walReader_Read_loop].
  - intros H; inversion H; auto.
  - destruct (walReader_next r) as [r1 ok] eqn:E1.
    apply walReader_next_aux_keeps in E1.
    destruct ok; [|intros H; inversion H; subst; auto].
    destruct (walReader_Read_step r1 out) as [[r2 out2] [e2|]] eqn:E2;
      apply walReader_Read_step_keeps in E2.
    + intros H; inversion H; subst. congruence.
    + intros H. apply IH in H. congruence.
Qed.

(** X7.  [Read] never changes a byte of a file, whatever the segments hold and
    whatever state the reader and the log are in.  When it meets a torn
    frame it closes and removes the later segments and seeks in the current
    one; the torn bytes stay in the file. *)
Theorem walReader_Read_keeps_file_bytes :
  forall r : walReader,
    fs_inodes (w_fs (r_wal (fst (fst (walReader_Read r))))) = fs_inodes (w_fs (r_wal r)).
Proof.
  intros r. unfold walReader_Read.
  destruct (walReader_Read_loop _ r []) as [[r' out] e] eqn:E.
  apply walReader_Read_loop_keeps in E. exact E.
Qed.

(** ** The replay of a log without a torn frame *)

Lemma walReader_next_aux_true_keeps fuel :
  forall r r',
    walReader_next_aux fuel r = (r', true) ->
    fs_dir (w_fs (r_wal r')) = fs_dir (w_fs (r_wal r)).
Proof.
  induction fuel as [|fuel IH]; intros r r'; cbn [walReader_next_aux].
  - intros H; inversion H.
  - destruct (_ <=? _); [intros H; inversion H|].
    destruct (File_Seek_cur _ _) as [lastOffset|e0]; [|intros H; inversion H].
    destruct (walReader_entry r _) as [r1 res] eqn:E1.
    apply walReader_entry_keeps in E1. destruct E1 as (_ & D1 & _).
    destruct res as [[[et flag] b]|e1].
    + intros H; inversion H; subst; cbn; auto.
    + assert (Htr : forall x,
                 (let r2 := r_set_err r1 (Some e1) in
                  if is_walCorruptionErr e1
                  then let '(r3, err) := walReader_truncate r2 lastOffset in
                       (r_set_err r3 err, false)
                  else (r2, false)) = (x, true) -> False).
      { intros x. cbv zeta. unfold is_walCorruptionErr.
        destruct (walReader_truncate _ _) as [r3 err]. intros H; inversion H. }
      destruct e1; try (intros H; exfalso; exact (Htr _ H)).
      destruct (_ =? _); [intros H; inversion H|].
      destruct (File_Close _ _) as [fs2 [e2|]] eqn:E2;
        apply File_Close_keeps in E2; destruct E2 as [_ D2];
        [intros H; inversion H|].
      intros H. apply IH in H. cbn in H. congruence.
Qed.

(** The end of a segment that is not the last, with the directory. *)
Lemma walReader_next_end_dir mint r pre fd fd2 cur' later segs' tail fuel :
  reading mint r pre (fd :: fd2 :: cur') later ([] :: segs') tail ->
  exists r',
    walReader_next_aux (S fuel) r = walReader_next_aux fuel r'
    /\ reading mint r' (pre ++ [fd]) (fd2 :: cur') later segs' tail
    /\ fs_dir (w_fs (r_wal r')) = fs_dir (w_fs (r_wal r)).
Proof.
  intros Hr.
  destruct (reading_current _ _ _ _ _ _ _ _ Hr) as (Hlt & Hfile & Hlast & Hnc & Hnl).
  destruct Hr as (Hwf & Hmint & Herr & Hcur & Hfds & Hsegs & Hnd & Hlater).
  destruct (segs_at_inv _ _ _ _ Hsegs) as (fd0 & fds0 & es0 & segs0 & z & E1 & E2 & Hz & Hc).
  inversion E1; subst fd0 fds0. inversion E2; subst es0 segs0. clear E1 E2.
  destruct Hc as [(Habs & _)|[He Hrest]]; [discriminate|].
  change (wal_frames [] ++ z) with z in Hz.
  destruct (File_Seek_cur_open _ _ (proj1 Hz)) as (f & Hf & Hfo & Hseek).
  destruct (walReader_entry_end r fd z Hwf Hz He) as (r1 & E & M & O).
  destruct M as (M1 & M2 & M3 & M4 & M5 & M6).
  destruct (File_Close_open _ fd M5 O) as (f1 & Hf1 & Ec & Wc & Sc).
  set (fs2 := fs_set_fd (w_fs (r_wal r1)) fd (File_set_closed f1)) in *.
  assert (Hse : fs_same_except (w_fs (r_wal r)) fs2 fd)
    by (eapply fs_same_except_trans; eassumption).
  exists (r_set_cur (r_set_fs r1 fs2) (r_cur r1 + 1)).
  split; [|split].
  - cbn [walReader_next_aux]. rewrite Hlt, Hfile, Hseek, E. cbv beta iota zeta.
    rewrite M2, M4, Hlast, Ec. reflexivity.
  - unfold reading. cbn [r_set_cur r_set_fs r_set_wal w_set_fs r_mint r_err r_cur r_wal w_fs].
    split; [exact Wc|]. split; [congruence|]. split; [congruence|].
    split; [rewrite M2, Hcur, len_app, len_cons, len_nil; lia|].
    split; [|split; [|split]].
    + unfold reader_fds in *. cbn. rewrite M4, Hfds, <- app_assoc. reflexivity.
    + eapply segs_at_same_except; [exact Hse| |exact Hrest]. exact Hnc.
    + cbn [app] in Hnd. apply NoDup_cons in Hnd. exact (proj2 Hnd).
    + eapply later_segments_same_except; eassumption.
  - cbn [r_set_cur r_set_fs r_set_wal w_set_fs r_wal w_fs].
    destruct Hse as (_ & HD & _). exact HD.
Qed.

(** The end of the last segment: [next] returns false, there is no error
    and nothing is closed or removed. *)
Lemma walReader_next_done mint r pre fd tail fuel :
  reading mint r pre [fd] [] [[]] tail -> segment_end tail ->
  exists r',
    walReader_next_aux (S fuel) r = (r', false)
    /\ r_mint r' = mint
    /\ r_err r' = None
    /\ reader_fds r' = pre ++ [fd]
    /\ fd_open (w_fs (r_wal r')) fd
    /\ fs_dir (w_fs (r_wal r')) = fs_dir (w_fs (r_wal r)).
Proof.
  intros Hr Hend.
  destruct (reading_current _ _ _ _ _ _ _ _ Hr) as (Hlt & Hfile & Hlast & _ & _).
  destruct Hr as (Hwf & Hmint & Herr & Hcur & Hfds & Hsegs & Hnd & Hlater).
  assert (Hz : seg_at (w_fs (r_wal r)) fd tail) by exact Hsegs.
  destruct (File_Seek_cur_open _ _ (proj1 Hz)) as (f & Hf & Hfo & Hseek).
  destruct (walReader_entry_end r fd tail Hwf Hz Hend) as (r1 & E & M & O).
  destruct M as (M1 & M2 & M3 & M4 & M5 & M6).
  exists r1.
  split; [|split; [congruence|split; [congruence|split; [|split; [exact O|]]]]].
  - cbn [walReader_next_aux]. rewrite Hlt, Hfile, Hseek, E. cbv beta iota zeta.
    rewrite M2, M4, Hlast. reflexivity.
  - unfold reader_fds in *. rewrite M4, Hfds, app_nil_r. reflexivity.
  - destruct M6 as (_ & HD & _). exact HD.
Qed.

Lemma walReader_next_aux_spec_end mint tail :
  segment_end tail ->
  forall segs cur fuel r pre,
    reading mint r pre cur [] segs tail ->
    Forall (Forall wal_entry_ok) segs ->
    (length cur <= fuel)%nat ->
    match concat segs with
    | e :: rest =>
        exists r' pre' cur' segs',
          walReader_next_aux fuel r = (r', true)
          /\ walReader_at r' = (e_type e, e_flag e, e_buf e)
          /\ reading mint r' pre' cur' [] segs' tail
          /\ concat segs' = rest
          /\ pre' ++ cur' = pre ++ cur
          /\ Forall (Forall wal_entry_ok) segs'
    | [] =>
        exists r',
          walReader_next_aux fuel r = (r', false)
          /\ r_mint r' = mint
          /\ r_err r' = None
          /\ reader_fds r' = pre ++ cur
          /\ (exists fd, last cur = Some fd /\ fd_open (w_fs (r_wal r')) fd)
          /\ fs_dir (w_fs (r_wal r')) = fs_dir (w_fs (r_wal r))
    end.
Proof.
  intros Hend.
  induction segs as [|es segs IH]; intros cur fuel r pre Hr Hok Hfuel.
  { destruct Hr as (_ & _ & _ & _ & _ & Hsegs & _).
    destruct cur as [|? [|? ?]]; contradiction. }
  pose proof Hr as (_ & _ & _ & _ & _ & Hsegs & _).
  destruct (segs_at_inv _ _ _ _ Hsegs) as (fd & cur' & es0 & segs0 & z & E1 & E2 & Hz & Hc).
  inversion E2; subst es0 segs0. subst cur. clear E2.
  destruct fuel as [|fuel]; [cbn in Hfuel; lia|].
  apply Forall_cons in Hok. destruct Hok as [Hes Hok].
  destruct es as [|e es].
  - destruct Hc as [(-> & -> & ->)|[He Hrest]].
    + cbn [concat app].
      destruct (walReader_next_done mint r pre fd tail fuel Hr Hend)
        as (r' & En & Hm & He & Hf & Ho & Hd).
      exists r'. split; [exact En|]. split; [exact Hm|]. split; [exact He|].
      split; [exact Hf|]. split; [|exact Hd].
      exists fd. split; [reflexivity|exact Ho].
    + destruct (segs_at_inv _ _ _ _ Hrest) as (fd2 & cur2 & ? & ? & ? & -> & _).
      destruct (walReader_next_end_dir mint r pre fd fd2 cur2 [] segs tail fuel Hr)
        as (r2 & En & Hr2 & Hd2).
      specialize (IH (fd2 :: cur2) fuel r2 (pre ++ [fd]) Hr2 Hok).
      cbn [concat app]. rewrite En.
      assert (Hf2 : (length (fd2 :: cur2) <= fuel)%nat) by (cbn in Hfuel |- *; lia).
      specialize (IH Hf2).
      destruct (concat segs) as [|e rest].
      * destruct IH as (r' & En' & Hm & He' & Hf & (fdl & Hlast & Hs) & Hd).
        exists r'. split; [exact En'|]. split; [exact Hm|]. split; [exact He'|].
        split; [rewrite Hf, <- app_assoc; reflexivity|]. split; [|congruence].
        exists fdl. split; [|exact Hs]. exact Hlast.
      * destruct IH as (r' & pre' & cur' & segs' & En' & Hat & Hr' & Hcc & Hpc & Hok').
        exists r', pre', cur', segs'.
        split; [exact En'|]. split; [exact Hat|]. split; [exact Hr'|].
        split; [exact Hcc|]. split; [|exact Hok'].
        rewrite Hpc, <- app_assoc. reflexivity.
  - apply Forall_cons in Hes. destruct Hes as [He Hes].
    cbn [concat app].
    destruct (walReader_next_valid mint r pre fd cur' [] e es segs tail fuel Hr He)
      as (r' & En & Hat & Hr').
    exists r', pre, (fd :: cur'), (es :: segs).
    split; [exact En|]. split; [exact Hat|]. split; [exact Hr'|].
    split; [reflexivity|]. split; [reflexivity|].
    constructor; assumption.
Qed.

Lemma walReader_Read_loop_spec_end mint tail :
  segment_end tail ->
  forall n segs cur fuel r pre out,
    length (concat segs) = n -> (n < fuel)%nat ->
    reading mint r pre cur [] segs tail ->
    Forall (Forall wal_entry_ok) segs ->
    Forall (wal_entry_decodes mint) (concat segs) ->
    exists r',
      walReader_Read_loop fuel r out = (r', out ++ wal_deliveries mint (concat segs), None)
      /\ r_mint r' = mint
      /\ reader_fds r' = pre ++ cur
      /\ (exists fd, last (pre ++ cur) = Some fd /\ fd_open (w_fs (r_wal r')) fd)
      /\ fs_dir (w_fs (r_wal r')) = fs_dir (w_fs (r_wal r)).
Proof.
  intros Hend.
  induction n as [|n IH]; intros segs cur fuel r pre out Hn Hfuel Hr Hok Hdec;
    (destruct fuel as [|fuel]; [lia|]);
    pose proof (walReader_next_aux_spec_end mint tail Hend segs cur
                  (S (length (w_files (r_wal r)))) r pre Hr Hok
                  (reading_fuel _ _ _ _ _ _ _ Hr)) as Hnext;
    pose proof (proj2 (Forall_concat _ _) Hok) as Hokc;
    destruct (concat segs) as [|e rest]; try discriminate.
  - destruct Hnext as (r' & En & Hm & He & Hf & (fd & Hlast & Hs) & Hd).
    exists r'. cbn [walReader_Read_loop]. unfold walReader_next. rewrite En.
    unfold walReader_Err. rewrite He.
    split; [unfold wal_deliveries; cbn; rewrite app_nil_r; reflexivity|].
    split; [exact Hm|]. split; [exact Hf|]. split; [|exact Hd].
    exists fd. split; [|exact Hs].
    rewrite last_app, Hlast. reflexivity.
  - destruct Hnext as (r1 & pre' & cur' & segs' & En & Hat & Hr1 & Hcc & Hpc & Hok').
    pose proof (walReader_next_aux_true_keeps _ _ _ En) as Hd1.
    apply Forall_cons in Hdec. destruct Hdec as [[d Hd] Hdec].
    apply Forall_cons in Hokc. destruct Hokc as [Hek _].
    destruct (walReader_Read_step_spec mint r1 pre' cur' [] segs' tail e out d
                Hr1 Hat Hek Hd) as (r2 & Es & Hr2).
    pose proof (walReader_Read_step_keeps _ _ _ _ _ Es) as Hd2.
    subst rest. cbn [length] in Hn.
    destruct (IH segs' cur' fuel r2 pre' (out ++ [d])) as (r' & El & Hm & Hf & Hlast & Hdl);
      [lia|lia|exact Hr2|exact Hok'|exact Hdec|].
    exists r'. cbn [walReader_Read_loop]. unfold walReader_next. rewrite En, Es.
    rewrite El, (wal_deliveries_cons mint e _ d Hd), <- app_assoc.
    split; [reflexivity|]. split; [exact Hm|].
    rewrite <- Hpc. split; [exact Hf|]. split; [exact Hlast|].
    rewrite Hdl, Hd2. exact Hd1.
Qed.

(** X5.  The replay of a log whose segments hold complete entries that decode,
    each segment up to its end (the end of the file, or the zero type byte
    of preallocated space): [Read] hands every entry to its callback, in
    the order of the segments, and returns no error; no name leaves the
    directory and the last segment stays open. *)
Theorem walReader_Read_intact mint r pre cur segs tail :
  reading mint r pre cur [] segs tail ->
  segment_end tail ->
  Forall (Forall wal_entry_ok) segs ->
  Forall (wal_entry_decodes mint) (concat segs) ->
  exists r' fd,
    walReader_Read r = (r', wal_deliveries mint (concat segs), None)
    /\ reader_fds r' = pre ++ cur
    /\ last cur = Some fd
    /\ fd_open (w_fs (r_wal r')) fd
    /\ fs_dir (w_fs (r_wal r')) = fs_dir (w_fs (r_wal r)).
Proof.
  intros Hr Hend Hok Hdec.
  destruct (walReader_Read_loop_spec_end mint tail Hend (length (concat segs))
              segs cur (S (walReader_remaining r)) r pre [] eq_refl)
    as (r' & E & _ & Hf & (fd & Hlast & Hs) & Hd);
    [pose proof (reading_remaining _ _ _ _ _ _ _ Hr); lia|exact Hr|exact Hok|exact Hdec|].
  exists r', fd. split; [exact E|]. split; [exact Hf|]. split; [|split; [exact Hs|exact Hd]].
  destruct Hr as (_ & _ & _ & _ & _ & Hsegs & _).
  destruct (segs_at_inv _ _ _ _ Hsegs) as (fd0 & cur0 & ? & ? & ? & -> & _).
  rewrite last_app_cons in Hlast. exact Hlast.
Qed.

(** The replay of the log of two complete segments from time 15 on: the
    series entry and, of the samples entry, the sample at time 20. *)
Lemma walReader_Read_intact_witness :
  exists r' fd,
    walReader_Read example_replay_intact
    = (r', [seriesf [{| rs_Ref := 1;
                        rs_Labels := [{| lbl_Name := "job"; lbl_Value := "api" |}] |}];
            samplesf [{| smpl_Ref := 1; smpl_T := 20; smpl_V := 8 |}]], None)
    /\ reader_fds r' = [0; 1]%nat
    /\ last [0; 1]%nat = Some fd
    /\ fd_open (w_fs (r_wal r')) fd
    /\ fs_dir (w_fs (r_wal r')) = fs_dir (w_fs (r_wal example_replay_intact)).
Proof.
  apply (walReader_Read_intact 15 example_replay_intact [] [0; 1]%nat
           [[example_series_entry]; [example_samples_entry]] []).
  - unfold reading.
    split; [apply FS_wfb_sound; vm_compute; reflexivity|].
    split; [reflexivity|]. split; [reflexivity|]. split; [reflexivity|].
    split; [reflexivity|].
    split; [|split].
    + split.
      * exists (zeros 16). split.
        -- split; [|vm_compute; reflexivity].
           eexists. split; [reflexivity|reflexivity].
        -- right. split; [vm_compute; discriminate|reflexivity].
      * split; [|vm_compute; reflexivity].
        eexists. split; [reflexivity|reflexivity].
    + apply (bool_decide_unpack _). vm_compute. exact I.
    + split; constructor.
  - left. reflexivity.
  - constructor; [|constructor; [|constructor]]; (constructor; [|constructor]).
    + split; [left; reflexivity|]. split; [vm_compute; split; [discriminate|reflexivity]|].
      vm_compute. reflexivity.
    + split; [right; left; reflexivity|].
      split; [vm_compute; split; [discriminate|reflexivity]|].
      vm_compute. reflexivity.
  - constructor; [|constructor; [|constructor]]; eexists; vm_compute; reflexivity.
Defined.

(** ** The samples [Read] delivers *)

Lemma Read_validSamples_fold mint s :
  forall maxt valid,
    fold_left
      (fun '(maxt, valid) smpl =>
         if smpl_T smpl <? mint then (maxt, valid)
         else ((if maxt <? smpl_T smpl then smpl_T smpl else maxt), valid ++ [smpl]))
      s (maxt, valid)
    = (fold_left Z.max (map smpl_T (List.filter (fun x => mint <=? smpl_T x) s)) maxt,
       valid ++ List.filter (fun x => mint <=? smpl_T x) s).
Proof.
  induction s as [|x s IH]; intros maxt valid.
  - cbn. rewrite app_nil_r. reflexivity.
  - cbn [fold_left List.filter].
    destruct (Z.ltb_spec (smpl_T x) mint) as [Hlt|Hge].
    + destruct (Z.leb_spec mint (smpl_T x)) as [?|_]; [lia|]. apply IH.
    + destruct (Z.leb_spec mint (smpl_T x)) as [_|?]; [|lia].
      rewrite IH. cbn [map fold_left]. rewrite <- app_assoc. cbn [app].
      f_equal. f_equal.
      destruct (Z.ltb_spec maxt (smpl_T x)); lia.
Qed.

Lemma fold_left_max_spec l :
  forall m,
    m <= fold_left Z.max l m
    /\ Forall (fun t => t <= fold_left Z.max l m) l
    /\ (fold_left Z.max l m = m \/ In (fold_left Z.max l m) l).
Proof.
  induction l as [|t l IH]; intros m; cbn [fold_left].
  - split; [lia|]. split; [constructor|]. left. reflexivity.
  - destruct (IH (Z.max m t)) as (H1 & H2 & H3).
    split; [lia|]. split; [constructor; [lia|exact H2]|].
    destruct H3 as [H3|H3].
    + destruct (Z.max_spec m t) as [[? Hm]|[? Hm]].
      * right. left. lia.
      * left. lia.
    + right. right. exact H3.
Qed.

(** X6.  The samples branch of [Read]: of the samples of the entry, those with a
    time at or after [mint] go to the callback, in their order, and the
    others are dropped.  The [maxt] of the segment the entry was read from
    becomes the greatest of its old value and the times of the samples that
    were delivered; a dropped sample does not raise it and nothing lowers
    it. *)
Theorem walReader_Read_samples_from_mint :
  forall (r : walReader) (out : list delivery) (flag : Z) (b : list byte)
         (s : list RefSample) (cf : segmentFile),
    walReader_at r = (WALEntrySamples, flag, b) ->
    walReader_decodeSamples flag b = Ok s ->
    w_files (r_wal r) !! Z.to_nat (r_cur r) = Some cf ->
    let valid := List.filter (fun x => r_mint r <=? smpl_T x) s in
    exists r' maxt,
      walReader_Read_step r out = (r', out ++ [samplesf valid], None)
      /\ w_files (r_wal r')
         = <[Z.to_nat (r_cur r) := {| sf_f := sf_f cf; sf_maxt := maxt |}]> (w_files (r_wal r))
      /\ sf_maxt cf <= maxt
      /\ Forall (fun x => smpl_T x <= maxt) valid
      /\ (maxt = sf_maxt cf \/ exists x, In x valid /\ smpl_T x = maxt).
Proof.
  intros r out flag b s cf Hat Hdec Hcf valid.
  unfold walReader_Read_step. rewrite Hat. cbv beta iota.
  change (WALEntrySamples =? WALEntrySeries) with false.
  change (WALEntrySamples =? WALEntrySamples) with true. cbv beta iota.
  rewrite Hdec, Hcf. unfold Read_validSamples. rewrite Read_validSamples_fold.
  cbn [app]. fold valid.
  destruct (fold_left_max_spec (map smpl_T valid) (sf_maxt cf)) as (H1 & H2 & H3).
  eexists. eexists. split; [reflexivity|]. split; [reflexivity|].
  split; [exact H1|]. split.
  - apply Forall_forall. intros x Hx. rewrite Forall_forall in H2.
    apply H2. apply list_elem_of_fmap. exists x. split; [reflexivity|exact Hx].
  - destruct H3 as [H3|H3]; [left; exact H3|right].
    apply in_map_iff in H3. destruct H3 as (x & Hx & Hin). exists x. auto.
Qed.

Lemma walReader_Read_samples_from_mint_witness :
  exists r' maxt,
    walReader_Read_step example_reader_at_samples []
    = (r', [samplesf [{| smpl_Ref := 1; smpl_T := 20; smpl_V := 8 |}]], None)
    /\ w_files (r_wal r')
       = <[1%nat := {| sf_f := 1%nat; sf_maxt := maxt |}]>
           (w_files (r_wal example_reader_at_samples))
    /\ 0 <= maxt
    /\ Forall (fun x => smpl_T x <= maxt) [{| smpl_Ref := 1; smpl_T := 20; smpl_V := 8 |}]
    /\ (maxt = 0
        \/ exists x, In x [{| smpl_Ref := 1; smpl_T := 20; smpl_V := 8 |}]
                     /\ smpl_T x = maxt).
Proof.
  apply (walReader_Read_samples_from_mint example_reader_at_samples [] walSamplesSimple
           (e_buf example_samples_entry)
           [{| smpl_Ref := 1; smpl_T := 10; smpl_V := 7 |};
            {| smpl_Ref := 1; smpl_T := 20; smpl_V := 8 |}]
           {| sf_f := 1%nat; sf_maxt := 0 |});
    vm_compute; reflexivity.
Defined.


(** ** The frame of an entry, written and read *)

(** X3.  [entry] appends one frame to the segment being written: the type byte,
    the flag byte, the length of the payload in four big-endian bytes, the
    payload, and the CRC-32 (Castagnoli) of these in four big-endian bytes.
    When it cuts a new segment first, the frame follows the eight header
    bytes of that segment.  The write position advances by the ten bytes of
    the frame and the length of the payload. *)
Theorem SegmentWAL_entry_appends_frame :
  forall (w : SegmentWAL) (et flag : Z) (buf : list byte),
    SegmentWAL_writable w ->
    0 <= w_curN w -> w_curN w + 18 + len buf < 2 ^ 63 ->
    exists w',
      SegmentWAL_entry w et flag buf = (w', None)
      /\ SegmentWAL_stream w'
         = (if SegmentWAL_entry_cuts w buf then segment_header else SegmentWAL_stream w)
           ++ entry_header et flag buf ++ buf
           ++ binary.PutUint32
                (crc32.Write (crc32.Write crc32.Reset (entry_header et flag buf)) buf)
      /\ w_curN w' = (if SegmentWAL_entry_cuts w buf then 8 else w_curN w) + 10 + len buf.
Proof.
  intros w et flag buf Hw Hn Hmax.
  pose proof (len_nonneg buf) as Hb.
  assert (Hsz : int64 (6 + 4 + len buf) = 10 + len buf)
    by (rewrite int64_small by (unfold is_int64; lia); lia).
  destruct (SegmentWAL_entry_cuts w buf) eqn:Ec.
  - destruct (SegmentWAL_entry_cut w et flag buf Hw Ec) as (w' & E & _ & S & N & _).
    exists w'. split; [exact E|]. split; [exact S|].
    rewrite N, Hsz. rewrite int64_small by (unfold is_int64; lia). lia.
  - destruct (SegmentWAL_entry_no_cut w et flag buf Hw Ec) as (w' & E & _ & S & N & _).
    exists w'. split; [exact E|]. split; [exact S|].
    rewrite N, Hsz. rewrite int64_small by (unfold is_int64; lia). lia.
Qed.

Lemma SegmentWAL_entry_appends_frame_witness :
  exists w',
    SegmentWAL_entry example_wal_oversize WALEntrySeries walSeriesSimple [Byte.x2a] = (w', None)
    /\ SegmentWAL_stream w'
       = segment_header
         ++ [Byte.x02; Byte.x01; Byte.x00; Byte.x00; Byte.x00; Byte.x01; Byte.x2a]
         ++ binary.PutUint32
              (crc32.Checksum [Byte.x02; Byte.x01; Byte.x00; Byte.x00; Byte.x00; Byte.x01;
                               Byte.x2a])
    /\ w_curN w' = 19.
Proof.
  assert (Hwf : FS_wf (w_fs example_wal_oversize)).
  { apply FS_wfb_sound. vm_compute. reflexivity. }
  assert (Hw : SegmentWAL_writable example_wal_oversize).
  { split; [exact Hwf|]. split.
    - intros tf Ht. vm_compute in Ht. inversion Ht; subst.
      eexists. split; vm_compute; reflexivity.
    - intros b Hb. vm_compute in Hb. inversion Hb; subst.
      split; [reflexivity|]. eexists. split; vm_compute; reflexivity. }
  destruct (SegmentWAL_entry_appends_frame example_wal_oversize WALEntrySeries
              walSeriesSimple [Byte.x2a] Hw)
    as (w' & E & S & N).
  - vm_compute. discriminate.
  - vm_compute. reflexivity.
  - exists w'. split; [exact E|]. split; [rewrite S|rewrite N]; vm_compute; reflexivity.
Defined.

(** X4.  [entry] of the reader on the bytes of a frame of a known type, followed
    by any four bytes [c] in the place of the checksum: the entry is
    returned with its type, flag and payload when [c] is the CRC-32 of the
    header and the payload, as it is in the frame [entry] of the writer
    lays out; with any other [c] the result is a corruption error.  Either
    way the handle is left just after the four bytes. *)
Theorem walReader_entry_verifies_checksum :
  forall (r : walReader) (cr : nat) (et flag : Z) (buf c rest : list byte),
    FS_wf (w_fs (r_wal r)) ->
    seg_at (w_fs (r_wal r)) cr (entry_header et flag buf ++ buf ++ c ++ rest) ->
    known_type et -> 0 <= flag < 256 -> len buf < 2 ^ 32 -> len c = 4 ->
    let crc := crc32.Write (crc32.Write crc32.Reset (entry_header et flag buf)) buf in
    exists r',
      walReader_entry r cr
      = (r', if binary.Uint32 c =? crc then Ok (et, flag, buf)
             else Err (walCorruptionErr "unexpected CRC32 checksum %x, want %x" crc))
      /\ seg_at (w_fs (r_wal r')) cr rest
      /\ (entry_header et flag buf ++ buf ++ c = entry_frame et flag buf ->
          binary.Uint32 c = crc).
Proof.
  intros r cr et flag buf c rest Hwf Hat Hk Hflag Hlen Hc crc.
  pose proof (known_type_range _ Hk) as Hr.
  destruct (walReader_entry_frame r cr (entry_header et flag buf) buf c rest Hwf Hat)
    as (r' & E & _ & Hrest).
  - apply len_entry_header.
  - pose proof (header_type_entry_header et flag buf [] ltac:(lia)) as Ht.
    rewrite app_nil_r in Ht. rewrite Ht. exact Hk.
  - pose proof (header_length_entry_header et flag buf [] Hlen) as Hl.
    rewrite app_nil_r in Hl. rewrite Hl. reflexivity.
  - exact Hc.
  - exists r'. split; [|split; [exact Hrest|]].
    + rewrite E. f_equal. fold crc.
      pose proof (header_type_entry_header et flag buf [] ltac:(lia)) as Ht.
      rewrite app_nil_r in Ht. rewrite Ht.
      rewrite (entry_header_flag et flag buf Hflag).
      rewrite (Z.eqb_sym (binary.Uint32 c) crc).
      destruct (crc =? binary.Uint32 c); reflexivity.
    + unfold entry_frame. fold crc. intros Heq.
      apply app_inv_head in Heq. apply app_inv_head in Heq. subst c.
      unfold crc32.Sum. cbn [app].
      rewrite <- (app_nil_r (binary.PutUint32 crc)).
      apply Uint32_PutUint32. apply crc32_Write_range. apply crc32_Write_range.
      apply crc32_Reset_range.
Qed.

Lemma walReader_entry_verifies_checksum_witness :
  exists r',
    walReader_entry example_replay_intact 0
    = (r', Ok (WALEntrySeries, walSeriesSimple, e_buf example_series_entry))
    /\ seg_at (w_fs (r_wal r')) 0 (zeros 16).
Proof.
  destruct (walReader_entry_verifies_checksum example_replay_intact 0
              WALEntrySeries walSeriesSimple (e_buf example_series_entry)
              (binary.PutUint32
                 (crc32.Write
                    (crc32.Write crc32.Reset
                       (entry_header WALEntrySeries walSeriesSimple
                          (e_buf example_series_entry)))
                    (e_buf example_series_entry)))
              (zeros 16))
    as (r' & E & S & _).
  - apply FS_wfb_sound. vm_compute. reflexivity.
  - split; [|vm_compute; reflexivity].
    eexists. split; [reflexivity|reflexivity].
  - left. reflexivity.
  - vm_compute. split; [discriminate|reflexivity].
  - vm_compute. reflexivity.
  - vm_compute. reflexivity.
  - exists r'. split; [|exact S].
    rewrite E. f_equal.
Defined.


(** ** A log that is written, closed, opened again and replayed *)

(** *** Writes to the first segment *)

Lemma slice_from_zeros n k : slice_from (Z.of_nat n) (zeros k) = zeros (k - n).
Proof. unfold slice_from, zeros. rewrite Nat2Z.id. apply drop_replicate. Qed.

Lemma File_Write_segment fs name fd flushed k p :
  segment_state fs name fd flushed k ->
  exists fs',
    File_Write fs fd p = (fs', None)
    /\ segment_state fs' name fd (flushed ++ p) (k - length p).
Proof.
  intros (f & Hwf & Hfd & Hopen & Hname & Hdir & Hdata & Hpos).
  destruct (File_Write_open fs fd f p Hwf Hfd Hopen) as (fs' & E & Hwf' & Hfds & Hdir' & Hdata').
  exists fs'. split; [exact E|].
  exists (File_set_pos f (f_pos f + len p)).
  split; [exact Hwf'|]. split.
  { rewrite Hfds. apply list_lookup_insert_eq. eapply lookup_lt_Some. exact Hfd. }
  split; [exact Hopen|]. split; [exact Hname|].
  split; [rewrite Hdir'; exact Hdir|]. split.
  - cbn [File_set_pos f_ino]. rewrite Hdata', Hdata, Hpos. unfold write_at.
    replace (Z.to_nat (len flushed) - length (flushed ++ zeros k))%nat with 0%nat
      by (unfold len; rewrite length_app, Nat2Z.id; lia).
    change (zeros 0) with (@nil byte). rewrite app_nil_r.
    rewrite slice_to_app_len by reflexivity.
    rewrite <- (slice_from_slice_from (len flushed) (len p)) by apply len_nonneg.
    rewrite slice_from_app_len by reflexivity.
    unfold len at 1. rewrite slice_from_zeros. rewrite <- app_assoc. reflexivity.
  - cbn [File_set_pos f_pos]. rewrite Hpos, len_app. reflexivity.
Qed.

Lemma bufio_Flush_state fs name b content :
  bufio_state fs name b content ->
  exists fs' b',
    bufio_Flush fs b = (fs', b', None)
    /\ bufio_state fs' name b' content
    /\ bw_buf b' = [] /\ bw_wr b' = bw_wr b /\ bw_size b' = bw_size b.
Proof.
  intros (flushed & k & Herr & Hseg & Hc). unfold bufio_Flush. rewrite Herr.
  destruct (bw_buf b) as [|c buf] eqn:Hbuf.
  - exists fs, b. split; [reflexivity|]. split; [|auto].
    exists flushed, k. rewrite Hbuf. auto.
  - rewrite <- Hbuf in *.
    destruct (File_Write_segment fs name (bw_wr b) flushed k (bw_buf b) Hseg)
      as (fs' & E & Hseg').
    rewrite E. eexists _, _. split; [reflexivity|].
    split; [|cbn; auto].
    exists (flushed ++ bw_buf b), (k - length (bw_buf b))%nat. cbn.
    split; [reflexivity|]. split; [exact Hseg'|]. rewrite app_nil_r. exact Hc.
Qed.

Lemma bufio_Write_copy_state fs name b content p :
  bufio_state fs name b content ->
  bufio_state fs name (bufio_Write_copy b p) (content ++ p).
Proof.
  intros (flushed & k & Herr & Hseg & Hc). exists flushed, k. cbn.
  split; [exact Herr|]. split; [exact Hseg|]. rewrite app_assoc, Hc. reflexivity.
Qed.

Lemma bufio_Write_direct_state fs name b content p :
  bufio_state fs name b content -> bw_buf b = [] ->
  exists fs' b',
    bufio_Write_direct fs b p = (fs', b', None)
    /\ bufio_state fs' name b' (content ++ p)
    /\ bw_wr b' = bw_wr b /\ bw_size b' = bw_size b.
Proof.
  intros (flushed & k & Herr & Hseg & Hc) Hbuf. unfold bufio_Write_direct.
  destruct (File_Write_segment fs name (bw_wr b) flushed k p Hseg) as (fs' & E & Hseg').
  rewrite E. exists fs', b. split; [reflexivity|]. split; [|auto].
  exists (flushed ++ p), (k - length p)%nat.
  split; [exact Herr|]. split; [exact Hseg'|].
  rewrite Hbuf, app_nil_r in *. subst content. reflexivity.
Qed.

Lemma bufio_Write_state fs name b content p :
  bufio_state fs name b content ->
  exists fs' b',
    bufio_Write fs b p = (fs', b', None)
    /\ bufio_state fs' name b' (content ++ p)
    /\ bw_wr b' = bw_wr b /\ bw_size b' = bw_size b.
Proof.
  intros Hst. pose proof Hst as (flushed & k & Herr & Hseg & Hc).
  unfold bufio_Write. rewrite Herr.
  destruct (len p <=? bufio_Available b).
  { exists fs, (bufio_Write_copy b p). split; [reflexivity|].
    split; [apply bufio_Write_copy_state; exact Hst|auto]. }
  destruct (bw_buf b) as [|c buf] eqn:Hbuf.
  { apply bufio_Write_direct_state; assumption. }
  set (n := bufio_Available b).
  pose proof (bufio_Write_copy_state fs name b content (slice_to n p) Hst) as Hst1.
  destruct (bufio_Flush_state fs name _ _ Hst1) as (fs2 & b2 & Ef & Hst2 & Hbuf2 & Hwr2 & Hsz2).
  rewrite Ef.
  assert (Hsplit : (content ++ slice_to n p) ++ slice_from n p = content ++ p).
  { rewrite <- app_assoc. unfold slice_to, slice_from. rewrite take_drop. reflexivity. }
  destruct (len (slice_from n p) <=? bufio_Available b2).
  - eexists _, _. split; [reflexivity|]. split.
    + rewrite <- Hsplit. apply bufio_Write_copy_state. exact Hst2.
    + cbn. auto.
  - destruct (bufio_Write_direct_state fs2 name b2 _ (slice_from n p) Hst2 Hbuf2)
      as (fs3 & b3 & Ed & Hst3 & Hwr3 & Hsz3).
    rewrite Ed. exists fs3, b3. split; [reflexivity|].
    split; [rewrite <- Hsplit; exact Hst3|].
    cbn in Hwr2, Hsz2. split; congruence.
Qed.

Lemma SegmentWAL_cur_Write_segment0 dir w c p :
  wal_segment0 dir w c ->
  exists w',
    SegmentWAL_cur_Write w p = (w', None)
    /\ wal_segment0 dir w' (c ++ p)
    /\ w_files w' = w_files w /\ w_curN w' = w_curN w /\ w_maxt w' = w_maxt w
    /\ w_segmentSize w' = w_segmentSize w /\ w_flushInterval w' = w_flushInterval w.
Proof.
  intros (fd & maxt & b & Hdir & Hfiles & Hcur & Hwr & Hst).
  destruct (bufio_Write_state _ _ _ _ p Hst) as (fs' & b' & E & Hst' & Hwr' & _).
  unfold SegmentWAL_cur_Write. rewrite Hcur, E.
  eexists. split; [reflexivity|]. split; [|cbn; auto 10].
  exists fd, maxt, b'. cbn. split; [exact Hdir|]. split; [exact Hfiles|].
  split; [reflexivity|]. split; [congruence|exact Hst'].
Qed.

(** Without a cut, [entry] adds its frame to the first segment. *)
Lemma SegmentWAL_entry_segment0 dir w c et flag buf :
  wal_segment0 dir w c -> SegmentWAL_entry_cuts w buf = false ->
  exists w',
    SegmentWAL_entry w et flag buf = (w', None)
    /\ wal_segment0 dir w' (c ++ entry_frame et flag buf)
    /\ w_curN w' = int64 (w_curN w + int64 (6 + 4 + len buf))
    /\ w_segmentSize w' = w_segmentSize w /\ w_flushInterval w' = w_flushInterval w.
Proof.
  intros Hw Hcuts. unfold SegmentWAL_entry. cbv zeta. rewrite Hcuts.
  destruct (SegmentWAL_cur_Write_segment0 dir w c (entry_header et flag buf) Hw)
    as (w1 & E1 & Hw1 & F1 & N1 & M1 & S1 & I1).
  rewrite E1.
  destruct (SegmentWAL_cur_Write_segment0 dir w1 _ buf Hw1)
    as (w2 & E2 & Hw2 & F2 & N2 & M2 & S2 & I2).
  rewrite E2.
  destruct (SegmentWAL_cur_Write_segment0 dir w2 _
              (crc32.Sum (crc32.Write (crc32.Write crc32.Reset (entry_header et flag buf)) buf)
                 []) Hw2)
    as (w3 & E3 & Hw3 & F3 & N3 & M3 & S3 & I3).
  rewrite E3.
  rewrite <- !app_assoc in Hw3. fold (entry_frame et flag buf) in Hw3.
  destruct Hw3 as (fd & maxt & b & Hdir & Hfiles & Hcur & Hwr & Hst).
  assert (Hlast : last (w_files (w_set_curN w3 (int64 (w_curN w3 + int64 (6 + 4 + len buf)))))
                  = Some {| sf_f := fd; sf_maxt := maxt |}).
  { cbn [w_set_curN w_files]. rewrite Hfiles. reflexivity. }
  rewrite Hlast. cbn [sf_maxt sf_f].
  destruct (maxt <? _).
  - eexists. split; [reflexivity|].
    split; [|cbn; split; [congruence|split; congruence]].
    exists fd, (w_maxt w3), b. cbn. rewrite Hfiles. cbn.
    split; [exact Hdir|]. split; [reflexivity|]. split; [exact Hcur|].
    split; [exact Hwr|exact Hst].
  - eexists. split; [reflexivity|].
    split; [|cbn; split; [congruence|split; congruence]].
    exists fd, maxt, b. cbn.
    split; [exact Hdir|]. split; [exact Hfiles|]. split; [exact Hcur|].
    split; [exact Hwr|exact Hst].
Qed.

Lemma nextSequenceFile_empty dir :
  nextSequenceFile fs_empty dir = path_Join dir (format_seq 0).
Proof. reflexivity. Qed.

(** The first cut of a log opened on an empty disk. *)
Lemma SegmentWAL_cut_fresh dir w :
  wal_fresh dir w ->
  exists w',
    SegmentWAL_cut w = (w', None)
    /\ wal_segment0 dir w' segment_header
    /\ w_curN w' = 8 /\ w_maxt w' = w_maxt w
    /\ w_segmentSize w' = w_segmentSize w /\ w_flushInterval w' = w_flushInterval w.
Proof.
  intros (Hfs & Hdir & Hfiles & Hcur).
  unfold SegmentWAL_cut, SegmentWAL_tail. rewrite Hfiles. cbn [last].
  rewrite Hfs, Hdir, nextSequenceFile_empty.
  set (name := path_Join dir (format_seq 0)).
  set (f0 := {| f_name := name; f_ino := 0%nat; f_pos := 0; f_closed := false |}).
  set (n := Z.to_nat (w_segmentSize w)).
  set (fs2 := {| fs_inodes := [zeros n]; fs_dir := {[ name := 0%nat ]}; fs_fds := [f0] |}).
  assert (Ec : os_Create fs_empty name
               = ({| fs_inodes := [[]]; fs_dir := {[ name := 0%nat ]}; fs_fds := [f0] |},
                  0%nat)) by reflexivity.
  rewrite Ec.
  assert (Ep : fileutil_Preallocate
                 {| fs_inodes := [[]]; fs_dir := {[ name := 0%nat ]}; fs_fds := [f0] |}
                 0 (w_segmentSize w) = (fs2, None)).
  { unfold fileutil_Preallocate. cbn [fs_fds lookup list_lookup f0 f_closed f_ino].
    unfold fs_set_data, fs_data. cbn [fs_inodes fs_dir fs_fds lookup list_lookup default
                                      from_option app length].
    unfold fs2. rewrite Nat.sub_0_r. reflexivity. }
  rewrite Ep.
  assert (Hseg : segment_state fs2 name 0 [] n).
  { exists f0. split.
    - split.
      + intros nm ino Hl. cbn [fs2 fs_dir] in Hl.
        apply lookup_singleton_Some in Hl. destruct Hl as [_ <-]. cbn. lia.
      + intros fd f Hl. cbn [fs2 fs_fds] in Hl.
        destruct fd as [|fd]; [|destruct fd; discriminate].
        injection Hl as <-. cbn. lia.
    - split; [reflexivity|]. split; [reflexivity|]. split; [reflexivity|].
      split; [reflexivity|]. split; reflexivity. }
  destruct (File_Write_segment fs2 name 0 [] n segment_header Hseg) as (fs3 & Ew & Hseg3).
  rewrite Ew. eexists. split; [reflexivity|].
  split; [|cbn; auto 10].
  exists 0%nat, 0, (bufio_NewWriterSize 0 (4 * 1024 * 1024)). cbn.
  split; [exact Hdir|]. split; [rewrite Hfiles; reflexivity|].
  split; [reflexivity|]. split; [reflexivity|].
  exists ([] ++ segment_header), (n - length segment_header)%nat.
  split; [reflexivity|]. split; [exact Hseg3|]. cbn [bufio_NewWriterSize bw_buf].
  rewrite app_nil_r. reflexivity.
Qed.

(** The first entry of such a log goes into the segment that [entry] cuts
    for it. *)
Lemma SegmentWAL_entry_fresh dir w et flag buf :
  wal_fresh dir w ->
  exists w',
    SegmentWAL_entry w et flag buf = (w', None)
    /\ wal_segment0 dir w' (segment_header ++ entry_frame et flag buf)
    /\ w_curN w' = int64 (8 + int64 (6 + 4 + len buf))
    /\ w_segmentSize w' = w_segmentSize w /\ w_flushInterval w' = w_flushInterval w.
Proof.
  intros Hw. pose proof Hw as (Hfs & Hdir & Hfiles & Hcur).
  destruct (SegmentWAL_cut_fresh dir w Hw) as (w0 & Ec & Hw0 & N0 & M0 & S0 & I0).
  unfold SegmentWAL_entry. cbv zeta.
  assert (Hcuts : SegmentWAL_entry_cuts w buf = true).
  { unfold SegmentWAL_entry_cuts. rewrite Hcur. reflexivity. }
  rewrite Hcuts, Ec.
  destruct (SegmentWAL_cur_Write_segment0 dir w0 _ (entry_header et flag buf) Hw0)
    as (w1 & E1 & Hw1 & F1 & N1 & M1 & S1 & I1).
  rewrite E1.
  destruct (SegmentWAL_cur_Write_segment0 dir w1 _ buf Hw1)
    as (w2 & E2 & Hw2 & F2 & N2 & M2 & S2 & I2).
  rewrite E2.
  destruct (SegmentWAL_cur_Write_segment0 dir w2 _
              (crc32.Sum (crc32.Write (crc32.Write crc32.Reset (entry_header et flag buf)) buf)
                 []) Hw2)
    as (w3 & E3 & Hw3 & F3 & N3 & M3 & S3 & I3).
  rewrite E3.
  rewrite <- !app_assoc in Hw3. fold (entry_frame et flag buf) in Hw3.
  destruct Hw3 as (fd & maxt & b & Hdir3 & Hfiles3 & Hcur3 & Hwr & Hst).
  assert (Hlast : last (w_files (w_set_curN w3 (int64 (w_curN w3 + int64 (6 + 4 + len buf)))))
                  = Some {| sf_f := fd; sf_maxt := maxt |}).
  { cbn [w_set_curN w_files]. rewrite Hfiles3. reflexivity. }
  rewrite Hlast. cbn [sf_maxt sf_f].
  destruct (maxt <? _).
  - eexists. split; [reflexivity|].
    split; [|cbn; split; [congruence|split; congruence]].
    exists fd, (w_maxt w3), b. cbn. rewrite Hfiles3. cbn.
    split; [exact Hdir3|]. split; [reflexivity|]. split; [exact Hcur3|].
    split; [exact Hwr|exact Hst].
  - eexists. split; [reflexivity|].
    split; [|cbn; split; [congruence|split; congruence]].
    exists fd, maxt, b. cbn.
    split; [exact Hdir3|]. split; [exact Hfiles3|]. split; [exact Hcur3|].
    split; [exact Hwr|exact Hst].
Qed.

Lemma segment_state_open fs name fd flushed k :
  segment_state fs name fd flushed k -> fd_open fs fd.
Proof. intros (f & _ & Hfd & Hopen & _). exists f. auto. Qed.

Lemma SegmentWAL_Sync_segment0 dir w c :
  wal_segment0 dir w c ->
  exists w' b,
    SegmentWAL_Sync w = (w', None)
    /\ wal_segment0 dir w' c
    /\ w_cur w' = Some b /\ bw_buf b = []
    /\ w_curN w' = w_curN w
    /\ w_segmentSize w' = w_segmentSize w /\ w_flushInterval w' = w_flushInterval w.
Proof.
  intros (fd & maxt & b & Hdir & Hfiles & Hcur & Hwr & Hst).
  destruct (bufio_Flush_state _ _ _ _ Hst) as (fs' & b' & E & Hst' & Hbuf' & Hwr' & _).
  unfold SegmentWAL_Sync, SegmentWAL_flush. rewrite Hcur, E.
  unfold SegmentWAL_tail. cbn [w_set_cur w_set_fs w_files w_fs]. rewrite Hfiles. cbn [last sf_f].
  destruct Hst' as (flushed & k & Herr' & Hseg' & Hc').
  destruct (segment_state_open _ _ _ _ _ Hseg') as (f & Hf & Hfo).
  rewrite Hwr', Hwr in Hf.
  unfold fileutil_Fdatasync. rewrite Hf, Hfo.
  eexists _, b'. split; [reflexivity|]. split; [|cbn; auto 10].
  exists fd, maxt, b'. cbn. split; [exact Hdir|]. split; [exact Hfiles|].
  split; [reflexivity|]. split; [congruence|].
  exists flushed, k. auto.
Qed.

(** *** The calls that log a batch *)

Lemma wal_segment0_set_maxt dir w c t :
  wal_segment0 dir w c -> wal_segment0 dir (w_set_maxt w t) c.
Proof. intros H. exact H. Qed.

Lemma wal_fresh_set_maxt dir w t : wal_fresh dir w -> wal_fresh dir (w_set_maxt w t).
Proof. intros H. exact H. Qed.

Lemma SegmentWAL_entry_cuts_fits w b buf :
  w_cur w = Some b -> 0 <= w_curN w ->
  w_curN w + 10 + len buf <= w_segmentSize w -> w_segmentSize w < 2 ^ 62 ->
  SegmentWAL_entry_cuts w buf = false.
Proof.
  intros Hcur Hn Hfit Hsz. unfold SegmentWAL_entry_cuts. rewrite Hcur.
  pose proof (len_nonneg buf).
  rewrite (int64_small (6 + 4 + len buf)) by (unfold is_int64; lia).
  rewrite (int64_small (w_curN w + _)) by (unfold is_int64; lia).
  destruct (Z.ltb_spec (w_segmentSize w) (w_curN w)); [lia|].
  destruct (Z.ltb_spec (w_segmentSize w) (w_curN w + (6 + 4 + len buf))); [lia|].
  reflexivity.
Qed.

(** An entry and then, for a log that syncs at once, [Sync]. *)
Lemma Log_entry_segment0 dir w c et flag buf :
  wal_segment0 dir w c -> w_curN w = len c ->
  len c + 10 + len buf <= w_segmentSize w -> w_segmentSize w < 2 ^ 62 ->
  exists w',
    match SegmentWAL_entry w et flag buf with
    | (w, Some e) => (w, Some e)
    | (w, None) => if w_flushInterval w <=? 0 then SegmentWAL_Sync w else (w, None)
    end = (w', None)
    /\ wal_segment0 dir w' (c ++ entry_frame et flag buf)
    /\ w_curN w' = len (c ++ entry_frame et flag buf)
    /\ w_segmentSize w' = w_segmentSize w /\ w_flushInterval w' = w_flushInterval w
    /\ (w_flushInterval w <= 0 -> wal_synced w').
Proof.
  intros Hw Hn Hfit Hsz.
  pose proof (len_nonneg buf) as Hb. pose proof (len_nonneg c) as Hc.
  assert (Hcuts : SegmentWAL_entry_cuts w buf = false).
  { destruct Hw as (fd & maxt & b & _ & _ & Hcur & _).
    eapply SegmentWAL_entry_cuts_fits; [exact Hcur|lia|lia|exact Hsz]. }
  destruct (SegmentWAL_entry_segment0 dir w c et flag buf Hw Hcuts)
    as (w1 & E & Hw1 & N1 & S1 & I1).
  rewrite E.
  assert (HN : w_curN w1 = len (c ++ entry_frame et flag buf)).
  { rewrite N1, Hn, len_app, len_entry_frame.
    rewrite (int64_small (6 + 4 + len buf)) by (unfold is_int64; lia).
    rewrite int64_small by (unfold is_int64; lia). lia. }
  destruct (Z.leb_spec (w_flushInterval w1) 0) as [Hle|Hgt].
  - destruct (SegmentWAL_Sync_segment0 dir w1 _ Hw1)
      as (w2 & b2 & Es & Hw2 & Hc2 & Hb2 & N2 & S2 & I2).
    exists w2. split; [exact Es|]. split; [exact Hw2|].
    split; [congruence|]. split; [congruence|]. split; [congruence|].
    intros _. exists b2. auto.
  - exists w1. split; [reflexivity|]. split; [exact Hw1|]. split; [exact HN|].
    split; [exact S1|]. split; [exact I1|]. intros Hle. lia.
Qed.

Lemma Log_entry_fresh dir w et flag buf :
  wal_fresh dir w ->
  8 + 10 + len buf <= w_segmentSize w -> w_segmentSize w < 2 ^ 62 ->
  exists w',
    match SegmentWAL_entry w et flag buf with
    | (w, Some e) => (w, Some e)
    | (w, None) => if w_flushInterval w <=? 0 then SegmentWAL_Sync w else (w, None)
    end = (w', None)
    /\ wal_segment0 dir w' (segment_header ++ entry_frame et flag buf)
    /\ w_curN w' = len (segment_header ++ entry_frame et flag buf)
    /\ w_segmentSize w' = w_segmentSize w /\ w_flushInterval w' = w_flushInterval w
    /\ (w_flushInterval w <= 0 -> wal_synced w').
Proof.
  intros Hw Hfit Hsz. pose proof (len_nonneg buf) as Hb.
  destruct (SegmentWAL_entry_fresh dir w et flag buf Hw) as (w1 & E & Hw1 & N1 & S1 & I1).
  rewrite E.
  assert (HN : w_curN w1 = len (segment_header ++ entry_frame et flag buf)).
  { rewrite N1, len_app, len_entry_frame.
    rewrite (int64_small (6 + 4 + len buf)) by (unfold is_int64; lia).
    rewrite int64_small by (unfold is_int64; lia).
    change (len segment_header) with 8. lia. }
  destruct (Z.leb_spec (w_flushInterval w1) 0) as [Hle|Hgt].
  - destruct (SegmentWAL_Sync_segment0 dir w1 _ Hw1)
      as (w2 & b2 & Es & Hw2 & Hc2 & Hb2 & N2 & S2 & I2).
    exists w2. split; [exact Es|]. split; [exact Hw2|].
    split; [congruence|]. split; [congruence|]. split; [congruence|].
    intros _. exists b2. auto.
  - exists w1. split; [reflexivity|]. split; [exact Hw1|]. split; [exact HN|].
    split; [exact S1|]. split; [exact I1|]. intros Hle. lia.
Qed.

Lemma wal_frames_singleton e :
  wal_frames [e] = entry_frame (e_type e) (e_flag e) (e_buf e).
Proof. unfold wal_frames. cbn [map concat]. apply app_nil_r. Qed.

Lemma wal_frames_app a b : wal_frames (a ++ b) = wal_frames a ++ wal_frames b.
Proof. unfold wal_frames. rewrite map_app, concat_app. reflexivity. Qed.

(** The entry of a call, as the call hands it to [entry]. *)
Lemma SegmentWAL_log_entry w op e :
  wal_op_entry op = Some e ->
  exists t,
    SegmentWAL_log w op
    = match SegmentWAL_entry (w_set_maxt w t) (e_type e) (e_flag e) (e_buf e) with
      | (w, Some e) => (w, Some e)
      | (w, None) => if w_flushInterval w <=? 0 then SegmentWAL_Sync w else (w, None)
      end.
Proof.
  intros He. destruct op as [[|s ss]|[|s ss]|st]; cbn [wal_op_entry] in He;
    try discriminate; injection He as <-; cbn [e_type e_flag e_buf].
  - exists (w_maxt w).
    replace (w_set_maxt w (w_maxt w)) with w by (destruct w; reflexivity).
    reflexivity.
  - exists (encodeSamples_maxt (s :: ss)). reflexivity.
  - exists (w_maxt w).
    replace (w_set_maxt w (w_maxt w)) with w by (destruct w; reflexivity).
    reflexivity.
Qed.

Lemma SegmentWAL_log_segment0 dir w c op :
  wal_segment0 dir w c -> w_curN w = len c ->
  len c + len (wal_frames (omap wal_op_entry [op])) <= w_segmentSize w ->
  w_segmentSize w < 2 ^ 62 ->
  exists w',
    SegmentWAL_log w op = (w', None)
    /\ wal_segment0 dir w' (c ++ wal_frames (omap wal_op_entry [op]))
    /\ w_curN w' = len (c ++ wal_frames (omap wal_op_entry [op]))
    /\ w_segmentSize w' = w_segmentSize w /\ w_flushInterval w' = w_flushInterval w
    /\ (w_flushInterval w <= 0 -> wal_synced w').
Proof.
  intros Hw Hn Hfit Hsz. cbn [omap list_omap] in *.
  destruct (wal_op_entry op) as [e|] eqn:He.
  - rewrite wal_frames_singleton in *.
    destruct (SegmentWAL_log_entry w op e He) as (t & ->).
    rewrite len_entry_frame in Hfit.
    apply (Log_entry_segment0 dir (w_set_maxt w t) c); [exact Hw|exact Hn|cbn; lia|exact Hsz].
  - change (wal_frames []) with (@nil byte) in *. rewrite app_nil_r in *.
    assert (Hop : SegmentWAL_log w op
                  = if w_flushInterval w <=? 0 then SegmentWAL_Sync w else (w, None)).
    { destruct op as [[|s ss]|[|s ss]|st]; cbn [wal_op_entry] in He; try discriminate;
        reflexivity. }
    rewrite Hop. destruct (Z.leb_spec (w_flushInterval w) 0) as [Hle|Hgt].
    + destruct (SegmentWAL_Sync_segment0 dir w c Hw)
        as (w2 & b2 & Es & Hw2 & Hc2 & Hb2 & N2 & S2 & I2).
      exists w2. split; [exact Es|]. split; [exact Hw2|]. split; [congruence|].
      split; [exact S2|]. split; [exact I2|]. intros _. exists b2. auto.
    + exists w. split; [reflexivity|]. split; [exact Hw|]. split; [exact Hn|].
      split; [reflexivity|]. split; [reflexivity|]. intros Hle. lia.
Qed.

Lemma SegmentWAL_logs_segment0 dir ops :
  forall w c,
    wal_segment0 dir w c -> w_curN w = len c ->
    len c + len (wal_frames (omap wal_op_entry ops)) <= w_segmentSize w ->
    w_segmentSize w < 2 ^ 62 ->
    exists w',
      SegmentWAL_logs ops w = (w', None)
      /\ wal_segment0 dir w' (c ++ wal_frames (omap wal_op_entry ops))
      /\ (w_flushInterval w <= 0 -> wal_synced w -> wal_synced w')
      /\ (w_flushInterval w <= 0 -> ops <> [] -> wal_synced w').
Proof.
  induction ops as [|op ops IH]; intros w c Hw Hn Hfit Hsz.
  - exists w. split; [reflexivity|]. change (wal_frames (omap wal_op_entry [])) with (@nil byte).
    rewrite app_nil_r. split; [exact Hw|]. split; [auto|]. intros _ H. contradiction.
  - change (op :: ops) with ([op] ++ ops) in *.
    rewrite omap_app, wal_frames_app in *. rewrite len_app in Hfit.
    pose proof (len_nonneg (wal_frames (omap wal_op_entry ops))) as H0.
    destruct (SegmentWAL_log_segment0 dir w c op Hw Hn) as (w1 & E & Hw1 & N1 & S1 & I1 & Y1);
      [lia|exact Hsz|].
    destruct (IH w1 _ Hw1 N1) as (w' & Er & Hw' & Y2 & _).
    { rewrite S1, len_app. lia. }
    { rewrite S1. exact Hsz. }
    exists w'. split; [|split; [|split]].
    + unfold SegmentWAL_logs. cbn [app fold_left]. rewrite E. exact Er.
    + rewrite app_assoc. exact Hw'.
    + intros Hle _. apply Y2; [rewrite I1; exact Hle|]. apply Y1. exact Hle.
    + intros Hle _. apply Y2; [rewrite I1; exact Hle|]. apply Y1. exact Hle.
Qed.

Lemma SegmentWAL_logs_fresh dir op ops w e :
  wal_fresh dir w -> wal_op_entry op = Some e ->
  8 + len (wal_frames (omap wal_op_entry (op :: ops))) <= w_segmentSize w ->
  w_segmentSize w < 2 ^ 62 ->
  exists w',
    SegmentWAL_logs (op :: ops) w = (w', None)
    /\ wal_segment0 dir w' (segment_header ++ wal_frames (omap wal_op_entry (op :: ops)))
    /\ (w_flushInterval w <= 0 -> wal_synced w').
Proof.
  intros Hw He Hfit Hsz.
  change (op :: ops) with ([op] ++ ops) in *.
  rewrite omap_app, wal_frames_app in *. rewrite len_app in Hfit.
  cbn [omap list_omap] in *. rewrite He in *. rewrite wal_frames_singleton in *.
  rewrite len_entry_frame in Hfit.
  pose proof (len_nonneg (wal_frames (omap wal_op_entry ops))) as H0.
  pose proof (len_nonneg (e_buf e)) as Hb.
  destruct (SegmentWAL_log_entry w op e He) as (t & Eop).
  destruct (Log_entry_fresh dir (w_set_maxt w t) (e_type e) (e_flag e) (e_buf e))
    as (w1 & E & Hw1 & N1 & S1 & I1 & Y1);
    [exact Hw|cbn; lia|exact Hsz|].
  cbn [w_set_maxt w_segmentSize w_flushInterval] in S1, I1, Y1.
  destruct (SegmentWAL_logs_segment0 dir ops w1 _ Hw1 N1) as (w' & Er & Hw' & Y2 & _).
  { rewrite S1, len_app, len_entry_frame. change (len segment_header) with 8. lia. }
  { rewrite S1. exact Hsz. }
  exists w'. split; [|split].
  - unfold SegmentWAL_logs. cbn [app fold_left]. rewrite Eop, E. exact Er.
  - rewrite <- app_assoc in Hw'. exact Hw'.
  - intros Hle. apply Y2; [rewrite I1; exact Hle|]. apply Y1. exact Hle.
Qed.

(** *** Close *)

Lemma SegmentWAL_Close_segment0 dir w c :
  wal_segment0 dir w c ->
  exists w2 ino k,
    SegmentWAL_Close w = (w2, None)
    /\ FS_wf (w_fs w2)
    /\ fs_dir (w_fs w2) = {[ path_Join dir (format_seq 0) := ino ]}
    /\ fs_data (w_fs w2) ino = c ++ zeros k.
Proof.
  intros Hw.
  destruct (SegmentWAL_Sync_segment0 dir w c Hw) as (w1 & b1 & Es & Hw1 & Hcur1 & Hbuf1 & _).
  unfold SegmentWAL_Close. change (SegmentWAL_sync w) with (SegmentWAL_Sync w). rewrite Es.
  destruct Hw1 as (fd & maxt & b & Hdir & Hfiles & Hcur & Hwr & Hst).
  rewrite Hcur in Hcur1. injection Hcur1 as <-.
  destruct Hst as (flushed & k & Herr & Hseg & Hc).
  rewrite Hbuf1, app_nil_r in Hc. subst flushed.
  destruct Hseg as (f & Hwf & Hfd & Hopen & Hname & Hd & Hdata & Hpos).
  unfold SegmentWAL_tail. rewrite Hfiles. cbn [last sf_f].
  unfold File_Close. rewrite <- Hwr, Hfd, Hopen. cbn [errors_Wrap_opt].
  exists (w_set_fs w1 (fs_set_fd (w_fs w1) (bw_wr b) (File_set_closed f))), (f_ino f), k.
  split; [reflexivity|]. cbn [w_set_fs w_fs].
  destruct (proj2 Hwf _ _ Hfd) as [Hino Hp].
  split; [apply FS_wf_set_fd; assumption|].
  split; [exact Hd|exact Hdata].
Qed.

(** *** The segment files of a directory *)

Lemma substring_all s : String.substring 0 (String.length s) s = s.
Proof.
  induction s as [|a s IH]; [reflexivity|].
  change (String a (String.substring 0 (String.length s) s) = String a s).
  rewrite IH. reflexivity.
Qed.

Lemma prefix_Join dir name :
  String.prefix (String.append dir "/") (String.append dir (String.append "/" name)) = true.
Proof.
  induction dir as [|c dir IH].
  - change (String.prefix (String "/" EmptyString) (String "/" name) = true).
    unfold String.prefix. destruct (ascii_dec "/" "/") as [_|Hn]; [|contradiction].
    destruct name; reflexivity.
  - change (String.prefix (String c (String.append dir "/"))
              (String c (String.append dir (String.append "/" name))) = true).
    unfold String.prefix; fold String.prefix.
    destruct (ascii_dec c c) as [_|Hn]; [exact IH|contradiction].
Qed.

Lemma substring_Join dir name :
  String.substring (String.length (String.append dir "/"))
    (String.length (String.append dir (String.append "/" name))
     - String.length (String.append dir "/"))
    (String.append dir (String.append "/" name)) = name.
Proof.
  induction dir as [|c dir IH].
  - change (String.substring 1 (S (String.length name) - 1) (String "/" name) = name).
    rewrite Nat.sub_succ, Nat.sub_0_r. apply substring_all.
  - exact IH.
Qed.

Lemma path_base_Join dir name : path_base dir (path_Join dir name) = Some name.
Proof.
  unfold path_base, path_Join. rewrite prefix_Join. f_equal. apply substring_Join.
Qed.

Lemma sequenceFiles_one fs dir ino :
  fs_dir fs = {[ path_Join dir (format_seq 0) := ino ]} ->
  sequenceFiles fs dir = [path_Join dir (format_seq 0)].
Proof.
  intros Hd. unfold sequenceFiles. rewrite Hd, dom_singleton_L, elements_singleton.
  cbn [List.filter]. rewrite path_base_Join.
  change (parse_seq (format_seq 0)) with (Some 0%nat). reflexivity.
Qed.

Lemma segment_header_magic rest :
  binary.Uint32 (slice_to 4 (slice_to 8 (segment_header ++ rest))) = WALMagic
  /\ byte.unsigned (index Byte.x00 (slice_to 8 (segment_header ++ rest)) 4) = WALFormatDefault
  /\ len (slice_to 8 (segment_header ++ rest)) = 8
  /\ slice_from 8 (segment_header ++ rest) = rest.
Proof.
  rewrite (slice_to_app_len segment_header rest 8) by reflexivity.
  rewrite (slice_from_app_len segment_header rest 8) by reflexivity.
  repeat split; vm_compute; reflexivity.
Qed.

(** [OpenSegmentWAL] on a directory that holds the one segment file
    [dir/00000000]: the file is opened and its header read. *)
Lemma OpenSegmentWAL_one fs dir fl ino rest :
  FS_wf fs -> fs_dir fs = {[ path_Join dir (format_seq 0) := ino ]} ->
  fs_data fs ino = segment_header ++ rest ->
  exists w3,
    OpenSegmentWAL fs dir fl = (w3, None)
    /\ FS_wf (w_fs w3)
    /\ w_files w3 = [{| sf_f := length (fs_fds fs); sf_maxt := 0 |}]
    /\ seg_at (w_fs w3) (length (fs_fds fs)) rest.
Proof.
  intros Hwf Hd Hdata.
  set (name := path_Join dir (format_seq 0)) in *.
  set (fd := length (fs_fds fs)).
  set (f1 := {| f_name := name; f_ino := ino; f_pos := 0; f_closed := false |}).
  set (fs1 := {| fs_inodes := fs_inodes fs; fs_dir := fs_dir fs; fs_fds := fs_fds fs ++ [f1] |}).
  assert (Hl : fs_dir fs !! name = Some ino) by (rewrite Hd; apply lookup_singleton_eq).
  assert (Hino : (ino < length (fs_inodes fs))%nat) by (eapply (proj1 Hwf); exact Hl).
  assert (Hf1 : fs_fds fs1 !! fd = Some f1).
  { unfold fs1, fd. cbn [fs_fds]. rewrite lookup_app_r by lia. rewrite Nat.sub_diag. reflexivity. }
  assert (Hwf1 : FS_wf fs1).
  { split; [exact (proj1 Hwf)|]. intros x g Hx. unfold fs1 in Hx. cbn [fs_fds fs_inodes] in *.
    apply lookup_app_Some in Hx. destruct Hx as [Hx|[_ Hx]].
    - exact (proj2 Hwf x g Hx).
    - destruct (x - length (fs_fds fs))%nat; [|discriminate]. injection Hx as <-. cbn. lia. }
  assert (Hseg : seg_at fs1 fd (segment_header ++ rest)).
  { split; [exists f1; auto|]. unfold fs_remaining. rewrite Hf1. cbn [f1 f_pos f_ino].
    rewrite slice_from_0. exact Hdata. }
  destruct (File_Read_some fs1 fd (segment_header ++ rest) 8 Hwf1 Hseg)
    as (fs2 & Er & Hwf2 & _ & Hseg2); [lia|right; discriminate|].
  destruct (segment_header_magic rest) as (Hm & Hv & Hl8 & Hrest).
  rewrite Hrest in Hseg2.
  unfold OpenSegmentWAL, SegmentWAL_initSegments. cbn [w_fs w_dirFile w_files].
  rewrite (sequenceFiles_one fs dir ino Hd). fold name.
  cbn [initSegments_open]. unfold os_OpenFile. rewrite Hl. fold fd f1 fs1.
  cbn [app w_set_files w_set_fs w_fs w_files initSegments_validate sf_f].
  rewrite Er, Hl8, Hm, Hv. cbn [Z.eqb negb].
  change (WALMagic =? WALMagic) with true. change (WALFormatDefault =? WALFormatDefault) with true.
  change (8 =? 8) with true. cbn [negb].
  eexists. split; [reflexivity|]. cbn [w_set_fs w_fs w_files].
  split; [exact Hwf2|]. split; [reflexivity|exact Hseg2].
Qed.

(** *** What the replay delivers for the calls *)

Lemma wal_op_entry_delivery mint op e :
  wal_op_wf op -> wal_op_entry op = Some e -> len (e_buf e) < 2 ^ 32 ->
  wal_entry_ok e
  /\ exists d, wal_op_delivery mint op = Some d /\ wal_entry_delivery mint e = Ok d.
Proof.
  intros Hwf He Hlen.
  destruct op as [[|s ss]|[|s ss]|st]; cbn [wal_op_entry] in He; try discriminate;
    injection He as <-; cbn [e_type e_flag e_buf] in *; cbn [wal_op_wf] in Hwf.
  - split.
    + split; [left; reflexivity|]. split; [vm_compute; split; [discriminate|reflexivity]|].
      exact Hlen.
    + eexists. split; [reflexivity|]. unfold wal_entry_delivery. cbn [e_type e_flag e_buf].
      change (WALEntrySeries =? WALEntrySeries) with true. cbv iota.
      rewrite decodeSeries_encodeSeries by exact Hwf. reflexivity.
  - split.
    + split; [right; left; reflexivity|].
      split; [vm_compute; split; [discriminate|reflexivity]|]. exact Hlen.
    + eexists. split; [reflexivity|]. unfold wal_entry_delivery. cbn [e_type e_flag e_buf].
      change (WALEntrySamples =? WALEntrySeries) with false.
      change (WALEntrySamples =? WALEntrySamples) with true. cbv iota.
      rewrite (decodeSamples_encodeSamples_buf s) by
        (try exact Hwf; apply Forall_cons in Hwf; exact (proj1 Hwf)).
      unfold Read_validSamples. rewrite Read_validSamples_fold. reflexivity.
  - split.
    + split; [right; right; reflexivity|].
      split; [vm_compute; split; [discriminate|reflexivity]|]. exact Hlen.
    + eexists. split; [reflexivity|]. unfold wal_entry_delivery. cbn [e_type e_flag e_buf].
      change (WALEntryDeletes =? WALEntrySeries) with false.
      change (WALEntryDeletes =? WALEntrySamples) with false. cbv iota.
      rewrite decodeDeletes_encodeDeletes by exact Hwf. reflexivity.
Qed.

Lemma wal_ops_deliveries mint ops :
  Forall wal_op_wf ops ->
  len (wal_frames (omap wal_op_entry ops)) < 2 ^ 32 ->
  Forall wal_entry_ok (omap wal_op_entry ops)
  /\ Forall (wal_entry_decodes mint) (omap wal_op_entry ops)
  /\ wal_deliveries mint (omap wal_op_entry ops) = omap (wal_op_delivery mint) ops.
Proof.
  induction ops as [|op ops IH]; intros Hwf Hlen.
  - split; [constructor|]. split; [constructor|reflexivity].
  - apply Forall_cons in Hwf. destruct Hwf as [Hop Hwf].
    change (op :: ops) with ([op] ++ ops) in *.
    rewrite !omap_app in *. rewrite wal_frames_app, len_app in Hlen.
    pose proof (len_nonneg (wal_frames (omap wal_op_entry ops))) as H0.
    pose proof (len_nonneg (wal_frames (omap wal_op_entry [op]))) as H1.
    destruct IH as (IH1 & IH2 & IH3); [exact Hwf|lia|].
    cbn [omap list_omap] in *.
    destruct (wal_op_entry op) as [e|] eqn:He.
    + rewrite wal_frames_singleton, len_entry_frame in Hlen, H1.
      pose proof (len_nonneg (e_buf e)).
      destruct (wal_op_entry_delivery mint op e Hop He) as (Hok & d & Hd & Hdel); [lia|].
      rewrite Hd. cbn [app].
      split; [constructor; assumption|].
      split; [constructor; [exists d; exact Hdel|assumption]|].
      rewrite (wal_deliveries_cons mint e _ d Hdel), IH3. reflexivity.
    + assert (Hd : wal_op_delivery mint op = None).
      { destruct op as [[|s ss]|[|s ss]|st]; cbn [wal_op_entry] in He; try discriminate;
          reflexivity. }
      rewrite Hd. cbn [app]. auto.
Qed.

Lemma zeros_end_or_torn k : segment_end (zeros k) \/ torn (zeros k).
Proof.
  destruct (decide (k = 0%nat)) as [->|Hk0]; [left; left; reflexivity|].
  destruct (decide (k < 6)%nat) as [Hlt|Hge].
  - right. left. unfold len. rewrite length_zeros. lia.
  - left. right. split; [unfold len; rewrite length_zeros; lia|].
    destruct k as [|k]; [lia|]. reflexivity.
Qed.

(** The replay of the one segment of a log that was opened again. *)
Lemma walReader_Read_one mint w fd es k :
  FS_wf (w_fs w) ->
  w_files w = [{| sf_f := fd; sf_maxt := 0 |}] ->
  seg_at (w_fs w) fd (wal_frames es ++ zeros k) ->
  Forall wal_entry_ok es -> Forall (wal_entry_decodes mint) es ->
  exists r', walReader_Read (SegmentWAL_Reader w mint) = (r', wal_deliveries mint es, None).
Proof.
  intros Hwf Hfiles Hseg Hok Hdec.
  set (r := SegmentWAL_Reader w mint).
  assert (Hr : reading mint r [] [fd] [] [es] (zeros k)).
  { unfold reading, r, SegmentWAL_Reader, newWALReader. cbn [r_wal r_mint r_err r_cur w_fs].
    split; [exact Hwf|]. split; [reflexivity|]. split; [reflexivity|]. split; [reflexivity|].
    split; [unfold reader_fds; cbn [r_wal]; rewrite Hfiles; reflexivity|].
    split; [exact Hseg|]. split; [apply NoDup_singleton|].
    split; [constructor|constructor]. }
  assert (Hcat : concat [es] = es) by (cbn; apply app_nil_r).
  assert (Hok' : Forall (Forall wal_entry_ok) [es]) by (constructor; [exact Hok|constructor]).
  assert (Hdec' : Forall (wal_entry_decodes mint) (concat [es])) by (rewrite Hcat; exact Hdec).
  pose proof (reading_remaining _ _ _ _ _ _ _ Hr) as Hfuel.
  unfold walReader_Read.
  destruct (zeros_end_or_torn k) as [Hend|Htorn].
  - destruct (walReader_Read_loop_spec_end mint (zeros k) Hend (length (concat [es]))
                [es] [fd] (S (walReader_remaining r)) r [] [] eq_refl)
      as (r' & E & _); [lia|exact Hr|exact Hok'|exact Hdec'|].
    exists r'. rewrite E, Hcat. reflexivity.
  - destruct (walReader_Read_loop_spec mint [] (zeros k) Htorn (length (concat [es]))
                [es] [fd] (S (walReader_remaining r)) r [] [] eq_refl)
      as (r' & E & _); [lia|exact Hr|exact Hok'|exact Hdec'|].
    exists r'. rewrite E, Hcat. reflexivity.
Qed.

(** X8.  Batches that are logged to a new log, the first of them not empty, and
    that fit its first segment: the calls succeed and so does [Close]; the
    log opens again on the directory, and its replay from [mint] hands to
    the callbacks, in the order of the calls, the series of every batch of
    series, of every batch of samples the samples at or after [mint], and
    for every batch of tombstones one tombstone for each interval.  An
    empty batch of series or of samples leaves no trace. *)
Theorem SegmentWAL_replay_after_restart :
  forall (dir : string) (flushInterval flushInterval' mint : Z)
         (op : wal_op) (ops : list wal_op),
    Forall wal_op_wf (op :: ops) ->
    is_Some (wal_op_entry op) ->
    8 + len (wal_frames (omap wal_op_entry (op :: ops))) <= walSegmentSizeBytes ->
    exists w1 w2 w3 r',
      SegmentWAL_logs (op :: ops) (fst (OpenSegmentWAL fs_empty dir flushInterval)) = (w1, None)
      /\ SegmentWAL_Close w1 = (w2, None)
      /\ OpenSegmentWAL (w_fs w2) dir flushInterval' = (w3, None)
      /\ walReader_Read (SegmentWAL_Reader w3 mint)
         = (r', omap (wal_op_delivery mint) (op :: ops), None).
Proof.
  intros dir fl fl' mint op ops Hwf [e He] Hfit.
  set (w0 := fst (OpenSegmentWAL fs_empty dir fl)).
  assert (Hfresh : wal_fresh dir w0) by (repeat split; reflexivity).
  assert (Hsize : w_segmentSize w0 = walSegmentSizeBytes) by reflexivity.
  assert (Hbig : walSegmentSizeBytes < 2 ^ 32) by (unfold walSegmentSizeBytes; lia).
  destruct (SegmentWAL_logs_fresh dir op ops w0 e Hfresh He) as (w1 & Erun & Hw1 & _);
    [rewrite Hsize; exact Hfit|rewrite Hsize; lia|].
  destruct (SegmentWAL_Close_segment0 dir w1 _ Hw1) as (w2 & ino & k & Ecl & Hwf2 & Hd2 & Hdata2).
  rewrite <- app_assoc in Hdata2.
  destruct (OpenSegmentWAL_one (w_fs w2) dir fl' ino _ Hwf2 Hd2 Hdata2)
    as (w3 & Eop & Hwf3 & Hfiles3 & Hseg3).
  destruct (wal_ops_deliveries mint (op :: ops) Hwf) as (Hok & Hdec & Hdel); [lia|].
  destruct (walReader_Read_one mint w3 _ _ k Hwf3 Hfiles3 Hseg3 Hok Hdec) as (r' & Er).
  exists w1, w2, w3, r'. rewrite <- Hdel. auto.
Qed.

Lemma SegmentWAL_replay_after_restart_witness :
  exists w1 w2 w3 r',
    SegmentWAL_logs example_ops (fst (OpenSegmentWAL fs_empty "wal" 0)) = (w1, None)
    /\ SegmentWAL_Close w1 = (w2, None)
    /\ OpenSegmentWAL (w_fs w2) "wal" 5 = (w3, None)
    /\ walReader_Read (SegmentWAL_Reader w3 15)
       = (r',
          [ seriesf [{| rs_Ref := 1;
                        rs_Labels := [{| lbl_Name := "job"; lbl_Value := "api" |}] |}];
            samplesf [{| smpl_Ref := 1; smpl_T := 20; smpl_V := 8 |}];
            deletesf [{| stone_ref := 1;
                         stone_intervals := [{| itv_Mint := 0; itv_Maxt := 5 |}] |};
                      {| stone_ref := 1;
                         stone_intervals := [{| itv_Mint := 6; itv_Maxt := 9 |}] |}] ],
          None).
Proof.
  apply (SegmentWAL_replay_after_restart "wal" 0 5 15
           (op_LogSeries [{| rs_Ref := 1;
                             rs_Labels := [{| lbl_Name := "job"; lbl_Value := "api" |}] |}])
           (tl example_ops)).
  - repeat constructor; vm_compute; congruence.
  - eexists. reflexivity.
  - vm_compute. discriminate.
Defined.

(** X9.  A log with a flush interval of zero or less syncs in every call: when
    the calls have returned, the file of the segment itself, and not only
    the buffer of the writer, holds the header of the segment and the frames
    of all entries that were logged, followed by what is left of the
    preallocated zero bytes. *)
Theorem SegmentWAL_log_synced_to_file :
  forall (dir : string) (flushInterval : Z) (op : wal_op) (ops : list wal_op),
    flushInterval <= 0 ->
    is_Some (wal_op_entry op) ->
    8 + len (wal_frames (omap wal_op_entry (op :: ops))) <= walSegmentSizeBytes ->
    exists w1 k,
      SegmentWAL_logs (op :: ops) (fst (OpenSegmentWAL fs_empty dir flushInterval)) = (w1, None)
      /\ fs_content (w_fs w1) (path_Join dir (format_seq 0))
         = Some (segment_header ++ wal_frames (omap wal_op_entry (op :: ops)) ++ zeros k).
Proof.
  intros dir fl op ops Hfl [e He] Hfit.
  set (w0 := fst (OpenSegmentWAL fs_empty dir fl)).
  assert (Hfresh : wal_fresh dir w0) by (repeat split; reflexivity).
  assert (Hsize : w_segmentSize w0 = walSegmentSizeBytes) by reflexivity.
  assert (Hbig : walSegmentSizeBytes < 2 ^ 32) by (unfold walSegmentSizeBytes; lia).
  destruct (SegmentWAL_logs_fresh dir op ops w0 e Hfresh He) as (w1 & Erun & Hw1 & Hsync);
    [rewrite Hsize; exact Hfit|rewrite Hsize; lia|].
  destruct (Hsync Hfl) as (b' & Hcur' & Hbuf').
  destruct Hw1 as (fd & maxt & b & Hdir & Hfiles & Hcur & Hwr & flushed & k & Herr & Hseg & Hc).
  rewrite Hcur in Hcur'. injection Hcur' as <-.
  rewrite Hbuf', app_nil_r in Hc. subst flushed.
  destruct Hseg as (f & Hwf & Hfd & Hopen & Hname & Hd & Hdata & Hpos).
  exists w1, k. split; [exact Erun|].
  unfold fs_content. rewrite Hd, lookup_singleton_eq, Hdata, <- app_assoc. reflexivity.
Qed.

Lemma SegmentWAL_log_synced_to_file_witness :
  exists w1 k,
    SegmentWAL_logs example_ops (fst (OpenSegmentWAL fs_empty "wal" 0)) = (w1, None)
    /\ fs_content (w_fs w1) (path_Join "wal" (format_seq 0))
       = Some (segment_header ++ wal_frames (omap wal_op_entry example_ops) ++ zeros k).
Proof.
  apply (SegmentWAL_log_synced_to_file "wal" 0
           (op_LogSeries [{| rs_Ref := 1;
                             rs_Labels := [{| lbl_Name := "job"; lbl_Value := "api" |}] |}])
           (tl example_ops)).
  - lia.
  - eexists. reflexivity.
  - vm_compute. discriminate.
Defined.


(** ** Entries that wait in the write buffer *)

Lemma SegmentWAL_cur_Write_buffered w n p :
  wal_buffering w n -> n + len p <= 4 * 1024 * 1024 ->
  exists w',
    SegmentWAL_cur_Write w p = (w', None)
    /\ w_fs w' = w_fs w /\ wal_buffering w' (n + len p).
Proof.
  intros (b & Hcur & Herr & Hsz & Hn) Hfit.
  unfold SegmentWAL_cur_Write, bufio_Write, bufio_Available. rewrite Hcur, Herr, Hsz, Hn.
  destruct (Z.leb_spec (len p) (4 * 1024 * 1024 - n)) as [_|Hgt]; [|lia].
  eexists. split; [reflexivity|]. split; [reflexivity|].
  exists (bufio_Write_copy b p). cbn. rewrite len_app, Hn. auto.
Qed.

(** The writes of [entry], after the cut if there is one. *)
Lemma SegmentWAL_entry_buffered w w0 n et flag buf :
  (if SegmentWAL_entry_cuts w buf then SegmentWAL_cut w else (w, None)) = (w0, None) ->
  wal_buffering w0 n -> n + 10 + len buf <= 4 * 1024 * 1024 ->
  exists w',
    SegmentWAL_entry w et flag buf = (w', None)
    /\ w_fs w' = w_fs w0 /\ wal_buffering w' (n + 10 + len buf).
Proof.
  intros Hcut Hb Hfit. pose proof (len_nonneg buf) as Hbuf.
  unfold SegmentWAL_entry. cbv zeta. rewrite Hcut.
  destruct (SegmentWAL_cur_Write_buffered w0 n (entry_header et flag buf) Hb)
    as (w1 & E1 & F1 & B1); [rewrite len_entry_header; lia|].
  rewrite E1. rewrite len_entry_header in B1.
  destruct (SegmentWAL_cur_Write_buffered w1 _ buf B1) as (w2 & E2 & F2 & B2); [lia|].
  rewrite E2.
  destruct (SegmentWAL_cur_Write_buffered w2 _
              (crc32.Sum (crc32.Write (crc32.Write crc32.Reset (entry_header et flag buf)) buf)
                 []) B2)
    as (w3 & E3 & F3 & B3).
  { unfold crc32.Sum. cbn [app]. rewrite len_PutUint32. lia. }
  rewrite E3.
  assert (Hlen : len (crc32.Sum (crc32.Write (crc32.Write crc32.Reset
                                                (entry_header et flag buf)) buf) []) = 4).
  { unfold crc32.Sum. cbn [app]. apply len_PutUint32. }
  rewrite Hlen in B3.
  replace (n + 6 + len buf + 4) with (n + 10 + len buf) in B3 by lia.
  eexists. split; [reflexivity|].
  destruct (last (w_files _)) as [cf|]; [destruct (sf_maxt cf <? _)|];
    (split; [cbn; congruence|exact B3]).
Qed.

Lemma SegmentWAL_cut_cur w w' :
  SegmentWAL_cut w = (w', None) -> wal_buffering w' 0.
Proof.
  unfold SegmentWAL_cut. intros H.
  destruct (match SegmentWAL_tail w with
            | None => (w, None)
            | Some tf => _
            end) as [w0 [e|]]; [discriminate|].
  destruct (os_Create _ _) as [fs f].
  destruct (fileutil_Preallocate _ _ _) as [fs1 [e|]]; [discriminate|].
  destruct (File_Write _ _ _) as [fs2 [e|]]; [discriminate|].
  injection H as <-. eexists. cbn. repeat split.
Qed.

(** A call that logs a batch, for a log with a positive flush interval:
    the entry goes to the buffer and the files are as they were. *)
Lemma SegmentWAL_log_buffered dir w c n op :
  wal_segment0 dir w c -> w_curN w = len c -> wal_buffering w n ->
  0 < w_flushInterval w ->
  len c + len (wal_frames (omap wal_op_entry [op])) <= w_segmentSize w ->
  w_segmentSize w < 2 ^ 62 ->
  n + len (wal_frames (omap wal_op_entry [op])) <= 4 * 1024 * 1024 ->
  exists w',
    SegmentWAL_log w op = (w', None)
    /\ w_fs w' = w_fs w
    /\ wal_buffering w' (n + len (wal_frames (omap wal_op_entry [op]))).
Proof.
  intros Hw Hn Hb Hfl Hfit Hsz Hroom. cbn [omap list_omap] in *.
  destruct (wal_op_entry op) as [e|] eqn:He.
  - rewrite wal_frames_singleton, len_entry_frame in *.
    destruct (SegmentWAL_log_entry w op e He) as (t & ->).
    pose proof (len_nonneg (e_buf e)) as Hb0. pose proof (len_nonneg c) as Hc0.
    assert (Hcuts : SegmentWAL_entry_cuts (w_set_maxt w t) (e_buf e) = false).
    { destruct Hw as (fd & maxt & b & _ & _ & Hcur & _).
      eapply (SegmentWAL_entry_cuts_fits (w_set_maxt w t) b); [exact Hcur|cbn; lia|cbn; lia|
                                                                exact Hsz]. }
    destruct (SegmentWAL_entry_buffered (w_set_maxt w t) (w_set_maxt w t) n
                (e_type e) (e_flag e) (e_buf e)) as (w1 & E & F & B).
    { rewrite Hcuts. reflexivity. }
    { exact Hb. }
    { lia. }
    rewrite E.
    destruct (SegmentWAL_entry_segment0 dir (w_set_maxt w t) c (e_type e) (e_flag e) (e_buf e)
                Hw Hcuts) as (w1' & E' & _ & _ & _ & I1).
    rewrite E in E'. injection E' as <-. cbn [w_set_maxt w_flushInterval] in I1.
    destruct (Z.leb_spec (w_flushInterval w1) 0) as [Hle|_]; [lia|].
    exists w1. split; [reflexivity|]. split; [exact F|].
    replace (n + (10 + len (e_buf e))) with (n + 10 + len (e_buf e)) by lia. exact B.
  - change (wal_frames []) with (@nil byte) in *. rewrite len_nil, Z.add_0_r in *.
    assert (Hop : SegmentWAL_log w op
                  = if w_flushInterval w <=? 0 then SegmentWAL_Sync w else (w, None)).
    { destruct op as [[|s ss]|[|s ss]|st]; cbn [wal_op_entry] in He; try discriminate;
        reflexivity. }
    rewrite Hop. destruct (Z.leb_spec (w_flushInterval w) 0) as [Hle|_]; [lia|].
    exists w. auto.
Qed.

Lemma SegmentWAL_logs_buffered dir ops :
  forall w c n,
    wal_segment0 dir w c -> w_curN w = len c -> wal_buffering w n ->
    0 < w_flushInterval w ->
    len c + len (wal_frames (omap wal_op_entry ops)) <= w_segmentSize w ->
    w_segmentSize w < 2 ^ 62 ->
    n + len (wal_frames (omap wal_op_entry ops)) <= 4 * 1024 * 1024 ->
    exists w',
      SegmentWAL_logs ops w = (w', None)
      /\ w_fs w' = w_fs w
      /\ wal_segment0 dir w' (c ++ wal_frames (omap wal_op_entry ops)).
Proof.
  induction ops as [|op ops IH]; intros w c n Hw Hn Hb Hfl Hfit Hsz Hroom.
  - exists w. split; [reflexivity|]. split; [reflexivity|].
    change (wal_frames (omap wal_op_entry [])) with (@nil byte). rewrite app_nil_r. exact Hw.
  - change (op :: ops) with ([op] ++ ops) in *.
    rewrite omap_app, wal_frames_app in *. rewrite len_app in Hfit, Hroom.
    pose proof (len_nonneg (wal_frames (omap wal_op_entry ops))) as H0.
    pose proof (len_nonneg (wal_frames (omap wal_op_entry [op]))) as H1.
    destruct (SegmentWAL_log_segment0 dir w c op Hw Hn) as (w1 & E & Hw1 & N1 & S1 & I1 & _);
      [lia|exact Hsz|].
    destruct (SegmentWAL_log_buffered dir w c n op Hw Hn Hb Hfl) as (w1' & E' & F1 & B1);
      [lia|exact Hsz|lia|].
    rewrite E in E'. injection E' as <-.
    destruct (IH w1 _ _ Hw1 N1 B1) as (w' & Er & F' & Hw').
    { rewrite I1. exact Hfl. }
    { rewrite S1, len_app. lia. }
    { rewrite S1. exact Hsz. }
    { lia. }
    exists w'. split; [|split].
    + unfold SegmentWAL_logs. cbn [app fold_left]. rewrite E. exact Er.
    + congruence.
    + rewrite app_assoc. exact Hw'.
Qed.

(** The file of the first segment, for a log that writes it. *)
Lemma wal_segment0_content dir w c :
  wal_segment0 dir w c ->
  exists b flushed k,
    w_cur w = Some b /\ flushed ++ bw_buf b = c
    /\ fs_content (w_fs w) (path_Join dir (format_seq 0)) = Some (flushed ++ zeros k).
Proof.
  intros (fd & maxt & b & Hdir & Hfiles & Hcur & Hwr & flushed & k & Herr & Hseg & Hc).
  destruct Hseg as (f & Hwf & Hfd & Hopen & Hname & Hd & Hdata & Hpos).
  exists b, flushed, k. split; [exact Hcur|]. split; [exact Hc|].
  unfold fs_content. rewrite Hd, lookup_singleton_eq, Hdata. reflexivity.
Qed.

(** X21.  A log with a positive flush interval does not sync in its [Log]
    calls: the entries of batches that fit the write buffer of 4 MiB wait in
    the buffer, and the file of the segment holds the eight header bytes and
    zero bytes only.  [Sync], which the ticker of [run] and [Close] call,
    brings the frames of all entries into the file. *)
Theorem SegmentWAL_log_buffered_until_sync :
  forall (dir : string) (flushInterval : Z) (op : wal_op) (ops : list wal_op),
    0 < flushInterval ->
    is_Some (wal_op_entry op) ->
    len (wal_frames (omap wal_op_entry (op :: ops))) <= 4 * 1024 * 1024 ->
    exists w1 w2 k k',
      SegmentWAL_logs (op :: ops) (fst (OpenSegmentWAL fs_empty dir flushInterval)) = (w1, None)
      /\ fs_content (w_fs w1) (path_Join dir (format_seq 0))
         = Some (segment_header ++ zeros k)
      /\ SegmentWAL_Sync w1 = (w2, None)
      /\ fs_content (w_fs w2) (path_Join dir (format_seq 0))
         = Some (segment_header ++ wal_frames (omap wal_op_entry (op :: ops)) ++ zeros k').
Proof.
  intros dir fl op ops Hfl [e He] Hroom.
  set (w0 := fst (OpenSegmentWAL fs_empty dir fl)).
  assert (Hfresh : wal_fresh dir w0) by (repeat split; reflexivity).
  assert (Hsize : w_segmentSize w0 = walSegmentSizeBytes) by reflexivity.
  assert (Hbig : walSegmentSizeBytes = 256 * 1024 * 1024) by reflexivity.
  change (op :: ops) with ([op] ++ ops) in *.
  rewrite omap_app, wal_frames_app in *. rewrite len_app in Hroom.
  cbn [omap list_omap] in *. rewrite He in *. rewrite wal_frames_singleton in *.
  rewrite len_entry_frame in Hroom.
  pose proof (len_nonneg (wal_frames (omap wal_op_entry ops))) as H0.
  pose proof (len_nonneg (e_buf e)) as Hb0.
  (* the first call cuts the segment *)
  destruct (SegmentWAL_log_entry w0 op e He) as (t & Eop).
  destruct (Log_entry_fresh dir (w_set_maxt w0 t) (e_type e) (e_flag e) (e_buf e))
    as (w1 & E & Hw1 & N1 & S1 & I1 & _); [exact Hfresh|cbn; lia|cbn; lia|].
  cbn [w_set_maxt w_segmentSize w_flushInterval] in S1, I1.
  destruct (SegmentWAL_cut_fresh dir (w_set_maxt w0 t) Hfresh)
    as (wc & Ec & Hwc & _).
  pose proof (SegmentWAL_cut_cur _ _ Ec) as Hbc.
  destruct (SegmentWAL_entry_buffered (w_set_maxt w0 t) wc 0 (e_type e) (e_flag e) (e_buf e))
    as (w1' & E' & F1 & B1); [|exact Hbc|lia|].
  { replace (SegmentWAL_entry_cuts (w_set_maxt w0 t) (e_buf e)) with true; [exact Ec|].
    reflexivity. }
  assert (Hnosync : (w_flushInterval w1' <=? 0) = false).
  { destruct (SegmentWAL_entry_fresh dir (w_set_maxt w0 t) (e_type e) (e_flag e) (e_buf e)
                Hfresh) as (wx & Ex & _ & _ & _ & Ix).
    rewrite E' in Ex. injection Ex as <-. cbn [w_set_maxt w_flushInterval] in Ix.
    apply Z.leb_gt. rewrite Ix. exact Hfl. }
  rewrite E', Hnosync in E. injection E as ->.
  (* the file after the cut *)
  destruct (wal_segment0_content dir wc _ Hwc) as (bc & flc & kc & Hcurc & Hcc & Hcontc).
  destruct Hbc as (bc' & Hcurc' & _ & _ & Hlenc).
  rewrite Hcurc in Hcurc'. injection Hcurc' as <-.
  apply len_zero_nil in Hlenc. rewrite Hlenc, app_nil_r in Hcc. subst flc.
  (* the other calls *)
  destruct (SegmentWAL_logs_buffered dir ops w1 _ _ Hw1 N1 B1) as (w2 & Er & F2 & Hw2).
  { rewrite I1. exact Hfl. }
  { rewrite S1, Hsize, Hbig, len_app, len_entry_frame. change (len segment_header) with 8.
    lia. }
  { rewrite S1, Hsize, Hbig. lia. }
  { lia. }
  destruct (SegmentWAL_Sync_segment0 dir w2 _ Hw2)
    as (w3 & b3 & Es & Hw3 & Hcur3 & Hbuf3 & _).
  destruct (wal_segment0_content dir w3 _ Hw3) as (b3' & fl3 & k3 & Hcur3' & Hc3 & Hcont3).
  rewrite Hcur3 in Hcur3'. injection Hcur3' as <-.
  rewrite Hbuf3, app_nil_r in Hc3. subst fl3.
  exists w2, w3, kc, k3. split; [|split; [|split]].
  - unfold SegmentWAL_logs. cbn [app fold_left]. rewrite Eop, E', Hnosync. exact Er.
  - rewrite F2, F1. exact Hcontc.
  - exact Es.
  - rewrite Hcont3, <- !app_assoc. reflexivity.
Qed.

Lemma SegmentWAL_log_buffered_until_sync_witness :
  exists w1 w2 k k',
    SegmentWAL_logs example_ops (fst (OpenSegmentWAL fs_empty "wal" 5)) = (w1, None)
    /\ fs_content (w_fs w1) (path_Join "wal" (format_seq 0))
       = Some (segment_header ++ zeros k)
    /\ SegmentWAL_Sync w1 = (w2, None)
    /\ fs_content (w_fs w2) (path_Join "wal" (format_seq 0))
       = Some (segment_header ++ wal_frames (omap wal_op_entry example_ops) ++ zeros k').
Proof.
  apply (SegmentWAL_log_buffered_until_sync "wal" 5
           (op_LogSeries [{| rs_Ref := 1;
                             rs_Labels := [{| lbl_Name := "job"; lbl_Value := "api" |}] |}])
           (tl example_ops)).
  - lia.
  - eexists. reflexivity.
  - vm_compute. discriminate.
Defined.

(** ** Opening a log: the headers of the segments *)

Lemma sequenceFiles_none fs dir : fs_dir fs = ∅ -> sequenceFiles fs dir = [].
Proof. intros Hd. unfold sequenceFiles. rewrite Hd, dom_empty_L, elements_empty. reflexivity. Qed.

(** X22.  [OpenSegmentWAL] on a directory with the one segment file
    [00000000] succeeds exactly when the file has at least eight bytes, the
    first four of them the magic number and the fifth the format; the three
    bytes after them are not looked at.  On a directory without a file it
    succeeds with a log that has no segment, and creates none. *)
Theorem OpenSegmentWAL_validates_header :
  forall (fs : FS) (dir : string) (flushInterval : Z) (ino : nat) (data : list byte),
    FS_wf fs ->
    fs_dir fs = {[ path_Join dir (format_seq 0) := ino ]} ->
    fs_data fs ino = data ->
    (snd (OpenSegmentWAL fs dir flushInterval) = None
     <-> 8 <= len data
         /\ binary.Uint32 (slice_to 4 data) = WALMagic
         /\ byte.unsigned (index Byte.x00 data 4) = WALFormatDefault)
    /\ (forall fs0 : FS,
          fs_dir fs0 = ∅ ->
          exists w,
            OpenSegmentWAL fs0 dir flushInterval = (w, None)
            /\ w_files w = [] /\ w_fs w = fs0).
Proof.
  intros fs dir fl ino data Hwf Hd Hdata. split.
  2:{ intros fs0 Hd0. unfold OpenSegmentWAL, SegmentWAL_initSegments. cbn [w_fs w_dirFile].
      rewrite (sequenceFiles_none fs0 dir Hd0). eexists. repeat split. }
  set (name := path_Join dir (format_seq 0)) in *.
  set (fd := length (fs_fds fs)).
  set (f1 := {| f_name := name; f_ino := ino; f_pos := 0; f_closed := false |}).
  set (fs1 := {| fs_inodes := fs_inodes fs; fs_dir := fs_dir fs; fs_fds := fs_fds fs ++ [f1] |}).
  assert (Hl : fs_dir fs !! name = Some ino) by (rewrite Hd; apply lookup_singleton_eq).
  assert (Hf1 : fs_fds fs1 !! fd = Some f1).
  { unfold fs1, fd. cbn [fs_fds]. rewrite lookup_app_r by lia. rewrite Nat.sub_diag. reflexivity. }
  assert (Hwf1 : FS_wf fs1).
  { split; [exact (proj1 Hwf)|]. intros x g Hx. unfold fs1 in Hx. cbn [fs_fds fs_inodes] in *.
    apply lookup_app_Some in Hx. destruct Hx as [Hx|[_ Hx]].
    - exact (proj2 Hwf x g Hx).
    - destruct (x - length (fs_fds fs))%nat; [|discriminate]. injection Hx as <-. cbn.
      split; [eapply (proj1 Hwf); exact Hl|lia]. }
  assert (Hseg : seg_at fs1 fd data).
  { split; [exists f1; auto|]. unfold fs_remaining. rewrite Hf1. cbn [f1 f_pos f_ino].
    rewrite slice_from_0. exact Hdata. }
  assert (Hopen : OpenSegmentWAL fs dir fl
                  = let '(fs', err) :=
                      initSegments_validate fs1 [{| sf_f := fd; sf_maxt := 0 |}] in
                    (w_set_fs
                       (w_set_files
                          (w_set_fs
                             {| w_fs := fs; w_dirFile := dir; w_files := [];
                                w_flushInterval := fl; w_segmentSize := walSegmentSizeBytes;
                                w_cur := None; w_curN := 0; w_maxt := 0 |} fs1)
                          [{| sf_f := fd; sf_maxt := 0 |}]) fs', err)).
  { unfold OpenSegmentWAL, SegmentWAL_initSegments. cbn [w_fs w_dirFile w_files].
    rewrite (sequenceFiles_one fs dir ino Hd). fold name.
    cbn [initSegments_open]. unfold os_OpenFile. rewrite Hl. fold fd f1 fs1.
    reflexivity. }
  rewrite Hopen. cbn [initSegments_validate sf_f].
  pose proof (len_nonneg data) as H0.
  destruct data as [|c0 data'] eqn:Hdat.
  { rewrite (File_Read_eof fs1 fd 8 Hseg) by lia. cbn [snd].
    split; [discriminate|]. rewrite len_nil. intros [H8 _]. lia. }
  rewrite <- Hdat in *.
  destruct (File_Read_some fs1 fd data 8 Hwf1 Hseg) as (fs2 & Er & _);
    [lia|right; rewrite Hdat; discriminate|].
  rewrite Er.
  assert (Hlen8 : len (slice_to 8 data) = 8 <-> 8 <= len data).
  { rewrite len_slice_to by lia. lia. }
  destruct (Z.eqb_spec (len (slice_to 8 data)) 8) as [H8|H8]; cbn [negb].
  2:{ cbn [snd]. split; [discriminate|]. intros [Hge _]. apply Hlen8 in Hge. contradiction. }
  apply Hlen8 in H8.
  assert (Hs4 : slice_to 4 (slice_to 8 data) = slice_to 4 data).
  { unfold slice_to. rewrite take_take. f_equal. }
  assert (Hi4 : index Byte.x00 (slice_to 8 data) 4 = index Byte.x00 data 4).
  { unfold index, slice_to. rewrite lookup_take_lt by (cbn; lia). reflexivity. }
  rewrite Hs4, Hi4.
  destruct (Z.eqb_spec (binary.Uint32 (slice_to 4 data)) WALMagic) as [Hm|Hm]; cbn [negb].
  2:{ cbn [snd]. split; [discriminate|]. intros (_ & Hm' & _). contradiction. }
  destruct (Z.eqb_spec (byte.unsigned (index Byte.x00 data 4)) WALFormatDefault) as [Hv|Hv];
    cbn [negb snd].
  2:{ split; [discriminate|]. intros (_ & _ & Hv'). contradiction. }
  split; [auto|reflexivity].
Qed.

Lemma OpenSegmentWAL_validates_header_witness :
  (snd (OpenSegmentWAL
          {| fs_inodes := [segment_header ++ zeros 4];
             fs_dir := {[ path_Join "wal" (format_seq 0) := 0%nat ]};
             fs_fds := [] |} "wal" 0) = None
   <-> 8 <= len (segment_header ++ zeros 4)
       /\ binary.Uint32 (slice_to 4 (segment_header ++ zeros 4)) = WALMagic
       /\ byte.unsigned (index Byte.x00 (segment_header ++ zeros 4) 4) = WALFormatDefault)
  /\ (forall fs0 : FS,
        fs_dir fs0 = ∅ ->
        exists w,
          OpenSegmentWAL fs0 "wal" 0 = (w, None)
          /\ w_files w = [] /\ w_fs w = fs0).
Proof.
  apply (OpenSegmentWAL_validates_header
           {| fs_inodes := [segment_header ++ zeros 4];
              fs_dir := {[ path_Join "wal" (format_seq 0) := 0%nat ]};
              fs_fds := [] |} "wal" 0 0%nat (segment_header ++ zeros 4)).
  - apply FS_wfb_sound. vm_compute. reflexivity.
  - reflexivity.
  - reflexivity.
Defined.


(** ** The tables of the index file, read back *)

(** *** Offset tables *)

Lemma offset_table_map_lookup_other entries :
  forall res k,
    k ∉ map entry_key entries -> offset_table_map entries res !! k = res !! k.
Proof.
  induction entries as [|x entries IH]; intros res k Hk.
  - reflexivity.
  - cbn [map] in Hk. apply not_elem_of_cons in Hk. destruct Hk as [Hne Hk].
    unfold offset_table_map. cbn [fold_left]. fold (offset_table_map entries).
    rewrite (IH _ _ Hk). apply lookup_insert_ne. congruence.
Qed.

(** X10.  An offset table that [writeOffsetTable] wrote at a position other than
    0 is read by [readOffsetTable] as the map of its entries: an entry is
    found under its keys joined by the separator, with its offset cut to 32
    bits, and a key that no entry has is not in the map.  The entries have
    keys that differ after joining. *)
Theorem writeOffsetTable_readOffsetTable_roundtrip :
  forall (w w' : indexWriter) (entries : list hashEntry),
    iw_inv w -> 0 < iw_pos w ->
    Forall (fun e => is_uint64 (he_offset e)) entries ->
    NoDup (map entry_key entries) ->
    indexWriter_writeOffsetTable w entries = (w', None) ->
    exists m,
      indexReader_readOffsetTable (iw_fbuf w') (iw_pos w) = Ok m
      /\ (forall e, e ∈ entries -> m !! entry_key e = Some (uint32 (he_offset e)))
      /\ (forall k, k ∉ map entry_key entries -> m !! k = None).
Proof.
  intros w w' entries Hinv Hpos Hall Hnd H.
  destruct (indexWriter_writeOffsetTable_spec w w' entries Hinv H) as [Hinv' Hw'].
  exists (offset_table_map entries ∅). split; [|split].
  - apply indexReader_readOffsetTable_at.
    + destruct Hinv' as [Hp Hm]. rewrite <- Hp. exact Hm.
    + lia.
    + rewrite Hw'. cbn [iw_set_out iw_fbuf]. destruct Hinv as [Hp _]. rewrite Hp.
      apply bytes_at_end.
    + exact Hall.
  - intros e He. apply offset_table_map_lookup; assumption.
  - intros k Hk. rewrite (offset_table_map_lookup_other _ _ _ Hk). apply lookup_empty.
Qed.

Lemma writeOffsetTable_readOffsetTable_roundtrip_witness :
  exists m,
    indexReader_readOffsetTable
      (iw_fbuf (fst (indexWriter_writeOffsetTable (fst newIndexWriter)
                       [{| he_keys := ["job"; "api"]; he_offset := 77 |};
                        {| he_keys := ["job"; "db"]; he_offset := 2 ^ 32 + 5 |}])))
      (iw_pos (fst newIndexWriter)) = Ok m
    /\ (forall e,
          e ∈ [{| he_keys := ["job"; "api"]; he_offset := 77 |};
               {| he_keys := ["job"; "db"]; he_offset := 2 ^ 32 + 5 |}] ->
          m !! entry_key e = Some (uint32 (he_offset e)))
    /\ (forall k,
          k ∉ map entry_key [{| he_keys := ["job"; "api"]; he_offset := 77 |};
                             {| he_keys := ["job"; "db"]; he_offset := 2 ^ 32 + 5 |}] ->
          m !! k = None).
Proof.
  apply (writeOffsetTable_readOffsetTable_roundtrip (fst newIndexWriter)).
  - split; vm_compute; [reflexivity|discriminate].
  - vm_compute. reflexivity.
  - repeat constructor; vm_compute; first [reflexivity|discriminate].
  - apply (bool_decide_unpack _). vm_compute. exact I.
  - vm_compute. reflexivity.
Defined.

(** *** The table of contents *)

(** X11.  The table of contents [writeTOC] appends is the one [readTOC] returns
    for the file; and [readTOC] takes the six offsets from the last 52 bytes
    whatever the last four of them are: the checksum is not verified. *)
Theorem writeTOC_readTOC_roundtrip :
  forall (w w' : indexWriter),
    toc_ok (iw_toc w) ->
    indexWriter_writeTOC w = (w', None) ->
    indexReader_readTOC (iw_fbuf w') = Ok (iw_toc w)
    /\ forall crc : list byte,
         len crc = 4 ->
         indexReader_readTOC
           (iw_fbuf w ++ slice_to 48 (toc_bytes (iw_toc w)) ++ crc) = Ok (iw_toc w).
Proof.
  intros w w' Htoc H. unfold indexWriter_writeTOC in H. cbv zeta in H.
  destruct (indexWriter_write_ok _ _ _ H) as [Hw _].
  split.
  - rewrite Hw. cbn [iw_set_out iw_fbuf concat]. rewrite app_nil_r.
    apply (indexReader_readTOC_at (iw_fbuf w) (iw_toc w) Htoc).
  - intros crc Hcrc. destruct Htoc as (H1 & H2 & H3 & H4 & H5 & H6).
    unfold indexReader_readTOC.
    set (f := binary.PutUint64 (toc_symbols (iw_toc w))
              ++ binary.PutUint64 (toc_series (iw_toc w))
              ++ binary.PutUint64 (toc_labelIndices (iw_toc w))
              ++ binary.PutUint64 (toc_labelIndicesTable (iw_toc w))
              ++ binary.PutUint64 (toc_postings (iw_toc w))
              ++ binary.PutUint64 (toc_postingsTable (iw_toc w))).
    assert (Hf : len f = 48).
    { unfold f. rewrite !len_app, !len_PutUint64. reflexivity. }
    assert (Hs : slice_to 48 (toc_bytes (iw_toc w)) = f).
    { unfold toc_bytes, encbuf_putHash, crc32.Sum, encbuf_putBE64, encbuf_get, encbuf_reset.
      cbv zeta. cbn [app]. rewrite <- !app_assoc.
      replace (binary.PutUint64 (toc_symbols (iw_toc w)) ++ _)
        with (f ++ binary.PutUint32 (crc32.Write crc32.Reset f)).
      - apply slice_to_app_len. exact Hf.
      - unfold f. rewrite <- !app_assoc. reflexivity. }
    rewrite Hs, !len_app, Hf, Hcrc. pose proof (len_nonneg (iw_fbuf w)) as Hx.
    unfold indexTOCLen.
    destruct (Z.ltb_spec (len (iw_fbuf w) + (48 + 4)) (6 * 8 + 4)) as [Hlt|_]; [lia|].
    rewrite slice_from_app_len by lia.
    unfold f. rewrite <- !app_assoc.
    change (slice_from 8 ?l) with (slice_from (8 + 0) l).
    change 16 with (8 + (8 + 0)). change 24 with (8 + (8 + (8 + 0))).
    change 32 with (8 + (8 + (8 + (8 + 0)))).
    change 40 with (8 + (8 + (8 + (8 + (8 + 0))))).
    rewrite !slice_from_PutUint64_app by lia.
    rewrite !slice_from_0.
    rewrite !Uint64_PutUint64 by assumption.
    destruct (iw_toc w); reflexivity.
Qed.

Lemma writeTOC_readTOC_roundtrip_witness :
  indexReader_readTOC (iw_fbuf (fst (indexWriter_writeTOC (fst newIndexWriter))))
  = Ok (iw_toc (fst newIndexWriter))
  /\ forall crc : list byte,
       len crc = 4 ->
       indexReader_readTOC
         (iw_fbuf (fst newIndexWriter)
          ++ slice_to 48 (toc_bytes (iw_toc (fst newIndexWriter))) ++ crc)
       = Ok (iw_toc (fst newIndexWriter)).
Proof.
  apply (writeTOC_readTOC_roundtrip (fst newIndexWriter)).
  - repeat split; vm_compute; first [reflexivity|discriminate].
  - vm_compute. reflexivity.
Defined.

(** *** The symbol table *)

(** X12.  After [writeSymbols] every string that [AddSeries] put into the symbol
    map has the offset of its entry in the table: [lookupSymbol] at that
    offset returns the string, in the file as it is then and however the
    file is extended afterwards. *)
Theorem writeSymbols_lookupSymbol_roundtrip :
  forall (w w' : indexWriter) (s : string) (later : list byte),
    iw_inv w ->
    indexWriter_writeSymbols w = (w', None) ->
    is_Some (iw_symbols w !! s) ->
    len (iw_fbuf w' ++ later) < 2 ^ 63 ->
    lookupSymbol (iw_fbuf w' ++ later) (iw_symbol w' s) = Ok s.
Proof.
  intros w w' s later Hinv H Hs Hlen.
  destruct (indexWriter_writeSymbols_spec w w' Hinv H)
    as (_ & _ & _ & _ & _ & _ & _ & Hsym).
  destruct (Hsym s Hs) as [_ Hat].
  apply lookupSymbol_at; [exact Hlen|]. apply bytes_at_app. exact Hat.
Qed.

Lemma writeSymbols_lookupSymbol_roundtrip_witness :
  lookupSymbol
    (iw_fbuf (fst (indexWriter_writeSymbols (fst (indexWriter_populate example_populate))))
     ++ [Byte.x01; Byte.x02])
    (iw_symbol (fst (indexWriter_writeSymbols (fst (indexWriter_populate example_populate))))
       "a")
  = Ok "a"%string.
Proof.
  apply (writeSymbols_lookupSymbol_roundtrip (fst (indexWriter_populate example_populate))).
  - split; vm_compute; [reflexivity|discriminate].
  - vm_compute. reflexivity.
  - apply (bool_decide_unpack _). vm_compute. exact I.
  - vm_compute. reflexivity.
Defined.

(** *** The encoding and the decoding buffer *)

(** X13.  What [encbuf] has put, [decbuf] reads back in the same order and leaves
    the rest of the bytes.  A read for which the bytes do not suffice sets
    [errInvalidSize] and returns the zero value; once the error is set,
    every read returns the zero value, consumes nothing and leaves the
    error in place. *)
Theorem encbuf_decbuf_roundtrip :
  forall (x y : Z) (s : string) (rest : list byte),
    is_uint32 x -> is_uint64 y -> slen s < 2 ^ 63 ->
    (let e := encbuf_putUvarintStr
                (encbuf_putUvarint64 (encbuf_putBE32 (encbuf_reset []) x) y) s in
     let d0 := {| d_b := encbuf_get e ++ rest; d_e := None |} in
     let d1 := snd (decbuf_readBE32 d0) in
     let d2 := snd (decbuf_readUvarint d1) in
     let d3 := snd (decbuf_readUvarintStr d2) in
     fst (decbuf_readBE32 d0) = x
     /\ fst (decbuf_readUvarint d1) = y
     /\ fst (decbuf_readUvarintStr d2) = s
     /\ d3 = {| d_b := rest; d_e := None |})
    /\ (forall b : list byte,
          len b < 4 ->
          decbuf_readBE32 {| d_b := b; d_e := None |}
          = (0, {| d_b := b; d_e := Some errInvalidSize |}))
    /\ (forall (d : decbuf) (err : error),
          d_e d = Some err ->
          decbuf_readBE32 d = (0, d)
          /\ decbuf_readUvarint d = (0, d)
          /\ decbuf_readUvarintStr d = (EmptyString, d)
          /\ forall l, decbuf_get d l = ({| d_b := []; d_e := Some err |}, d)).
Proof.
  intros x y s rest Hx Hy Hs. split; [|split].
  - cbv zeta.
    unfold encbuf_putUvarint64, encbuf_putBE32, encbuf_get, encbuf_reset.
    rewrite encbuf_putUvarintStr_eq. cbn [app]. rewrite <- !app_assoc.
    rewrite decbuf_readBE32_app by exact Hx. cbn [fst snd].
    rewrite decbuf_readUvarint_app by exact Hy. cbn [fst snd].
    rewrite decbuf_readUvarintStr_app by exact Hs. cbn [fst snd].
    repeat split.
  - intros b Hb. unfold decbuf_readBE32. cbn [d_e d_b].
    destruct (Z.ltb_spec (len b) 4) as [_|Hge]; [reflexivity|lia].
  - intros d err Hd.
    unfold decbuf_readBE32, decbuf_readUvarintStr, decbuf_readUvarint, decbuf_get.
    rewrite Hd. cbn [d_e]. rewrite Hd. repeat split.
Qed.

Lemma encbuf_decbuf_roundtrip_witness :
  (let e := encbuf_putUvarintStr
              (encbuf_putUvarint64 (encbuf_putBE32 (encbuf_reset []) MagicIndex) 300)
              "job" in
   let d0 := {| d_b := encbuf_get e ++ [Byte.x07]; d_e := None |} in
   let d1 := snd (decbuf_readBE32 d0) in
   let d2 := snd (decbuf_readUvarint d1) in
   let d3 := snd (decbuf_readUvarintStr d2) in
   fst (decbuf_readBE32 d0) = MagicIndex
   /\ fst (decbuf_readUvarint d1) = 300
   /\ fst (decbuf_readUvarintStr d2) = "job"%string
   /\ d3 = {| d_b := [Byte.x07]; d_e := None |})
  /\ (forall b : list byte,
        len b < 4 ->
        decbuf_readBE32 {| d_b := b; d_e := None |}
        = (0, {| d_b := b; d_e := Some errInvalidSize |}))
  /\ (forall (d : decbuf) (err : error),
        d_e d = Some err ->
        decbuf_readBE32 d = (0, d)
        /\ decbuf_readUvarint d = (0, d)
        /\ decbuf_readUvarintStr d = (EmptyString, d)
        /\ forall l, decbuf_get d l = ({| d_b := []; d_e := Some err |}, d)).
Proof.
  apply (encbuf_decbuf_roundtrip MagicIndex 300 "job" [Byte.x07]).
  - vm_compute. split; [discriminate|reflexivity].
  - vm_compute. split; [discriminate|reflexivity].
  - vm_compute. reflexivity.
Defined.


(** ** The index writer over any sequence of calls *)

Lemma iw_grows_refl w : iw_grows w w.
Proof.
  split; [apply iw_extends_refl|]. split; [reflexivity|].
  split; [unfold stage_le; lia|reflexivity].
Qed.

Lemma iw_grows_trans w1 w2 w3 : iw_grows w1 w2 -> iw_grows w2 w3 -> iw_grows w1 w3.
Proof.
  intros (E1 & P1 & S1 & D1) (E2 & P2 & S2 & D2).
  split; [eapply iw_extends_trans; eassumption|].
  split; [lia|]. split; [unfold stage_le in *; lia|].
  etransitivity; eassumption.
Qed.

(** A step that leaves the output alone. *)
Lemma iw_grows_step w w' :
  iw_fbuf w' = iw_fbuf w -> iw_pos w' = iw_pos w ->
  stage_le (iw_stage w) (iw_stage w') ->
  dom (iw_series w) ⊆ dom (iw_series w') -> iw_grows w w'.
Proof.
  intros Hf Hp Hs Hser. unfold iw_grows, iw_extends.
  rewrite Hf, Hp. split; [exists []; rewrite app_nil_r; reflexivity|].
  split; [reflexivity|]. split; assumption.
Qed.

Lemma iw_grows_same w w' :
  iw_fbuf w' = iw_fbuf w -> iw_pos w' = iw_pos w -> iw_stage w' = iw_stage w ->
  iw_series w' = iw_series w -> iw_grows w w'.
Proof.
  intros Hf Hp Hs Hser. apply iw_grows_step; [assumption|assumption| |].
  - unfold stage_le. rewrite Hs. lia.
  - rewrite Hser. reflexivity.
Qed.

Lemma indexWriter_write_grows bufs :
  forall w w' err,
    indexWriter_write w bufs = (w', err) ->
    (exists y, w' = iw_set_out w (iw_fbuf w ++ y) (iw_pos w + len y)).
Proof.
  induction bufs as [|b bufs IH]; intros w w' err H.
  - cbn in H. injection H as <- _. exists []. rewrite app_nil_r, len_nil, Z.add_0_r.
    symmetry. apply iw_set_out_id.
  - rewrite indexWriter_write_cons in H. cbv zeta in H.
    destruct (MaxUint32 <? _).
    + injection H as <- _. exists b. reflexivity.
    + destruct (IH _ _ _ H) as [y Hy]. exists (b ++ y). rewrite Hy.
      unfold iw_set_out. cbn. rewrite <- app_assoc, len_app. f_equal. lia.
Qed.

Lemma indexWriter_write_iw_grows bufs w w' err :
  indexWriter_write w bufs = (w', err) ->
  iw_grows w w' /\ iw_stage w' = iw_stage w /\ iw_series w' = iw_series w
  /\ iw_fbuf w' = iw_fbuf w ++ drop (length (iw_fbuf w)) (iw_fbuf w').
Proof.
  intros H. destruct (indexWriter_write_grows _ _ _ _ H) as [y ->].
  cbn [iw_set_out iw_stage iw_series iw_fbuf].
  split; [|split; [reflexivity|split; [reflexivity|]]].
  - split; [exists y; reflexivity|]. cbn [iw_set_out iw_pos iw_fbuf iw_stage iw_series].
    split; [rewrite len_app; lia|]. split; [unfold stage_le; lia|reflexivity].
  - rewrite drop_app_length. reflexivity.
Qed.

Lemma indexWriter_AddSeries_grows w ref lset chunks :
  iw_grows w (fst (indexWriter_AddSeries w ref lset chunks))
  /\ iw_fbuf (fst (indexWriter_AddSeries w ref lset chunks)) = iw_fbuf w.
Proof.
  unfold indexWriter_AddSeries. destruct (iw_series w !! ref) as [s|] eqn:Hs; cbn [fst].
  - split; [apply iw_grows_refl|reflexivity].
  - split; [|reflexivity]. apply iw_grows_step; try reflexivity.
    + unfold stage_le. cbn [iw_set_series iw_set_symbols iw_stage]. lia.
    + cbn [iw_set_series iw_set_symbols iw_series]. rewrite dom_insert_L. set_solver.
Qed.

Lemma indexWriter_writeSymbols_grows w :
  iw_grows w (fst (indexWriter_writeSymbols w))
  /\ iw_stage (fst (indexWriter_writeSymbols w)) = iw_stage w.
Proof.
  unfold indexWriter_writeSymbols. cbv zeta.
  destruct (fold_left _ _ _) as [m buf2].
  destruct (indexWriter_write _ _) as [w1 err] eqn:Hw. cbn [fst].
  destruct (indexWriter_write_iw_grows _ _ _ _ Hw) as (Hg & Hst & Hser & _).
  split; [|exact Hst].
  eapply iw_grows_trans; [|exact Hg]. apply iw_grows_same; reflexivity.
Qed.

Lemma indexWriter_writeSeries_one_grows w rs :
  iw_grows w (fst (indexWriter_writeSeries_one w rs))
  /\ iw_stage (fst (indexWriter_writeSeries_one w rs)) = iw_stage w.
Proof.
  unfold indexWriter_writeSeries_one. destruct rs as [ref s]. cbv zeta.
  destruct (indexWriter_write _ _) as [w1 err] eqn:Hw. cbn [fst].
  destruct (indexWriter_write_iw_grows _ _ _ _ Hw) as (Hg & Hst & Hser & _).
  split; [|exact Hst].
  eapply iw_grows_trans; [|exact Hg].
  apply iw_grows_step; try reflexivity.
  - unfold stage_le. cbn [iw_set_series iw_stage]. lia.
  - cbn [iw_set_series iw_series]. rewrite dom_insert_L. set_solver.
Qed.

Lemma indexWriter_writeSeries_loop_grows series :
  forall w,
    iw_grows w (fst (indexWriter_writeSeries_loop w series))
    /\ iw_stage (fst (indexWriter_writeSeries_loop w series)) = iw_stage w.
Proof.
  induction series as [|rs series IH]; intros w; cbn [indexWriter_writeSeries_loop].
  - split; [apply iw_grows_refl|reflexivity].
  - pose proof (indexWriter_writeSeries_one_grows w rs) as [Hg Hst].
    destruct (indexWriter_writeSeries_one w rs) as [w1 [e|]]; cbn [fst] in *.
    + split; assumption.
    + destruct (IH w1) as [Hg1 Hst1]. split; [|congruence].
      eapply iw_grows_trans; eassumption.
Qed.

Lemma indexWriter_writeOffsetTable_grows w entries :
  iw_grows w (fst (indexWriter_writeOffsetTable w entries))
  /\ iw_stage (fst (indexWriter_writeOffsetTable w entries)) = iw_stage w.
Proof.
  unfold indexWriter_writeOffsetTable. cbv zeta.
  destruct (indexWriter_write _ _) as [w1 err] eqn:Hw. cbn [fst].
  destruct (indexWriter_write_iw_grows _ _ _ _ Hw) as (Hg & Hst & _). split; assumption.
Qed.

Lemma indexWriter_writeTOC_grows w :
  iw_grows w (fst (indexWriter_writeTOC w))
  /\ iw_stage (fst (indexWriter_writeTOC w)) = iw_stage w.
Proof.
  unfold indexWriter_writeTOC. cbv zeta.
  destruct (indexWriter_write _ _) as [w1 err] eqn:Hw. cbn [fst].
  destruct (indexWriter_write_iw_grows _ _ _ _ Hw) as (Hg & Hst & _). split; assumption.
Qed.

Lemma iw_grows_set_toc w toc : iw_grows w (iw_set_toc w toc).
Proof. apply iw_grows_same; reflexivity. Qed.

Section Calls.
Variable rangeSeries : gmap Z indexWriterSeries -> list (Z * indexWriterSeries).

Lemma indexWriter_writeSeries_grows w :
  iw_grows w (fst (indexWriter_writeSeries rangeSeries w))
  /\ iw_stage (fst (indexWriter_writeSeries rangeSeries w)) = iw_stage w.
Proof.
  unfold indexWriter_writeSeries. cbv zeta.
  destruct (indexWriter_write _ _) as [w1 [e|]] eqn:Hw;
    destruct (indexWriter_write_iw_grows _ _ _ _ Hw) as (Hg & Hst & _).
  - cbn [fst]. split; assumption.
  - destruct (indexWriter_writeSeries_loop_grows
                (sort_Sort (@length _) indexWriterSeriesSlice_Less
                   indexWriterSeriesSlice_Swap (rangeSeries (iw_series w))) w1)
      as [Hg1 Hst1].
    split; [eapply iw_grows_trans; eassumption|congruence].
Qed.

(** [ensureStage]: the writer grows; when it returns no error the stage is
    the one asked for, and when the stage asked for is an earlier one the
    writer is as it was. *)
Lemma indexWriter_ensureStage_grows w s :
  iw_grows w (fst (indexWriter_ensureStage rangeSeries w s))
  /\ (snd (indexWriter_ensureStage rangeSeries w s) = None ->
      iw_stage (fst (indexWriter_ensureStage rangeSeries w s)) = s)
  /\ (snd (indexWriter_ensureStage rangeSeries w s) <> None ->
      iw_stage (fst (indexWriter_ensureStage rangeSeries w s)) = iw_stage w).
Proof.
  unfold indexWriter_ensureStage.
  destruct (indexWriterStage_eqb (iw_stage w) s) eqn:Heq.
  { cbn [fst snd]. split; [apply iw_grows_refl|]. split; [|reflexivity].
    intros _. unfold indexWriterStage_eqb in Heq. apply Z.eqb_eq in Heq.
    destruct (iw_stage w), s; cbn in Heq; first [reflexivity|discriminate]. }
  destruct (Z.ltb_spec (indexWriterStage_uint8 s) (indexWriterStage_uint8 (iw_stage w)))
    as [Hlt|Hge].
  { cbn [fst snd]. split; [apply iw_grows_refl|]. split; [discriminate|reflexivity]. }
  assert (Hstage : stage_le (iw_stage w) s) by exact Hge.
  (* the population stage *)
  set (pop :=
         if indexWriterStage_eqb (iw_stage w) idxStagePopulate
         then
           match indexWriter_writeSymbols
                   (iw_set_toc w (toc_set_symbols (iw_toc w) (iw_pos w))) with
           | (w0, Some e) => (w0, Some e)
           | (w0, None) =>
               indexWriter_writeSeries rangeSeries
                 (iw_set_toc w0 (toc_set_series (iw_toc w0) (iw_pos w0)))
           end
         else (w, None)).
  assert (Hpop : iw_grows w (fst pop) /\ iw_stage (fst pop) = iw_stage w).
  { unfold pop. destruct (indexWriterStage_eqb (iw_stage w) idxStagePopulate).
    - pose proof (indexWriter_writeSymbols_grows
                    (iw_set_toc w (toc_set_symbols (iw_toc w) (iw_pos w)))) as [Hg Hst].
      destruct (indexWriter_writeSymbols _) as [w0 [e|]]; cbn [fst] in *.
      + split; [|exact Hst]. eapply iw_grows_trans; [apply iw_grows_set_toc|exact Hg].
      + pose proof (indexWriter_writeSeries_grows
                      (iw_set_toc w0 (toc_set_series (iw_toc w0) (iw_pos w0))))
          as [Hg1 Hst1].
        split; [|rewrite Hst1; exact Hst].
        eapply iw_grows_trans; [apply iw_grows_set_toc|].
        eapply iw_grows_trans; [exact Hg|].
        eapply iw_grows_trans; [apply iw_grows_set_toc|exact Hg1].
    - cbn [fst]. split; [apply iw_grows_refl|reflexivity]. }
  fold pop. destruct pop as [w1 [e|]]; cbn [fst] in Hpop; destruct Hpop as [Hg1 Hst1].
  { cbn [fst snd]. split; [exact Hg1|]. split; [discriminate|intros _; exact Hst1]. }
  assert (Hfin : forall w2,
             iw_grows w1 w2 -> iw_stage w2 = iw_stage w1 ->
             iw_grows w (iw_set_stage w2 s)).
  { intros w2 Hg2 Hst2. eapply iw_grows_trans; [exact Hg1|].
    eapply iw_grows_trans; [exact Hg2|].
    apply iw_grows_step; try reflexivity.
    cbn [iw_set_stage iw_stage]. rewrite Hst2, Hst1. exact Hstage. }
  destruct s.
  - cbn [fst snd]. split; [apply Hfin; [apply iw_grows_refl|reflexivity]|].
    split; [reflexivity|congruence].
  - cbn [fst snd]. split; [apply Hfin; [apply iw_grows_set_toc|reflexivity]|].
    split; [reflexivity|congruence].
  - pose proof (indexWriter_writeOffsetTable_grows
                  (iw_set_toc w1 (toc_set_labelIndicesTable (iw_toc w1) (iw_pos w1)))
                  (iw_labelIndexes
                     (iw_set_toc w1 (toc_set_labelIndicesTable (iw_toc w1) (iw_pos w1)))))
      as [Hg2 Hst2].
    destruct (indexWriter_writeOffsetTable _ _) as [w2 [e|]]; cbn [fst snd] in *;
      change (iw_stage (iw_set_toc w1 ?t)) with (iw_stage w1) in Hst2.
    + split; [|split; [discriminate|intros _; congruence]].
      eapply iw_grows_trans; [exact Hg1|].
      eapply iw_grows_trans; [apply iw_grows_set_toc|exact Hg2].
    + split; [|split; [reflexivity|congruence]].
      apply Hfin; [|exact Hst2].
      eapply iw_grows_trans; [apply iw_grows_set_toc|].
      eapply iw_grows_trans; [exact Hg2|apply iw_grows_set_toc].
  - pose proof (indexWriter_writeOffsetTable_grows
                  (iw_set_toc w1 (toc_set_postingsTable (iw_toc w1) (iw_pos w1)))
                  (iw_postings
                     (iw_set_toc w1 (toc_set_postingsTable (iw_toc w1) (iw_pos w1)))))
      as [Hg2 Hst2].
    destruct (indexWriter_writeOffsetTable _ _) as [w2 [e|]]; cbn [fst snd] in *;
      change (iw_stage (iw_set_toc w1 ?t)) with (iw_stage w1) in Hst2.
    + split; [|split; [discriminate|intros _; congruence]].
      eapply iw_grows_trans; [exact Hg1|].
      eapply iw_grows_trans; [apply iw_grows_set_toc|exact Hg2].
    + pose proof (indexWriter_writeTOC_grows w2) as [Hg3 Hst3].
      destruct (indexWriter_writeTOC w2) as [w3 [e|]]; cbn [fst snd] in *.
      * split; [|split; [discriminate|intros _; congruence]].
        eapply iw_grows_trans; [exact Hg1|].
        eapply iw_grows_trans; [apply iw_grows_set_toc|].
        eapply iw_grows_trans; [exact Hg2|exact Hg3].
      * split; [|split; [reflexivity|congruence]].
        apply Hfin; [|congruence].
        eapply iw_grows_trans; [apply iw_grows_set_toc|].
        eapply iw_grows_trans; [exact Hg2|exact Hg3].
Qed.

Lemma indexWriter_call_grows w op :
  iw_grows w (fst (indexWriter_call rangeSeries w op)).
Proof.
  destruct op as [ref lset chunks|names values|name value it|]; cbn [indexWriter_call].
  - apply indexWriter_AddSeries_grows.
  - unfold indexWriter_WriteLabelIndex.
    pose proof (indexWriter_ensureStage_grows w idxStageLabelIndex) as (Hg & _ & _).
    destruct (indexWriter_ensureStage rangeSeries w idxStageLabelIndex) as [w1 [e|]];
      cbn [fst] in *; [exact Hg|].
    destruct (newStringTuples values (length names)) as [valt|e]; cbn [fst]; [|exact Hg].
    cbv zeta. destruct (indexWriter_write _ _) as [w2 err] eqn:Hw. cbn [fst].
    destruct (indexWriter_write_iw_grows _ _ _ _ Hw) as (Hg2 & _).
    eapply iw_grows_trans; [exact Hg|].
    eapply iw_grows_trans; [|exact Hg2]. apply iw_grows_same; reflexivity.
  - unfold indexWriter_WritePostings.
    pose proof (indexWriter_ensureStage_grows w idxStagePostings) as (Hg & _ & _).
    destruct (indexWriter_ensureStage rangeSeries w idxStagePostings) as [w1 [e|]];
      cbn [fst] in *; [exact Hg|].
    cbv zeta.
    assert (Hg1 : iw_grows w
                    (iw_set_postings w1
                       (iw_postings w1
                        ++ [{| he_keys := [name; value]; he_offset := iw_pos w1 |}]))).
    { eapply iw_grows_trans; [exact Hg|]. apply iw_grows_same; reflexivity. }
    destruct (indexWriter_postingsRefs _ _ _) as [refs|e]; cbn [fst]; [|exact Hg1].
    destruct (Postings_Err it); cbn [fst]; [exact Hg1|].
    destruct (indexWriter_write _ _) as [w2 err] eqn:Hw. cbn [fst].
    destruct (indexWriter_write_iw_grows _ _ _ _ Hw) as (Hg2 & _).
    eapply iw_grows_trans; eassumption.
  - unfold indexWriter_Close.
    pose proof (indexWriter_ensureStage_grows w idxStageDone) as (Hg & _ & _).
    destruct (indexWriter_ensureStage rangeSeries w idxStageDone) as [w1 [e|]];
      cbn [fst] in *; [exact Hg|].
    eapply iw_grows_trans; [exact Hg|]. apply iw_grows_same; reflexivity.
Qed.

Lemma indexWriter_calls_grows ops :
  forall w, iw_grows w (indexWriter_calls rangeSeries ops w).
Proof.
  induction ops as [|op ops IH]; intros w.
  - apply iw_grows_refl.
  - unfold indexWriter_calls. cbn [fold_left]. fold (indexWriter_calls rangeSeries ops).
    eapply iw_grows_trans; [apply indexWriter_call_grows|apply IH].
Qed.

End Calls.

(** X14.  Whatever calls are made on an index writer, in whatever order and
    whether they fail or not, the writer only appends to its output: the
    bytes written so far stay a prefix of the file, the position advances by
    the number of bytes appended, the stage never goes back and no series is
    dropped; this for every order in which the series map is ranged over. *)
Theorem indexWriter_calls_append_only :
  forall (rangeSeries : gmap Z indexWriterSeries -> list (Z * indexWriterSeries))
         (ops : list iw_op) (w : indexWriter),
    let w' := indexWriter_calls rangeSeries ops w in
    (exists y, iw_fbuf w' = iw_fbuf w ++ y /\ iw_pos w' = iw_pos w + len y)
    /\ indexWriterStage_uint8 (iw_stage w) <= indexWriterStage_uint8 (iw_stage w')
    /\ dom (iw_series w) ⊆ dom (iw_series w').
Proof.
  intros rangeSeries ops w w'.
  destruct (indexWriter_calls_grows rangeSeries ops w) as ([y Hy] & Hp & Hs & Hd).
  fold w' in Hy, Hp, Hs, Hd.
  split; [|split; [exact Hs|exact Hd]].
  exists y. split; [exact Hy|]. rewrite Hy, len_app in Hp. lia.
Qed.

(** *** After [Close] *)

Lemma indexWriter_ensureStage_earlier rangeSeries w s :
  indexWriterStage_uint8 s < indexWriterStage_uint8 (iw_stage w) ->
  exists e, indexWriter_ensureStage rangeSeries w s = (w, Some e).
Proof.
  intros Hlt. unfold indexWriter_ensureStage.
  destruct (indexWriterStage_eqb (iw_stage w) s) eqn:Heq.
  { unfold indexWriterStage_eqb in Heq. apply Z.eqb_eq in Heq. lia. }
  destruct (Z.ltb_spec (indexWriterStage_uint8 s) (indexWriterStage_uint8 (iw_stage w)))
    as [_|Hge]; [|lia].
  eexists. reflexivity.
Qed.

(** X15.  Once [Close] has returned without error the index is final for the two
    writing calls: [WriteLabelIndex] and [WritePostings] fail in
    [ensureStage] and leave the writer as it is.  [AddSeries] checks no
    stage: it still accepts a reference that was not added before, and
    writes nothing. *)
Theorem indexWriter_Close_is_final :
  forall (rangeSeries : gmap Z indexWriterSeries -> list (Z * indexWriterSeries))
         (w w' : indexWriter),
    indexWriter_Close rangeSeries w = (w', None) ->
    (forall names values,
        exists e, indexWriter_WriteLabelIndex rangeSeries w' names values = (w', Some e))
    /\ (forall name value it,
           exists e, indexWriter_WritePostings rangeSeries w' name value it = (w', Some e))
    /\ (forall ref lset chunks,
           iw_series w' !! ref = None ->
           exists w'',
             indexWriter_AddSeries w' ref lset chunks = (w'', None)
             /\ iw_fbuf w'' = iw_fbuf w').
Proof.
  intros rangeSeries w w' H. unfold indexWriter_Close in H.
  pose proof (indexWriter_ensureStage_grows rangeSeries w idxStageDone) as (_ & Hst & _).
  destruct (indexWriter_ensureStage rangeSeries w idxStageDone) as [w1 [e|]];
    [discriminate|].
  injection H as <-. cbn [fst snd] in Hst. specialize (Hst eq_refl).
  assert (Hdone : iw_stage (iw_set_closed w1) = idxStageDone) by exact Hst.
  split; [|split].
  - intros names values. unfold indexWriter_WriteLabelIndex.
    destruct (indexWriter_ensureStage_earlier rangeSeries (iw_set_closed w1)
                idxStageLabelIndex) as [e He].
    { rewrite Hdone. cbn. lia. }
    rewrite He. eexists. reflexivity.
  - intros name value it. unfold indexWriter_WritePostings.
    destruct (indexWriter_ensureStage_earlier rangeSeries (iw_set_closed w1)
                idxStagePostings) as [e He].
    { rewrite Hdone. cbn. lia. }
    rewrite He. eexists. reflexivity.
  - intros ref lset chunks Hnone. unfold indexWriter_AddSeries. rewrite Hnone.
    eexists. split; reflexivity.
Qed.

Lemma indexWriter_Close_is_final_witness :
  (forall names values,
      exists e,
        indexWriter_WriteLabelIndex rangeSeries_map
          (fst (indexWriter_Close rangeSeries_map (fst newIndexWriter))) names values
        = (fst (indexWriter_Close rangeSeries_map (fst newIndexWriter)), Some e))
  /\ (forall name value it,
         exists e,
           indexWriter_WritePostings rangeSeries_map
             (fst (indexWriter_Close rangeSeries_map (fst newIndexWriter))) name value it
           = (fst (indexWriter_Close rangeSeries_map (fst newIndexWriter)), Some e))
  /\ (forall ref lset chunks,
         iw_series (fst (indexWriter_Close rangeSeries_map (fst newIndexWriter))) !! ref
         = None ->
         exists w'',
           indexWriter_AddSeries
             (fst (indexWriter_Close rangeSeries_map (fst newIndexWriter))) ref lset chunks
           = (w'', None)
           /\ iw_fbuf w''
              = iw_fbuf (fst (indexWriter_Close rangeSeries_map (fst newIndexWriter)))).
Proof.
  apply (indexWriter_Close_is_final rangeSeries_map (fst newIndexWriter)).
  vm_compute. reflexivity.
Defined.

(** *** [WritePostings] with a reference that was not added *)

Lemma indexWriter_postingsRefs_unknown w vals :
  forall refs ref,
    ref ∈ vals -> iw_series w !! ref = None ->
    exists e, indexWriter_postingsRefs w vals refs = Err e.
Proof.
  induction vals as [|v vals IH]; intros refs ref Hin Hnone.
  - apply elem_of_nil in Hin. contradiction.
  - cbn [indexWriter_postingsRefs].
    destruct (iw_series w !! v) as [s|] eqn:Hv; [|eexists; reflexivity].
    apply elem_of_cons in Hin. destruct Hin as [->|Hin]; [congruence|].
    apply (IH _ ref Hin Hnone).
Qed.

(** X16.  [WritePostings] for an iterator that yields a reference no series was
    added under returns an error and writes no byte of the postings; the
    entry for the pair was appended to the table of postings before the
    references were looked at, and stays there with the position at which
    nothing was written for it. *)
Theorem indexWriter_WritePostings_unknown_ref :
  forall (rangeSeries : gmap Z indexWriterSeries -> list (Z * indexWriterSeries))
         (w w1 : indexWriter) (name value : string) (it : Postings) (ref : Z),
    indexWriter_ensureStage rangeSeries w idxStagePostings = (w1, None) ->
    ref ∈ Postings_values it ->
    iw_series w1 !! ref = None ->
    exists e,
      indexWriter_WritePostings rangeSeries w name value it
      = (iw_set_postings w1
           (iw_postings w1 ++ [{| he_keys := [name; value]; he_offset := iw_pos w1 |}]),
         Some e).
Proof.
  intros rangeSeries w w1 name value it ref Hst Hin Hnone.
  unfold indexWriter_WritePostings. rewrite Hst. cbv zeta.
  destruct (indexWriter_postingsRefs_unknown
              (iw_set_postings w1
                 (iw_postings w1 ++ [{| he_keys := [name; value]; he_offset := iw_pos w1 |}]))
              (Postings_values it) [] ref Hin Hnone) as [e He].
  rewrite He. exists e. reflexivity.
Qed.

Lemma indexWriter_WritePostings_unknown_ref_witness :
  exists e,
    indexWriter_WritePostings rangeSeries_map (fst (indexWriter_populate example_populate))
      "job" "api" (newListPostings [1; 99])
    = (iw_set_postings
         (fst (indexWriter_ensureStage rangeSeries_map
                 (fst (indexWriter_populate example_populate)) idxStagePostings))
         (iw_postings
            (fst (indexWriter_ensureStage rangeSeries_map
                    (fst (indexWriter_populate example_populate)) idxStagePostings))
          ++ [{| he_keys := ["job"; "api"];
                 he_offset :=
                   iw_pos
                     (fst (indexWriter_ensureStage rangeSeries_map
                             (fst (indexWriter_populate example_populate))
                             idxStagePostings)) |}]),
       Some e).
Proof.
  apply (indexWriter_WritePostings_unknown_ref rangeSeries_map
           (fst (indexWriter_populate example_populate)) _ "job" "api"
           (newListPostings [1; 99]) 99).
  - vm_compute. reflexivity.
  - apply (bool_decide_unpack _). vm_compute. exact I.
  - vm_compute. reflexivity.
Defined.

(** *** A series added after the population stage *)

(** X17.  [AddSeries] after the series were written (the stage is past the
    population stage) is accepted, but the series is never written and its
    offset stays 0: postings written for its reference hold the offset 0,
    where the header of the file is. *)
Theorem indexWriter_AddSeries_after_population :
  forall (rangeSeries : gmap Z indexWriterSeries -> list (Z * indexWriterSeries))
         (w : indexWriter) (ref : Z) (lset : Labels) (chunks : list ChunkMeta),
    iw_stage w = idxStagePostings ->
    iw_series w !! ref = None ->
    exists w1,
      indexWriter_AddSeries w ref lset chunks = (w1, None)
      /\ iw_fbuf w1 = iw_fbuf w
      /\ forall name value w2,
           indexWriter_WritePostings rangeSeries w1 name value (newListPostings [ref])
           = (w2, None) ->
           iw_fbuf w2 = iw_fbuf w ++ sized (binary.PutUint32 0).
Proof.
  intros rangeSeries w ref lset chunks Hst Hnone.
  unfold indexWriter_AddSeries. rewrite Hnone. cbv zeta.
  set (w1 := iw_set_series _ _).
  exists w1. split; [reflexivity|]. split; [reflexivity|].
  intros name value w2 H.
  assert (Hst1 : iw_stage w1 = idxStagePostings) by exact Hst.
  assert (Hl : iw_series w1 !! ref
               = Some {| iws_labels := lset; iws_chunks := chunks; iws_offset := 0 |})
    by apply lookup_insert_eq.
  assert (Hf : iw_fbuf w1 = iw_fbuf w) by reflexivity.
  clearbody w1.
  unfold indexWriter_WritePostings, indexWriter_ensureStage in H. rewrite Hst1 in H.
  change (indexWriterStage_eqb idxStagePostings idxStagePostings) with true in H.
  cbv beta iota zeta in H.
  rewrite Postings_values_list in H.
  cbn [indexWriter_postingsRefs] in H.
  change (iw_series (iw_set_postings w1 ?x)) with (iw_series w1) in H.
  rewrite Hl in H. cbn [iws_offset app Postings_Err] in H.
  change (sort_uint32slice [0]) with [0] in H.
  destruct (indexWriter_write _ _) as [w3 err] eqn:Hw.
  injection H as <- Herr. apply errors_Wrap_opt_None in Herr. subst err.
  destruct (indexWriter_write_ok _ _ _ Hw) as [-> _].
  cbn [iw_set_out iw_set_postings iw_fbuf concat]. rewrite app_nil_r, Hf. reflexivity.
Qed.

Lemma indexWriter_AddSeries_after_population_witness :
  exists w1,
    indexWriter_AddSeries
      (fst (indexWriter_ensureStage rangeSeries_map
              (fst (indexWriter_populate example_populate)) idxStagePostings))
      99 [{| lbl_Name := "job"; lbl_Value := "late" |}] [] = (w1, None)
    /\ iw_fbuf w1
       = iw_fbuf (fst (indexWriter_ensureStage rangeSeries_map
                         (fst (indexWriter_populate example_populate)) idxStagePostings))
    /\ forall name value w2,
         indexWriter_WritePostings rangeSeries_map w1 name value (newListPostings [99])
         = (w2, None) ->
         iw_fbuf w2
         = iw_fbuf (fst (indexWriter_ensureStage rangeSeries_map
                           (fst (indexWriter_populate example_populate)) idxStagePostings))
           ++ sized (binary.PutUint32 0).
Proof.
  apply (indexWriter_AddSeries_after_population rangeSeries_map
           (fst (indexWriter_ensureStage rangeSeries_map
                   (fst (indexWriter_populate example_populate)) idxStagePostings))
           99 [{| lbl_Name := "job"; lbl_Value := "late" |}] []).
  - vm_compute. reflexivity.
  - vm_compute. reflexivity.
Defined.


(** ** The index file with label indices, read back *)

(** *** [ensureStage] in its parts *)

Lemma indexWriter_ensureStage_parts rangeSeries w s :
  indexWriter_ensureStage rangeSeries w s
  = if indexWriterStage_eqb (iw_stage w) s then (w, None)
    else if indexWriterStage_uint8 s <? indexWriterStage_uint8 (iw_stage w)
    then (w, Some (errors_Errorf "invalid stage %q, currently at %q"
                     (indexWriterStage_uint8 s)))
    else
      match (if indexWriterStage_eqb (iw_stage w) idxStagePopulate
             then ensureStage_populate rangeSeries w else (w, None)) with
      | (w1, Some e) => (w1, Some e)
      | (w1, None) =>
          match ensureStage_mark w1 s with
          | (w2, Some e) => (w2, Some e)
          | (w2, None) => (iw_set_stage w2 s, None)
          end
      end.
Proof.
  unfold indexWriter_ensureStage, ensureStage_populate, ensureStage_mark.
  destruct (indexWriterStage_eqb (iw_stage w) s); [reflexivity|].
  destruct (indexWriterStage_uint8 s <? indexWriterStage_uint8 (iw_stage w)); [reflexivity|].
  destruct (indexWriterStage_eqb (iw_stage w) idxStagePopulate).
  - cbv zeta. destruct (indexWriter_writeSymbols _) as [w1 [e|]]; [reflexivity|].
    destruct (indexWriter_writeSeries _ _) as [w2 [e|]]; [reflexivity|].
    destruct s; try reflexivity;
      destruct (indexWriter_writeOffsetTable _ _) as [w3 [e|]]; try reflexivity;
      destruct (indexWriter_writeTOC _) as [w4 [e|]]; reflexivity.
  - destruct s; try reflexivity;
      destruct (indexWriter_writeOffsetTable _ _) as [w3 [e|]]; try reflexivity;
      destruct (indexWriter_writeTOC _) as [w4 [e|]]; reflexivity.
Qed.

(** *** What the steps keep *)

Lemma label_entry_frame w w' c e :
  iw_extends w w' -> iw_symbols w' = iw_symbols w ->
  label_entry w c e -> label_entry w' c e.
Proof.
  intros Hext Hs (Hk & Hu & Hb). split; [exact Hk|]. split; [exact Hu|].
  unfold label_index_body, iw_symbol in *. rewrite Hs.
  eapply bytes_at_extends; eassumption.
Qed.

Lemma index_core_frame S L P w w' :
  index_core S L P w -> iw_inv w' -> iw_extends w w' ->
  iw_symbols w' = iw_symbols w -> toc_ok (iw_toc w') ->
  iw_labelIndexes w' = iw_labelIndexes w -> iw_postings w' = iw_postings w ->
  index_core S L P w'.
Proof.
  intros (Hinv & Hmagic & Htoc & Hsym & HL & HP) Hinv' Hext Hs Htoc' Hl Hp.
  split; [exact Hinv'|]. split; [eapply bytes_at_extends; eassumption|].
  split; [exact Htoc'|]. split; [|split].
  - intros s Hs'. apply (symbol_at_extends w w' s Hs Hext). apply Hsym. exact Hs'.
  - rewrite Hl. eapply Forall2_impl; [exact HL|]. intros c e Hc.
    apply (label_entry_frame w w'); assumption.
  - rewrite Hp. exact HP.
Qed.

Lemma index_core_set_toc S L P w toc :
  index_core S L P w -> toc_ok toc -> index_core S L P (iw_set_toc w toc).
Proof.
  intros (Hinv & Hmagic & _ & Hsym & HL & HP) Htoc.
  split; [exact Hinv|]. split; [exact Hmagic|]. split; [exact Htoc|].
  split; [exact Hsym|]. split; [exact HL|exact HP].
Qed.

Lemma index_core_set_stage S L P w s :
  index_core S L P w -> index_core S L P (iw_set_stage w s).
Proof.
  intros (Hinv & Hmagic & Htoc & Hsym & HL & HP).
  split; [exact Hinv|]. split; [exact Hmagic|]. split; [exact Htoc|].
  split; [exact Hsym|]. split; [exact HL|exact HP].
Qed.

Lemma index_core_pos S L P w : index_core S L P w -> 4 <= iw_pos w.
Proof.
  intros ([Hp _] & Hmagic & _). destruct (bytes_at_range _ _ _ Hmagic) as [_ Hr].
  rewrite len_PutUint32 in Hr. lia.
Qed.

Section FullBuild.
Variable rangeSeries : gmap Z indexWriterSeries -> list (Z * indexWriterSeries).
Hypothesis rangeSeries_perm : forall m, rangeSeries m ≡ₚ map_to_list m.

(** The end of the population stage. *)
Lemma ensureStage_populate_spec S w w1 :
  populating w -> (forall s, S s -> is_Some (iw_symbols w !! s)) ->
  ensureStage_populate rangeSeries w = (w1, None) ->
  index_core S [] [] w1 /\ toc_labelIndicesTable (iw_toc w1) = 0.
Proof.
  intros (Hinv & Hmagic & Htoc & Hst & Hli & Hpo & Ht0) HS H.
  unfold ensureStage_populate in H. cbv zeta in H.
  set (wa := iw_set_toc w (toc_set_symbols (iw_toc w) (iw_pos w))) in *.
  destruct (indexWriter_writeSymbols wa) as [wb [e|]] eqn:Hsy; [discriminate|].
  destruct (indexWriter_writeSymbols_spec wa wb Hinv Hsy)
    as (Hinvb & Hextb & Hserb & Htocb & Hstb & Hlib & Hpob & Hsymb).
  set (wc := iw_set_toc wb (toc_set_series (iw_toc wb) (iw_pos wb))) in *.
  destruct (indexWriter_writeSeries_spec rangeSeries rangeSeries_perm wc w1 Hinvb H)
    as (Hinvd & Hextd & Hsymd & Htocd & Hstd & Hlid & Hpod & _).
  destruct (iw_inv_pos _ Hinv) as [Hu0 _]. destruct (iw_inv_pos _ Hinvb) as [Hub _].
  assert (Htoc1 : iw_toc w1
                  = toc_set_series (toc_set_symbols (iw_toc w) (iw_pos w)) (iw_pos wb)).
  { rewrite Htocd. cbn [wc iw_set_toc iw_toc]. rewrite Htocb. reflexivity. }
  split.
  - split; [exact Hinvd|]. split.
    { eapply bytes_at_extends; [exact Hextd|].
      eapply (bytes_at_extends wa wb); [exact Hextb|exact Hmagic]. }
    split.
    { rewrite Htoc1. apply toc_ok_set; [|exact Hub|tauto].
      apply toc_ok_set; [exact Htoc|exact Hu0|tauto]. }
    split.
    { intros s Hs. apply (symbol_at_extends wb w1 s); [exact Hsymd|exact Hextd|].
      apply Hsymb. apply HS. exact Hs. }
    split.
    + rewrite Hlid. change (iw_labelIndexes wc) with (iw_labelIndexes wb).
      rewrite Hlib. change (iw_labelIndexes wa) with (iw_labelIndexes w).
      rewrite Hli. constructor.
    + rewrite Hpod. change (iw_postings wc) with (iw_postings wb).
      rewrite Hpob. change (iw_postings wa) with (iw_postings w).
      rewrite Hpo. constructor.
  - rewrite Htoc1. exact Ht0.
Qed.

(** The switch for the stage of the postings: the table of label indices
    is written. *)
Lemma ensureStage_mark_Postings S L P w w2 :
  index_core S L P w ->
  ensureStage_mark w idxStagePostings = (w2, None) ->
  index_core S L P w2 /\ label_table_written w2 /\ iw_stage w2 = iw_stage w.
Proof.
  intros Hcore H. pose proof (index_core_pos _ _ _ _ Hcore) as Hpos.
  pose proof Hcore as (Hinv & Hmagic & Htoc & Hsym & HL & HP).
  unfold ensureStage_mark in H. cbv zeta in H.
  set (wa := iw_set_toc w (toc_set_labelIndicesTable (iw_toc w) (iw_pos w))) in *.
  destruct (indexWriter_writeOffsetTable wa (iw_labelIndexes wa)) as [wb [e|]] eqn:Hot;
    [discriminate|].
  destruct (indexWriter_writeOffsetTable_spec wa wb _ Hinv Hot) as (Hinvb & Hwb).
  injection H as <-.
  destruct (iw_inv_pos _ Hinv) as [Hu0 _]. destruct (iw_inv_pos _ Hinvb) as [Hub _].
  assert (Htoca : toc_ok (iw_toc wa)) by (apply toc_ok_set; [exact Htoc|exact Hu0|tauto]).
  assert (Hcoreb : index_core S L P wb).
  { apply (index_core_frame S L P wa wb).
    - apply index_core_set_toc; assumption.
    - exact Hinvb.
    - rewrite Hwb. eexists. reflexivity.
    - rewrite Hwb. reflexivity.
    - rewrite Hwb. exact Htoca.
    - rewrite Hwb. reflexivity.
    - rewrite Hwb. reflexivity. }
  split; [|split].
  - apply index_core_set_toc; [exact Hcoreb|].
    apply toc_ok_set; [|exact Hub|tauto]. rewrite Hwb. exact Htoca.
  - unfold label_table_written. cbn [iw_set_toc iw_toc iw_fbuf iw_labelIndexes].
    rewrite Hwb. cbn [iw_set_out iw_toc iw_fbuf iw_labelIndexes wa iw_set_toc
                        toc_set_postings toc_set_labelIndicesTable toc_labelIndicesTable].
    split; [lia|]. destruct Hinv as [Hp _]. rewrite Hp. apply bytes_at_end.
  - rewrite Hwb. reflexivity.
Qed.

(** The switch for the last stage: the table of postings and the table of
    contents are written. *)
Lemma ensureStage_mark_Done w w2 :
  iw_inv w ->
  ensureStage_mark w idxStageDone = (w2, None) ->
  iw_inv w2
  /\ iw_fbuf w2
     = iw_fbuf w ++ offset_table_bytes (iw_postings w)
       ++ toc_bytes (toc_set_postingsTable (iw_toc w) (iw_pos w))
  /\ iw_symbols w2 = iw_symbols w.
Proof.
  intros Hinv H. unfold ensureStage_mark in H. cbv zeta in H.
  set (wa := iw_set_toc w (toc_set_postingsTable (iw_toc w) (iw_pos w))) in *.
  destruct (indexWriter_writeOffsetTable wa (iw_postings wa)) as [wb [e|]] eqn:Hot;
    [discriminate|].
  destruct (indexWriter_writeOffsetTable_spec wa wb _ Hinv Hot) as (Hinvb & Hwb).
  unfold indexWriter_writeTOC in H. cbv zeta in H.
  fold (toc_bytes (iw_toc wb)) in H.
  destruct (indexWriter_write_ok _ _ _ H) as [Hwc _].
  split; [apply (iw_inv_write wb w2 _ Hinvb H)|]. split.
  - rewrite Hwc. cbn [iw_set_out iw_fbuf concat]. rewrite app_nil_r, Hwb.
    cbn [iw_set_out iw_fbuf iw_toc]. rewrite <- app_assoc. reflexivity.
  - rewrite Hwc, Hwb. reflexivity.
Qed.

(** [ensureStage] for a later stage, from a writer that is ready: the
    switch is taken with the symbols written. *)
Lemma indexWriter_ensureStage_ready S L P w s w' :
  index_ready S L P w ->
  indexWriterStage_uint8 (iw_stage w) < indexWriterStage_uint8 s ->
  indexWriter_ensureStage rangeSeries w s = (w', None) ->
  exists w1 w2,
    index_core S L P w1
    /\ iw_stage w1 = iw_stage w
    /\ ((P = [] /\ toc_labelIndicesTable (iw_toc w1) = 0
         /\ iw_stage w <> idxStagePostings)
        \/ (label_table_written w1 /\ iw_stage w = idxStagePostings))
    /\ ensureStage_mark w1 s = (w2, None)
    /\ w' = iw_set_stage w2 s.
Proof.
  intros Hready Hlt H. rewrite indexWriter_ensureStage_parts in H.
  destruct (indexWriterStage_eqb (iw_stage w) s) eqn:Heq.
  { unfold indexWriterStage_eqb in Heq. apply Z.eqb_eq in Heq. lia. }
  destruct (Z.ltb_spec (indexWriterStage_uint8 s) (indexWriterStage_uint8 (iw_stage w)))
    as [Hlt'|_]; [lia|].
  destruct Hready as [(Hpop & -> & -> & HS)|[Hcore Hst]].
  - pose proof Hpop as (_ & _ & _ & Hstage & _). rewrite Hstage in H.
    change (indexWriterStage_eqb idxStagePopulate idxStagePopulate) with true in H.
    cbv iota in H.
    destruct (ensureStage_populate rangeSeries w) as [w1 [e|]] eqn:Hp; [discriminate|].
    destruct (ensureStage_populate_spec S w w1 Hpop HS Hp) as [Hcore1 Ht1].
    destruct (ensureStage_mark w1 s) as [w2 [e|]] eqn:Hm; [discriminate|].
    injection H as <-. exists w1, w2.
    split; [exact Hcore1|]. split.
    { pose proof (indexWriter_ensureStage_grows rangeSeries w idxStagePopulate) as _.
      unfold ensureStage_populate in Hp. cbv zeta in Hp.
      pose proof (indexWriter_writeSymbols_grows
                    (iw_set_toc w (toc_set_symbols (iw_toc w) (iw_pos w)))) as [_ Hs1].
      destruct (indexWriter_writeSymbols _) as [wb [e|]]; [discriminate|].
      pose proof (indexWriter_writeSeries_grows rangeSeries
                    (iw_set_toc wb (toc_set_series (iw_toc wb) (iw_pos wb)))) as [_ Hs2].
      rewrite Hp in Hs2. cbn [fst] in Hs1, Hs2. rewrite Hs2. exact Hs1. }
    split; [left; split; [reflexivity|split; [exact Ht1|rewrite Hstage; discriminate]]|].
    split; [exact Hm|reflexivity].
  - destruct (iw_stage w) eqn:Hstage; try contradiction.
    + change (indexWriterStage_eqb idxStageLabelIndex idxStagePopulate) with false in H.
      cbv iota in H.
      destruct (ensureStage_mark w s) as [w2 [e|]] eqn:Hm; [discriminate|].
      injection H as <-. exists w, w2. destruct Hst as [-> Ht0].
      split; [exact Hcore|]. split; [exact Hstage|].
      split; [left; split; [reflexivity|split; [exact Ht0|discriminate]]|].
      split; [exact Hm|reflexivity].
    + change (indexWriterStage_eqb idxStagePostings idxStagePopulate) with false in H.
      cbv iota in H.
      destruct (ensureStage_mark w s) as [w2 [e|]] eqn:Hm; [discriminate|].
      injection H as <-. exists w, w2.
      split; [exact Hcore|]. split; [exact Hstage|].
      split; [right; split; [exact Hst|reflexivity]|].
      split; [exact Hm|reflexivity].
Qed.

Lemma indexWriter_ensureStage_same w s :
  iw_stage w = s -> indexWriter_ensureStage rangeSeries w s = (w, None).
Proof.
  intros <-. unfold indexWriter_ensureStage, indexWriterStage_eqb.
  rewrite Z.eqb_refl. reflexivity.
Qed.

Lemma index_ready_stage S L P w :
  index_ready S L P w ->
  iw_stage w = idxStagePopulate \/ iw_stage w = idxStageLabelIndex
  \/ iw_stage w = idxStagePostings.
Proof.
  intros [(Hpop & _)|[_ Hst]].
  - left. apply Hpop.
  - destruct (iw_stage w); try contradiction; auto.
Qed.

(** [ensureStage] for the stage of the label indices. *)
Lemma indexWriter_ensureStage_LabelIndex_ready S L P w w1 :
  index_ready S L P w ->
  indexWriter_ensureStage rangeSeries w idxStageLabelIndex = (w1, None) ->
  index_state S L P w1 /\ iw_stage w1 = idxStageLabelIndex.
Proof.
  intros Hready H.
  destruct (index_ready_stage _ _ _ _ Hready) as [Hst|[Hst|Hst]].
  - destruct (indexWriter_ensureStage_ready S L P w idxStageLabelIndex w1 Hready) as
      (wa & wb & Hcore & Hsta & Htab & Hm & ->); [rewrite Hst; cbn; lia|exact H|].
    cbn [ensureStage_mark] in Hm. injection Hm as <-.
    destruct Htab as [(-> & Ht0 & _)|[_ Hp]]; [|congruence].
    split; [|reflexivity]. split.
    + apply index_core_set_stage. apply index_core_set_toc; [exact Hcore|].
      destruct Hcore as (Hinv & _ & Htoc & _). destruct (iw_inv_pos _ Hinv) as [Hu _].
      apply toc_ok_set; [exact Htoc|exact Hu|tauto].
    + cbn [iw_set_stage iw_stage]. split; [reflexivity|exact Ht0].
  - rewrite (indexWriter_ensureStage_same w _ Hst) in H. injection H as <-.
    destruct Hready as [(Hpop & _)|Hstate].
    + destruct Hpop as (_ & _ & _ & Hp & _). congruence.
    + split; [exact Hstate|exact Hst].
  - destruct (indexWriter_ensureStage_earlier rangeSeries w idxStageLabelIndex) as [e He].
    { rewrite Hst. cbn. lia. }
    congruence.
Qed.

(** [ensureStage] for the stage of the postings. *)
Lemma indexWriter_ensureStage_Postings_ready S L P w w1 :
  index_ready S L P w ->
  indexWriter_ensureStage rangeSeries w idxStagePostings = (w1, None) ->
  index_state S L P w1 /\ iw_stage w1 = idxStagePostings.
Proof.
  intros Hready H.
  assert (Hlater : indexWriterStage_uint8 (iw_stage w) < 2 ->
                   index_state S L P w1 /\ iw_stage w1 = idxStagePostings).
  { intros Hlt.
    destruct (indexWriter_ensureStage_ready S L P w idxStagePostings w1 Hready) as
      (wa & wb & Hcore & Hsta & Htab & Hm & ->); [exact Hlt|exact H|].
    destruct (ensureStage_mark_Postings S L P wa wb Hcore Hm) as (Hcoreb & Htw & _).
    split; [|reflexivity]. split; [apply index_core_set_stage; exact Hcoreb|].
    cbn [iw_set_stage iw_stage]. exact Htw. }
  destruct (index_ready_stage _ _ _ _ Hready) as [Hst|[Hst|Hst]].
  - apply Hlater. rewrite Hst. cbn. lia.
  - apply Hlater. rewrite Hst. cbn. lia.
  - rewrite (indexWriter_ensureStage_same w _ Hst) in H. injection H as <-.
    destruct Hready as [(Hpop & _)|Hstate].
    + destruct Hpop as (_ & _ & _ & Hp & _). congruence.
    + split; [exact Hstate|exact Hst].
Qed.

Lemma newStringTuples_Ok s l t :
  newStringTuples s l = Ok t -> t = {| st_l := l; st_s := s |}.
Proof.
  unfold newStringTuples. destruct l as [|l]; [discriminate|].
  destruct (negb _); [discriminate|]. intros H. injection H as <-. reflexivity.
Qed.

(** [WriteLabelIndex] *)
Lemma indexWriter_WriteLabelIndex_ready S L P w w' names values :
  index_ready S L P w ->
  indexWriter_WriteLabelIndex rangeSeries w names values = (w', None) ->
  index_state S (L ++ [(names, values)]) P w' /\ iw_stage w' = idxStageLabelIndex.
Proof.
  intros Hready H. unfold indexWriter_WriteLabelIndex in H.
  destruct (indexWriter_ensureStage rangeSeries w idxStageLabelIndex) as [w1 [e|]] eqn:He;
    [discriminate|].
  destruct (indexWriter_ensureStage_LabelIndex_ready S L P w w1 Hready He)
    as [[Hcore Hst] Hstage].
  rewrite Hstage in Hst. destruct Hst as [HP Ht0].
  destruct (newStringTuples values (length names)) as [valt|e] eqn:Ht; [|discriminate].
  apply newStringTuples_Ok in Ht. subst valt. cbv zeta in H.
  set (w2 := iw_set_labelIndexes w1 _) in *.
  unfold encbuf_putBE32 in H.
  rewrite (fold_left_app_map (fun v => binary.PutUint32 (iw_symbol w2 v))) in H.
  change (iw_symbol w2) with (iw_symbol w1) in H.
  change (encbuf_putUvarint (encbuf_reset []) (len names)
          ++ concat (map (fun v => binary.PutUint32 (iw_symbol w1 v))
                       (st_s (sort_stringTuples
                                {| st_l := length names; st_s := values |}))))
    with (label_index_body w1 names values) in H.
  set (body := label_index_body w1 names values) in *.
  destruct (indexWriter_write w2 _) as [w3 err] eqn:Hw in H.
  injection H as -> Herr. apply errors_Wrap_opt_None in Herr. subst err.
  destruct (indexWriter_write_ok _ _ _ Hw) as [Hw' _].
  destruct Hcore as (Hinv & Hmagic & Htoc & Hsym & HL & HPo).
  pose proof (iw_inv_write w2 w' _ Hinv Hw) as Hinv'.
  assert (Hout : iw_fbuf w' = iw_fbuf w1 ++ sized body).
  { rewrite Hw'. cbn [iw_set_out iw_fbuf concat]. rewrite app_nil_r. reflexivity. }
  assert (Hext : iw_extends w1 w') by (eexists; exact Hout).
  assert (Hs' : iw_symbols w' = iw_symbols w1) by (rewrite Hw'; reflexivity).
  assert (Hstage' : iw_stage w' = idxStageLabelIndex) by (rewrite Hw'; exact Hstage).
  split; [|exact Hstage']. split.
  - split; [exact Hinv'|]. split; [eapply bytes_at_extends; eassumption|].
    split; [rewrite Hw'; exact Htoc|]. split; [|split].
    + intros s Hs. apply (symbol_at_extends w1 w' s Hs' Hext). apply Hsym. exact Hs.
    + replace (iw_labelIndexes w')
        with (iw_labelIndexes w1 ++ [{| he_keys := names; he_offset := iw_pos w1 |}])
        by (rewrite Hw'; reflexivity).
      apply Forall2_app.
      * eapply Forall2_impl; [exact HL|]. intros c e Hc.
        apply (label_entry_frame w1 w'); assumption.
      * constructor; [|constructor]. unfold label_entry. cbn [he_keys he_offset fst snd].
        split; [reflexivity|].
        destruct (iw_inv_pos _ Hinv) as [_ Hr].
        split; [unfold is_uint32, MaxUint32 in *; lia|].
        replace (label_index_body w' names values) with body
          by (unfold body, label_index_body, iw_symbol; rewrite Hs'; reflexivity).
        rewrite Hout. destruct Hinv as [Hp _]. rewrite Hp. apply bytes_at_end.
    + rewrite Hw'. exact HPo.
  - rewrite Hstage'. split; [exact HP|]. rewrite Hw'. exact Ht0.
Qed.

(** [WritePostings] *)
Lemma indexWriter_WritePostings_ready S L P w w' n v refs :
  index_ready S L P w ->
  indexWriter_WritePostings rangeSeries w n v (newListPostings refs) = (w', None) ->
  index_state S L (P ++ [(n, v, refs)]) w' /\ iw_stage w' = idxStagePostings.
Proof.
  intros Hready H. unfold indexWriter_WritePostings in H.
  destruct (indexWriter_ensureStage rangeSeries w idxStagePostings) as [w1 [e|]] eqn:He;
    [discriminate|].
  destruct (indexWriter_ensureStage_Postings_ready S L P w w1 Hready He)
    as [[Hcore Hst] Hstage].
  rewrite Hstage in Hst. destruct Hst as [Ht0 Htab].
  cbv zeta in H. set (w2 := iw_set_postings w1 _) in *.
  destruct (indexWriter_postingsRefs w2 _ []) as [offs|e]; [|discriminate].
  destruct (Postings_Err _); [discriminate|].
  destruct (indexWriter_write w2 _) as [w3 err] eqn:Hw in H.
  injection H as -> Herr. apply errors_Wrap_opt_None in Herr. subst err.
  destruct (indexWriter_write_ok _ _ _ Hw) as [Hw' _].
  destruct Hcore as (Hinv & Hmagic & Htoc & Hsym & HL & HPo).
  pose proof (iw_inv_write w2 w' _ Hinv Hw) as Hinv'.
  assert (Hext : iw_extends w1 w') by (rewrite Hw'; eexists; reflexivity).
  assert (Hs' : iw_symbols w' = iw_symbols w1) by (rewrite Hw'; reflexivity).
  assert (Hstage' : iw_stage w' = idxStagePostings) by (rewrite Hw'; exact Hstage).
  split; [|exact Hstage']. split.
  - split; [exact Hinv'|]. split; [eapply bytes_at_extends; eassumption|].
    split; [rewrite Hw'; exact Htoc|]. split; [|split].
    + intros s Hs. apply (symbol_at_extends w1 w' s Hs' Hext). apply Hsym. exact Hs.
    + replace (iw_labelIndexes w') with (iw_labelIndexes w1) by (rewrite Hw'; reflexivity).
      eapply Forall2_impl; [exact HL|]. intros c e Hc.
      apply (label_entry_frame w1 w'); assumption.
    + replace (iw_postings w')
        with (iw_postings w1 ++ [{| he_keys := [n; v]; he_offset := iw_pos w1 |}])
        by (rewrite Hw'; reflexivity).
      apply Forall2_app; [exact HPo|].
      constructor; [|constructor]. split; [reflexivity|].
      destruct (iw_inv_pos _ Hinv) as [_ Hr]. cbn [he_offset].
      unfold is_uint32, MaxUint32 in *. lia.
  - rewrite Hstage'. unfold label_table_written.
    replace (iw_toc w') with (iw_toc w1) by (rewrite Hw'; reflexivity).
    replace (iw_labelIndexes w') with (iw_labelIndexes w1) by (rewrite Hw'; reflexivity).
    split; [exact Ht0|]. eapply bytes_at_extends; eassumption.
Qed.

Lemma label_entries_uint64 w L LE :
  Forall2 (label_entry w) L LE -> Forall (fun e => is_uint64 (he_offset e)) LE.
Proof.
  induction 1 as [|c e L LE (_ & Hu & _) _ IH]; constructor; [|exact IH].
  unfold is_uint32, is_uint64 in *. lia.
Qed.

Lemma post_entries_uint64 P PE :
  Forall2 post_entry P PE -> Forall (fun e => is_uint64 (he_offset e)) PE.
Proof.
  induction 1 as [|c e L LE (_ & Hu) _ IH]; constructor; [|exact IH].
  unfold is_uint32, is_uint64 in *. lia.
Qed.

(** [Close], and the reader over the file it leaves. *)
Lemma indexWriter_Close_ready S L P w w' :
  index_ready S L P w ->
  indexWriter_Close rangeSeries w = (w', None) ->
  exists r LE PE,
    newIndexReader (iw_fbuf w') = Ok r
    /\ ir_b r = iw_fbuf w' /\ len (iw_fbuf w') <= MaxUint32
    /\ Forall2 (label_entry w') L LE /\ Forall2 post_entry P PE
    /\ ir_postings r = offset_table_map PE ∅
    /\ (iw_stage w = idxStagePostings -> ir_labels r = offset_table_map LE ∅)
    /\ (iw_stage w <> idxStagePostings -> ir_labels r = ∅)
    /\ (forall s, S s -> symbol_at w' (iw_fbuf w') s).
Proof.
  intros Hready H. unfold indexWriter_Close in H.
  destruct (indexWriter_ensureStage rangeSeries w idxStageDone) as [w1 [e|]] eqn:He;
    [discriminate|].
  injection H as <-.
  destruct (indexWriter_ensureStage_ready S L P w idxStageDone w1 Hready) as
    (wa & wb & Hcore & Hsta & Htab & Hm & ->); [|exact He|].
  { destruct (index_ready_stage _ _ _ _ Hready) as [Hst|[Hst|Hst]]; rewrite Hst; cbn; lia. }
  pose proof (index_core_pos _ _ _ _ Hcore) as Hpos4.
  destruct Hcore as (Hinv & Hmagic & Htoc & Hsym & HL & HP).
  destruct (ensureStage_mark_Done wa wb Hinv Hm) as (Hinvb & Hout & Hsymb).
  cbn [iw_set_closed iw_set_stage iw_fbuf].
  set (b := iw_fbuf wb) in *.
  set (toc' := toc_set_postingsTable (iw_toc wa) (iw_pos wa)) in *.
  assert (Hext : forall off x, bytes_at (iw_fbuf wa) off x -> bytes_at b off x).
  { intros off x Hb. rewrite Hout. apply bytes_at_app. exact Hb. }
  assert (Hlen : len b <= MaxUint32).
  { destruct Hinvb as [Hp Hmx]. unfold b. rewrite <- Hp. exact Hmx. }
  destruct (iw_inv_pos _ Hinv) as [Hupos Hrpos].
  assert (Htoc' : toc_ok toc') by (apply toc_ok_set; [exact Htoc|exact Hupos|tauto]).
  assert (Hmagicb : binary.Uint32 (slice_to 4 b) = MagicIndex).
  { destruct (Hext _ _ Hmagic) as (pre & post & Hb & Hpre).
    apply len_zero_nil in Hpre. subst pre. cbn [app] in Hb.
    rewrite Hb. rewrite slice_to_app_len by (rewrite len_PutUint32; reflexivity).
    pose proof (Uint32_PutUint32 MagicIndex []) as U. rewrite app_nil_r in U.
    apply U. unfold is_uint32, MagicIndex. lia. }
  assert (Hrt : indexReader_readTOC b = Ok toc').
  { rewrite Hout, app_assoc. apply indexReader_readTOC_at. exact Htoc'. }
  assert (Hpt : indexReader_readOffsetTable b (iw_pos wa)
                = Ok (offset_table_map (iw_postings wa) ∅)).
  { apply indexReader_readOffsetTable_at; [exact Hlen|lia| |].
    - rewrite Hout. destruct Hinv as [Hp _]. rewrite Hp. apply bytes_at_end_app.
    - apply (post_entries_uint64 P). exact HP. }
  assert (Hb4 : (len b <? 4) = false).
  { apply Z.ltb_ge. destruct (bytes_at_range _ _ _ (Hext _ _ Hmagic)) as [_ Hr].
    rewrite len_PutUint32 in Hr. lia. }
  assert (Hentries : Forall2 (label_entry (iw_set_closed (iw_set_stage wb idxStageDone))) L
                       (iw_labelIndexes wa)).
  { eapply Forall2_impl; [exact HL|]. intros c e Hc.
    apply (label_entry_frame wa); [|exact Hsymb|exact Hc].
    exists (offset_table_bytes (iw_postings wa) ++ toc_bytes toc'). exact Hout. }
  assert (Hsyms : forall s, S s ->
                    symbol_at (iw_set_closed (iw_set_stage wb idxStageDone)) b s).
  { intros s Hs. destruct (Hsym s Hs) as [Hu Hb].
    unfold symbol_at, iw_symbol in *. cbn [iw_set_closed iw_set_stage iw_symbols].
    rewrite Hsymb. split; [exact Hu|apply Hext; exact Hb]. }
  destruct Htab as [(-> & Ht0 & Hnp)|[[Htn Htb] Hp]].
  - exists {| ir_b := b; ir_toc := toc'; ir_labels := ∅;
              ir_postings := offset_table_map (iw_postings wa) ∅ |},
      (iw_labelIndexes wa), (iw_postings wa).
    split.
    { unfold newIndexReader. rewrite Hb4, Hmagicb, Z.eqb_refl. cbn [negb]. rewrite Hrt.
      change (toc_labelIndicesTable toc') with (toc_labelIndicesTable (iw_toc wa)).
      rewrite Ht0. change (indexReader_readOffsetTable b 0) with (@Ok (gmap string Z) ∅).
      change (toc_postingsTable toc') with (iw_pos wa). rewrite Hpt. reflexivity. }
    split; [reflexivity|]. split; [exact Hlen|]. split; [exact Hentries|].
    split; [exact HP|]. split; [reflexivity|].
    split; [intros Hp; congruence|]. split; [reflexivity|exact Hsyms].
  - exists {| ir_b := b; ir_toc := toc'; ir_labels := offset_table_map (iw_labelIndexes wa) ∅;
              ir_postings := offset_table_map (iw_postings wa) ∅ |},
      (iw_labelIndexes wa), (iw_postings wa).
    split.
    { unfold newIndexReader. rewrite Hb4, Hmagicb, Z.eqb_refl. cbn [negb]. rewrite Hrt.
      change (toc_labelIndicesTable toc') with (toc_labelIndicesTable (iw_toc wa)).
      rewrite (indexReader_readOffsetTable_at b _ (iw_labelIndexes wa) Hlen Htn
                 (Hext _ _ Htb)) by (apply (label_entries_uint64 wa L); exact HL).
      change (toc_postingsTable toc') with (iw_pos wa). rewrite Hpt. reflexivity. }
    split; [reflexivity|]. split; [exact Hlen|]. split; [exact Hentries|].
    split; [exact HP|]. split; [reflexivity|].
    split; [reflexivity|]. split; [intros Hn; congruence|exact Hsyms].
Qed.

(** *** The calls in order *)

Lemma newIndexWriter_populating : populating (fst newIndexWriter).
Proof.
  unfold populating.
  split; [split; [reflexivity|vm_compute; discriminate]|].
  split; [exists [], [Byte.x01]; split; reflexivity|].
  split; [unfold toc_ok, is_uint64; repeat split; vm_compute;
          first [reflexivity|discriminate]|].
  repeat split.
Qed.

Lemma run_AddSeries_populating todo :
  forall w w',
    populating w ->
    fold_left run_step
      (map (fun '(ref, lset, chunks) w => indexWriter_AddSeries w ref lset chunks) todo)
      (w, None) = (w', None) ->
    populating w'.
Proof.
  induction todo as [|[[ref lset] chunks] todo IH]; intros w w' Hpop H.
  - cbn in H. injection H as <-. exact Hpop.
  - cbn [map] in H. apply run_step_cons in H. destruct H as (w1 & H1 & H).
    apply (IH w1 w'); [|exact H].
    unfold indexWriter_AddSeries in H1.
    destruct (iw_series w !! ref); [discriminate|]. injection H1 as <-. exact Hpop.
Qed.

Lemma run_WriteLabelIndex_ready S P todo :
  forall L w w',
    index_ready S L P w ->
    fold_left run_step
      (map (fun '(names, values) w =>
              indexWriter_WriteLabelIndex rangeSeries w names values) todo)
      (w, None) = (w', None) ->
    index_ready S (L ++ todo) P w'
    /\ (iw_stage w <> idxStagePostings -> iw_stage w' <> idxStagePostings).
Proof.
  induction todo as [|[names values] todo IH]; intros L w w' Hready H.
  - cbn in H. injection H as <-. rewrite app_nil_r. split; [exact Hready|tauto].
  - cbn [map] in H. apply run_step_cons in H. destruct H as (w1 & H1 & H).
    destruct (indexWriter_WriteLabelIndex_ready S L P w w1 names values Hready H1)
      as [Hst1 Hstage1].
    destruct (IH (L ++ [(names, values)]) w1 w' (or_intror Hst1) H) as [Hr Hs].
    rewrite <- app_assoc in Hr. split; [exact Hr|].
    intros _. apply Hs. rewrite Hstage1. discriminate.
Qed.

Lemma run_WritePostings_ready S L todo :
  forall P w w',
    index_ready S L P w ->
    fold_left run_step
      (map (fun '(n, v, refs) w =>
              indexWriter_WritePostings rangeSeries w n v (newListPostings refs)) todo)
      (w, None) = (w', None) ->
    index_ready S L (P ++ todo) w'
    /\ (todo = [] -> w' = w)
    /\ (todo <> [] -> iw_stage w' = idxStagePostings).
Proof.
  induction todo as [|[[n v] refs] todo IH]; intros P w w' Hready H.
  - cbn in H. injection H as <-. rewrite app_nil_r.
    split; [exact Hready|]. split; [reflexivity|congruence].
  - cbn [map] in H. apply run_step_cons in H. destruct H as (w1 & H1 & H).
    destruct (indexWriter_WritePostings_ready S L P w w1 n v refs Hready H1)
      as [Hst1 Hstage1].
    destruct (IH (P ++ [(n, v, refs)]) w1 w' (or_intror Hst1) H) as (Hr & Hnil & Hcons).
    rewrite <- app_assoc in Hr. split; [exact Hr|]. split; [discriminate|].
    intros _. destruct todo as [|p todo].
    + rewrite (Hnil eq_refl). exact Hstage1.
    + apply Hcons. discriminate.
Qed.

(** The file of a run of the writer, opened by the reader: the two tables
    of the reader hold the entries of the calls, and the table of label
    indices was only written when [WritePostings] was called. *)
Lemma indexWriter_build_full_read series labels posts w :
  indexWriter_build_full rangeSeries series labels posts = (w, None) ->
  exists r LE PE,
    newIndexReader (iw_fbuf w) = Ok r
    /\ ir_b r = iw_fbuf w /\ len (iw_fbuf w) <= MaxUint32
    /\ Forall2 (label_entry w) labels LE /\ Forall2 post_entry posts PE
    /\ ir_postings r = offset_table_map PE ∅
    /\ (posts <> [] -> ir_labels r = offset_table_map LE ∅)
    /\ (posts = [] -> ir_labels r = ∅)
    /\ (forall s, s ∈ label_strings series -> symbol_at w (iw_fbuf w) s).
Proof.
  intros H. unfold indexWriter_build_full, indexWriter_run in H.
  change (fold_left _ ?ops newIndexWriter) with (fold_left run_step ops newIndexWriter) in H.
  change newIndexWriter with (fst newIndexWriter, @None error) in H.
  rewrite fold_left_app in H.
  destruct (fold_left run_step (map _ series) (fst newIndexWriter, None))
    as [wa [e|]] eqn:Ha.
  { rewrite run_step_error in H. discriminate. }
  pose proof (run_AddSeries_populating series _ wa newIndexWriter_populating Ha) as Hpopa.
  set (S := fun s => s ∈ label_strings series).
  assert (Hreadya : index_ready S [] [] wa).
  { left. split; [exact Hpopa|]. split; [reflexivity|]. split; [reflexivity|].
    intros s Hs. unfold S in Hs.
    destruct (iw_symbols wa !! s) eqn:Hl; [eauto|].
    apply (indexWriter_populate_symbols_from series s _ wa Ha) in Hl.
    destruct Hl as [_ Hn]. contradiction. }
  rewrite fold_left_app in H.
  destruct (fold_left run_step (map _ labels) (wa, None)) as [wb [e|]] eqn:Hb.
  { rewrite run_step_error in H. discriminate. }
  destruct (run_WriteLabelIndex_ready S [] labels [] wa wb Hreadya Hb) as [Hreadyb Hstb].
  cbn [app] in Hreadyb.
  rewrite fold_left_app in H.
  destruct (fold_left run_step (map _ posts) (wb, None)) as [wc [e|]] eqn:Hc.
  { rewrite run_step_error in H. discriminate. }
  destruct (run_WritePostings_ready S labels posts [] wb wc Hreadyb Hc)
    as (Hreadyc & Hnil & Hcons).
  cbn [app] in Hreadyc. cbn [fold_left run_step] in H.
  destruct (indexWriter_Close_ready S labels posts wc w Hreadyc H)
    as (r & LE & PE & Hnew & Hrb & Hlen & HL & HP & Hpost & Hlab1 & Hlab0 & Hsym).
  exists r, LE, PE. repeat (split; [assumption|]).
  split; [|split; [|exact Hsym]].
  - intros Hne. apply Hlab1. apply Hcons. exact Hne.
  - intros Hemp. apply Hlab0. rewrite (Hnil Hemp). apply Hstb.
    destruct Hpopa as (_ & _ & _ & Hst & _). rewrite Hst. discriminate.
Qed.

(** *** What the reader finds *)

Lemma Forall2_elem_of_l {A B} (R : A -> B -> Prop) (l : list A) (k : list B) x :
  Forall2 R l k -> x ∈ l -> exists y, y ∈ k /\ R x y.
Proof.
  induction 1 as [|x0 y0 l k HR _ IH]; intros Hin.
  - apply elem_of_nil in Hin. contradiction.
  - apply elem_of_cons in Hin. destruct Hin as [->|Hin].
    + exists y0. split; [apply elem_of_cons; left; reflexivity|exact HR].
    + destruct (IH Hin) as (y & Hy & HRy). exists y.
      split; [apply elem_of_cons; right; exact Hy|exact HRy].
Qed.

Lemma label_entries_keys w L LE :
  Forall2 (label_entry w) L LE -> map entry_key LE = map label_key L.
Proof.
  induction 1 as [|c e L LE (Hk & _) _ IH]; [reflexivity|].
  cbn [map]. f_equal; [|exact IH]. unfold entry_key, label_key. rewrite Hk. reflexivity.
Qed.

Lemma post_entries_keys P PE :
  Forall2 post_entry P PE -> map entry_key PE = map postings_key P.
Proof.
  induction 1 as [|p e P PE (Hk & _) _ IH]; [reflexivity|].
  cbn [map]. f_equal; [|exact IH]. destruct p as [[n v] refs].
  unfold entry_key. rewrite Hk. reflexivity.
Qed.

Lemma slice_from_concat_PutUint32 {A} (f : A -> Z) (l : list A) :
  forall (i : nat) x,
    l !! i = Some x ->
    exists rest,
      slice_from (4 * Z.of_nat i) (concat (map (fun v => binary.PutUint32 (f v)) l))
      = binary.PutUint32 (f x) ++ rest.
Proof.
  induction l as [|y l IH]; intros i x Hi; [discriminate|].
  destruct i as [|i].
  - cbn in Hi. injection Hi as ->. cbn [map concat]. rewrite slice_from_0.
    eexists. reflexivity.
  - cbn [map concat]. replace (4 * Z.of_nat (S i)) with (4 + 4 * Z.of_nat i) by lia.
    rewrite <- slice_from_slice_from by lia.
    rewrite slice_from_app_len by (rewrite len_PutUint32; reflexivity).
    apply IH. exact Hi.
Qed.

(** X19.  Without a call of [WritePostings] the table of label indices is not
    written: [Close] goes from the stage of the label indices to the last
    stage, which writes the table of postings and the table of contents
    only.  The reader opens the file, and [LabelValues] returns the empty
    tuples for every list of names, those included for which
    [WriteLabelIndex] was called without error. *)
Theorem indexReader_LabelValues_without_postings series labels w names :
  indexWriter_build_full rangeSeries series labels [] = (w, None) ->
  exists r,
    newIndexReader (iw_fbuf w) = Ok r
    /\ indexReader_LabelValues r names = Ok emptyStringTuples.
Proof.
  intros Hbuild.
  destruct (indexWriter_build_full_read series labels [] w Hbuild)
    as (r & LE & PE & Hnew & _ & _ & _ & _ & _ & _ & Hlab0 & _).
  exists r. split; [exact Hnew|].
  unfold indexReader_LabelValues. cbv zeta. rewrite (Hlab0 eq_refl), lookup_empty.
  reflexivity.
Qed.

(** X20.  A pair for which [WritePostings] was not called has the empty postings,
    and names for which [WriteLabelIndex] was not called have the empty
    tuples: the reader reports a key that is missing from its tables as an
    empty result, not as an error. *)
Theorem indexReader_missing_key_is_empty series labels posts w n v names :
  indexWriter_build_full rangeSeries series labels posts = (w, None) ->
  String.append n (String.append sep v) ∉ map postings_key posts ->
  strings_Join names sep ∉ map label_key labels ->
  exists r,
    newIndexReader (iw_fbuf w) = Ok r
    /\ indexReader_Postings r n v = Ok emptyPostings
    /\ indexReader_LabelValues r names = Ok emptyStringTuples.
Proof.
  intros Hbuild Hn Hnames.
  destruct (indexWriter_build_full_read series labels posts w Hbuild)
    as (r & LE & PE & Hnew & _ & _ & HL & HP & Hpost & Hlab1 & Hlab0 & _).
  exists r. split; [exact Hnew|]. split.
  - unfold indexReader_Postings. cbv zeta. rewrite Hpost.
    rewrite offset_table_map_lookup_other, lookup_empty; [reflexivity|].
    rewrite (post_entries_keys _ _ HP). exact Hn.
  - unfold indexReader_LabelValues. cbv zeta.
    destruct posts as [|p posts].
    + rewrite (Hlab0 eq_refl), lookup_empty. reflexivity.
    + rewrite (Hlab1 ltac:(discriminate)).
      rewrite offset_table_map_lookup_other, lookup_empty; [reflexivity|].
      rewrite (label_entries_keys _ _ _ HL). exact Hnames.
Qed.

(** X18.  The label index of one name, written and read back.  For a run of the
    writer with at least one call of [WritePostings], the indices written
    under keys that differ, and values that are label strings of the
    series: [LabelValues(name)] returns tuples whose [Len] is the number of
    values and whose [At(i)] is the i-th value in the order [sort.Sort] has
    put them in, a permutation of the values given. *)
Theorem indexReader_LabelValues_round_trip series labels posts w name values :
  indexWriter_build_full rangeSeries series labels posts = (w, None) ->
  posts <> [] ->
  NoDup (map label_key labels) ->
  ([name], values) ∈ labels ->
  Forall (fun v => v ∈ label_strings series) values ->
  exists r t sorted,
    newIndexReader (iw_fbuf w) = Ok r
    /\ indexReader_LabelValues r [name] = Ok t
    /\ sorted = st_s (sort_stringTuples {| st_l := 1; st_s := values |})
    /\ sorted ≡ₚ values
    /\ StringTuples_Len t = Ok (len values)
    /\ forall (i : nat) s, sorted !! i = Some s -> StringTuples_At t (Z.of_nat i) = Ok [s].
Proof.
  intros Hbuild Hposts Hnd Hin Hvals.
  destruct (indexWriter_build_full_read series labels posts w Hbuild)
    as (r & LE & PE & Hnew & Hrb & Hlen & HL & HP & Hpost & Hlab1 & _ & Hsym).
  specialize (Hlab1 Hposts).
  destruct (Forall2_elem_of_l _ _ _ _ HL Hin) as (e & He & Hk & Hu & Hb).
  cbn [fst snd] in Hk, Hb.
  set (sorted := st_s (sort_stringTuples {| st_l := 1; st_s := values |})).
  destruct (sort_stringTuples_perm {| st_l := 1; st_s := values |}) as [_ Hperm].
  cbn [st_s] in Hperm. fold sorted in Hperm.
  set (refs := concat (map (fun v => binary.PutUint32 (iw_symbol w v)) sorted)).
  assert (Hbody : label_index_body w [name] values = binary.PutUvarint 1 ++ refs).
  { unfold label_index_body. cbn [length]. reflexivity. }
  rewrite Hbody in Hb.
  assert (Hrefs : len refs = 4 * len values).
  { unfold refs. rewrite len_concat_PutUint32. unfold len.
    rewrite (Permutation_length Hperm). reflexivity. }
  assert (Hsmall : len refs <= len (iw_fbuf w)).
  { destruct (bytes_at_range _ _ _ Hb) as [Ho Hend].
    rewrite len_sized, len_app in Hend.
    pose proof (len_PutUvarint (uint64 (len (binary.PutUvarint 1 ++ refs)))).
    pose proof (len_PutUvarint 1). rewrite len_app in *. lia. }
  set (t := {| sst_l := 1; sst_b := refs; sst_rb := ir_b r |}).
  assert (Hlv : indexReader_LabelValues r [name] = Ok (serializedTuples t)).
  { unfold indexReader_LabelValues. cbv zeta. rewrite Hlab1.
    assert (Hkey : strings_Join [name] sep = entry_key e)
      by (unfold entry_key; rewrite Hk; reflexivity).
    rewrite Hkey, (offset_table_map_lookup LE ∅ e);
      [|rewrite (label_entries_keys _ _ _ HL); exact Hnd|exact He].
    rewrite (uint32_small _ Hu).
    rewrite (indexReader_getSized_at r (he_offset e) (binary.PutUvarint 1 ++ refs));
      [|rewrite Hrb; unfold MaxUint32 in Hlen; lia|rewrite Hrb; exact Hb].
    rewrite Uvarint_PutUvarint by (unfold is_uint64; lia).
    change (len (binary.PutUvarint 1)) with 1.
    change (1 <? 1) with false. cbv iota.
    rewrite slice_from_app_len by reflexivity. reflexivity. }
  assert (Hlent : serializedStringTuples_Len t = Ok (len values)).
  { unfold serializedStringTuples_Len. cbn [sst_l sst_b t].
    change (int64 (4 * 1)) with 4. cbn [Z.eqb]. rewrite Hrefs.
    rewrite Z.mul_comm, Z.quot_mul by lia. reflexivity. }
  exists r, (serializedTuples t), sorted.
  split; [exact Hnew|]. split; [exact Hlv|]. split; [reflexivity|].
  split; [exact Hperm|]. split; [exact Hlent|].
  intros i s Hi. cbn [StringTuples_At].
  assert (Hil : (i < length values)%nat).
  { rewrite <- (Permutation_length Hperm). apply lookup_lt_Some in Hi. exact Hi. }
  rewrite (serializedStringTuples_At_single_in_range t (len values) (Z.of_nat i));
    [|cbn [sst_b t]; unfold MaxUint32 in Hlen; lia|reflexivity|exact Hlent|unfold len; lia].
  cbn [sst_rb sst_b t].
  destruct (slice_from_concat_PutUint32 (iw_symbol w) sorted i s Hi) as [rest Hsl].
  fold refs in Hsl. rewrite Hsl.
  assert (Hs : s ∈ label_strings series).
  { rewrite Forall_forall in Hvals. apply Hvals. rewrite <- Hperm.
    eapply list_elem_of_lookup_2. exact Hi. }
  destruct (Hsym s Hs) as [Hus Hbs].
  rewrite (Uint32_PutUint32 _ _ Hus).
  rewrite (lookupSymbol_at (ir_b r) (iw_symbol w s) s);
    [reflexivity|rewrite Hrb; unfold MaxUint32 in Hlen; lia|rewrite Hrb; exact Hbs].
Qed.

End FullBuild.

Lemma indexReader_LabelValues_without_postings_witness :
  exists r,
    newIndexReader (iw_fbuf (fst example_built_labels_only)) = Ok r
    /\ indexReader_LabelValues r ["foo"%string] = Ok emptyStringTuples.
Proof.
  apply (indexReader_LabelValues_without_postings rangeSeries_map
           (fun m => Permutation_refl _) example_populate example_labels
           (fst example_built_labels_only) ["foo"%string]).
  vm_compute. reflexivity.
Defined.

Lemma indexReader_missing_key_is_empty_witness :
  exists r,
    newIndexReader (iw_fbuf (fst example_built_full)) = Ok r
    /\ indexReader_Postings r "foo" "nope" = Ok emptyPostings
    /\ indexReader_LabelValues r ["bar"%string] = Ok emptyStringTuples.
Proof.
  apply (indexReader_missing_key_is_empty rangeSeries_map
           (fun m => Permutation_refl _) example_populate example_labels example_posts
           (fst example_built_full) "foo" "nope" ["bar"%string]).
  - vm_compute. reflexivity.
  - apply (bool_decide_unpack _). vm_compute. exact I.
  - apply (bool_decide_unpack _). vm_compute. exact I.
Defined.

Lemma indexReader_LabelValues_round_trip_witness :
  exists r t sorted,
    newIndexReader (iw_fbuf (fst example_built_full)) = Ok r
    /\ indexReader_LabelValues r ["foo"%string] = Ok t
    /\ sorted = st_s (sort_stringTuples {| st_l := 1; st_s := ["baz"; "bar"]%string |})
    /\ sorted ≡ₚ ["baz"; "bar"]%string
    /\ StringTuples_Len t = Ok (len ["baz"; "bar"]%string)
    /\ forall (i : nat) s,
         sorted !! i = Some s -> StringTuples_At t (Z.of_nat i) = Ok [s].
Proof.
  apply (indexReader_LabelValues_round_trip rangeSeries_map
           (fun m => Permutation_refl _) example_populate example_labels example_posts
           (fst example_built_full) "foo" ["baz"; "bar"]%string).
  - vm_compute. reflexivity.
  - discriminate.
  - apply (bool_decide_unpack _). vm_compute. exact I.
  - apply (bool_decide_unpack _). vm_compute. exact I.
  - repeat constructor; apply (bool_decide_unpack _); vm_compute; exact I.
Defined.


(** ** A log that goes on in a second segment *)

(** *** Writes to the last segment *)

Lemma File_Write_segment_in fs d old name fd flushed k p :
  segment_state_in fs d old name fd flushed k ->
  exists fs',
    File_Write fs fd p = (fs', None)
    /\ segment_state_in fs' d old name fd (flushed ++ p) (k - length p).
Proof.
  intros (f & Hwf & Hfd & Hopen & Hname & Hdir & Hl & Hdata & Hpos & Hno & Hold).
  destruct (File_Write_open fs fd f p Hwf Hfd Hopen) as (fs' & E & Hwf' & Hfds & Hdir' & Hdata').
  exists fs'. split; [exact E|].
  assert (Hother : forall ino, ino <> f_ino f -> fs_data fs' ino = fs_data fs ino).
  { intros ino Hne. unfold File_Write in E. rewrite Hfd, Hopen in E. injection E as <-.
    unfold fs_data. cbn [fs_set_fd fs_set_data fs_inodes].
    rewrite list_lookup_insert_ne by congruence. reflexivity. }
  exists (File_set_pos f (f_pos f + len p)).
  split; [exact Hwf'|]. split.
  { rewrite Hfds. apply list_lookup_insert_eq. eapply lookup_lt_Some. exact Hfd. }
  split; [exact Hopen|]. split; [exact Hname|].
  split; [rewrite Hdir'; exact Hdir|]. split; [exact Hl|]. split; [|split; [|split]].
  - cbn [File_set_pos f_ino]. rewrite Hdata', Hdata, Hpos. unfold write_at.
    replace (Z.to_nat (len flushed) - length (flushed ++ zeros k))%nat with 0%nat
      by (unfold len; rewrite length_app, Nat2Z.id; lia).
    change (zeros 0) with (@nil byte). rewrite app_nil_r.
    rewrite slice_to_app_len by reflexivity.
    rewrite <- (slice_from_slice_from (len flushed) (len p)) by apply len_nonneg.
    rewrite slice_from_app_len by reflexivity.
    unfold len at 1. rewrite slice_from_zeros. rewrite <- app_assoc. reflexivity.
  - cbn [File_set_pos f_pos]. rewrite Hpos, len_app. reflexivity.
  - exact Hno.
  - intros ino data Hi. rewrite Hother; [apply Hold; exact Hi|]. congruence.
Qed.

Lemma bufio_Flush_state_in fs d old name b content :
  bufio_state_in fs d old name b content ->
  exists fs' b',
    bufio_Flush fs b = (fs', b', None)
    /\ bufio_state_in fs' d old name b' content
    /\ bw_buf b' = [] /\ bw_wr b' = bw_wr b /\ bw_size b' = bw_size b.
Proof.
  intros (flushed & k & Herr & Hseg & Hc). unfold bufio_Flush. rewrite Herr.
  destruct (bw_buf b) as [|c buf] eqn:Hbuf.
  - exists fs, b. split; [reflexivity|]. split; [|auto].
    exists flushed, k. rewrite Hbuf. auto.
  - rewrite <- Hbuf in *.
    destruct (File_Write_segment_in fs d old name (bw_wr b) flushed k (bw_buf b) Hseg)
      as (fs' & E & Hseg').
    rewrite E. eexists _, _. split; [reflexivity|].
    split; [|cbn; auto].
    exists (flushed ++ bw_buf b), (k - length (bw_buf b))%nat. cbn.
    split; [reflexivity|]. split; [exact Hseg'|]. rewrite app_nil_r. exact Hc.
Qed.

Lemma bufio_Write_copy_state_in fs d old name b content p :
  bufio_state_in fs d old name b content ->
  bufio_state_in fs d old name (bufio_Write_copy b p) (content ++ p).
Proof.
  intros (flushed & k & Herr & Hseg & Hc). exists flushed, k. cbn.
  split; [exact Herr|]. split; [exact Hseg|]. rewrite app_assoc, Hc. reflexivity.
Qed.

Lemma bufio_Write_direct_state_in fs d old name b content p :
  bufio_state_in fs d old name b content -> bw_buf b = [] ->
  exists fs' b',
    bufio_Write_direct fs b p = (fs', b', None)
    /\ bufio_state_in fs' d old name b' (content ++ p)
    /\ bw_wr b' = bw_wr b /\ bw_size b' = bw_size b.
Proof.
  intros (flushed & k & Herr & Hseg & Hc) Hbuf. unfold bufio_Write_direct.
  destruct (File_Write_segment_in fs d old name (bw_wr b) flushed k p Hseg)
    as (fs' & E & Hseg').
  rewrite E. exists fs', b. split; [reflexivity|]. split; [|auto].
  exists (flushed ++ p), (k - length p)%nat.
  split; [exact Herr|]. split; [exact Hseg'|].
  rewrite Hbuf, app_nil_r in *. subst content. reflexivity.
Qed.

Lemma bufio_Write_state_in fs d old name b content p :
  bufio_state_in fs d old name b content ->
  exists fs' b',
    bufio_Write fs b p = (fs', b', None)
    /\ bufio_state_in fs' d old name b' (content ++ p)
    /\ bw_wr b' = bw_wr b /\ bw_size b' = bw_size b.
Proof.
  intros Hst. pose proof Hst as (flushed & k & Herr & Hseg & Hc).
  unfold bufio_Write. rewrite Herr.
  destruct (len p <=? bufio_Available b).
  { exists fs, (bufio_Write_copy b p). split; [reflexivity|].
    split; [apply bufio_Write_copy_state_in; exact Hst|auto]. }
  destruct (bw_buf b) as [|c buf] eqn:Hbuf.
  { apply bufio_Write_direct_state_in; assumption. }
  set (n := bufio_Available b).
  pose proof (bufio_Write_copy_state_in fs d old name b content (slice_to n p) Hst) as Hst1.
  destruct (bufio_Flush_state_in fs d old name _ _ Hst1)
    as (fs2 & b2 & Ef & Hst2 & Hbuf2 & Hwr2 & Hsz2).
  rewrite Ef.
  assert (Hsplit : (content ++ slice_to n p) ++ slice_from n p = content ++ p).
  { rewrite <- app_assoc. unfold slice_to, slice_from. rewrite take_drop. reflexivity. }
  destruct (len (slice_from n p) <=? bufio_Available b2).
  - eexists _, _. split; [reflexivity|]. split.
    + rewrite <- Hsplit. apply bufio_Write_copy_state_in. exact Hst2.
    + cbn. auto.
  - destruct (bufio_Write_direct_state_in fs2 d old name b2 _ (slice_from n p) Hst2 Hbuf2)
      as (fs3 & b3 & Ed & Hst3 & Hwr3 & Hsz3).
    rewrite Ed. exists fs3, b3. split; [reflexivity|].
    split; [rewrite <- Hsplit; exact Hst3|].
    cbn in Hwr2, Hsz2. split; congruence.
Qed.

Lemma SegmentWAL_cur_Write_tail dir d old name w c p :
  wal_tail dir d old name w c ->
  exists w',
    SegmentWAL_cur_Write w p = (w', None)
    /\ wal_tail dir d old name w' (c ++ p)
    /\ w_files w' = w_files w /\ w_curN w' = w_curN w /\ w_maxt w' = w_maxt w
    /\ w_segmentSize w' = w_segmentSize w /\ w_flushInterval w' = w_flushInterval w.
Proof.
  intros (fd & maxt & b & pre & Hdir & Hfiles & Hcur & Hwr & Hst).
  destruct (bufio_Write_state_in _ _ _ _ _ _ p Hst) as (fs' & b' & E & Hst' & Hwr' & _).
  unfold SegmentWAL_cur_Write. rewrite Hcur, E.
  eexists. split; [reflexivity|]. split; [|cbn; auto 10].
  exists fd, maxt, b', pre. cbn. split; [exact Hdir|]. split; [exact Hfiles|].
  split; [reflexivity|]. split; [congruence|exact Hst'].
Qed.

Lemma insert_last_snoc {A} (pre : list A) (x x' : A) :
  <[(length (pre ++ [x]) - 1)%nat := x']> (pre ++ [x]) = pre ++ [x'].
Proof.
  rewrite length_app. cbn [length].
  replace (length pre + 1 - 1)%nat with (length pre + 0)%nat by lia.
  rewrite insert_app_r. reflexivity.
Qed.

(** The writes of [entry] and what follows them, on such a log. *)
Lemma SegmentWAL_entry_writes_tail dir d old name w c et flag buf :
  wal_tail dir d old name w c ->
  exists w',
    match SegmentWAL_cur_Write w (entry_header et flag buf) with
    | (w, Some e) => (w, Some e)
    | (w, None) =>
        match SegmentWAL_cur_Write w buf with
        | (w, Some e) => (w, Some e)
        | (w, None) =>
            match SegmentWAL_cur_Write w
                    (crc32.Sum (crc32.Write (crc32.Write crc32.Reset
                                               (entry_header et flag buf)) buf) []) with
            | (w, Some e) => (w, Some e)
            | (w, None) =>
                let w := w_set_curN w (int64 (w_curN w + int64 (6 + 4 + len buf))) in
                let w :=
                  match last (w_files w) with
                  | None => w
                  | Some cf =>
                      if sf_maxt cf <? w_maxt w
                      then w_set_files w
                             (<[(length (w_files w) - 1)%nat :=
                                  {| sf_f := sf_f cf; sf_maxt := w_maxt w |}]> (w_files w))
                      else w
                  end in
                (w, None)
            end
        end
    end = (w', None)
    /\ wal_tail dir d old name w' (c ++ entry_frame et flag buf)
    /\ w_curN w' = int64 (w_curN w + int64 (6 + 4 + len buf))
    /\ w_segmentSize w' = w_segmentSize w /\ w_flushInterval w' = w_flushInterval w.
Proof.
  intros Hw.
  destruct (SegmentWAL_cur_Write_tail dir d old name w c (entry_header et flag buf) Hw)
    as (w1 & E1 & Hw1 & F1 & N1 & M1 & S1 & I1).
  rewrite E1.
  destruct (SegmentWAL_cur_Write_tail dir d old name w1 _ buf Hw1)
    as (w2 & E2 & Hw2 & F2 & N2 & M2 & S2 & I2).
  rewrite E2.
  destruct (SegmentWAL_cur_Write_tail dir d old name w2 _
              (crc32.Sum (crc32.Write (crc32.Write crc32.Reset (entry_header et flag buf)) buf)
                 []) Hw2)
    as (w3 & E3 & Hw3 & F3 & N3 & M3 & S3 & I3).
  rewrite E3. cbv zeta.
  rewrite <- !app_assoc in Hw3. fold (entry_frame et flag buf) in Hw3.
  destruct Hw3 as (fd & maxt & b & pre & Hdir & Hfiles & Hcur & Hwr & Hst).
  assert (Hlast : last (w_files (w_set_curN w3 (int64 (w_curN w3 + int64 (6 + 4 + len buf)))))
                  = Some {| sf_f := fd; sf_maxt := maxt |}).
  { cbn [w_set_curN w_files]. rewrite Hfiles. apply last_snoc. }
  rewrite Hlast. cbn [sf_maxt sf_f].
  destruct (maxt <? _).
  - eexists. split; [reflexivity|].
    split; [|cbn; split; [congruence|split; congruence]].
    exists fd, (w_maxt w3), b, pre. cbn. rewrite Hfiles, insert_last_snoc.
    split; [exact Hdir|]. split; [reflexivity|]. split; [exact Hcur|].
    split; [exact Hwr|exact Hst].
  - eexists. split; [reflexivity|].
    split; [|cbn; split; [congruence|split; congruence]].
    exists fd, maxt, b, pre. cbn.
    split; [exact Hdir|]. split; [exact Hfiles|]. split; [exact Hcur|].
    split; [exact Hwr|exact Hst].
Qed.

(** Without a cut, [entry] adds its frame to the segment. *)
Lemma SegmentWAL_entry_tail dir d old name w c et flag buf :
  wal_tail dir d old name w c -> SegmentWAL_entry_cuts w buf = false ->
  exists w',
    SegmentWAL_entry w et flag buf = (w', None)
    /\ wal_tail dir d old name w' (c ++ entry_frame et flag buf)
    /\ w_curN w' = int64 (w_curN w + int64 (6 + 4 + len buf))
    /\ w_segmentSize w' = w_segmentSize w /\ w_flushInterval w' = w_flushInterval w.
Proof.
  intros Hw Hcuts. unfold SegmentWAL_entry. cbv zeta. rewrite Hcuts.
  exact (SegmentWAL_entry_writes_tail dir d old name w c et flag buf Hw).
Qed.

Lemma SegmentWAL_Sync_tail dir d old name w c :
  wal_tail dir d old name w c ->
  exists w' b,
    SegmentWAL_Sync w = (w', None)
    /\ wal_tail dir d old name w' c
    /\ w_cur w' = Some b /\ bw_buf b = []
    /\ w_files w' = w_files w
    /\ w_curN w' = w_curN w
    /\ w_segmentSize w' = w_segmentSize w /\ w_flushInterval w' = w_flushInterval w.
Proof.
  intros (fd & maxt & b & pre & Hdir & Hfiles & Hcur & Hwr & Hst).
  destruct (bufio_Flush_state_in _ _ _ _ _ _ Hst) as (fs' & b' & E & Hst' & Hbuf' & Hwr' & _).
  unfold SegmentWAL_Sync, SegmentWAL_flush. rewrite Hcur, E.
  unfold SegmentWAL_tail. cbn [w_set_cur w_set_fs w_files w_fs]. rewrite Hfiles, last_snoc.
  cbn [sf_f].
  destruct Hst' as (flushed & k & Herr' & Hseg' & Hc').
  pose proof Hseg' as (f & _ & Hf & Hfo & _).
  rewrite Hwr', Hwr in Hf.
  unfold fileutil_Fdatasync. rewrite Hf, Hfo.
  eexists _, b'. split; [reflexivity|]. split; [|cbn; auto 10].
  exists fd, maxt, b', pre. cbn. split; [exact Hdir|]. split; [exact Hfiles|].
  split; [reflexivity|]. split; [congruence|].
  exists flushed, k. auto.
Qed.

(** *** The calls that log a batch *)

Lemma Log_entry_tail dir d old name w c et flag buf :
  wal_tail dir d old name w c -> w_curN w = len c ->
  len c + 10 + len buf <= w_segmentSize w -> w_segmentSize w < 2 ^ 62 ->
  exists w',
    match SegmentWAL_entry w et flag buf with
    | (w, Some e) => (w, Some e)
    | (w, None) => if w_flushInterval w <=? 0 then SegmentWAL_Sync w else (w, None)
    end = (w', None)
    /\ wal_tail dir d old name w' (c ++ entry_frame et flag buf)
    /\ w_curN w' = len (c ++ entry_frame et flag buf)
    /\ w_segmentSize w' = w_segmentSize w /\ w_flushInterval w' = w_flushInterval w.
Proof.
  intros Hw Hn Hfit Hsz.
  pose proof (len_nonneg buf) as Hb. pose proof (len_nonneg c) as Hc.
  assert (Hcuts : SegmentWAL_entry_cuts w buf = false).
  { destruct Hw as (fd & maxt & b & pre & _ & _ & Hcur & _).
    eapply SegmentWAL_entry_cuts_fits; [exact Hcur|lia|lia|exact Hsz]. }
  destruct (SegmentWAL_entry_tail dir d old name w c et flag buf Hw Hcuts)
    as (w1 & E & Hw1 & N1 & S1 & I1).
  rewrite E.
  assert (HN : w_curN w1 = len (c ++ entry_frame et flag buf)).
  { rewrite N1, Hn, len_app, len_entry_frame.
    rewrite (int64_small (6 + 4 + len buf)) by (unfold is_int64; lia).
    rewrite int64_small by (unfold is_int64; lia). lia. }
  destruct (w_flushInterval w1 <=? 0).
  - destruct (SegmentWAL_Sync_tail dir d old name w1 _ Hw1)
      as (w2 & b2 & Es & Hw2 & Hc2 & Hb2 & F2 & N2 & S2 & I2).
    exists w2. split; [exact Es|]. split; [exact Hw2|].
    split; [congruence|]. split; congruence.
  - exists w1. auto.
Qed.

Lemma SegmentWAL_log_tail dir d old name w c op :
  wal_tail dir d old name w c -> w_curN w = len c ->
  len c + len (wal_frames (omap wal_op_entry [op])) <= w_segmentSize w ->
  w_segmentSize w < 2 ^ 62 ->
  exists w',
    SegmentWAL_log w op = (w', None)
    /\ wal_tail dir d old name w' (c ++ wal_frames (omap wal_op_entry [op]))
    /\ w_curN w' = len (c ++ wal_frames (omap wal_op_entry [op]))
    /\ w_segmentSize w' = w_segmentSize w /\ w_flushInterval w' = w_flushInterval w.
Proof.
  intros Hw Hn Hfit Hsz. cbn [omap list_omap] in *.
  destruct (wal_op_entry op) as [e|] eqn:He.
  - rewrite wal_frames_singleton in *.
    destruct (SegmentWAL_log_entry w op e He) as (t & ->).
    rewrite len_entry_frame in Hfit.
    apply (Log_entry_tail dir d old name (w_set_maxt w t) c); [exact Hw|exact Hn|cbn; lia|
                                                                exact Hsz].
  - change (wal_frames []) with (@nil byte) in *. rewrite app_nil_r in *.
    assert (Hop : SegmentWAL_log w op
                  = if w_flushInterval w <=? 0 then SegmentWAL_Sync w else (w, None)).
    { destruct op as [[|s ss]|[|s ss]|st]; cbn [wal_op_entry] in He; try discriminate;
        reflexivity. }
    rewrite Hop. destruct (w_flushInterval w <=? 0).
    + destruct (SegmentWAL_Sync_tail dir d old name w c Hw)
        as (w2 & b2 & Es & Hw2 & Hc2 & Hb2 & F2 & N2 & S2 & I2).
      exists w2. split; [exact Es|]. split; [exact Hw2|]. split; [congruence|].
      split; [exact S2|exact I2].
    + exists w. auto.
Qed.

Lemma SegmentWAL_logs_from w w1 op ops :
  SegmentWAL_log w op = (w1, None) ->
  SegmentWAL_logs (op :: ops) w = SegmentWAL_logs ops w1.
Proof. intros E. unfold SegmentWAL_logs. cbn [fold_left]. rewrite E. reflexivity. Qed.

Lemma SegmentWAL_logs_tail dir d old name ops :
  forall w c,
    wal_tail dir d old name w c -> w_curN w = len c ->
    len c + len (wal_frames (omap wal_op_entry ops)) <= w_segmentSize w ->
    w_segmentSize w < 2 ^ 62 ->
    exists w',
      SegmentWAL_logs ops w = (w', None)
      /\ wal_tail dir d old name w' (c ++ wal_frames (omap wal_op_entry ops))
      /\ w_curN w' = len (c ++ wal_frames (omap wal_op_entry ops))
      /\ w_segmentSize w' = w_segmentSize w /\ w_flushInterval w' = w_flushInterval w.
Proof.
  induction ops as [|op ops IH]; intros w c Hw Hn Hfit Hsz.
  - exists w. split; [reflexivity|]. change (wal_frames (omap wal_op_entry [])) with (@nil byte).
    rewrite app_nil_r. auto.
  - change (op :: ops) with ([op] ++ ops) in *.
    rewrite omap_app, wal_frames_app in *. rewrite len_app in Hfit.
    pose proof (len_nonneg (wal_frames (omap wal_op_entry ops))) as H0.
    destruct (SegmentWAL_log_tail dir d old name w c op Hw Hn) as (w1 & E & Hw1 & N1 & S1 & I1);
      [lia|exact Hsz|].
    destruct (IH w1 _ Hw1 N1) as (w' & Er & Hw' & N' & S' & I').
    { rewrite S1, len_app. lia. }
    { rewrite S1. exact Hsz. }
    exists w'. split; [|split; [|split; [|split]]].
    + cbn [app]. rewrite (SegmentWAL_logs_from w w1 op ops E). exact Er.
    + rewrite app_assoc. exact Hw'.
    + rewrite app_assoc. exact N'.
    + congruence.
    + congruence.
Qed.

(** The log of one segment, seen as a log that writes its last segment. *)
Lemma wal_segment0_tail dir w c :
  wal_segment0 dir w c ->
  exists ino fd maxt,
    w_files w = [{| sf_f := fd; sf_maxt := maxt |}]
    /\ wal_tail dir {[ path_Join dir (format_seq 0) := ino ]} ∅
         (path_Join dir (format_seq 0)) w c.
Proof.
  intros (fd & maxt & b & Hdir & Hfiles & Hcur & Hwr & flushed & k & Herr & Hseg & Hc).
  destruct Hseg as (f & Hwf & Hfd & Hopen & Hname & Hd & Hdata & Hpos).
  exists (f_ino f), fd, maxt. split; [exact Hfiles|].
  exists fd, maxt, b, []. split; [exact Hdir|]. split; [exact Hfiles|].
  split; [exact Hcur|]. split; [exact Hwr|].
  exists flushed, k. split; [exact Herr|]. split; [|exact Hc].
  exists f. split; [exact Hwf|]. split; [exact Hfd|]. split; [exact Hopen|].
  split; [exact Hname|]. split; [exact Hd|]. split; [apply lookup_singleton_eq|].
  split; [exact Hdata|]. split; [exact Hpos|]. split; [apply lookup_empty|].
  intros ino data Hl. rewrite lookup_empty in Hl. discriminate.
Qed.

(** *** The cut *)

Lemma path_Join_inj dir a b : path_Join dir a = path_Join dir b -> a = b.
Proof.
  intros H. pose proof (path_base_Join dir a) as Ha. rewrite H, path_base_Join in Ha.
  congruence.
Qed.

Lemma nextSequenceFile_one fs dir ino :
  fs_dir fs = {[ path_Join dir (format_seq 0) := ino ]} ->
  nextSequenceFile fs dir = path_Join dir (format_seq 1).
Proof.
  intros Hd. unfold nextSequenceFile. rewrite Hd, dom_singleton_L, elements_singleton.
  cbn [omap list_omap]. rewrite path_base_Join.
  change (parse_seq (format_seq 0)) with (Some 0%nat). reflexivity.
Qed.

(** [cut] on a log that writes its first segment: the segment is
    flushed, cut to what was written and closed, and the segment
    [00000001] is created, preallocated and given its header. *)
Lemma SegmentWAL_cut_tail0 dir w c ino0 :
  wal_tail dir {[ path_Join dir (format_seq 0) := ino0 ]} ∅ (path_Join dir (format_seq 0)) w c ->
  exists w' ino1,
    SegmentWAL_cut w = (w', None)
    /\ ino0 <> ino1
    /\ wal_tail dir
         (<[path_Join dir (format_seq 1) := ino1]> {[ path_Join dir (format_seq 0) := ino0 ]})
         {[ ino0 := c ]} (path_Join dir (format_seq 1)) w' segment_header
    /\ w_curN w' = 8
    /\ w_segmentSize w' = w_segmentSize w /\ w_flushInterval w' = w_flushInterval w.
Proof.
  intros Hw. pose proof Hw as (fd & maxt & b & pre & Hdir & Hfiles & Hcur & Hwr & Hst).
  destruct (SegmentWAL_Sync_tail _ _ _ _ w c Hw)
    as (w1 & b1 & Es & Hw1 & Hcur1 & Hbuf1 & Hfiles1 & N1 & S1 & I1).
  unfold SegmentWAL_cut, SegmentWAL_tail. rewrite Hfiles, last_snoc. cbn [sf_f].
  change (SegmentWAL_sync w) with (SegmentWAL_Sync w). rewrite Es.
  destruct Hw1 as (fd1 & maxt1 & b1' & pre1 & Hdir1 & Hfiles1' & Hcur1' & Hwr1
                   & flushed & k & Herr & Hseg & Hc).
  rewrite Hcur1 in Hcur1'. injection Hcur1' as <-.
  rewrite Hfiles1, Hfiles in Hfiles1'. apply app_inj_tail in Hfiles1'.
  destruct Hfiles1' as [<- Hx]. injection Hx as <- <-.
  rewrite Hbuf1, app_nil_r in Hc. subst flushed.
  destruct Hseg as (f & Hwf & Hfd & Hopen & Hname & Hd & Hl & Hdata & Hpos & _ & _).
  rewrite lookup_singleton_eq in Hl. injection Hl as Hino. 
  rewrite Hwr1 in Hfd.
  unfold File_Seek_cur. rewrite Hfd, Hopen.
  unfold File_Truncate. rewrite Hfd, Hopen.
  unfold File_Close. cbn [fs_set_data fs_fds]. rewrite Hfd, Hopen.
  cbn [w_set_fs w_fs w_dirFile].
  assert (Htr : slice_to (f_pos f)
                  (fs_data (w_fs w1) (f_ino f)
                   ++ zeros (Z.to_nat (f_pos f) - length (fs_data (w_fs w1) (f_ino f)))) = c).
  { rewrite Hdata, Hpos, <- app_assoc. apply slice_to_app_len. reflexivity. }
  rewrite Htr. clear Htr.
  set (fs1 := w_fs w1) in *.
  set (name0 := path_Join dir (format_seq 0)) in *.
  set (fsA := fs_set_fd (fs_set_data fs1 (f_ino f) c) fd (File_set_closed f)).
  assert (HdA : fs_dir fsA = {[ name0 := ino0 ]}) by exact Hd.
  rewrite Hdir1, (nextSequenceFile_one fsA dir ino0 HdA).
  set (name1 := path_Join dir (format_seq 1)).
  set (n := length (fs_inodes fs1)).
  set (m := length (fs_fds fs1)).
  assert (Hino0 : (f_ino f < n)%nat) by exact (proj1 (proj2 Hwf fd f Hfd)).
  assert (Hfdm : (fd < m)%nat) by (eapply lookup_lt_Some; exact Hfd).
  assert (Hne : name0 <> name1).
  { intros Heq. apply path_Join_inj in Heq. vm_compute in Heq. discriminate. }
  assert (HlA : fs_dir fsA !! name1 = None).
  { rewrite HdA. apply lookup_singleton_ne. exact Hne. }
  assert (HnA : length (fs_inodes fsA) = n).
  { unfold fsA. cbn [fs_set_fd fs_set_data fs_inodes]. apply length_insert. }
  assert (HmA : length (fs_fds fsA) = m).
  { unfold fsA. cbn [fs_set_fd fs_set_data fs_fds]. apply length_insert. }
  set (fnew := {| f_name := name1; f_ino := n; f_pos := 0; f_closed := false |}).
  set (fsB := {| fs_inodes := fs_inodes fsA ++ [[]];
                 fs_dir := <[name1 := n]> (fs_dir fsA);
                 fs_fds := fs_fds fsA ++ [fnew] |}).
  assert (E1 : os_Create fsA name1 = (fsB, m)).
  { unfold os_Create. rewrite HlA. cbn [fs_inodes fs_dir fs_fds]. rewrite HnA, HmA.
    reflexivity. }
  rewrite E1.
  assert (HfB : fs_fds fsB !! m = Some fnew).
  { unfold fsB. cbn [fs_fds]. rewrite lookup_app_r by lia. rewrite HmA, Nat.sub_diag.
    reflexivity. }
  assert (HdB : fs_data fsB n = []).
  { unfold fs_data, fsB. cbn [fs_inodes]. rewrite lookup_app_r by lia.
    rewrite HnA, Nat.sub_diag. reflexivity. }
  set (sz := Z.to_nat (w_segmentSize w1)).
  set (fsC := fs_set_data fsB n (zeros sz)).
  assert (E2 : fileutil_Preallocate fsB m (w_segmentSize w1) = (fsC, None)).
  { unfold fileutil_Preallocate. rewrite HfB. cbn [fnew f_closed f_ino]. rewrite HdB.
    cbn [app length]. rewrite Nat.sub_0_r. reflexivity. }
  cbn [w_set_fs w_segmentSize]. rewrite E2.
  assert (HwfA : FS_wf fsA).
  { unfold fsA. apply FS_wf_set_fd.
    - apply FS_wf_set_data. exact Hwf.
    - cbn [fs_set_data fs_inodes File_set_closed f_ino]. rewrite length_insert. exact Hino0.
    - cbn [File_set_closed f_pos]. rewrite Hpos. apply len_nonneg. }
  assert (HwfC : FS_wf fsC).
  { unfold fsC. apply FS_wf_set_data. split.
    - intros nm i Hi. unfold fsB in *. cbn [fs_dir fs_inodes] in *.
      rewrite length_app, HnA. cbn [length].
      apply lookup_insert_Some in Hi. destruct Hi as [[_ <-]|[_ Hi]]; [lia|].
      pose proof (proj1 HwfA nm i Hi) as Hlt. rewrite HnA in Hlt. lia.
    - intros x g Hx. unfold fsB in *. cbn [fs_fds fs_inodes] in *.
      rewrite length_app, HnA. cbn [length].
      apply lookup_app_Some in Hx. destruct Hx as [Hx|[_ Hx]].
      + destruct (proj2 HwfA x g Hx) as [Hi Hp]. rewrite HnA in Hi. split; [lia|exact Hp].
      + destruct (x - length (fs_fds fsA))%nat; [|discriminate]. injection Hx as <-.
        cbn. lia. }
  assert (HdatC : fs_data fsC (f_ino f) = c).
  { unfold fs_data, fsC, fsB. cbn [fs_set_data fs_inodes].
    rewrite list_lookup_insert_ne by lia.
    rewrite lookup_app_l by lia.
    unfold fsA. cbn [fs_set_fd fs_set_data fs_inodes].
    rewrite list_lookup_insert_eq by exact Hino0. reflexivity. }
  assert (Hseg : segment_state_in fsC (<[name1 := n]> {[ name0 := ino0 ]}) {[ ino0 := c ]}
                   name1 m [] sz).
  { exists fnew. split; [exact HwfC|]. split; [exact HfB|]. split; [reflexivity|].
    split; [reflexivity|]. split; [unfold fsC, fsB; cbn [fs_set_data fs_dir]; rewrite HdA;
                                   reflexivity|].
    split; [apply lookup_insert_eq|]. split.
    { unfold fs_data, fsC, fsB. cbn [fs_set_data fs_inodes fnew f_ino].
      rewrite list_lookup_insert_eq by (rewrite length_app, HnA; cbn [length]; lia).
      reflexivity. }
    split; [reflexivity|]. cbn [fnew f_ino]. split.
    { apply lookup_singleton_ne. lia. }
    intros i data Hi. apply lookup_singleton_Some in Hi. destruct Hi as [<- <-].
    rewrite Hino. exact HdatC. }
  destruct (File_Write_segment_in fsC _ _ name1 m [] sz segment_header Hseg)
    as (fsD & Ew & HsegD).
  rewrite Ew. eexists _, n. split; [reflexivity|].
  split; [lia|]. split; [|cbn; auto].
  exists m, 0, (bufio_NewWriterSize m (4 * 1024 * 1024)), (w_files w1). cbn.
  split; [exact Hdir1|]. split; [reflexivity|]. split; [reflexivity|]. split; [reflexivity|].
  exists ([] ++ segment_header), (sz - length segment_header)%nat.
  split; [reflexivity|]. split; [exact HsegD|]. cbn [bufio_NewWriterSize bw_buf].
  rewrite app_nil_r. reflexivity.
Qed.

(** An entry that does not fit the first segment any more goes to a second
    segment, which [entry] cuts for it. *)
Lemma Log_entry_cut_tail0 dir w c ino0 et flag buf :
  wal_tail dir {[ path_Join dir (format_seq 0) := ino0 ]} ∅ (path_Join dir (format_seq 0)) w c ->
  w_curN w = len c ->
  w_segmentSize w < len c + 10 + len buf -> 10 + len buf <= w_segmentSize w ->
  len c <= w_segmentSize w -> w_segmentSize w < 2 ^ 62 ->
  exists w' ino1,
    match SegmentWAL_entry w et flag buf with
    | (w, Some e) => (w, Some e)
    | (w, None) => if w_flushInterval w <=? 0 then SegmentWAL_Sync w else (w, None)
    end = (w', None)
    /\ ino0 <> ino1
    /\ wal_tail dir
         (<[path_Join dir (format_seq 1) := ino1]> {[ path_Join dir (format_seq 0) := ino0 ]})
         {[ ino0 := c ]} (path_Join dir (format_seq 1)) w'
         (segment_header ++ entry_frame et flag buf)
    /\ w_curN w' = len (segment_header ++ entry_frame et flag buf)
    /\ w_segmentSize w' = w_segmentSize w /\ w_flushInterval w' = w_flushInterval w.
Proof.
  intros Hw Hn Hover Hfits Hc Hsz.
  pose proof (len_nonneg buf) as Hb. pose proof (len_nonneg c) as Hc0.
  assert (Hcuts : SegmentWAL_entry_cuts w buf = true).
  { destruct Hw as (fd & maxt & b & pre & _ & _ & Hcur & _).
    unfold SegmentWAL_entry_cuts. rewrite Hcur.
    rewrite (int64_small (6 + 4 + len buf)) by (unfold is_int64; lia).
    rewrite (int64_small (w_curN w + _)) by (unfold is_int64; lia).
    destruct (Z.ltb_spec (w_segmentSize w) (w_curN w)); [reflexivity|].
    destruct (Z.ltb_spec (w_segmentSize w) (w_curN w + (6 + 4 + len buf))); [|lia].
    destruct (Z.leb_spec (6 + 4 + len buf) (w_segmentSize w)); [reflexivity|lia]. }
  destruct (SegmentWAL_cut_tail0 dir w c ino0 Hw) as (w0 & ino1 & Ec & Hne & Hw0 & N0 & S0 & I0).
  destruct (SegmentWAL_entry_writes_tail dir _ _ _ w0 _ et flag buf Hw0)
    as (w1 & E & Hw1 & N1 & S1 & I1).
  unfold SegmentWAL_entry. cbv zeta. rewrite Hcuts, Ec. cbv zeta in E. rewrite E.
  assert (HN : w_curN w1 = len (segment_header ++ entry_frame et flag buf)).
  { rewrite N1, N0, len_app, len_entry_frame.
    rewrite (int64_small (6 + 4 + len buf)) by (unfold is_int64; lia).
    rewrite int64_small by (unfold is_int64; lia).
    change (len segment_header) with 8. lia. }
  destruct (w_flushInterval w1 <=? 0).
  - destruct (SegmentWAL_Sync_tail dir _ _ _ w1 _ Hw1)
      as (w2 & b2 & Es & Hw2 & Hc2 & Hb2 & F2 & N2 & S2 & I2).
    exists w2, ino1. split; [exact Es|]. split; [exact Hne|]. split; [exact Hw2|].
    split; [congruence|]. split; congruence.
  - exists w1, ino1. split; [reflexivity|]. split; [exact Hne|]. split; [exact Hw1|].
    split; [exact HN|]. split; congruence.
Qed.

Lemma SegmentWAL_Close_tail dir d old name w c :
  wal_tail dir d old name w c ->
  exists w2 ino k,
    SegmentWAL_Close w = (w2, None)
    /\ FS_wf (w_fs w2)
    /\ fs_dir (w_fs w2) = d /\ d !! name = Some ino
    /\ fs_data (w_fs w2) ino = c ++ zeros k
    /\ old !! ino = None
    /\ forall i data, old !! i = Some data -> fs_data (w_fs w2) i = data.
Proof.
  intros Hw.
  destruct (SegmentWAL_Sync_tail dir d old name w c Hw)
    as (w1 & b1 & Es & Hw1 & Hcur1 & Hbuf1 & _).
  unfold SegmentWAL_Close. change (SegmentWAL_sync w) with (SegmentWAL_Sync w). rewrite Es.
  destruct Hw1 as (fd & maxt & b & pre & Hdir & Hfiles & Hcur & Hwr & Hst).
  rewrite Hcur in Hcur1. injection Hcur1 as <-.
  destruct Hst as (flushed & k & Herr & Hseg & Hc).
  rewrite Hbuf1, app_nil_r in Hc. subst flushed.
  destruct Hseg as (f & Hwf & Hfd & Hopen & Hname & Hd & Hl & Hdata & Hpos & Hno & Hold).
  unfold SegmentWAL_tail. rewrite Hfiles, last_snoc. cbn [sf_f].
  unfold File_Close. rewrite <- Hwr, Hfd, Hopen. cbn [errors_Wrap_opt].
  exists (w_set_fs w1 (fs_set_fd (w_fs w1) (bw_wr b) (File_set_closed f))), (f_ino f), k.
  split; [reflexivity|]. cbn [w_set_fs w_fs].
  destruct (proj2 Hwf _ _ Hfd) as [Hino Hp].
  split; [apply FS_wf_set_fd; assumption|].
  split; [exact Hd|]. split; [exact Hl|]. split; [exact Hdata|]. split; [exact Hno|exact Hold].
Qed.

(** *** The two segments opened again *)

Lemma string_ltb_append p a b :
  String.ltb (String.append p a) (String.append p b) = String.ltb a b.
Proof.
  induction p as [|c p IH]; [reflexivity|].
  change (String.append (String c p) a) with (String c (String.append p a)).
  change (String.append (String c p) b) with (String c (String.append p b)).
  cbn [String.ltb]. rewrite Ascii.eqb_refl. exact IH.
Qed.

Lemma sequenceFiles_two fs dir ino0 ino1 :
  fs_dir fs = <[path_Join dir (format_seq 1) := ino1]> {[ path_Join dir (format_seq 0) := ino0 ]} ->
  sequenceFiles fs dir = [path_Join dir (format_seq 0); path_Join dir (format_seq 1)].
Proof.
  intros Hd.
  set (name0 := path_Join dir (format_seq 0)) in *.
  set (name1 := path_Join dir (format_seq 1)) in *.
  assert (Hne : name1 <> name0).
  { intros Heq. apply path_Join_inj in Heq. vm_compute in Heq. discriminate. }
  assert (Hel : elements (dom (fs_dir fs)) ≡ₚ [name1; name0]).
  { rewrite Hd, dom_insert_L, dom_singleton_L.
    rewrite elements_union_singleton by set_solver. rewrite elements_singleton. reflexivity. }
  assert (Hlt01 : String.ltb name0 name1 = true).
  { unfold name0, name1, path_Join. rewrite !string_ltb_append. reflexivity. }
  assert (Hlt10 : String.ltb name1 name0 = false).
  { unfold name0, name1, path_Join. rewrite !string_ltb_append. reflexivity. }
  assert (Hp0 : path_base dir name0 = Some (format_seq 0)) by apply path_base_Join.
  assert (Hp1 : path_base dir name1 = Some (format_seq 1)) by apply path_base_Join.
  unfold sequenceFiles.
  symmetry in Hel. apply Permutation_length_2_inv in Hel.
  destruct Hel as [-> | ->]; cbn [List.filter]; rewrite Hp0, Hp1;
    change (parse_seq (format_seq 0)) with (Some 0%nat);
    change (parse_seq (format_seq 1)) with (Some 1%nat); cbv iota.
  - unfold sort_Strings, sort_Sort. cbn [length Nat.sub seq fold_left insertionSort_inner].
    unfold StringSlice_Less, index. cbn [lookup list_lookup default from_option].
    unfold id. rewrite Hlt01. reflexivity.
  - unfold sort_Strings, sort_Sort. cbn [length Nat.sub seq fold_left insertionSort_inner].
    unfold StringSlice_Less, index. cbn [lookup list_lookup default from_option].
    unfold id. rewrite Hlt10. reflexivity.
Qed.

Lemma OpenSegmentWAL_two fs dir fl ino0 ino1 rest0 rest1 :
  FS_wf fs ->
  fs_dir fs = <[path_Join dir (format_seq 1) := ino1]> {[ path_Join dir (format_seq 0) := ino0 ]} ->
  fs_data fs ino0 = segment_header ++ rest0 ->
  fs_data fs ino1 = segment_header ++ rest1 ->
  exists w3,
    OpenSegmentWAL fs dir fl = (w3, None)
    /\ FS_wf (w_fs w3)
    /\ w_files w3 = [{| sf_f := length (fs_fds fs); sf_maxt := 0 |};
                     {| sf_f := S (length (fs_fds fs)); sf_maxt := 0 |}]
    /\ seg_at (w_fs w3) (length (fs_fds fs)) rest0
    /\ seg_at (w_fs w3) (S (length (fs_fds fs))) rest1.
Proof.
  intros Hwf Hd Hdata0 Hdata1.
  set (name0 := path_Join dir (format_seq 0)) in *.
  set (name1 := path_Join dir (format_seq 1)) in *.
  set (m := length (fs_fds fs)).
  assert (Hne : name1 <> name0).
  { intros Heq. apply path_Join_inj in Heq. vm_compute in Heq. discriminate. }
  assert (Hl0 : fs_dir fs !! name0 = Some ino0).
  { rewrite Hd, lookup_insert_ne by exact Hne. apply lookup_singleton_eq. }
  assert (Hl1 : fs_dir fs !! name1 = Some ino1) by (rewrite Hd; apply lookup_insert_eq).
  set (f0 := {| f_name := name0; f_ino := ino0; f_pos := 0; f_closed := false |}).
  set (f1 := {| f_name := name1; f_ino := ino1; f_pos := 0; f_closed := false |}).
  set (fs2 := {| fs_inodes := fs_inodes fs; fs_dir := fs_dir fs;
                 fs_fds := (fs_fds fs ++ [f0]) ++ [f1] |}).
  assert (Hf0 : fs_fds fs2 !! m = Some f0).
  { unfold fs2, m. cbn [fs_fds]. rewrite lookup_app_l by (rewrite length_app; cbn; lia).
    rewrite lookup_app_r by lia. rewrite Nat.sub_diag. reflexivity. }
  assert (Hf1 : fs_fds fs2 !! S m = Some f1).
  { unfold fs2, m. cbn [fs_fds]. rewrite lookup_app_r by (rewrite length_app; cbn; lia).
    rewrite length_app. cbn [length].
    replace (S (length (fs_fds fs)) - (length (fs_fds fs) + 1))%nat with 0%nat by lia.
    reflexivity. }
  assert (Hwf2 : FS_wf fs2).
  { split; [exact (proj1 Hwf)|]. intros x g Hx. unfold fs2 in Hx. cbn [fs_fds fs_inodes] in *.
    apply lookup_app_Some in Hx. destruct Hx as [Hx|[_ Hx]].
    - apply lookup_app_Some in Hx. destruct Hx as [Hx|[_ Hx]].
      + exact (proj2 Hwf x g Hx).
      + destruct (x - length (fs_fds fs))%nat; [|discriminate]. injection Hx as <-. cbn.
        split; [eapply (proj1 Hwf); exact Hl0|lia].
    - destruct (x - length (fs_fds fs ++ [f0]))%nat; [|discriminate]. injection Hx as <-. cbn.
      split; [eapply (proj1 Hwf); exact Hl1|lia]. }
  assert (Hseg0 : seg_at fs2 m (segment_header ++ rest0)).
  { split; [exists f0; auto|]. unfold fs_remaining. rewrite Hf0. cbn [f0 f_pos f_ino].
    rewrite slice_from_0. exact Hdata0. }
  assert (Hseg1 : seg_at fs2 (S m) (segment_header ++ rest1)).
  { split; [exists f1; auto|]. unfold fs_remaining. rewrite Hf1. cbn [f1 f_pos f_ino].
    rewrite slice_from_0. exact Hdata1. }
  destruct (File_Read_some fs2 m (segment_header ++ rest0) 8 Hwf2 Hseg0)
    as (fs3 & Er0 & Hwf3 & Hsame3 & Hseg03); [lia|right; discriminate|].
  pose proof (seg_at_same_except fs2 fs3 m (S m) _ Hsame3 ltac:(lia) Hseg1) as Hseg13.
  destruct (File_Read_some fs3 (S m) (segment_header ++ rest1) 8 Hwf3 Hseg13)
    as (fs4 & Er1 & Hwf4 & Hsame4 & Hseg14); [lia|right; discriminate|].
  pose proof (seg_at_same_except fs3 fs4 (S m) m _ Hsame4 ltac:(lia) Hseg03) as Hseg04.
  destruct (segment_header_magic rest0) as (Hm0 & Hv0 & Hl80 & Hrest0).
  destruct (segment_header_magic rest1) as (Hm1 & Hv1 & Hl81 & Hrest1).
  rewrite Hrest0 in Hseg04. rewrite Hrest1 in Hseg14.
  unfold OpenSegmentWAL, SegmentWAL_initSegments. cbn [w_fs w_dirFile w_files].
  rewrite (sequenceFiles_two fs dir ino0 ino1 Hd). fold name0 name1.
  cbn [initSegments_open]. unfold os_OpenFile. rewrite Hl0. cbn [fs_dir fs_fds fs_inodes].
  rewrite Hl1. cbn [fs_dir fs_fds fs_inodes app].
  replace (length (fs_fds fs ++ [f0])) with (S m) by (rewrite length_app; cbn; lia).
  fold m f0 f1 fs2.
  cbn [app w_set_files w_set_fs w_fs w_files initSegments_validate sf_f].
  rewrite Er0, Hl80, Hm0, Hv0.
  change (WALMagic =? WALMagic) with true. change (WALFormatDefault =? WALFormatDefault) with true.
  change (8 =? 8) with true. cbn [negb].
  replace (length (fs_fds fs ++ [f0])) with (S m) by (rewrite length_app; cbn; lia).
  rewrite Er1, Hl81, Hm1, Hv1.
  change (WALMagic =? WALMagic) with true. change (WALFormatDefault =? WALFormatDefault) with true.
  change (8 =? 8) with true. cbn [negb].
  eexists. split; [reflexivity|]. cbn [w_set_fs w_fs w_files].
  split; [exact Hwf4|]. split; [reflexivity|]. split; [exact Hseg04|exact Hseg14].
Qed.

Lemma walReader_Read_two mint w fd0 fd1 es0 es1 k :
  FS_wf (w_fs w) ->
  w_files w = [{| sf_f := fd0; sf_maxt := 0 |}; {| sf_f := fd1; sf_maxt := 0 |}] ->
  fd0 <> fd1 ->
  seg_at (w_fs w) fd0 (wal_frames es0) ->
  seg_at (w_fs w) fd1 (wal_frames es1 ++ zeros k) ->
  Forall wal_entry_ok (es0 ++ es1) -> Forall (wal_entry_decodes mint) (es0 ++ es1) ->
  exists r',
    walReader_Read (SegmentWAL_Reader w mint) = (r', wal_deliveries mint (es0 ++ es1), None).
Proof.
  intros Hwf Hfiles Hne Hseg0 Hseg1 Hok Hdec.
  set (r := SegmentWAL_Reader w mint).
  assert (Hr : reading mint r [] [fd0; fd1] [] [es0; es1] (zeros k)).
  { unfold reading, r, SegmentWAL_Reader, newWALReader. cbn [r_wal r_mint r_err r_cur w_fs].
    split; [exact Hwf|]. split; [reflexivity|]. split; [reflexivity|]. split; [reflexivity|].
    split; [unfold reader_fds; cbn [r_wal]; rewrite Hfiles; reflexivity|].
    split.
    { cbn [segs_at]. split; [|exact Hseg1].
      exists []. rewrite app_nil_r. split; [exact Hseg0|left; reflexivity]. }
    split.
    { rewrite app_nil_r. apply NoDup_cons. split; [|apply NoDup_singleton].
      intros Hin. apply list_elem_of_singleton in Hin. contradiction. }
    split; [constructor|constructor]. }
  assert (Hcat : concat [es0; es1] = es0 ++ es1) by (cbn; rewrite app_nil_r; reflexivity).
  assert (Hok' : Forall (Forall wal_entry_ok) [es0; es1]).
  { apply Forall_app in Hok. destruct Hok. repeat constructor; assumption. }
  assert (Hdec' : Forall (wal_entry_decodes mint) (concat [es0; es1]))
    by (rewrite Hcat; exact Hdec).
  pose proof (reading_remaining _ _ _ _ _ _ _ Hr) as Hfuel.
  unfold walReader_Read.
  destruct (zeros_end_or_torn k) as [Hend|Htorn].
  - destruct (walReader_Read_loop_spec_end mint (zeros k) Hend (length (concat [es0; es1]))
                [es0; es1] [fd0; fd1] (S (walReader_remaining r)) r [] [] eq_refl)
      as (r' & E & _); [lia|exact Hr|exact Hok'|exact Hdec'|].
    exists r'. rewrite E, Hcat. reflexivity.
  - destruct (walReader_Read_loop_spec mint [] (zeros k) Htorn (length (concat [es0; es1]))
                [es0; es1] [fd0; fd1] (S (walReader_remaining r)) r [] [] eq_refl)
      as (r' & E & _); [lia|exact Hr|exact Hok'|exact Hdec'|].
    exists r'. rewrite E, Hcat. reflexivity.
Qed.

Lemma SegmentWAL_logs_app a b w w1 :
  SegmentWAL_logs a w = (w1, None) -> SegmentWAL_logs (a ++ b) w = SegmentWAL_logs b w1.
Proof. intros E. unfold SegmentWAL_logs in *. rewrite fold_left_app, E. reflexivity. Qed.

(** X23.  A log that fills its first segment.  The batches [op :: ops1] fit
    a segment of [n] bytes and the entry of [op2] does not fit behind them:
    [entry] cuts a second segment for it, and [op2 :: ops2] fit that one.
    All calls succeed and so does [Close]; then the file of the first
    segment holds its header and the frames of [op :: ops1] and nothing
    else - the cut has truncated the preallocated zero bytes - and the file
    of the second segment holds a header, the frames of [op2 :: ops2] and
    what is left of its zero bytes.  The log opens again on the directory,
    and its replay hands over the batches of both segments in the order of
    the calls. *)
Theorem SegmentWAL_replay_two_segments :
  forall (dir : string) (flushInterval flushInterval' mint n : Z)
         (op : wal_op) (ops1 : list wal_op) (op2 : wal_op) (ops2 : list wal_op),
    Forall wal_op_wf (op :: ops1 ++ op2 :: ops2) ->
    is_Some (wal_op_entry op) -> is_Some (wal_op_entry op2) ->
    n <= walSegmentSizeBytes ->
    8 + len (wal_frames (omap wal_op_entry (op :: ops1))) <= n ->
    n < 8 + len (wal_frames (omap wal_op_entry (op :: ops1 ++ [op2]))) ->
    8 + len (wal_frames (omap wal_op_entry (op2 :: ops2))) <= n ->
    exists w1 w2 w3 r' k,
      SegmentWAL_logs (op :: ops1 ++ op2 :: ops2)
        (w_set_segmentSize (fst (OpenSegmentWAL fs_empty dir flushInterval)) n) = (w1, None)
      /\ SegmentWAL_Close w1 = (w2, None)
      /\ fs_content (w_fs w2) (path_Join dir (format_seq 0))
         = Some (segment_header ++ wal_frames (omap wal_op_entry (op :: ops1)))
      /\ fs_content (w_fs w2) (path_Join dir (format_seq 1))
         = Some (segment_header ++ wal_frames (omap wal_op_entry (op2 :: ops2)) ++ zeros k)
      /\ OpenSegmentWAL (w_fs w2) dir flushInterval' = (w3, None)
      /\ walReader_Read (SegmentWAL_Reader w3 mint)
         = (r', omap (wal_op_delivery mint) (op :: ops1 ++ op2 :: ops2), None).
Proof.
  intros dir fl fl' mint n op ops1 op2 ops2 Hwf [e He] [e2 He2] Hn Hfit1 Hover Hfit2.
  set (w0 := w_set_segmentSize (fst (OpenSegmentWAL fs_empty dir fl)) n).
  set (name0 := path_Join dir (format_seq 0)).
  set (name1 := path_Join dir (format_seq 1)).
  assert (Hfresh : wal_fresh dir w0) by (repeat split; reflexivity).
  assert (Hsize : w_segmentSize w0 = n) by reflexivity.
  assert (Hbig : walSegmentSizeBytes < 2 ^ 31) by (unfold walSegmentSizeBytes; lia).
  assert (Hne : name1 <> name0).
  { intros Heq. apply path_Join_inj in Heq. vm_compute in Heq. discriminate. }
  (* the lengths *)
  assert (Hf1 : wal_frames (omap wal_op_entry (op :: ops1))
                = entry_frame (e_type e) (e_flag e) (e_buf e)
                  ++ wal_frames (omap wal_op_entry ops1)).
  { change (op :: ops1) with ([op] ++ ops1). rewrite omap_app, wal_frames_app.
    cbn [omap list_omap]. rewrite He. rewrite wal_frames_singleton. reflexivity. }
  assert (Hf2 : wal_frames (omap wal_op_entry (op2 :: ops2))
                = entry_frame (e_type e2) (e_flag e2) (e_buf e2)
                  ++ wal_frames (omap wal_op_entry ops2)).
  { change (op2 :: ops2) with ([op2] ++ ops2). rewrite omap_app, wal_frames_app.
    cbn [omap list_omap]. rewrite He2. rewrite wal_frames_singleton. reflexivity. }
  assert (Hf12 : wal_frames (omap wal_op_entry (op :: ops1 ++ [op2]))
                 = wal_frames (omap wal_op_entry (op :: ops1))
                   ++ entry_frame (e_type e2) (e_flag e2) (e_buf e2)).
  { change (op :: ops1 ++ [op2]) with ((op :: ops1) ++ [op2]).
    rewrite omap_app, wal_frames_app. cbn [omap list_omap]. rewrite He2.
    rewrite wal_frames_singleton. reflexivity. }
  rewrite Hf12, len_app, len_entry_frame in Hover.
  pose proof (len_nonneg (wal_frames (omap wal_op_entry ops1))) as H1.
  pose proof (len_nonneg (wal_frames (omap wal_op_entry ops2))) as H2.
  pose proof (len_nonneg (e_buf e)) as Hb. pose proof (len_nonneg (e_buf e2)) as Hb2.
  pose proof Hfit1 as Hfit1'. rewrite Hf1, len_app, len_entry_frame in Hfit1'.
  pose proof Hfit2 as Hfit2'. rewrite Hf2, len_app, len_entry_frame in Hfit2'.
  (* the first call cuts the first segment *)
  destruct (SegmentWAL_log_entry w0 op e He) as (t & Eop).
  destruct (Log_entry_fresh dir (w_set_maxt w0 t) (e_type e) (e_flag e) (e_buf e))
    as (wa & Ea & Hwa & Na & Sa & Ia & _);
    [exact Hfresh|cbn; lia|cbn; lia|].
  rewrite <- Eop in Ea.
  cbn [w_set_maxt w_segmentSize w_flushInterval] in Sa, Ia.
  destruct (wal_segment0_tail dir wa _ Hwa) as (ino0 & fda & maxta & _ & Hta).
  (* the calls that fit it *)
  destruct (SegmentWAL_logs_tail dir _ _ _ ops1 wa _ Hta Na) as (wb & Eb & Htb & Nb & Sb & Ib).
  { rewrite Sa, Hsize, len_app, len_entry_frame. change (len segment_header) with 8. lia. }
  { rewrite Sa, Hsize. lia. }
  rewrite <- app_assoc, <- Hf1 in Htb, Nb.
  set (c1 := segment_header ++ wal_frames (omap wal_op_entry (op :: ops1))) in *.
  assert (Hc1 : len c1 = 8 + len (wal_frames (omap wal_op_entry (op :: ops1)))).
  { unfold c1. rewrite len_app. reflexivity. }
  (* the call that does not *)
  destruct (SegmentWAL_log_entry wb op2 e2 He2) as (t2 & Eop2).
  destruct (Log_entry_cut_tail0 dir (w_set_maxt wb t2) c1 ino0 (e_type e2) (e_flag e2) (e_buf e2))
    as (wc & ino1 & Ec & Hino & Htc & Nc & Sc & Ic).
  { exact Htb. }
  { exact Nb. }
  { cbn [w_set_maxt w_segmentSize]. rewrite Sb, Sa, Hsize. lia. }
  { cbn [w_set_maxt w_segmentSize]. rewrite Sb, Sa, Hsize. lia. }
  { cbn [w_set_maxt w_segmentSize]. rewrite Sb, Sa, Hsize. lia. }
  { cbn [w_set_maxt w_segmentSize]. rewrite Sb, Sa, Hsize. lia. }
  rewrite <- Eop2 in Ec.
  cbn [w_set_maxt w_segmentSize w_flushInterval] in Sc, Ic.
  (* the calls after it *)
  destruct (SegmentWAL_logs_tail dir _ _ _ ops2 wc _ Htc Nc) as (w1 & E1 & Ht1 & N1 & S1 & I1).
  { rewrite Sc, Sb, Sa, Hsize, len_app, len_entry_frame. change (len segment_header) with 8. lia. }
  { rewrite Sc, Sb, Sa, Hsize. lia. }
  rewrite <- app_assoc, <- Hf2 in Ht1.
  assert (Elogs : SegmentWAL_logs (op :: ops1 ++ op2 :: ops2) w0 = (w1, None)).
  { rewrite (SegmentWAL_logs_from w0 wa op _ Ea).
    rewrite (SegmentWAL_logs_app ops1 (op2 :: ops2) wa wb Eb).
    rewrite (SegmentWAL_logs_from wb wc op2 _ Ec). exact E1. }
  (* Close, and the files it leaves *)
  destruct (SegmentWAL_Close_tail dir _ _ _ w1 _ Ht1)
    as (w2 & ino & k & Ecl & Hwf2 & Hd2 & Hl2 & Hdata2 & _ & Hold2).
  fold name0 name1 in Hd2, Hl2.
  rewrite lookup_insert_eq in Hl2. injection Hl2 as <-.
  assert (Hdata0 : fs_data (w_fs w2) ino0 = c1) by (apply Hold2; apply lookup_singleton_eq).
  rewrite <- app_assoc in Hdata2.
  (* the log opened again *)
  destruct (OpenSegmentWAL_two (w_fs w2) dir fl' ino0 ino1 _ _ Hwf2 Hd2 Hdata0 Hdata2)
    as (w3 & Eop3 & Hwf3 & Hfiles3 & Hseg0 & Hseg1).
  destruct (wal_ops_deliveries mint (op :: ops1 ++ op2 :: ops2) Hwf) as (Hok & Hdec & Hdel).
  { change (op :: ops1 ++ op2 :: ops2) with ((op :: ops1) ++ op2 :: ops2).
    rewrite omap_app, wal_frames_app, len_app. lia. }
  change (op :: ops1 ++ op2 :: ops2) with ((op :: ops1) ++ op2 :: ops2) in Hok, Hdec, Hdel.
  rewrite (omap_app wal_op_entry) in Hok, Hdec, Hdel.
  destruct (walReader_Read_two mint w3 _ _ _ _ k Hwf3 Hfiles3 ltac:(lia) Hseg0 Hseg1 Hok Hdec)
    as (r' & Er).
  exists w1, w2, w3, r', k.
  split; [exact Elogs|]. split; [exact Ecl|].
  split.
  { unfold fs_content. rewrite Hd2. fold name0.
    rewrite lookup_insert_ne by exact Hne. rewrite lookup_singleton_eq, Hdata0. reflexivity. }
  split.
  { unfold fs_content. rewrite Hd2. fold name1. rewrite lookup_insert_eq, Hdata2. reflexivity. }
  split; [exact Eop3|]. rewrite Er, Hdel. reflexivity.
Qed.

Lemma SegmentWAL_replay_two_segments_witness :
  exists w1 w2 w3 r' k,
    SegmentWAL_logs example_ops
      (w_set_segmentSize (fst (OpenSegmentWAL fs_empty "wal" 0)) 80) = (w1, None)
    /\ SegmentWAL_Close w1 = (w2, None)
    /\ fs_content (w_fs w2) (path_Join "wal" (format_seq 0))
       = Some (segment_header ++ wal_frames (omap wal_op_entry (firstn 1 example_ops)))
    /\ fs_content (w_fs w2) (path_Join "wal" (format_seq 1))
       = Some (segment_header ++ wal_frames (omap wal_op_entry (skipn 1 example_ops)) ++ zeros k)
    /\ OpenSegmentWAL (w_fs w2) "wal" 5 = (w3, None)
    /\ walReader_Read (SegmentWAL_Reader w3 15)
       = (r',
          [ seriesf [{| rs_Ref := 1;
                        rs_Labels := [{| lbl_Name := "job"; lbl_Value := "api" |}] |}];
            samplesf [{| smpl_Ref := 1; smpl_T := 20; smpl_V := 8 |}];
            deletesf [{| stone_ref := 1;
                         stone_intervals := [{| itv_Mint := 0; itv_Maxt := 5 |}] |};
                      {| stone_ref := 1;
                         stone_intervals := [{| itv_Mint := 6; itv_Maxt := 9 |}] |}] ],
          None).
Proof.
  apply (SegmentWAL_replay_two_segments "wal" 0 5 15 80
           (op_LogSeries [{| rs_Ref := 1;
                             rs_Labels := [{| lbl_Name := "job"; lbl_Value := "api" |}] |}])
           []
           (op_LogSamples [{| smpl_Ref := 1; smpl_T := 10; smpl_V := 7 |};
                           {| smpl_Ref := 1; smpl_T := 20; smpl_V := 8 |}])
           (skipn 2 example_ops)).
  - repeat constructor; vm_compute; congruence.
  - eexists. reflexivity.
  - eexists. reflexivity.
  - vm_compute. discriminate.
  - vm_compute. discriminate.
  - vm_compute. reflexivity.
  - vm_compute. discriminate.
Defined.

